(** * Rules engine of the 2048 sliding-tile puzzle (src/lib/gameLogic.ts)

    A shallow embedding of the board model, the tile spawner, the four
    directional moves and the terminal-state detector, followed by the
    properties the specification states about them.

    Modelling conventions.
    - A JavaScript [number] that holds a tile value, a coordinate, an id or a
      score is an integer of [Z]; the modelled code only compares, adds and
      doubles such numbers.  Integers and doubles agree as long as no number
      passes [MAX_SAFE_INTEGER] (2^53 - 1): the theorems about sums, scores
      and doubled values assume that bound of their input and prove it of
      what the code computes.
    - Tiles whose coordinates are numbers of any kind (fractions, [NaN],
      infinities) are the [NumTile]s; [tilesToGridNum] is [tilesToGrid] on
      them, and it can raise.
    - [Math.random()] is a draw from a tape of rationals; its contract
      (a result in the half-open interval from 0 to 1) is a hypothesis of the
      theorems that need it, and the threshold 0.9 is the rational 9/10.
    - An access to a property of [undefined] raises a [TypeError]; fallible
      functions return a [Result].
    - The optional fields [isNew], [isMerged] and [mergedFrom] of [TileData]
      are never read or written by gameLogic.ts (the object spread carries
      them over untouched); the record keeps the fields the code works on. *)

From Stdlib Require Import ZArith List Bool Lia Permutation Sorted QArith Qround.
Import ListNotations.
Open Scope Z_scope.

(** ** Outcomes of fallible code *)

Inductive Result (A : Type) : Type :=
| Ok (a : A)
| TypeError.
Arguments Ok {A} a.
Arguments TypeError {A}.

Definition bind {A B : Type} (r : Result A) (f : A -> Result B) : Result B :=
  match r with
  | Ok a => f a
  | TypeError => TypeError
  end.

Notation "x <- c ;; k" := (bind c (fun x => k))
  (at level 61, c at next level, right associativity).

Fixpoint mapM {A B : Type} (f : A -> Result B) (l : list A) : Result (list B) :=
  match l with
  | [] => Ok []
  | a :: l' => b <- f a ;; bs <- mapM f l' ;; Ok (b :: bs)
  end.

(** ** Data model (src/types) *)

Record TileData : Type := mkTile {
  id : Z;
  value : Z;
  row : Z;
  col : Z;
  merged : option bool
}.

Definition Grid : Type := list (list Z).

Definition GRID_SIZE : Z := 4.

(** [for (let i = lo; i < hi; i++)] visits [range lo hi]. *)
Definition range (lo hi : Z) : list Z :=
  map (fun i => lo + Z.of_nat i) (seq 0 (Z.to_nat (hi - lo))).

(** ** Dense grids *)

Definition createEmptyGrid (size : Z) : Grid :=
  repeat (repeat 0 (Z.to_nat size)) (Z.to_nat size).

(** [a[i] = v] on an array: an index below the length overwrites, the index
    equal to the length extends the array by one.  (A larger index would
    leave holes; no loop of the modelled code writes there.) *)
Fixpoint arraySet {A : Type} (a : list A) (i : nat) (v : A) : list A :=
  match a, i with
  | [], O => [v]
  | [], S _ => []
  | _ :: a', O => v :: a'
  | x :: a', S i' => x :: arraySet a' i' v
  end.

(** [grid[r][c]], read inside the grid. *)
Definition cell (grid : Grid) (r c : Z) : Z :=
  nth (Z.to_nat c) (nth (Z.to_nat r) grid []) 0.

(** [grid[r][c] = v], written inside the grid. *)
Definition setCell (grid : Grid) (r c : Z) (v : Z) : Grid :=
  arraySet grid (Z.to_nat r) (arraySet (nth (Z.to_nat r) grid []) (Z.to_nat c) v).

Definition inGrid (size : Z) (tile : TileData) : bool :=
  (0 <=? row tile) && (row tile <? size) && (0 <=? col tile) && (col tile <? size).

(** The callback of [tiles.forEach] in [tilesToGrid], on a tile whose
    coordinates are integers ([writeNumTile] is the callback on any
    numbers). *)
Definition writeTile (size : Z) (grid : Grid) (tile : TileData) : Grid :=
  if inGrid size tile
  then setCell grid (row tile) (col tile) (value tile)
  else grid.

Definition tilesToGrid (tiles : list TileData) (size : Z) : Grid :=
  fold_left (writeTile size) tiles (createEmptyGrid size).

(** ** The ambient state: the id counter and the random source *)

Record World : Type := mkWorld {
  nextTileId : Z;
  tape : nat -> Q;
  cursor : nat
}.

Definition Math_random (w : World) : Q * World :=
  (tape w (cursor w),
   {| nextTileId := nextTileId w; tape := tape w; cursor := S (cursor w) |}).

Definition freshTileId (w : World) : Z * World :=
  (nextTileId w,
   {| nextTileId := nextTileId w + 1; tape := tape w; cursor := cursor w |}).

(** ** Tile spawner *)

Record CellPos : Type := mkCell { cellRow : Z; cellCol : Z }.

Record Spawn : Type := mkSpawn {
  tilesWithNew : list TileData;
  newTile : TileData
}.

Definition emptyInRow (grid : Grid) (r : Z) : list CellPos :=
  flat_map
    (fun c => if cell grid r c =? 0 then [mkCell r c] else [])
    (range 0 GRID_SIZE).

Definition emptyCellsOf (grid : Grid) : list CellPos :=
  let top := emptyInRow grid 0 in
  if (Z.of_nat (length top) =? 0)
  then flat_map (emptyInRow grid) (range 1 GRID_SIZE)
  else top.

(** [None] is the [null] of the source ("no space left"). *)
Definition addRandomTile (tiles : list TileData) (w : World)
  : Result (option Spawn * World) :=
  let grid := tilesToGrid tiles GRID_SIZE in
  let emptyCells := emptyCellsOf grid in
  if (Z.of_nat (length emptyCells) =? 0) then Ok (None, w)
  else
    let (u1, w1) := Math_random w in
    let randomIndex := Qfloor (u1 * inject_Z (Z.of_nat (length emptyCells))) in
    match (if randomIndex <? 0 then None
           else nth_error emptyCells (Z.to_nat randomIndex)) with
    | None => TypeError
    | Some pos =>
        let (u2, w2) := Math_random w1 in
        let value := if Qle_bool (9 # 10) u2 then 4 else 2 in
        let (newId, w3) := freshTileId w2 in
        let newTile :=
          {| id := newId; value := value;
             row := cellRow pos; col := cellCol pos; merged := None |} in
        Ok (Some {| tilesWithNew := tiles ++ [newTile]; newTile := newTile |}, w3)
    end.

(** ** Game initialisation *)

Definition initializeGame (w : World)
  : Result ((Grid * list TileData) * World) :=
  let grid := createEmptyGrid GRID_SIZE in
  let tiles := [] in
  r1 <- addRandomTile tiles w ;;
  let (tile1Result, w1) := r1 in
  let tiles :=
    match tile1Result with
    | Some s => tilesWithNew s
    | None => tiles
    end in
  r2 <- addRandomTile tiles w1 ;;
  let (tile2Result, w2) := r2 in
  let tiles :=
    match tile2Result with
    | Some s => tilesWithNew s
    | None => tiles
    end in
  Ok ((grid, tiles), w2).

(** ** Row engine on dense rows *)

Definition slideRowLeft (r : list Z) : list Z :=
  let filteredRow := filter (fun val => negb (val =? 0)) r in
  let newRow := repeat 0 (Z.to_nat GRID_SIZE) in
  fst (fold_left
         (fun (acc : list Z * nat) val =>
            let (newRow, index) := acc in
            (arraySet newRow index val, S index))
         filteredRow (newRow, O)).

(** [mergeRowLeft] is only called on the result of [slideRowLeft], which has
    at least [GRID_SIZE] entries, so the reads at [i] and [i + 1] stay inside
    the row.  The doubled entry and the running [scoreIncrease] are exact
    below [MAX_SAFE_INTEGER]. *)
Definition mergeRowLeft (r : list Z) : list Z * Z :=
  fold_left
    (fun (acc : list Z * Z) i =>
       let (mergedRow, scoreIncrease) := acc in
       let here := nth i mergedRow 0 in
       if negb (here =? 0) && (here =? nth (S i) mergedRow 0)
       then
         let mergedRow1 := arraySet mergedRow i (here * 2) in
         let scoreIncrease1 := scoreIncrease + nth i mergedRow1 0 in
         (arraySet mergedRow1 (S i) 0, scoreIncrease1)
       else acc)
    (seq 0 (Z.to_nat (GRID_SIZE - 1))) (r, 0).

Definition moveRowLeft (r : list Z) : list Z * Z :=
  let slidedOnce := slideRowLeft r in
  let (mergedRow, scoreIncrease) := mergeRowLeft slidedOnce in
  let finalRow := slideRowLeft mergedRow in
  (finalRow, scoreIncrease).

(** ** The id-keyed working map of a move

    [new Map(tiles.map(tile => [tile.id, { ...tile }]))] holds one mutable
    copy per id, in insertion order.  A copy is referred to by its key: the
    row under construction aliases the copies of the map, so a write through
    the row is a write to the map.  [delete] clears [live] and keeps the
    copy, which a row may still refer to; no key is set again after a
    delete. *)

Record Slot : Type := mkSlot {
  key : Z;
  obj : TileData;
  live : bool
}.

Definition TileMap : Type := list Slot.

Fixpoint mapSet (k : Z) (o : TileData) (m : TileMap) : TileMap :=
  match m with
  | [] => [mkSlot k o true]
  | s :: m' => if key s =? k then mkSlot k o true :: m' else s :: mapSet k o m'
  end.

Definition newMap (tiles : list TileData) : TileMap :=
  fold_left (fun m tile => mapSet (id tile) tile m) tiles [].

Fixpoint slotOf (k : Z) (m : TileMap) : option Slot :=
  match m with
  | [] => None
  | s :: m' => if key s =? k then Some s else slotOf k m'
  end.

(** [tilesById.get(k)]: a reference to the copy, or [undefined]. *)
Definition mapGet (k : Z) (m : TileMap) : option Z :=
  match slotOf k m with
  | Some s => if live s then Some k else None
  | None => None
  end.

(** Reading through a reference. *)
Definition load (ref : Z) (m : TileMap) : Result TileData :=
  match slotOf ref m with
  | Some s => Ok (obj s)
  | None => TypeError
  end.

(** Writing through a reference. *)
Fixpoint modify (ref : Z) (f : TileData -> TileData) (m : TileMap) : TileMap :=
  match m with
  | [] => []
  | s :: m' =>
      if key s =? ref then mkSlot (key s) (f (obj s)) (live s) :: m'
      else s :: modify ref f m'
  end.

Fixpoint mapDelete (k : Z) (m : TileMap) : TileMap :=
  match m with
  | [] => []
  | s :: m' =>
      if key s =? k then mkSlot (key s) (obj s) false :: m'
      else s :: mapDelete k m'
  end.

(** [Array.from(tilesById.values())] *)
Definition mapValues (m : TileMap) : list TileData :=
  map obj (filter live m).

(** ** [Array.prototype.sort] with a comparator: a stable sort *)

Fixpoint insertBy (cmp : TileData -> TileData -> Z) (x : TileData)
  (l : list TileData) : list TileData :=
  match l with
  | [] => [x]
  | y :: l' => if cmp x y <=? 0 then x :: l else y :: insertBy cmp x l'
  end.

Fixpoint sortBy (cmp : TileData -> TileData -> Z) (l : list TileData)
  : list TileData :=
  match l with
  | [] => []
  | x :: l' => insertBy cmp x (sortBy cmp l')
  end.

(** ** The directional move engine

    The four move functions of the source are one text up to the items
    gathered in [Axis]: the coordinate that selects a line, the coordinate
    that is rewritten, the sort comparator, the coordinate given to the
    [i]-th tile of the compacted line, and whether tiles of value 0 are
    skipped (the two vertical moves start their loop body with
    [if (currentTile.value === 0) continue]). *)

Record Axis : Type := mkAxis {
  lineOf : TileData -> Z;
  posOf : TileData -> Z;
  withPos : TileData -> Z -> TileData;
  comparator : TileData -> TileData -> Z;
  targetOf : Z -> Z;
  skipsZero : bool
}.

Definition setRow (tile : TileData) (r : Z) : TileData :=
  {| id := id tile; value := value tile; row := r; col := col tile;
     merged := merged tile |}.

Definition setCol (tile : TileData) (c : Z) : TileData :=
  {| id := id tile; value := value tile; row := row tile; col := c;
     merged := merged tile |}.

Definition mergeInto (mergedValue : Z) (tile : TileData) : TileData :=
  {| id := id tile; value := mergedValue; row := row tile; col := col tile;
     merged := Some true |}.

Definition leftAxis : Axis :=
  {| lineOf := row; posOf := col; withPos := setCol;
     comparator := fun a b => col a - col b;
     targetOf := fun i => i; skipsZero := false |}.

Definition rightAxis : Axis :=
  {| lineOf := row; posOf := col; withPos := setCol;
     comparator := fun a b => col b - col a;
     targetOf := fun i => GRID_SIZE - 1 - i; skipsZero := false |}.

Definition upAxis : Axis :=
  {| lineOf := col; posOf := row; withPos := setRow;
     comparator := fun a b => row a - row b;
     targetOf := fun i => i; skipsZero := true |}.

Definition downAxis : Axis :=
  {| lineOf := col; posOf := row; withPos := setRow;
     comparator := fun a b => row b - row a;
     targetOf := fun i => GRID_SIZE - 1 - i; skipsZero := true |}.

Record MoveResult : Type := mkMoveResult {
  updatedTiles : list TileData;
  scoreIncrease : Z;
  moved : bool
}.

(** The variables a move function updates across its loops. *)
Record MoveState : Type := mkMoveState {
  tilesById : TileMap;
  scoreAcc : Z;
  movedAcc : bool
}.

(** [newRow[newRow.length - 1]] *)
Definition lastOf (newRow : list Z) : option Z :=
  nth_error newRow (length newRow - 1).

Definition sameId (a : Z) (lastMergedTileId : option Z) : bool :=
  match lastMergedTileId with
  | Some b => a =? b
  | None => false
  end.

(** The walk over the sorted tiles of one line.  [value * 2] and the
    running [scoreIncrease] are exact below [MAX_SAFE_INTEGER]. *)
Fixpoint walk (ax : Axis) (currentTiles : list Z) (newRow : list Z)
  (lastMergedTileId : option Z) (st : MoveState)
  : Result (list Z * MoveState) :=
  match currentTiles with
  | [] => Ok (newRow, st)
  | ref :: rest =>
      currentTile <- load ref (tilesById st) ;;
      if skipsZero ax && (value currentTile =? 0)
      then walk ax rest newRow lastMergedTileId st
      else
        match lastOf newRow with
        | None => walk ax rest (newRow ++ [ref]) lastMergedTileId st
        | Some lastRef =>
            lastTile <- load lastRef (tilesById st) ;;
            if (value lastTile =? value currentTile)
               && negb (sameId (id lastTile) lastMergedTileId)
            then
              let mergedValue := value currentTile * 2 in
              let m1 := modify lastRef (mergeInto mergedValue) (tilesById st) in
              let m2 := mapDelete (id currentTile) m1 in
              walk ax rest newRow (Some (id lastTile))
                {| tilesById := m2;
                   scoreAcc := scoreAcc st + mergedValue;
                   movedAcc := true |}
            else walk ax rest (newRow ++ [ref]) lastMergedTileId st
        end
  end.

(** The loop that rewrites the coordinate of the [i]-th tile of the line. *)
Fixpoint place (ax : Axis) (newRow : list Z) (i : Z) (st : MoveState)
  : Result MoveState :=
  match newRow with
  | [] => Ok st
  | ref :: rest =>
      tile <- load ref (tilesById st) ;;
      if negb (posOf ax tile =? targetOf ax i)
      then
        place ax rest (i + 1)
          {| tilesById :=
               modify ref (fun t => withPos ax t (targetOf ax i)) (tilesById st);
             scoreAcc := scoreAcc st;
             movedAcc := true |}
      else place ax rest (i + 1) st
  end.

(** One iteration of the outer loop.  An [undefined] among the looked-up
    copies makes every path of the loop body read a property of it (in the
    walk, or at the latest in the placement loop), and nothing the caller
    can see is written before: the iteration raises. *)
Definition moveLine (ax : Axis) (tiles : list TileData) (k : Z)
  (st : MoveState) : Result MoveState :=
  currentTiles <-
    mapM (fun tile =>
            match mapGet (id tile) (tilesById st) with
            | Some ref => Ok ref
            | None => TypeError
            end)
         (sortBy (comparator ax)
            (filter (fun tile => lineOf ax tile =? k) tiles)) ;;
  r <- walk ax currentTiles [] None st ;;
  let (newRow, st1) := r in
  place ax newRow 0 st1.

Fixpoint moveLines (ax : Axis) (tiles : list TileData) (ks : list Z)
  (st : MoveState) : Result MoveState :=
  match ks with
  | [] => Ok st
  | k :: ks' => st1 <- moveLine ax tiles k st ;; moveLines ax tiles ks' st1
  end.

Definition moveAlong (ax : Axis) (tiles : list TileData) : Result MoveResult :=
  let st0 :=
    {| tilesById := newMap tiles; scoreAcc := 0; movedAcc := false |} in
  st <- moveLines ax tiles (range 0 GRID_SIZE) st0 ;;
  Ok {| updatedTiles := mapValues (tilesById st);
        scoreIncrease := scoreAcc st;
        moved := movedAcc st |}.

Definition moveLeft : list TileData -> Result MoveResult := moveAlong leftAxis.
Definition moveRight : list TileData -> Result MoveResult := moveAlong rightAxis.
Definition moveUp : list TileData -> Result MoveResult := moveAlong upAxis.
Definition moveDown : list TileData -> Result MoveResult := moveAlong downAxis.

(** ** Terminal-state detector *)

Definition checkAvailableMoves (tiles : list TileData) : Result bool :=
  if Z.of_nat (length tiles) <? GRID_SIZE * GRID_SIZE then Ok true
  else
    l <- moveLeft tiles ;;
    if moved l then Ok true
    else
      r <- moveRight tiles ;;
      if moved r then Ok true
      else
        u <- moveUp tiles ;;
        if moved u then Ok true
        else
          d <- moveDown tiles ;;
          if moved d then Ok true
          else Ok false.

(** ** Well-formed tile lists

    Distinct positions inside the board, positive power-of-two values, and
    (the data model's "unique identity") distinct ids. *)

Definition isPowerOfTwo (v : Z) : bool :=
  (0 <? v) && (2 ^ Z.log2 v =? v).

Fixpoint distinctBy {A : Type} (eqb : A -> A -> bool) (l : list A) : bool :=
  match l with
  | [] => true
  | x :: l' => negb (existsb (eqb x) l') && distinctBy eqb l'
  end.

Definition positionOf (tile : TileData) : Z * Z := (row tile, col tile).

Definition samePosition (p q : Z * Z) : bool :=
  (fst p =? fst q) && (snd p =? snd q).

Definition wellFormed (tiles : list TileData) : bool :=
  forallb (inGrid GRID_SIZE) tiles
  && forallb (fun tile => isPowerOfTwo (value tile)) tiles
  && distinctBy samePosition (map positionOf tiles)
  && distinctBy Z.eqb (map id tiles).

(** ** A list-level account of a move

    The same walk and placement on tile values instead of references into
    the working map.  The engine is shown to compute exactly this on every
    tile list with distinct ids and non-zero values ([moveAlong_spec]);
    the properties of a move are then read off these functions. *)

(** The walk with the line under construction kept as a stack (last pushed
    tile first); it returns the stack, the ids deleted from the map and the
    score gained. *)
Fixpoint mergeWalk (cur stack : list TileData) (lastMerged : option Z)
  : list TileData * list Z * Z :=
  match cur with
  | [] => (stack, [], 0)
  | t :: rest =>
      match stack with
      | [] => mergeWalk rest [t] lastMerged
      | l :: below =>
          if (value l =? value t) && negb (sameId (id l) lastMerged)
          then
            let '(out, gone, gained) :=
              mergeWalk rest (mergeInto (value t * 2) l :: below) (Some (id l)) in
            (out, id t :: gone, value t * 2 + gained)
          else mergeWalk rest (t :: stack) lastMerged
      end
  end.

Fixpoint placeAll (ax : Axis) (line : list TileData) (i : Z) : list TileData :=
  match line with
  | [] => []
  | t :: rest => withPos ax t (targetOf ax i) :: placeAll ax rest (i + 1)
  end.

Fixpoint misplaced (ax : Axis) (line : list TileData) (i : Z) : bool :=
  match line with
  | [] => false
  | t :: rest => negb (posOf ax t =? targetOf ax i) || misplaced ax rest (i + 1)
  end.

Definition lineTiles (ax : Axis) (tiles : list TileData) (k : Z) : list TileData :=
  sortBy (comparator ax) (filter (fun tile => lineOf ax tile =? k) tiles).

Definition lineWalk (ax : Axis) (tiles : list TileData) (k : Z)
  : list TileData * list Z * Z :=
  mergeWalk (lineTiles ax tiles k) [] None.

Definition lineKept (ax : Axis) (tiles : list TileData) (k : Z) : list TileData :=
  rev (fst (fst (lineWalk ax tiles k))).

Definition lineGone (ax : Axis) (tiles : list TileData) (k : Z) : list Z :=
  snd (fst (lineWalk ax tiles k)).

Definition lineScore (ax : Axis) (tiles : list TileData) (k : Z) : Z :=
  snd (lineWalk ax tiles k).

Definition lineOut (ax : Axis) (tiles : list TileData) (k : Z) : list TileData :=
  placeAll ax (lineKept ax tiles k) 0.

Definition lineMoved (ax : Axis) (tiles : list TileData) (k : Z) : bool :=
  negb (Z.of_nat (length (lineGone ax tiles k)) =? 0)
  || misplaced ax (lineKept ax tiles k) 0.

(** What becomes of an input tile: its copy as the move leaves it, or
    nothing when it was merged away. *)
Definition fate (ax : Axis) (tiles : list TileData) (t : TileData)
  : list TileData :=
  match find (fun t' => id t' =? id t) (lineOut ax tiles (lineOf ax t)) with
  | Some t' => [t']
  | None => []
  end.

Definition movedTiles (ax : Axis) (tiles : list TileData) : list TileData :=
  flat_map (fate ax tiles) tiles.

Definition sumZ (l : list Z) : Z := fold_right Z.add 0 l.

Definition totalValue (tiles : list TileData) : Z := sumZ (map value tiles).

Definition movedScore (ax : Axis) (tiles : list TileData) : Z :=
  sumZ (map (lineScore ax tiles) (range 0 GRID_SIZE)).

Definition movedFlag (ax : Axis) (tiles : list TileData) : bool :=
  existsb (lineMoved ax tiles) (range 0 GRID_SIZE).

(** The laws the four axes share: [sign] is 1 when the line is sorted by
    ascending coordinate and -1 when descending. *)
Record AxisLaws (ax : Axis) (sign : Z) : Prop := mkAxisLaws {
  law_sign : sign = 1 \/ sign = -1;
  law_cmp : forall a b, comparator ax a b = sign * (posOf ax a - posOf ax b);
  law_target : forall i j, sign * (targetOf ax i - targetOf ax j) = i - j;
  law_pos_with : forall t p, posOf ax (withPos ax t p) = p;
  law_line_with : forall t p, lineOf ax (withPos ax t p) = lineOf ax t;
  law_id_with : forall t p, id (withPos ax t p) = id t;
  law_value_with : forall t p, value (withPos ax t p) = value t;
  law_merged_with : forall t p, merged (withPos ax t p) = merged t;
  law_with_same : forall t, withPos ax t (posOf ax t) = t;
  law_pos_merge : forall v t, posOf ax (mergeInto v t) = posOf ax t;
  law_line_merge : forall v t, lineOf ax (mergeInto v t) = lineOf ax t;
  law_position : forall a b,
      positionOf a = positionOf b <->
      lineOf ax a = lineOf ax b /\ posOf ax a = posOf ax b;
  law_inGrid : forall t,
      inGrid GRID_SIZE t = true <->
      (0 <= lineOf ax t < GRID_SIZE /\ 0 <= posOf ax t < GRID_SIZE)
}.

(** ** Reading the working map *)

Definition slotFor (t : TileData) : Slot := mkSlot (id t) t true.

(** The map holds tile [t]: the live copy under [id t] is [t]. *)
Definition holds (m : TileMap) (t : TileData) : Prop :=
  slotOf (id t) m = Some (slotFor t).

(** The values of the map, read off its keys. *)
Definition valueAt (m : TileMap) (k : Z) : list TileData :=
  match slotOf k m with
  | Some s => if live s then [obj s] else []
  | None => []
  end.

(** The copy under key [i] was deleted from the map. *)
Definition dead (m : TileMap) (i : Z) : Prop :=
  exists o, slotOf i m = Some (mkSlot i o false).

(** The state of the working map once the lines [done] are processed. *)
Definition lineInv (ax : Axis) (tiles : list TileData) (done : list Z)
  (m : TileMap) : Prop :=
  map key m = map id tiles
  /\ (forall t, In t tiles -> ~ In (lineOf ax t) done -> holds m t)
  /\ (forall k, In k done ->
      (forall t, In t (lineOut ax tiles k) -> holds m t)
      /\ (forall i, In i (lineGone ax tiles k) -> dead m i)).

(** ** Vocabulary of the properties *)

(** [x] was produced by a merge: it carries the id of a tile of [input] and
    twice that tile's value. *)
Definition doubled (input : list TileData) (x : TileData) : Prop :=
  exists s, In s input /\ id s = id x /\ value x = 2 * value s.

(** [y] comes right after [x] in the list. *)
Definition nextTo (x y : TileData) (l : list TileData) : Prop :=
  exists l1 l2, l = l1 ++ x :: y :: l2.

(** Neighbours of equal value in a line under construction involve a tile
    produced by a merge. *)
Definition neighboursOK (input line : list TileData) : Prop :=
  forall x y, nextTo x y line -> value x = value y ->
              doubled input x \/ doubled input y.

(** [a] is sorted strictly before [b] by the comparator of the axis. *)
Definition before (ax : Axis) (a b : TileData) : Prop :=
  comparator ax a b < 0.

(** Every tile of [tiles] is in [out] with its id, value and position. *)
Definition keepsAll (tiles out : list TileData) : Prop :=
  forall t, In t tiles ->
  exists a, In a out /\ id a = id t /\ value a = value t
            /\ positionOf a = positionOf t.

(** No two tiles of equal value lie next to each other along the axis. *)
Definition quiet (ax : Axis) (tiles : list TileData) : Prop :=
  forall a b, In a tiles -> In b tiles ->
              lineOf ax a = lineOf ax b -> posOf ax b = posOf ax a + 1 ->
              value a <> value b.

(** A grid of [size] rows of [size] cells. *)
Definition wellShaped (size : nat) (grid : Grid) : Prop :=
  length grid = size /\ forall r, In r grid -> length r = size.

(** The contract of [Math.random()]. *)
Definition randomOK (w : World) : Prop :=
  forall n, (0 <= tape w n /\ tape w n < 1)%Q.

Definition onBoard (r c : Z) : Prop :=
  0 <= r < GRID_SIZE /\ 0 <= c < GRID_SIZE.

(** The dense projection reads 0 ("empty") at the cell. *)
Definition emptyCell (tiles : list TileData) (r c : Z) : Prop :=
  cell (tilesToGrid tiles GRID_SIZE) r c = 0.

(** The tile the spawner makes at a cell. *)
Definition spawned (w : World) (v : Z) (pos : CellPos) : TileData :=
  {| id := nextTileId w; value := v;
     row := cellRow pos; col := cellCol pos; merged := None |}.

(** The ambient state after a spawn: two draws and one id consumed. *)
Definition afterSpawn (w : World) : World :=
  {| nextTileId := nextTileId w + 1; tape := tape w;
     cursor := S (S (cursor w)) |}.

(** ** The caller's view (App.tsx, [handleMove]) *)

Inductive Direction : Type := Left | Right | Up | Down.

(** The [switch (direction)] of [handleMove]. *)
Definition applyMove (direction : Direction) (tiles : list TileData)
  : Result MoveResult :=
  match direction with
  | Left => moveLeft tiles
  | Right => moveRight tiles
  | Up => moveUp tiles
  | Down => moveDown tiles
  end.

(** [const canMove = checkAvailableMoves(finalTiles);
     const gameOver = !canMove;] *)
Definition isGameOver (tiles : list TileData) : Result bool :=
  canMove <- checkAvailableMoves tiles ;;
  Ok (negb canMove).

Definition axisOf (direction : Direction) : Axis :=
  match direction with
  | Left => leftAxis
  | Right => rightAxis
  | Up => upAxis
  | Down => downAxis
  end.

(** The sixteen positions of the board. *)
Definition allCells : list (Z * Z) :=
  flat_map (fun r => map (pair r) (range 0 GRID_SIZE)) (range 0 GRID_SIZE).

(** ** Sample boards *)

Definition tile (i v r c : Z) : TileData :=
  {| id := i; value := v; row := r; col := c; merged := None |}.

(** A row reading [2, 2, 4, 0]. *)
Definition row224 : list TileData :=
  [tile 1 2 0 0; tile 2 2 0 1; tile 3 4 0 2].


(** A board with a few tiles on every row. *)
Definition sampleBoard : list TileData :=
  [tile 1 2 0 1; tile 2 4 0 3; tile 3 2 1 0; tile 4 2 1 1;
   tile 5 8 2 2; tile 6 4 3 0; tile 7 4 3 2; tile 8 16 3 3].

(** A full board on which no move changes anything. *)
Definition deadBoard : list TileData :=
  [tile 1 2 0 0; tile 2 4 0 1; tile 3 2 0 2; tile 4 4 0 3;
   tile 5 4 1 0; tile 6 2 1 1; tile 7 4 1 2; tile 8 2 1 3;
   tile 9 2 2 0; tile 10 4 2 1; tile 11 2 2 2; tile 12 4 2 3;
   tile 13 4 3 0; tile 14 2 3 1; tile 15 4 3 2; tile 16 2 3 3].

(** A board with the single free cell (2, 1). *)
Definition almostFull : list TileData :=
  [tile 1 2 0 0; tile 2 4 0 1; tile 3 2 0 2; tile 4 4 0 3;
   tile 5 4 1 0; tile 6 2 1 1; tile 7 4 1 2; tile 8 2 1 3;
   tile 9 2 2 0; tile 11 2 2 2; tile 12 4 2 3;
   tile 13 4 3 0; tile 14 2 3 1; tile 15 4 3 2; tile 16 2 3 3].

(** A world whose draws are all one half. *)
Definition sampleWorld : World :=
  {| nextTileId := 100; tape := fun _ => (1 # 2)%Q; cursor := 0 |}.

(** ** Numbers that JavaScript holds exactly

    [Number.MAX_SAFE_INTEGER].  Every integer up to this bound is a double,
    and a sum or a double of non-negative integers that stays within it is
    computed without rounding.  The theorems about exact totals ask for a
    total tile value within the bound: every number a move then computes (a
    doubled value, a partial score) is a non-negative integer no larger
    than that total, so the integer arithmetic of the embedding is the
    arithmetic of the program. *)

Definition MAX_SAFE_INTEGER : Z := 2 ^ 53 - 1.

(** ** [tilesToGrid] on tiles whose coordinates are any numbers

    A JavaScript number that is not an integer: a finite number is a
    rational (every finite double is one), and there are [NaN] and the two
    infinities. *)

Inductive JsNumber : Type :=
| Finite (q : Q)
| NaN
| Infinity (negative : bool).

Record NumTile : Type := mkNumTile {
  numId : Z;
  numValue : Z;
  numRow : JsNumber;
  numCol : JsNumber
}.

(** [x >= 0 && x < size]; a comparison with [NaN] is false. *)
Definition withinGrid (size : Z) (x : JsNumber) : bool :=
  match x with
  | Finite q => Qle_bool 0 q && negb (Qle_bool (inject_Z size) q)
  | NaN => false
  | Infinity _ => false
  end.

(** The number is the index of an array element. *)
Definition isIndex (x : JsNumber) : bool :=
  match x with
  | Finite q => Qle_bool 0 q && Qeq_bool q (inject_Z (Qfloor q))
  | NaN => false
  | Infinity _ => false
  end.

Definition indexOf (x : JsNumber) : Z :=
  match x with
  | Finite q => Qfloor q
  | NaN => 0
  | Infinity _ => 0
  end.

(** The callback of [tiles.forEach] in [tilesToGrid], on any numbers.  Past
    the guard, [grid[tile.row]] is a row only when [tile.row] is an index;
    otherwise it is [undefined] and the write raises.  On a row, a column
    that is no index names a property of the row that is no cell: the cells
    stay as they are. *)
Definition writeNumTile (size : Z) (grid : Grid) (tile : NumTile)
  : Result Grid :=
  if withinGrid size (numRow tile) && withinGrid size (numCol tile)
  then
    if isIndex (numRow tile)
    then
      if isIndex (numCol tile)
      then Ok (setCell grid (indexOf (numRow tile)) (indexOf (numCol tile))
                 (numValue tile))
      else Ok grid
    else TypeError
  else Ok grid.

(** [forEach] and [for] loops whose body may raise. *)
Fixpoint foldM {A B : Type} (f : A -> B -> Result A) (l : list B) (a : A)
  : Result A :=
  match l with
  | [] => Ok a
  | b :: l' => a' <- f a b ;; foldM f l' a'
  end.

Definition tilesToGridNum (tiles : list NumTile) (size : Z) : Result Grid :=
  foldM (writeNumTile size) tiles (createEmptyGrid size).

(** A tile with integer coordinates, among the tiles with any numbers. *)
Definition num (t : TileData) : NumTile :=
  {| numId := id t; numValue := value t;
     numRow := Finite (inject_Z (row t));
     numCol := Finite (inject_Z (col t)) |}.

(** A tile in the middle of the left column, half way between two rows. *)
Definition betweenRows : NumTile :=
  {| numId := 1; numValue := 2; numRow := Finite (3 # 2);
     numCol := Finite 0 |}.

(** ** Vocabulary of the further properties *)

(** The id of [t] is among the ids of [out]. *)
Definition survives (out : list TileData) (t : TileData) : bool :=
  existsb (Z.eqb (id t)) (map id out).

(** The tiles of [tiles] whose id is absent from [out]. *)
Definition mergedAway (tiles out : list TileData) : list TileData :=
  filter (fun t => negb (survives out t)) tiles.

(** Coordinate [p] comes strictly before coordinate [q] on the way from the
    target edge inward ([sign] is 1 for the left and up moves, -1 for the
    right and down moves). *)
Definition nearer (sign : Z) (p q : Z) : Prop := sign * (p - q) < 0.

Definition signOf (direction : Direction) : Z :=
  match direction with
  | Left | Up => 1
  | Right | Down => -1
  end.

(** ** Reading a dense grid back into tiles ([gridToTiles]) *)

(** A tile as [gridToTiles] pushes it.  Its [value] is whatever
    [grid[r][c]] read: a number, or [undefined] ([None]) past the end of a
    short row. *)
Record RawTile : Type := mkRaw {
  rawId : Z;
  rawValue : option Z;
  rawRow : Z;
  rawCol : Z
}.

(** [grid[r][c]]: a missing row is [undefined] and reading its property
    raises; a missing cell reads [undefined]. *)
Definition readCell (grid : Grid) (r c : Z) : Result (option Z) :=
  match nth_error grid (Z.to_nat r) with
  | None => TypeError
  | Some line => Ok (nth_error line (Z.to_nat c))
  end.

(** [value !== 0] *)
Definition notZero (value : option Z) : bool :=
  match value with
  | Some v => negb (v =? 0)
  | None => true
  end.

(** The body of the inner loop: the state is the array [tiles] and
    [idCounter]. *)
Definition readInto (grid : Grid) (r : Z) (st : list RawTile * Z) (c : Z)
  : Result (list RawTile * Z) :=
  let (tiles, idCounter) := st in
  value <- readCell grid r c ;;
  if notZero value
  then Ok (tiles ++ [mkRaw idCounter value r c], idCounter + 1)
  else Ok st.

(** [now] is the reading of [Date.now()] that seeds [idCounter]. *)
Definition gridToTiles (now : Z) (grid : Grid) : Result (list RawTile) :=
  st <- foldM (fun st r => foldM (readInto grid r) (range 0 GRID_SIZE) st)
          (range 0 GRID_SIZE) ([], now) ;;
  Ok (fst st).

(** The tiles the two loops make of the listed cells of a grid that has
    them all, numbered from [idCounter]. *)
Fixpoint tilesAt (grid : Grid) (idCounter : Z) (cells : list (Z * Z))
  : list TileData :=
  match cells with
  | [] => []
  | (r, c) :: cells' =>
      if cell grid r c =? 0 then tilesAt grid idCounter cells'
      else {| id := idCounter; value := cell grid r c;
              row := r; col := c; merged := None |}
           :: tilesAt grid (idCounter + 1) cells'
  end.

(** A tile with a number for value, as a raw tile. *)
Definition raw (t : TileData) : RawTile :=
  {| rawId := id t; rawValue := Some (value t);
     rawRow := row t; rawCol := col t |}.

(** What a reader of the board sees of a tile: its place and its value. *)
Definition face (t : TileData) : Z * Z * Z := (row t, col t, value t).

(** The cells of the board in the order of the two loops. *)
Definition rowMajor (p q : Z * Z) : Prop :=
  fst p < fst q \/ (fst p = fst q /\ snd p < snd q).

(** ** The application (App.tsx) *)

(** A JavaScript array of numbers with possible holes: [None] is an index
    below the length that was never written ([undefined] when read). *)
Definition SparseGrid : Type := list (list (option Z)).

Definition dense (grid : Grid) : SparseGrid := map (map Some) grid.

(** [a[i] = v] for any index [i >= 0]: writing past the length leaves
    holes in between. *)
Fixpoint sparseSet (a : list (option Z)) (i : nat) (v : Z) : list (option Z) :=
  match a, i with
  | [], O => [Some v]
  | [], S i' => None :: sparseSet [] i' v
  | _ :: a', O => Some v :: a'
  | x :: a', S i' => x :: sparseSet a' i' v
  end.

(** The ids handed out so far lie below the counter. *)
Definition freshIds (w : World) (tiles : list TileData) : Prop :=
  forall t, In t tiles -> id t < nextTileId w.

Module App.

Record GameState : Type := mkGameState {
  grid : SparseGrid;
  tiles : list TileData;
  score : Z;
  bestScore : Z;
  isGameOver : bool
}.

(** The two loops that fill [derivedGrid] with zeros. *)
Definition zeroGrid : SparseGrid :=
  map (fun _ => map (fun _ => Some 0) (range 0 4)) (range 0 4).

(** [derivedGrid[tile.row][tile.col] = tile.value], with no guard.
    Off the four rows [derivedGrid[tile.row]] is [undefined] and the write
    raises.  A negative column adds a property that is no element of the
    row; a column past the end extends the row. *)
Definition deriveTile (derivedGrid : SparseGrid) (tile : TileData)
  : Result SparseGrid :=
  if row tile <? 0 then TypeError
  else
    match nth_error derivedGrid (Z.to_nat (row tile)) with
    | None => TypeError
    | Some line =>
        if col tile <? 0 then Ok derivedGrid
        else Ok (arraySet derivedGrid (Z.to_nat (row tile))
                   (sparseSet line (Z.to_nat (col tile)) (value tile)))
    end.

(** [memoizedHandleMove]; the state it returns is the one handed to
    [updateGameState], the input state when it returns early. *)
Definition handleMove (direction : Direction) (gameState : GameState)
  (w : World) : Result (GameState * World) :=
  if isGameOver gameState then Ok (gameState, w)
  else
    result <- applyMove direction (tiles gameState) ;;
    if moved result then
      let newScore := score gameState + scoreIncrease result in
      let newBestScore := Z.max newScore (bestScore gameState) in
      r <- addRandomTile (updatedTiles result) w ;;
      let (addResult, w1) := r in
      final <- match addResult with
               | Some s =>
                   let finalTiles := tilesWithNew s in
                   derivedGrid <- foldM deriveTile finalTiles zeroGrid ;;
                   Ok (finalTiles, derivedGrid)
               | None => Ok (updatedTiles result, grid gameState)
               end ;;
      let (finalTiles, finalGrid) := final in
      canMove <- checkAvailableMoves finalTiles ;;
      let gameOver := negb canMove in
      Ok ({| grid := finalGrid; tiles := finalTiles; score := newScore;
             bestScore := newBestScore; isGameOver := gameOver |}, w1)
    else Ok (gameState, w).

(** The initial value of [useState]. *)
Definition newGame (w : World) : Result (GameState * World) :=
  r <- initializeGame w ;;
  let (board, w') := r in
  Ok ({| grid := dense (fst board); tiles := snd board; score := 0;
         bestScore := 0; isGameOver := false |}, w').

(** [handleReset]; [clearGameState] only touches the browser's storage. *)
Definition handleReset (gameState : GameState) (w : World)
  : Result (GameState * World) :=
  r <- initializeGame w ;;
  let (board, w') := r in
  Ok ({| grid := dense (fst board); tiles := snd board; score := 0;
         bestScore := bestScore gameState; isGameOver := false |}, w').

(** The requests of the player. *)
Inductive Request : Type :=
| Move (direction : Direction)
| Reset.

Definition handle (st : GameState * World) (request : Request)
  : Result (GameState * World) :=
  match request with
  | Move direction => handleMove direction (fst st) (snd st)
  | Reset => handleReset (fst st) (snd st)
  end.

(** [loadedBestScore ?? 0] *)
Definition orZero (loadedBestScore : option Z) : Z :=
  match loadedBestScore with
  | Some best => best
  | None => 0
  end.

(** The effect that runs once, when the storage hook reports [isLoaded]:
    [loadedState] and [loadedBestScore] are what the hook read from the
    browser's storage.  A stored state replaces the current one. *)
Definition mount (loadedState : option GameState)
  (loadedBestScore : option Z) (prevState : GameState) : GameState :=
  match loadedState with
  | Some st =>
      {| grid := grid st; tiles := tiles st; score := score st;
         bestScore := orZero loadedBestScore; isGameOver := isGameOver st |}
  | None =>
      {| grid := grid prevState; tiles := tiles prevState;
         score := score prevState; bestScore := orZero loadedBestScore;
         isGameOver := isGameOver prevState |}
  end.

(** A session: the initial state, the requests handled before the load
    effect has run (none, as a rule), the effect, and the requests handled
    after it. *)
Definition play (before : list Request) (loadedState : option GameState)
  (loadedBestScore : option Z) (after : list Request) (w : World)
  : Result (GameState * World) :=
  st <- newGame w ;;
  st1 <- foldM handle before st ;;
  foldM handle after (mount loadedState loadedBestScore (fst st1), snd st1).

(** Ids that the counter does not reach in its next [n] steps. *)
Definition clearIds (n : Z) (w : World) (tiles : list TileData) : Prop :=
  forall t, In t tiles -> id t < nextTileId w \/ nextTileId w + n <= id t.

(** What holds of the state with [n] requests still to come: the numbers
    are small enough for the arithmetic of the code to stay exact. *)
Definition sound (n : Z) (gameState : GameState) (w : World) : Prop :=
  wellFormed (tiles gameState) = true
  /\ clearIds (2 * n) w (tiles gameState)
  /\ totalValue (tiles gameState) + 8 * n <= 2 ^ 24
  /\ 0 <= score gameState
  /\ score gameState + n * 2 ^ 24 <= MAX_SAFE_INTEGER
  /\ 0 <= bestScore gameState
  /\ 0 <= nextTileId w
  /\ nextTileId w + 2 * n <= MAX_SAFE_INTEGER.

(** What holds of a state that the application has computed: the game-over
    flag is the negation of what [checkAvailableMoves] says, and the grid
    is the dense projection of the tile list, or the empty grid of
    [initializeGame] beside its two tiles. *)
Definition settled (gameState : GameState) : Prop :=
  checkAvailableMoves (tiles gameState) = Ok (negb (isGameOver gameState))
  /\ (grid gameState = dense (tilesToGrid (tiles gameState) GRID_SIZE)
      \/ (grid gameState = dense (createEmptyGrid GRID_SIZE)
          /\ length (tiles gameState) = 2%nat /\ score gameState = 0)).

End App.

(** A state of the application holding [sampleBoard]. *)
Definition sampleState : App.GameState :=
  {| App.grid := dense (tilesToGrid sampleBoard GRID_SIZE);
     App.tiles := sampleBoard; App.score := 0; App.bestScore := 0;
     App.isGameOver := false |}.

(** A row of six entries, three of them not zero. *)
Definition sampleRow : list Z := [0; 2; 0; 2; 4; 0].

(** ** Symmetries of the board *)

(** The tile reflected left to right. *)
Definition mirror (t : TileData) : TileData :=
  setCol t (GRID_SIZE - 1 - col t).

(** The tile reflected top to bottom. *)
Definition flip (t : TileData) : TileData :=
  setRow t (GRID_SIZE - 1 - row t).

(** The tile reflected in the main diagonal. *)
Definition transpose (t : TileData) : TileData :=
  {| id := id t; value := value t; row := col t; col := row t;
     merged := merged t |}.

(** A move result with every returned tile transformed. *)
Definition mapResult (f : TileData -> TileData) (res : MoveResult)
  : MoveResult :=
  {| updatedTiles := map f (updatedTiles res);
     scoreIncrease := scoreIncrease res;
     moved := moved res |}.

(** A list that is no board: two tiles on one cell and one tile off the
    board to the right, all in row 0. *)
Definition looseRow : list TileData :=
  [tile 1 2 0 0; tile 2 2 0 0; tile 3 4 0 9].

(** The dense grid reflected left to right, and reflected in the main
    diagonal. *)
Definition mirrorGrid (grid : Grid) : Grid := map (@rev Z) grid.

Definition transposeGrid (grid : Grid) : Grid :=
  map (fun c => map (fun r => cell grid r c) (range 0 GRID_SIZE))
    (range 0 GRID_SIZE).

(** [moveRowLeft] on a row read from the right. *)
Definition moveRowRight (r : list Z) : list Z * Z :=
  let (movedRow, scoreIncrease) := moveRowLeft (rev r) in
  (rev movedRow, scoreIncrease).

(** * Proofs *)

(** ** The four axes *)

Ltac axis_laws :=
  constructor; intros;
  cbn [lineOf posOf withPos comparator targetOf skipsZero leftAxis rightAxis
       upAxis downAxis row col id value merged setRow setCol mergeInto] in *;
  unfold inGrid, positionOf, GRID_SIZE in *;
  try (split; [intros [= ? ?]; now split|intros [? ?]; now f_equal]);
  try match goal with
      | |- _ = ?x => is_var x; destruct x; reflexivity
      end;
  try reflexivity; try lia.

Lemma leftAxis_laws : AxisLaws leftAxis 1.
Proof. axis_laws. Qed.

Lemma rightAxis_laws : AxisLaws rightAxis (-1).
Proof. axis_laws. Qed.

Lemma upAxis_laws : AxisLaws upAxis 1.
Proof. axis_laws. Qed.

Lemma downAxis_laws : AxisLaws downAxis (-1).
Proof. axis_laws. Qed.

(** ** The working map *)

Lemma flat_map_ext_in' {A B} (f g : A -> list B) l :
  (forall a, In a l -> f a = g a) -> flat_map f l = flat_map g l.
Proof.
  induction l as [|a l IH]; simpl; intros H; [reflexivity|].
  rewrite H by now left. rewrite IH; [reflexivity|]. intros; apply H; now right.
Qed.


Lemma slotOf_key k m s : slotOf k m = Some s -> key s = k.
Proof.
  induction m as [|s0 m IH]; simpl; [discriminate|].
  destruct (key s0 =? k) eqn:E; [|exact IH].
  intros H; injection H as <-. now apply Z.eqb_eq.
Qed.

Lemma slotOf_modify_same k f m s :
  slotOf k m = Some s ->
  slotOf k (modify k f m) = Some (mkSlot (key s) (f (obj s)) (live s)).
Proof.
  induction m as [|s0 m IH]; simpl; [discriminate|].
  destruct (key s0 =? k) eqn:E; simpl; rewrite E.
  - intros H; injection H as <-. reflexivity.
  - exact IH.
Qed.

Lemma slotOf_modify_other k r f m :
  k <> r -> slotOf k (modify r f m) = slotOf k m.
Proof.
  intros Hne. induction m as [|s0 m IH]; simpl; [reflexivity|].
  destruct (key s0 =? r) eqn:E; simpl.
  - apply Z.eqb_eq in E. destruct (key s0 =? k) eqn:E'; [|reflexivity].
    apply Z.eqb_eq in E'. lia.
  - now rewrite IH.
Qed.

Lemma slotOf_delete_same k m s :
  slotOf k m = Some s ->
  slotOf k (mapDelete k m) = Some (mkSlot (key s) (obj s) false).
Proof.
  induction m as [|s0 m IH]; simpl; [discriminate|].
  destruct (key s0 =? k) eqn:E; simpl; rewrite E.
  - intros H; injection H as <-. reflexivity.
  - exact IH.
Qed.

Lemma slotOf_delete_other k r m :
  k <> r -> slotOf k (mapDelete r m) = slotOf k m.
Proof.
  intros Hne. induction m as [|s0 m IH]; simpl; [reflexivity|].
  destruct (key s0 =? r) eqn:E; simpl.
  - apply Z.eqb_eq in E. destruct (key s0 =? k) eqn:E'; [|reflexivity].
    apply Z.eqb_eq in E'. lia.
  - now rewrite IH.
Qed.

Lemma keys_modify r f m : map key (modify r f m) = map key m.
Proof.
  induction m as [|s0 m IH]; simpl; [reflexivity|].
  destruct (key s0 =? r); simpl; [reflexivity|now rewrite IH].
Qed.

Lemma keys_delete r m : map key (mapDelete r m) = map key m.
Proof.
  induction m as [|s0 m IH]; simpl; [reflexivity|].
  destruct (key s0 =? r); simpl; [reflexivity|now rewrite IH].
Qed.

Lemma slotOf_none k m : ~ In k (map key m) -> slotOf k m = None.
Proof.
  induction m as [|s0 m IH]; simpl; [reflexivity|].
  intros H. destruct (key s0 =? k) eqn:E.
  - apply Z.eqb_eq in E. tauto.
  - apply IH. tauto.
Qed.

Lemma mapSet_fresh k o m :
  ~ In k (map key m) -> mapSet k o m = m ++ [mkSlot k o true].
Proof.
  induction m as [|s0 m IH]; simpl; [reflexivity|].
  intros H. destruct (key s0 =? k) eqn:E.
  - apply Z.eqb_eq in E. tauto.
  - rewrite IH by tauto. reflexivity.
Qed.

Lemma newMap_from tiles : forall m,
  NoDup (map key m ++ map id tiles) ->
  fold_left (fun m tile => mapSet (id tile) tile m) tiles m
  = m ++ map slotFor tiles.
Proof.
  induction tiles as [|t tiles IH]; intros m Hnd; simpl.
  - now rewrite app_nil_r.
  - simpl in Hnd. rewrite mapSet_fresh.
    + rewrite IH.
      * rewrite <- app_assoc. reflexivity.
      * rewrite map_app. simpl. rewrite <- app_assoc. exact Hnd.
    + apply NoDup_remove_2 in Hnd. intros Hin. apply Hnd.
      apply in_or_app. now left.
Qed.

Lemma newMap_distinct tiles :
  NoDup (map id tiles) -> newMap tiles = map slotFor tiles.
Proof.
  intros H. unfold newMap. now rewrite newMap_from.
Qed.

Lemma keys_slotFor tiles : map key (map slotFor tiles) = map id tiles.
Proof. rewrite map_map. reflexivity. Qed.

Lemma holds_slotFor tiles t :
  NoDup (map id tiles) -> In t tiles -> holds (map slotFor tiles) t.
Proof.
  unfold holds. induction tiles as [|t0 tiles IH]; simpl; [tauto|].
  intros Hnd [->|Hin].
  - now rewrite Z.eqb_refl.
  - inversion Hnd as [|? ? Hn Hnd']; subst.
    destruct (id t0 =? id t) eqn:E.
    + apply Z.eqb_eq in E. exfalso. apply Hn. rewrite E. now apply in_map.
    + now apply IH.
Qed.

Lemma mapValues_keys m :
  NoDup (map key m) -> mapValues m = flat_map (valueAt m) (map key m).
Proof.
  unfold mapValues. induction m as [|s m IH]; simpl; [reflexivity|].
  intros Hnd. inversion Hnd as [|? ? Hn Hnd']; subst.
  unfold valueAt at 1. simpl. rewrite Z.eqb_refl.
  assert (E : flat_map (valueAt (s :: m)) (map key m)
              = flat_map (valueAt m) (map key m)).
  { apply flat_map_ext_in'. intros k Hk. unfold valueAt. simpl.
    destruct (key s =? k) eqn:E; [|reflexivity].
    apply Z.eqb_eq in E. subst. tauto. }
  rewrite E, <- IH by assumption.
  destruct (live s); reflexivity.
Qed.


(** ** The walk over one line computes [mergeWalk] *)

Lemma lastOf_nil : lastOf [] = None.
Proof. reflexivity. Qed.

Lemma lastOf_snoc xs x : lastOf (xs ++ [x]) = Some x.
Proof.
  unfold lastOf. rewrite length_app. simpl.
  replace (length xs + 1 - 1)%nat with (length xs) by lia.
  rewrite nth_error_app2 by lia. now rewrite Nat.sub_diag.
Qed.

Lemma load_holds m t : holds m t -> load (id t) m = Ok t.
Proof. unfold holds, load. now intros ->. Qed.

Lemma holds_modify_other m t r f :
  id t <> r -> holds m t -> holds (modify r f m) t.
Proof. unfold holds. intros Hne H. now rewrite slotOf_modify_other. Qed.

Lemma holds_delete_other m t r :
  id t <> r -> holds m t -> holds (mapDelete r m) t.
Proof. unfold holds. intros Hne H. now rewrite slotOf_delete_other. Qed.

Lemma mergeWalk_push t rest lm :
  mergeWalk (t :: rest) [] lm = mergeWalk rest [t] lm.
Proof. reflexivity. Qed.

Lemma NoDup_middle {A} (a : A) l1 l2 :
  NoDup (a :: l1 ++ l2) -> NoDup (l1 ++ a :: l2).
Proof. apply Permutation_NoDup, Permutation_middle. Qed.

Lemma walk_sim ax cur : forall stack lm m sc mv,
  (forall t, In t cur -> value t <> 0) ->
  NoDup (map id (cur ++ stack)) ->
  (forall t, In t (cur ++ stack) -> holds m t) ->
  exists m',
    walk ax (map id cur) (rev (map id stack)) lm (mkMoveState m sc mv)
    = Ok (rev (map id (fst (fst (mergeWalk cur stack lm)))),
          mkMoveState m'
            (sc + snd (mergeWalk cur stack lm))
            (mv || negb (Z.of_nat (length (snd (fst (mergeWalk cur stack lm)))) =? 0)))
    /\ map key m' = map key m
    /\ (forall k, ~ In k (map id (cur ++ stack)) -> slotOf k m' = slotOf k m)
    /\ (forall t, In t (fst (fst (mergeWalk cur stack lm))) -> holds m' t)
    /\ (forall k, In k (snd (fst (mergeWalk cur stack lm))) ->
        exists o, slotOf k m' = Some (mkSlot k o false)).
Proof.
  induction cur as [|t rest IH]; intros stack lm m sc mv Hnz Hnd Hh.
  - exists m. simpl. rewrite Z.add_0_r, orb_false_r.
    repeat split; auto. intros k [].
  - assert (Ht : holds m t) by (apply Hh; now left).
    assert (Hnzt : value t <> 0) by (apply Hnz; now left).
    assert (Hnz' : forall u, In u rest -> value u <> 0)
      by (intros; apply Hnz; now right).
    cbn [map walk tilesById scoreAcc movedAcc]. rewrite (load_holds _ _ Ht). cbn [bind].
    replace (value t =? 0) with false by (symmetry; now apply Z.eqb_neq).
    rewrite andb_false_r.
    destruct stack as [|l below].
    + cbn [map rev]. rewrite lastOf_nil.
      change (@nil Z ++ [id t]) with (rev (map id [t])).
      rewrite mergeWalk_push.
      destruct (IH [t] lm m sc mv Hnz') as (m' & Hw & Hk & Hf & Ho & Hg).
      * simpl in Hnd. apply NoDup_cons_iff in Hnd as [Hn Hnd].
        rewrite app_nil_r in Hn, Hnd.
        rewrite map_app. simpl. apply NoDup_middle. rewrite app_nil_r.
        now constructor.
      * intros u Hu. apply Hh. apply in_app_or in Hu as [Hu|[<-|[]]].
        -- right. apply in_or_app. now left.
        -- now left.
      * exists m'. repeat split; auto.
        intros k Hk'. apply Hf. intros Hin. apply Hk'.
        rewrite map_app in *. simpl in *. rewrite app_nil_r.
        apply in_app_or in Hin as [Hin|[<-|[]]]; auto.
    + assert (Hl : holds m l).
      { apply Hh. right. apply in_or_app. right. now left. }
      cbn [map rev]. rewrite lastOf_snoc.
      rewrite (load_holds _ _ Hl). cbn [bind mergeWalk].
      assert (Hne : id t <> id l).
      { simpl in Hnd. apply NoDup_cons_iff in Hnd as [Hn _].
        intros E. apply Hn. rewrite E. rewrite map_app. apply in_or_app.
        right. now left. }
      destruct ((value l =? value t) && negb (sameId (id l) lm)) eqn:E.
      * (* merge *)
        set (v := value t * 2).
        set (m2 := mapDelete (id t) (modify (id l) (mergeInto v) m)).
        set (l' := mergeInto v l).
        assert (Hl' : holds m2 l').
        { unfold holds, m2. rewrite slotOf_delete_other by (simpl; lia).
          change (id l') with (id l).
          rewrite (slotOf_modify_same _ _ _ _ Hl). reflexivity. }
        destruct (IH (l' :: below) (Some (id l)) m2 (sc + v) true Hnz')
          as (m' & Hw & Hk & Hf & Ho & Hg).
        -- simpl in Hnd. apply NoDup_cons_iff in Hnd as [_ Hnd].
           rewrite map_app in *. exact Hnd.
        -- intros u Hu. apply in_app_or in Hu as [Hu|[<-|Hu]].
           ++ assert (id u <> id t /\ id u <> id l) as [N1 N2].
              { simpl in Hnd. apply NoDup_cons_iff in Hnd as [Hn Hnd].
                rewrite map_app in *. simpl in *. split.
                - intros E'. apply Hn. rewrite <- E'. apply in_or_app. left.
                  now apply in_map.
                - intros E'. apply NoDup_remove_2 in Hnd. apply Hnd.
                  rewrite <- E'. apply in_or_app. left. now apply in_map. }
              apply holds_delete_other; [assumption|].
              apply holds_modify_other; [assumption|].
              apply Hh. right. apply in_or_app. now left.
           ++ exact Hl'.
           ++ assert (id u <> id t /\ id u <> id l) as [N1 N2].
              { simpl in Hnd. apply NoDup_cons_iff in Hnd as [Hn Hnd].
                rewrite map_app in *. simpl in *. split.
                - intros E'. apply Hn. rewrite <- E'. apply in_or_app. right.
                  right. now apply in_map.
                - intros E'. apply NoDup_app_remove_l in Hnd.
                  apply NoDup_cons_iff in Hnd as [Hn' _]. apply Hn'.
                  rewrite <- E'. now apply in_map. }
              apply holds_delete_other; [assumption|].
              apply holds_modify_other; [assumption|].
              apply Hh. right. apply in_or_app. right. now right.
        -- fold v. fold m2. cbn [map rev] in Hw.
           change (id l') with (id l) in Hw. rewrite Hw.
           fold l'.
           destruct (mergeWalk rest (l' :: below) (Some (id l)))
             as [[out gone] gained] eqn:EW.
           cbn [fst snd] in *. exists m'. split; [|split; [|split; [|split]]].
           ++ f_equal. f_equal. f_equal; [lia|].
              rewrite orb_true_r. simpl length.
              destruct (Z.of_nat (S (length gone)) =? 0) eqn:E0;
                [apply Z.eqb_eq in E0; lia|reflexivity].
           ++ rewrite Hk. unfold m2. now rewrite keys_delete, keys_modify.
           ++ intros k Hk'. rewrite Hf.
              ** unfold m2. rewrite slotOf_delete_other, slotOf_modify_other;
                   [reflexivity| |].
                 --- intros ->. apply Hk'. rewrite map_app. simpl.
                     right. apply in_or_app. right. now left.
                 --- intros ->. apply Hk'. now left.
              ** intros Hin. apply Hk'. simpl. right.
                 rewrite map_app in *. exact Hin.
           ++ exact Ho.
           ++ intros k [<-|Hk']; [|now apply Hg].
              exists t. rewrite Hf.
              ** unfold m2. rewrite (slotOf_delete_same _ _ (slotFor t)).
                 --- reflexivity.
                 --- rewrite slotOf_modify_other by assumption. exact Ht.
              ** simpl in Hnd. apply NoDup_cons_iff in Hnd as [Hn _].
                 rewrite map_app in *. exact Hn.
      * (* push *)
        change (rev (map id below) ++ [id l]) with (rev (map id (l :: below))).
        change ((rev (map id (l :: below))) ++ [id t])
          with (rev (map id (t :: l :: below))).
        destruct (IH (t :: l :: below) lm m sc mv Hnz')
          as (m' & Hw & Hk & Hf & Ho & Hg).
        -- rewrite map_app. simpl. apply NoDup_middle.
           simpl in Hnd. rewrite map_app in Hnd. exact Hnd.
        -- intros u Hu. apply Hh. apply in_app_or in Hu as [Hu|[<-|Hu]].
           ++ right. apply in_or_app. now left.
           ++ now left.
           ++ right. apply in_or_app. now right.
        -- exists m'. repeat split; auto.
           intros k Hk'. apply Hf. intros Hin. apply Hk'.
           rewrite map_app in *. simpl in *.
           apply in_app_or in Hin as [Hin|[<-|Hin]]; auto.
           ++ right. apply in_or_app. now left.
           ++ right. apply in_or_app. now right.
Qed.

(** ** Elementary facts on [mergeWalk] and [placeAll] *)

Lemma mergeWalk_ids cur : forall stack lm,
  Permutation
    (map id (fst (fst (mergeWalk cur stack lm))) ++ snd (fst (mergeWalk cur stack lm)))
    (map id (cur ++ stack)).
Proof.
  induction cur as [|t rest IH]; intros stack lm; simpl.
  - now rewrite app_nil_r.
  - destruct stack as [|l below].
    + etransitivity; [apply IH|]. rewrite !map_app. simpl.
      rewrite app_nil_r. symmetry. apply Permutation_cons_append.
    + destruct ((value l =? value t) && negb (sameId (id l) lm)).
      * specialize (IH (mergeInto (value t * 2) l :: below) (Some (id l))).
        destruct (mergeWalk rest (mergeInto (value t * 2) l :: below) (Some (id l)))
          as [[out gone] gained]. simpl in *.
        etransitivity; [symmetry; apply Permutation_middle|].
        apply perm_skip. rewrite map_app in *. exact IH.
      * etransitivity; [apply IH|]. rewrite !map_app. simpl.
        symmetry. apply Permutation_middle.
Qed.

Lemma placeAll_ids ax sign (L : AxisLaws ax sign) line : forall i,
  map id (placeAll ax line i) = map id line.
Proof.
  induction line as [|t rest IH]; intros i; simpl; [reflexivity|].
  now rewrite IH, (law_id_with _ _ L).
Qed.

Lemma placeAll_values ax sign (L : AxisLaws ax sign) line : forall i,
  map value (placeAll ax line i) = map value line.
Proof.
  induction line as [|t rest IH]; intros i; simpl; [reflexivity|].
  now rewrite IH, (law_value_with _ _ L).
Qed.

Lemma placeAll_length ax line : forall i,
  length (placeAll ax line i) = length line.
Proof.
  induction line as [|t rest IH]; intros i; simpl; [reflexivity|].
  now rewrite IH.
Qed.

(** ** The placement loop computes [placeAll] *)

Lemma place_sim ax sign (L : AxisLaws ax sign) line : forall i m sc mv,
  NoDup (map id line) ->
  (forall t, In t line -> holds m t) ->
  exists m',
    place ax (map id line) i (mkMoveState m sc mv)
    = Ok (mkMoveState m' sc (mv || misplaced ax line i))
    /\ map key m' = map key m
    /\ (forall k, ~ In k (map id line) -> slotOf k m' = slotOf k m)
    /\ (forall t, In t (placeAll ax line i) -> holds m' t).
Proof.
  induction line as [|t rest IH]; intros i m sc mv Hnd Hh.
  - exists m. simpl. rewrite orb_false_r. repeat split; auto.
  - simpl in Hnd. apply NoDup_cons_iff in Hnd as [Hn Hnd].
    assert (Ht : holds m t) by (apply Hh; now left).
    cbn [map place tilesById scoreAcc movedAcc misplaced placeAll].
    rewrite (load_holds _ _ Ht). cbn [bind].
    set (p := targetOf ax i).
    assert (Hrest : forall m1,
      (forall u, In u rest -> holds m1 u) ->
      holds m1 (withPos ax t p) ->
      map key m1 = map key m ->
      (forall k, k <> id t -> slotOf k m1 = slotOf k m) ->
      forall b,
      exists m',
        place ax (map id rest) (i + 1) (mkMoveState m1 sc b)
        = Ok (mkMoveState m' sc (b || misplaced ax rest (i + 1)))
        /\ map key m' = map key m
        /\ (forall k, ~ In k (map id (t :: rest)) -> slotOf k m' = slotOf k m)
        /\ (forall u, In u (withPos ax t p :: placeAll ax rest (i + 1)) ->
            holds m' u)).
    { intros m1 H1 H2 H3 H4 b.
      destruct (IH (i + 1) m1 sc b Hnd H1) as (m' & Hw & Hk & Hf & Ho).
      exists m'. split; [exact Hw|]. split; [congruence|]. split.
      - intros k Hk'. simpl in Hk'. rewrite Hf by tauto. apply H4.
        intros ->. tauto.
      - intros u [<-|Hu]; [|now apply Ho].
        unfold holds in *. rewrite Hf; [exact H2|].
        now rewrite (law_id_with _ _ L). }
    destruct (posOf ax t =? p) eqn:E; cbn [negb].
    + apply Z.eqb_eq in E.
      assert (Hsame : withPos ax t p = t)
        by (rewrite <- E; apply (law_with_same _ _ L)).
      rewrite orb_false_l.
      apply Hrest; auto.
      * intros u Hu. apply Hh. now right.
      * now rewrite Hsame.
    + rewrite orb_true_l.
      destruct (Hrest (modify (id t) (fun t0 => withPos ax t0 p) m))
        with (b := true) as (m' & Hw & Hrest').
      * intros u Hu. apply holds_modify_other; [|apply Hh; now right].
        intros E'. apply Hn. rewrite <- E'. now apply in_map.
      * unfold holds. rewrite (law_id_with _ _ L).
        rewrite (slotOf_modify_same _ _ _ _ Ht). unfold slotFor. simpl.
        now rewrite (law_id_with _ _ L).
      * apply keys_modify.
      * intros k Hk. now apply slotOf_modify_other.
      * exists m'. rewrite Hw. rewrite orb_true_l, orb_true_r.
        split; [reflexivity|exact Hrest'].
Qed.

(** ** The stable sort *)

Lemma insertBy_perm cmp x l : Permutation (insertBy cmp x l) (x :: l).
Proof.
  induction l as [|y l IH]; simpl; [reflexivity|].
  destruct (cmp x y <=? 0); [reflexivity|].
  rewrite IH. apply perm_swap.
Qed.

Lemma sortBy_perm cmp l : Permutation (sortBy cmp l) l.
Proof.
  induction l as [|x l IH]; simpl; [reflexivity|].
  rewrite insertBy_perm. now apply perm_skip.
Qed.

Lemma lineTiles_perm ax tiles k :
  Permutation (lineTiles ax tiles k)
              (filter (fun tile => lineOf ax tile =? k) tiles).
Proof. apply sortBy_perm. Qed.

Lemma lineTiles_In ax tiles k t :
  In t (lineTiles ax tiles k) <-> In t tiles /\ lineOf ax t = k.
Proof.
  split.
  - intros H. apply (Permutation_in _ (lineTiles_perm ax tiles k)) in H.
    apply filter_In in H as [H1 H2]. apply Z.eqb_eq in H2. tauto.
  - intros [H1 H2].
    apply (Permutation_in _ (Permutation_sym (lineTiles_perm ax tiles k))).
    apply filter_In. split; [assumption|now apply Z.eqb_eq].
Qed.

Lemma NoDup_map_filter {A B} (f : A -> B) (p : A -> bool) l :
  NoDup (map f l) -> NoDup (map f (filter p l)).
Proof.
  induction l as [|a l IH]; simpl; intros H; [constructor|].
  apply NoDup_cons_iff in H as [Hn H].
  destruct (p a); simpl; [|now apply IH].
  constructor; [|now apply IH].
  intros Hin. apply Hn. apply in_map_iff in Hin as (x & Hx & Hin).
  apply filter_In in Hin as [Hin _]. apply in_map_iff. eauto.
Qed.

Lemma lineTiles_NoDup ax tiles k :
  NoDup (map id tiles) -> NoDup (map id (lineTiles ax tiles k)).
Proof.
  intros H.
  eapply Permutation_NoDup;
    [apply Permutation_map; symmetry; apply lineTiles_perm|].
  now apply NoDup_map_filter.
Qed.

Lemma NoDup_map_inj {A B} (f : A -> B) l x y :
  NoDup (map f l) -> In x l -> In y l -> f x = f y -> x = y.
Proof.
  induction l as [|a l IH]; simpl; [tauto|].
  intros H. apply NoDup_cons_iff in H as [Hn H].
  intros [->|Hx] [->|Hy] E; auto.
  - exfalso. apply Hn. rewrite E. now apply in_map.
  - exfalso. apply Hn. rewrite <- E. now apply in_map.
Qed.

Lemma NoDup_app_disjoint {A} (l1 l2 : list A) :
  NoDup (l1 ++ l2) -> forall x, In x l1 -> ~ In x l2.
Proof.
  induction l1 as [|a l1 IH]; simpl; [tauto|].
  intros H x [->|Hx] Hin.
  - apply NoDup_cons_iff in H as [Hn _]. apply Hn, in_or_app. now right.
  - apply NoDup_cons_iff in H as [_ H]. now apply (IH H x).
Qed.

(** ** One line, all lines, the whole move *)

Section Engine.

Variables (ax : Axis) (sign : Z).
Hypothesis L : AxisLaws ax sign.
Variable tiles : list TileData.
Hypothesis distinctIds : NoDup (map id tiles).
Hypothesis nonZero : forall t, In t tiles -> value t <> 0.

Lemma lineKept_gone_ids k :
  Permutation (map id (lineKept ax tiles k) ++ lineGone ax tiles k)
              (map id (lineTiles ax tiles k)).
Proof.
  unfold lineKept, lineGone, lineWalk.
  rewrite map_rev, <- Permutation_rev.
  rewrite mergeWalk_ids. now rewrite app_nil_r.
Qed.

Lemma lineOut_ids k : map id (lineOut ax tiles k) = map id (lineKept ax tiles k).
Proof. apply (placeAll_ids _ _ L). Qed.

Lemma lineOut_gone_NoDup k :
  NoDup (map id (lineOut ax tiles k) ++ lineGone ax tiles k).
Proof.
  rewrite lineOut_ids.
  eapply Permutation_NoDup; [symmetry; apply lineKept_gone_ids|].
  now apply lineTiles_NoDup.
Qed.

Lemma lineOut_id_in k t :
  In t (lineOut ax tiles k) ->
  exists u, In u tiles /\ lineOf ax u = k /\ id u = id t.
Proof.
  intros H. apply (in_map id) in H. rewrite lineOut_ids in H.
  assert (H' : In (id t) (map id (lineTiles ax tiles k))).
  { eapply Permutation_in; [apply lineKept_gone_ids|].
    apply in_or_app. now left. }
  apply in_map_iff in H' as (u & E & Hu). apply lineTiles_In in Hu.
  exists u. tauto.
Qed.

Lemma lineGone_id_in k i :
  In i (lineGone ax tiles k) ->
  exists u, In u tiles /\ lineOf ax u = k /\ id u = i.
Proof.
  intros H.
  assert (H' : In i (map id (lineTiles ax tiles k))).
  { eapply Permutation_in; [apply lineKept_gone_ids|].
    apply in_or_app. now right. }
  apply in_map_iff in H' as (u & E & Hu). apply lineTiles_In in Hu.
  exists u. tauto.
Qed.

Lemma mapM_get m l :
  (forall t, In t l -> holds m t) ->
  mapM (fun tile =>
          match mapGet (id tile) m with
          | Some ref => Ok ref
          | None => TypeError
          end) l
  = Ok (map id l).
Proof.
  induction l as [|t l IH]; intros H; simpl; [reflexivity|].
  unfold mapGet at 1. rewrite (H t) by now left. simpl.
  rewrite IH by (intros; apply H; now right). reflexivity.
Qed.

Lemma moveLine_sim k m sc mv :
  (forall t, In t tiles -> lineOf ax t = k -> holds m t) ->
  exists m',
    moveLine ax tiles k (mkMoveState m sc mv)
    = Ok (mkMoveState m' (sc + lineScore ax tiles k)
                      (mv || lineMoved ax tiles k))
    /\ map key m' = map key m
    /\ (forall i, ~ In i (map id (lineTiles ax tiles k)) ->
        slotOf i m' = slotOf i m)
    /\ (forall t, In t (lineOut ax tiles k) -> holds m' t)
    /\ (forall i, In i (lineGone ax tiles k) -> dead m' i).
Proof.
  intros Hh. unfold moveLine. cbn [tilesById].
  fold (lineTiles ax tiles k).
  assert (HhL : forall t, In t (lineTiles ax tiles k) -> holds m t).
  { intros t Ht. apply lineTiles_In in Ht as [H1 H2]. now apply Hh. }
  rewrite (mapM_get _ _ HhL). cbn [bind].
  destruct (walk_sim ax (lineTiles ax tiles k) [] None m sc mv)
    as (m1 & Hw & Hk1 & Hf1 & Ho1 & Hg1).
  - intros t Ht. apply lineTiles_In in Ht as [H1 _]. now apply nonZero.
  - rewrite app_nil_r. now apply lineTiles_NoDup.
  - rewrite app_nil_r. exact HhL.
  - cbn [map rev] in Hw. rewrite Hw. cbn [bind].
    fold (lineWalk ax tiles k) in *.
    rewrite <- map_rev. fold (lineKept ax tiles k).
    fold (lineGone ax tiles k) in *. fold (lineScore ax tiles k).
    assert (Hperm := lineKept_gone_ids k).
    assert (HndK : NoDup (map id (lineKept ax tiles k) ++ lineGone ax tiles k)).
    { eapply Permutation_NoDup; [symmetry; exact Hperm|].
      now apply lineTiles_NoDup. }
    destruct (place_sim ax sign L (lineKept ax tiles k) 0 m1
                (sc + lineScore ax tiles k)
                (mv || negb (Z.of_nat (length (lineGone ax tiles k)) =? 0)))
      as (m2 & Hp & Hk2 & Hf2 & Ho2).
    + now apply NoDup_app_remove_r in HndK.
    + intros t Ht. apply Ho1. unfold lineKept in Ht. now apply in_rev.
    + exists m2. rewrite Hp. unfold lineMoved. rewrite orb_assoc.
      split; [reflexivity|]. split; [congruence|]. split; [|split].
      * intros i Hi. rewrite Hf2, Hf1; auto.
        -- now rewrite app_nil_r.
        -- intros Hin. apply Hi. eapply Permutation_in; [exact Hperm|].
           apply in_or_app. now left.
      * exact Ho2.
      * intros i Hi. destruct (Hg1 i Hi) as (o & Ho). exists o.
        rewrite Hf2; [exact Ho|].
        intros Hin. revert Hi. apply (NoDup_app_disjoint _ _ HndK i Hin).
Qed.

End Engine.

Section Lines.

Variables (ax : Axis) (sign : Z).
Hypothesis L : AxisLaws ax sign.
Variable tiles : list TileData.
Hypothesis distinctIds : NoDup (map id tiles).
Hypothesis nonZero : forall t, In t tiles -> value t <> 0.

Lemma other_line_id k t :
  In t tiles -> lineOf ax t <> k -> ~ In (id t) (map id (lineTiles ax tiles k)).
Proof.
  intros Ht Hne Hin. apply in_map_iff in Hin as (u & E & Hu).
  apply lineTiles_In in Hu as [Hu Hk].
  assert (u = t) by (eapply NoDup_map_inj; eauto). subst. tauto.
Qed.

Lemma lineInv_step done k m m' :
  ~ In k done ->
  lineInv ax tiles done m ->
  map key m' = map key m ->
  (forall i, ~ In i (map id (lineTiles ax tiles k)) -> slotOf i m' = slotOf i m) ->
  (forall t, In t (lineOut ax tiles k) -> holds m' t) ->
  (forall i, In i (lineGone ax tiles k) -> dead m' i) ->
  lineInv ax tiles (done ++ [k]) m'.
Proof.
  intros Hk (I1 & I2 & I3) Hkeys Hf Ho Hg. split; [congruence|]. split.
  - intros t Ht Hn. unfold holds. rewrite Hf.
    + apply I2; [assumption|]. intros Hin. apply Hn, in_or_app. now left.
    + apply other_line_id; [assumption|]. intros E. apply Hn, in_or_app.
      right. now left.
  - intros k' Hk'. apply in_app_or in Hk' as [Hk'|[<-|[]]]; [|now split].
    assert (Hne : k' <> k) by (intros ->; tauto).
    destruct (I3 k' Hk') as [J1 J2]. split.
    + intros t Ht. unfold holds. rewrite Hf; [now apply J1|].
      destruct (lineOut_id_in ax sign L tiles k' t Ht) as (u & Hu & Hl & E).
      rewrite <- E. apply other_line_id; [assumption|congruence].
    + intros i Hi. destruct (J2 i Hi) as (o & Ho'). exists o.
      rewrite Hf; [assumption|].
      destruct (lineGone_id_in ax tiles k' i Hi) as (u & Hu & Hl & E).
      rewrite <- E. apply other_line_id; [assumption|congruence].
Qed.

Lemma moveLines_sim ks : forall done m sc mv,
  NoDup ks ->
  (forall k, In k ks -> ~ In k done) ->
  lineInv ax tiles done m ->
  exists m',
    moveLines ax tiles ks (mkMoveState m sc mv)
    = Ok (mkMoveState m'
            (sc + sumZ (map (lineScore ax tiles) ks))
            (mv || existsb (lineMoved ax tiles) ks))
    /\ lineInv ax tiles (done ++ ks) m'.
Proof.
  induction ks as [|k ks IH]; intros done m sc mv Hnd Hdis Hinv.
  - exists m. simpl. rewrite Z.add_0_r, orb_false_r, app_nil_r. now split.
  - apply NoDup_cons_iff in Hnd as [Hn Hnd].
    destruct (moveLine_sim ax sign L tiles distinctIds nonZero k m sc mv)
      as (m1 & Hm & Hk1 & Hf1 & Ho1 & Hg1).
    { intros t Ht Hl. apply Hinv; [assumption|]. rewrite Hl.
      apply Hdis. now left. }
    destruct (IH (done ++ [k]) m1 (sc + lineScore ax tiles k)
                 (mv || lineMoved ax tiles k) Hnd)
      as (m2 & Hm2 & Hinv2).
    + intros k' Hk' Hin. apply in_app_or in Hin as [Hin|[<-|[]]]; [|tauto].
      apply (Hdis k'); [now right|assumption].
    + apply lineInv_step with (m := m); auto. apply Hdis. now left.
    + exists m2. cbn [moveLines]. rewrite Hm. cbn [bind]. rewrite Hm2.
      split.
      * simpl. rewrite Z.add_assoc, orb_assoc. reflexivity.
      * now rewrite <- app_assoc in Hinv2.
Qed.

Hypothesis inLines : forall t, In t tiles -> 0 <= lineOf ax t < GRID_SIZE.

Lemma range_In lo hi k : In k (range lo hi) <-> lo <= k < hi.
Proof.
  unfold range. rewrite in_map_iff. split.
  - intros (i & <- & Hi). apply in_seq in Hi. lia.
  - intros H. exists (Z.to_nat (k - lo)). split; [lia|].
    apply in_seq. lia.
Qed.

Lemma range_NoDup lo hi : NoDup (range lo hi).
Proof.
  unfold range. apply Finite.Injective_map_NoDup.
  - intros a b. lia.
  - apply seq_NoDup.
Qed.

Lemma lineOut_NoDup k : NoDup (map id (lineOut ax tiles k)).
Proof.
  eapply NoDup_app_remove_r.
  apply (lineOut_gone_NoDup ax sign L tiles distinctIds k).
Qed.

Lemma find_id_unique l t :
  NoDup (map id l) -> In t l -> find (fun t' => id t' =? id t) l = Some t.
Proof.
  induction l as [|a l IH]; simpl; [tauto|].
  intros Hnd [->|Hin].
  - now rewrite Z.eqb_refl.
  - apply NoDup_cons_iff in Hnd as [Hn Hnd].
    destruct (id a =? id t) eqn:E.
    + apply Z.eqb_eq in E. exfalso. apply Hn. rewrite E. now apply in_map.
    + now apply IH.
Qed.

Lemma find_id_none l i :
  ~ In i (map id l) -> find (fun t' => id t' =? i) l = None.
Proof.
  induction l as [|a l IH]; simpl; [reflexivity|].
  intros Hn. destruct (id a =? i) eqn:E.
  - apply Z.eqb_eq in E. tauto.
  - apply IH. tauto.
Qed.

Lemma valueAt_fate m t :
  lineInv ax tiles (range 0 GRID_SIZE) m ->
  In t tiles ->
  valueAt m (id t) = fate ax tiles t.
Proof.
  intros (I1 & I2 & I3) Ht.
  set (k := lineOf ax t).
  assert (Hk : In k (range 0 GRID_SIZE)) by (apply range_In; now apply inLines).
  destruct (I3 k Hk) as [J1 J2].
  assert (Hin : In (id t) (map id (lineOut ax tiles k) ++ lineGone ax tiles k)).
  { rewrite (lineOut_ids ax sign L).
    eapply Permutation_in; [symmetry; apply lineKept_gone_ids|].
    apply in_map. apply lineTiles_In. now split. }
  unfold fate. fold k.
  apply in_app_or in Hin as [Hin|Hin].
  - apply in_map_iff in Hin as (t' & E & Ht').
    rewrite <- E. rewrite (find_id_unique _ _ (lineOut_NoDup k) Ht').
    unfold valueAt. now rewrite (J1 t' Ht').
  - destruct (J2 _ Hin) as (o & Ho). unfold valueAt. rewrite Ho. simpl.
    rewrite find_id_none; [reflexivity|].
    intros Hin'. revert Hin.
    apply (NoDup_app_disjoint _ _
             (lineOut_gone_NoDup ax sign L tiles distinctIds k) _ Hin').
Qed.

(** The engine computes the list-level account. *)
Lemma moveAlong_spec :
  moveAlong ax tiles
  = Ok {| updatedTiles := movedTiles ax tiles;
          scoreIncrease := movedScore ax tiles;
          moved := movedFlag ax tiles |}.
Proof.
  unfold moveAlong. rewrite (newMap_distinct _ distinctIds).
  destruct (moveLines_sim (range 0 GRID_SIZE) [] (map slotFor tiles) 0 false)
    as (m & Hm & Hinv).
  - apply range_NoDup.
  - intros k _ [].
  - split; [apply keys_slotFor|]. split.
    + intros t Ht _. now apply holds_slotFor.
    + intros k [].
  - rewrite Hm. cbn [bind tilesById scoreAcc movedAcc app] in *.
    f_equal. unfold movedTiles, movedScore, movedFlag.
    destruct Hinv as (I1 & I2 & I3).
    rewrite mapValues_keys by (rewrite I1; assumption).
    rewrite I1, flat_map_concat_map, map_map, <- flat_map_concat_map.
    f_equal. apply flat_map_ext_in'. intros t Ht.
    apply valueAt_fate; [|assumption]. now split.
Qed.

End Lines.

(** ** Well-formed tile lists *)

Lemma distinctBy_NoDup {A} (eqb : A -> A -> bool) l :
  (forall x y, eqb x y = true <-> x = y) ->
  distinctBy eqb l = true <-> NoDup l.
Proof.
  intros Heqb. induction l as [|x l IH]; simpl.
  - split; [constructor|reflexivity].
  - rewrite andb_true_iff, negb_true_iff, IH, NoDup_cons_iff.
    assert (E : existsb (eqb x) l = false <-> ~ In x l).
    { split.
      - intros H Hin. assert (existsb (eqb x) l = true); [|congruence].
        apply existsb_exists. exists x. split; [assumption|now apply Heqb].
      - intros H. destruct (existsb (eqb x) l) eqn:E; [|reflexivity].
        apply existsb_exists in E as (y & Hy & Hxy). apply Heqb in Hxy.
        subst. tauto. }
    now rewrite E.
Qed.

Lemma samePosition_eq p q : samePosition p q = true <-> p = q.
Proof.
  destruct p, q. unfold samePosition. simpl.
  rewrite andb_true_iff, !Z.eqb_eq. split.
  - intros [-> ->]. reflexivity.
  - intros [= -> ->]. now split.
Qed.

Lemma isPowerOfTwo_pos v : isPowerOfTwo v = true -> 0 < v.
Proof.
  unfold isPowerOfTwo. rewrite andb_true_iff, Z.ltb_lt. tauto.
Qed.

Lemma wellFormed_spec tiles :
  wellFormed tiles = true ->
  (forall t, In t tiles -> inGrid GRID_SIZE t = true)
  /\ (forall t, In t tiles -> isPowerOfTwo (value t) = true)
  /\ NoDup (map positionOf tiles)
  /\ NoDup (map id tiles).
Proof.
  unfold wellFormed. rewrite !andb_true_iff, !forallb_forall.
  intros [[[H1 H2] H3] H4]. repeat split; auto.
  - apply (distinctBy_NoDup samePosition); [apply samePosition_eq|assumption].
  - apply (distinctBy_NoDup Z.eqb); [apply Z.eqb_eq|assumption].
Qed.

(** ** What the walk does to a line *)

Lemma mergeWalk_merge t rest l below lm :
  (value l =? value t) && negb (sameId (id l) lm) = true ->
  let w := mergeWalk rest (mergeInto (value t * 2) l :: below) (Some (id l)) in
  mergeWalk (t :: rest) (l :: below) lm
  = (fst (fst w), id t :: snd (fst w), value t * 2 + snd w).
Proof.
  intros G. cbn [mergeWalk]. rewrite G.
  destruct (mergeWalk rest _ _) as [[out gone] gained]. reflexivity.
Qed.

Lemma mergeWalk_keep t rest l below lm :
  (value l =? value t) && negb (sameId (id l) lm) = false ->
  mergeWalk (t :: rest) (l :: below) lm = mergeWalk rest (t :: l :: below) lm.
Proof. intros G. cbn [mergeWalk]. now rewrite G. Qed.

Lemma guard_true l t lm :
  (value l =? value t) && negb (sameId (id l) lm) = true ->
  value l = value t /\ sameId (id l) lm = false.
Proof.
  rewrite andb_true_iff, negb_true_iff, Z.eqb_eq. tauto.
Qed.

Lemma sameId_self i : sameId i (Some i) = true.
Proof. apply Z.eqb_refl. Qed.

Lemma sameId_true i lm : sameId i lm = true -> lm = Some i.
Proof.
  destruct lm as [j|]; simpl; [|discriminate].
  intros H. apply Z.eqb_eq in H. now subst.
Qed.

(** Case analysis on one step of the walk. *)
Ltac walk_step t rest stack lm G :=
  destruct stack as [|?l ?below];
  [ rewrite ?(mergeWalk_push t rest lm) in *
  | destruct ((value l =? value t) && negb (sameId (id l) lm)) eqn:G;
    [ rewrite ?(mergeWalk_merge t rest l below lm G) in *; cbn [fst snd] in *;
      apply guard_true in G
    | rewrite ?(mergeWalk_keep t rest l below lm G) in * ] ].

Lemma totalValue_cons t l : totalValue (t :: l) = value t + totalValue l.
Proof. reflexivity. Qed.

Lemma totalValue_app l1 l2 :
  totalValue (l1 ++ l2) = totalValue l1 + totalValue l2.
Proof.
  induction l1 as [|t l1 IH]; [reflexivity|].
  simpl app. rewrite !totalValue_cons, IH. lia.
Qed.

Lemma totalValue_rev l : totalValue (rev l) = totalValue l.
Proof.
  induction l as [|t l IH]; [reflexivity|].
  simpl rev. rewrite totalValue_app, !totalValue_cons, IH.
  unfold totalValue at 2. simpl. lia.
Qed.

Lemma mergeWalk_total cur : forall stack lm,
  totalValue (fst (fst (mergeWalk cur stack lm)))
  = totalValue cur + totalValue stack.
Proof.
  induction cur as [|t rest IH]; intros stack lm; [reflexivity|].
  walk_step t rest stack lm G; rewrite IH, ?totalValue_cons;
    change (totalValue []) with 0; simpl value; lia.
Qed.

Lemma mergeWalk_gone_nil cur : forall stack lm,
  snd (fst (mergeWalk cur stack lm)) = [] ->
  mergeWalk cur stack lm = (rev cur ++ stack, [], 0).
Proof.
  induction cur as [|t rest IH]; intros stack lm; [reflexivity|].
  walk_step t rest stack lm G; intros H; try discriminate.
  - rewrite (IH _ _ H). simpl. now rewrite <- app_assoc.
  - rewrite (IH _ _ H). simpl. now rewrite <- app_assoc.
Qed.

Lemma mergeWalk_gained cur : forall stack lm,
  (forall t, In t cur -> 0 < value t) ->
  0 <= snd (mergeWalk cur stack lm)
  /\ (snd (mergeWalk cur stack lm) = 0 ->
      snd (fst (mergeWalk cur stack lm)) = []).
Proof.
  induction cur as [|t rest IH]; intros stack lm Hpos.
  - simpl. split; [lia|reflexivity].
  - assert (Hpos' : forall u, In u rest -> 0 < value u)
      by (intros; apply Hpos; now right).
    assert (Ht : 0 < value t) by (apply Hpos; now left).
    walk_step t rest stack lm G; try (now apply IH).
    destruct (IH (mergeInto (value t * 2) l :: below) (Some (id l)) Hpos')
      as [H1 _].
    split; lia.
Qed.

(** The tiles below the top of the stack, and a top that is the product of
    the latest merge, are final. *)
Lemma mergeWalk_kept cur : forall stack lm x,
  In x (tl stack) \/ (hd_error stack = Some x /\ sameId (id x) lm = true) ->
  In x (fst (fst (mergeWalk cur stack lm))).
Proof.
  induction cur as [|t rest IH]; intros stack lm x H.
  - simpl. destruct stack as [|l below]; simpl in *.
    + destruct H as [[]|[H _]]; discriminate.
    + destruct H as [H|[[= ->] _]]; auto.
  - walk_step t rest stack lm G.
    + simpl in H. destruct H as [[]|[H _]]; discriminate.
    + apply IH. simpl in *. left.
      destruct H as [H|[[= ->] H]]; [assumption|]. destruct G. congruence.
    + apply IH. simpl in *. left.
      destruct H as [H|[[= ->] H]]; auto.
Qed.

(** Every tile of the result is an input tile, or an input tile that has
    absorbed a later tile of the same value. *)
Lemma mergeWalk_origin cur : forall stack lm x,
  In x (fst (fst (mergeWalk cur stack lm))) ->
  In x stack \/ In x cur
  \/ exists s t,
       In t cur
       /\ (In s cur \/ (hd_error stack = Some s /\ sameId (id s) lm = false))
       /\ x = mergeInto (value t * 2) s
       /\ value s = value t
       /\ In (id t) (snd (fst (mergeWalk cur stack lm))).
Proof.
  induction cur as [|t rest IH]; intros stack lm x Hx.
  - now left.
  - walk_step t rest stack lm G.
    + destruct (IH _ _ _ Hx) as [[<-|[]]|[H|(s & u & H1 & H2 & H3 & H4 & H5)]].
      * right. left. now left.
      * right. left. now right.
      * right. right. exists s, u. split; [now right|].
        split; [|now repeat split].
        destruct H2 as [H2|[[= <-] _]]; left; [now right|now left].
    + destruct G as [G1 G2].
      destruct (IH _ _ _ Hx) as [[<-|H]|[H|(s & u & H1 & H2 & H3 & H4 & H5)]].
      * right. right. exists l, t. split; [now left|]. split; [now right|].
        split; [reflexivity|]. split; [assumption|now left].
      * left. now right.
      * right. left. now right.
      * right. right. exists s, u. split; [now right|].
        split; [|split; [assumption|split; [assumption|now right]]].
        destruct H2 as [H2|[[= <-] H2]]; [left; now right|].
        simpl in H2. rewrite Z.eqb_refl in H2. discriminate.
    + destruct (IH _ _ _ Hx) as [[<-|H]|[H|(s & u & H1 & H2 & H3 & H4 & H5)]].
      * right. left. now left.
      * now left.
      * right. left. now right.
      * right. right. exists s, u. split; [now right|].
        split; [|now repeat split].
        destruct H2 as [H2|[[= <-] _]]; left; [now right|now left].
Qed.

(** Every deleted id is that of an input tile absorbed by an earlier tile of
    the same value, whose doubled copy is in the result. *)
Lemma mergeWalk_gone cur : forall stack lm i,
  In i (snd (fst (mergeWalk cur stack lm))) ->
  exists s t,
    In t cur /\ id t = i
    /\ (In s cur \/ (hd_error stack = Some s /\ sameId (id s) lm = false))
    /\ value s = value t
    /\ In (mergeInto (value t * 2) s) (fst (fst (mergeWalk cur stack lm))).
Proof.
  induction cur as [|t rest IH]; intros stack lm i Hi.
  - destruct Hi.
  - walk_step t rest stack lm G.
    + destruct (IH _ _ _ Hi) as (s & u & H1 & H2 & H3 & H4 & H5).
      exists s, u. split; [now right|]. split; [assumption|].
      split; [|now split].
      destruct H3 as [H3|[[= <-] _]]; left; [now right|now left].
    + destruct G as [G1 G2]. destruct Hi as [<-|Hi].
      * exists l, t. split; [now left|]. split; [reflexivity|].
        split; [now right|]. split; [assumption|].
        apply mergeWalk_kept. right. split; [reflexivity|apply sameId_self].
      * destruct (IH _ _ _ Hi) as (s & u & H1 & H2 & H3 & H4 & H5).
        exists s, u. split; [now right|]. split; [assumption|].
        split; [|now split].
        destruct H3 as [H3|[[= <-] H3]]; [left; now right|].
        simpl in H3. rewrite Z.eqb_refl in H3. discriminate.
    + destruct (IH _ _ _ Hi) as (s & u & H1 & H2 & H3 & H4 & H5).
      exists s, u. split; [now right|]. split; [assumption|].
      split; [|now split].
      destruct H3 as [H3|[[= <-] _]]; left; [now right|now left].
Qed.

(** ** Neighbours *)

Lemma nextTo_cons_iff x y a l :
  nextTo x y (a :: l) <->
  (a = x /\ hd_error l = Some y) \/ nextTo x y l.
Proof.
  split.
  - intros (l1 & l2 & E). destruct l1 as [|b l1]; simpl in E.
    + injection E as -> ->. now left.
    + injection E as -> ->. right. now exists l1, l2.
  - intros [[-> H]|(l1 & l2 & ->)].
    + destruct l as [|b l]; [discriminate|]. injection H as ->.
      now exists [], l.
    + now exists (a :: l1), l2.
Qed.

Lemma nextTo_rev x y l : nextTo x y (rev l) <-> nextTo y x l.
Proof.
  assert (H : forall x y l, nextTo x y l -> nextTo y x (rev l)).
  { intros a b l0 (l1 & l2 & ->). exists (rev l2), (rev l1).
    rewrite rev_app_distr. simpl. now rewrite <- !app_assoc. }
  split; intros H'.
  - apply H in H'. now rewrite rev_involutive in H'.
  - now apply H.
Qed.

Lemma nextTo_nth l n x y :
  nth_error l n = Some x -> nth_error l (S n) = Some y -> nextTo x y l.
Proof.
  revert n. induction l as [|a l IH]; intros n Hx Hy.
  - destruct n; discriminate.
  - apply nextTo_cons_iff. destruct n as [|n]; simpl in *.
    + injection Hx as ->. left. split; [reflexivity|].
      destruct l; [discriminate|]. simpl in *. congruence.
    + right. now apply (IH n).
Qed.

Lemma nextTo_nth_inv l x y :
  nextTo x y l ->
  exists n, nth_error l n = Some x /\ nth_error l (S n) = Some y.
Proof.
  intros (l1 & l2 & ->). exists (length l1). split.
  - rewrite nth_error_app2 by lia. now rewrite Nat.sub_diag.
  - rewrite nth_error_app2 by lia.
    replace (S (length l1) - length l1)%nat with 1%nat by lia. reflexivity.
Qed.

Lemma nextTo_In x y l : nextTo x y l -> In x l /\ In y l.
Proof.
  intros (l1 & l2 & ->). split; apply in_or_app; right; simpl; auto.
Qed.

(** ** Merges and neighbours *)

Lemma mergeWalk_neighbours input cur : forall stack lm,
  NoDup (map id (cur ++ stack)) ->
  (forall t, In t cur -> In t input) ->
  neighboursOK input (rev stack) ->
  (forall i, lm = Some i -> exists x, In x stack /\ id x = i /\ doubled input x) ->
  (forall l, hd_error stack = Some l ->
             In l input \/ sameId (id l) lm = true) ->
  neighboursOK input (rev (fst (fst (mergeWalk cur stack lm)))).
Proof.
  induction cur as [|t rest IH]; intros stack lm Hnd Hin Hadj Hlm Htop.
  - exact Hadj.
  - assert (Hin' : forall u, In u rest -> In u input)
      by (intros; apply Hin; now right).
    assert (Ht : In t input) by (apply Hin; now left).
    walk_step t rest stack lm G.
    + apply IH; auto.
      * simpl in Hnd. rewrite map_app in *. simpl. apply NoDup_middle.
        exact Hnd.
      * intros x y Hxy. apply (proj1 (nextTo_rev _ _ _)) in Hxy.
        apply nextTo_cons_iff in Hxy as [[_ H]|(l1 & l2 & H)];
          [discriminate|destruct l1; discriminate].
      * intros i Hi. destruct (Hlm i Hi) as (x & [] & _).
      * intros l [= <-]. now left.
    + destruct G as [G1 G2].
      assert (Hl : In l input).
      { destruct (Htop l eq_refl) as [H|H]; [assumption|congruence]. }
      assert (Hd : doubled input (mergeInto (value t * 2) l)).
      { exists l. cbn [mergeInto id value]. repeat split; auto. lia. }
      apply IH; auto.
      * simpl in Hnd. apply NoDup_cons_iff in Hnd as [_ Hnd].
        rewrite map_app in *. exact Hnd.
      * intros x y Hxy Hv. apply (proj1 (nextTo_rev _ _ _)) in Hxy.
        apply nextTo_cons_iff in Hxy as [[<- H]|H].
        -- now right.
        -- apply (Hadj x y); [|assumption]. apply nextTo_rev.
           apply nextTo_cons_iff. now right.
      * intros i [= <-]. exists (mergeInto (value t * 2) l).
        split; [now left|]. now split.
      * intros l0 [= <-]. right. apply sameId_self.
    + apply IH; auto.
      * simpl in Hnd. rewrite map_app in *. simpl. apply NoDup_middle.
        exact Hnd.
      * intros x y Hxy Hv. apply (proj1 (nextTo_rev _ _ _)) in Hxy.
        apply nextTo_cons_iff in Hxy as [[<- H]|H].
        -- injection H as <-.
           assert (Hs : sameId (id l) lm = true).
           { apply andb_false_iff in G as [G|G].
             - apply Z.eqb_neq in G. congruence.
             - now apply negb_false_iff in G. }
           apply sameId_true in Hs.
           destruct (Hlm _ Hs) as (x' & Hx' & E & Hd).
           assert (x' = l); [|subst; now left].
           simpl in Hnd. apply NoDup_cons_iff in Hnd as [_ Hnd].
           rewrite map_app in Hnd. apply NoDup_app_remove_l in Hnd.
           eapply NoDup_map_inj; eauto. now left.
        -- apply (Hadj x y); [|assumption]. now apply nextTo_rev.
      * intros i Hi. destruct (Hlm i Hi) as (x & Hx & H).
        exists x. split; [now right|assumption].
      * intros l0 [= <-]. now left.
Qed.

(** A line without equal neighbours goes through the walk unchanged. *)
Lemma mergeWalk_idle cur : forall stack lm,
  (forall x y, nextTo x y (rev stack ++ cur) -> value x <> value y) ->
  mergeWalk cur stack lm = (rev cur ++ stack, [], 0).
Proof.
  induction cur as [|t rest IH]; intros stack lm H; [reflexivity|].
  assert (E : forall s, rev (t :: s) ++ rest = rev s ++ t :: rest)
    by (intros; simpl; now rewrite <- app_assoc).
  destruct stack as [|l below].
  - rewrite mergeWalk_push, IH.
    + simpl. now rewrite <- app_assoc.
    + now rewrite E.
  - rewrite mergeWalk_keep.
    + rewrite IH; [simpl; now rewrite <- app_assoc|]. now rewrite E.
    + apply andb_false_iff. left. apply Z.eqb_neq.
      apply (H l t). exists (rev below), rest. simpl.
      now rewrite <- app_assoc.
Qed.

(** ** Placement *)

Lemma placeAll_nth ax line : forall i n,
  nth_error (placeAll ax line i) n
  = option_map (fun t => withPos ax t (targetOf ax (i + Z.of_nat n)))
               (nth_error line n).
Proof.
  induction line as [|t rest IH]; intros i n.
  - destruct n; reflexivity.
  - destruct n as [|n]; cbn [placeAll nth_error option_map].
    + now rewrite Z.add_0_r.
    + rewrite IH.
      replace (i + Z.of_nat (S n)) with (i + 1 + Z.of_nat n) by lia.
      reflexivity.
Qed.

Lemma placeAll_In ax line a :
  In a (placeAll ax line 0) ->
  exists n x, nth_error line n = Some x
              /\ a = withPos ax x (targetOf ax (Z.of_nat n)).
Proof.
  intros H. apply In_nth_error in H as (n & H).
  rewrite placeAll_nth in H.
  destruct (nth_error line n) as [x|] eqn:E; [|discriminate].
  injection H as <-. now exists n, x.
Qed.

Lemma placeAll_idle ax sign (L : AxisLaws ax sign) line : forall i,
  misplaced ax line i = false -> placeAll ax line i = line.
Proof.
  induction line as [|t rest IH]; intros i; simpl; [reflexivity|].
  rewrite orb_false_iff, negb_false_iff, Z.eqb_eq. intros [H1 H2].
  rewrite IH by assumption. rewrite <- H1.
  now rewrite (law_with_same _ _ L).
Qed.

Lemma misplaced_true ax line : forall i,
  misplaced ax line i = true ->
  exists n x, nth_error line n = Some x
              /\ posOf ax x <> targetOf ax (i + Z.of_nat n).
Proof.
  induction line as [|t rest IH]; intros i; simpl; [discriminate|].
  destruct (posOf ax t =? targetOf ax i) eqn:E; simpl.
  - intros H. destruct (IH _ H) as (n & x & H1 & H2).
    exists (S n), x. split; [assumption|].
    replace (i + Z.of_nat (S n)) with (i + 1 + Z.of_nat n) by lia. assumption.
  - intros _. exists O, t. split; [reflexivity|].
    apply Z.eqb_neq in E. now rewrite Z.add_0_r.
Qed.

Lemma misplaced_placed ax sign (L : AxisLaws ax sign) line : forall i,
  misplaced ax (placeAll ax line i) i = false.
Proof.
  induction line as [|t rest IH]; intros i; simpl; [reflexivity|].
  rewrite (law_pos_with _ _ L), Z.eqb_refl. simpl. apply IH.
Qed.

(** ** Sorting a line that is already in order *)

Section Sorting.

Variables (ax : Axis) (sign : Z).
Hypothesis L : AxisLaws ax sign.

Lemma before_flip a b : before ax a b -> comparator ax b a > 0.
Proof.
  unfold before. rewrite !(law_cmp _ _ L).
  destruct (law_sign _ _ L) as [-> | ->]; lia.
Qed.

Lemma sorted_split S1 x S2 :
  StronglySorted (before ax) (S1 ++ x :: S2) ->
  Forall (fun y => before ax y x) S1
  /\ Forall (before ax x) S2
  /\ StronglySorted (before ax) (S1 ++ S2).
Proof.
  induction S1 as [|a S1 IH]; simpl; intros H.
  - apply StronglySorted_inv in H as [H1 H2]. repeat split; auto.
  - apply StronglySorted_inv in H as [H1 H2].
    destruct (IH H1) as (I1 & I2 & I3).
    apply Forall_app in H2 as [H2 H3].
    apply Forall_cons_iff in H3 as [H3 H4].
    repeat split.
    + now constructor.
    + assumption.
    + constructor; [assumption|]. apply Forall_app. now split.
Qed.

Lemma insertBy_place x S1 S2 :
  Forall (fun y => before ax y x) S1 ->
  Forall (before ax x) S2 ->
  insertBy (comparator ax) x (S1 ++ S2) = S1 ++ x :: S2.
Proof.
  intros H1 H2. induction H1 as [|y S1 Hy H1 IH]; simpl.
  - destruct S2 as [|y S2]; [reflexivity|]. simpl.
    apply Forall_cons_iff in H2 as [H2 _]. unfold before in H2.
    destruct (comparator ax x y <=? 0) eqn:E; [reflexivity|].
    apply Z.leb_gt in E. lia.
  - apply before_flip in Hy.
    destruct (comparator ax x y <=? 0) eqn:E.
    + apply Z.leb_le in E. lia.
    + now rewrite IH.
Qed.

Lemma sortBy_sorted l : forall S,
  Permutation l S -> StronglySorted (before ax) S ->
  sortBy (comparator ax) l = S.
Proof.
  induction l as [|x l IH]; intros S HP HS.
  - apply Permutation_nil in HP. now subst.
  - assert (Hx : In x S) by (apply (Permutation_in _ HP); now left).
    apply in_split in Hx as (S1 & S2 & ->).
    apply Permutation_cons_app_inv in HP.
    apply sorted_split in HS as (H1 & H2 & H3).
    simpl. rewrite (IH _ HP H3). now apply insertBy_place.
Qed.

Lemma placeAll_pos line : forall i y,
  In y (placeAll ax line i) ->
  exists j, i <= j /\ posOf ax y = targetOf ax j.
Proof.
  induction line as [|t rest IH]; intros i y; simpl; [tauto|].
  intros [<-|H].
  - exists i. split; [lia|apply (law_pos_with _ _ L)].
  - destruct (IH _ _ H) as (j & Hj & E). exists j. split; [lia|assumption].
Qed.

Lemma placeAll_sorted line : forall i,
  StronglySorted (before ax) (placeAll ax line i).
Proof.
  induction line as [|t rest IH]; intros i; simpl; constructor.
  - apply IH.
  - apply Forall_forall. intros y Hy.
    destruct (placeAll_pos _ _ _ Hy) as (j & Hj & E).
    unfold before. rewrite (law_cmp _ _ L), (law_pos_with _ _ L), E.
    rewrite (law_target _ _ L). lia.
Qed.

End Sorting.

(** ** The tiles a move returns *)

Lemma NoDup_map_intro {A B} (f : A -> B) l :
  NoDup l -> (forall x y, In x l -> In y l -> f x = f y -> x = y) ->
  NoDup (map f l).
Proof.
  induction l as [|a l IH]; simpl; intros Hnd Hinj; [constructor|].
  apply NoDup_cons_iff in Hnd as [Hn Hnd]. constructor.
  - intros Hin. apply in_map_iff in Hin as (x & E & Hx).
    assert (x = a) by (apply Hinj; auto). subst. tauto.
  - apply IH; auto.
Qed.

Lemma NoDup_of_map {A B} (f : A -> B) l : NoDup (map f l) -> NoDup l.
Proof.
  induction l as [|a l IH]; simpl; intros H; [constructor|].
  apply NoDup_cons_iff in H as [Hn H]. constructor; [|now apply IH].
  intros Hin. apply Hn. now apply in_map.
Qed.

Section Moved.

Variables (ax : Axis) (sign : Z).
Hypothesis L : AxisLaws ax sign.
Variable tiles : list TileData.
Hypothesis distinctIds : NoDup (map id tiles).
Hypothesis positive : forall t, In t tiles -> 0 < value t.

Lemma lineKept_origin k x :
  In x (lineKept ax tiles k) ->
  In x (lineTiles ax tiles k)
  \/ exists s t,
       In s (lineTiles ax tiles k) /\ In t (lineTiles ax tiles k)
       /\ x = mergeInto (value t * 2) s
       /\ value s = value t
       /\ In (id t) (lineGone ax tiles k).
Proof.
  unfold lineKept, lineGone, lineWalk. intros H. apply in_rev in H.
  apply mergeWalk_origin in H as [[]|[H|(s & t & H1 & H2 & H3 & H4 & H5)]].
  - now left.
  - right. exists s, t. destruct H2 as [H2|[H2 _]]; [|discriminate].
    repeat split; assumption.
Qed.

Lemma lineKept_source k x :
  In x (lineKept ax tiles k) ->
  exists s, In s tiles /\ lineOf ax s = k /\ id s = id x
            /\ lineOf ax x = k /\ posOf ax x = posOf ax s
            /\ (x = s \/ value x = 2 * value s).
Proof.
  intros H. apply lineKept_origin in H as [H|(s & t & H1 & H2 & -> & H4 & H5)].
  - apply lineTiles_In in H as [H1 H2]. exists x. repeat split; auto.
  - apply lineTiles_In in H1 as [H1 H1']. exists s.
    rewrite (law_line_merge _ _ L), (law_pos_merge _ _ L).
    cbn [mergeInto id value]. repeat split; auto. right. lia.
Qed.

Lemma lineOut_source k a :
  In a (lineOut ax tiles k) ->
  exists s, In s tiles /\ lineOf ax s = k /\ id s = id a
            /\ lineOf ax a = k
            /\ (value a = value s \/ value a = 2 * value s).
Proof.
  intros H. apply placeAll_In in H as (n & x & Hn & ->).
  apply nth_error_In in Hn.
  destruct (lineKept_source k x Hn) as (s & H1 & H2 & H3 & H4 & H5 & H6).
  exists s.
  rewrite (law_id_with _ _ L), (law_line_with _ _ L), (law_value_with _ _ L).
  repeat split; auto. destruct H6 as [->|H6]; auto.
Qed.

Lemma fate_cases t :
  fate ax tiles t = []
  \/ exists a, fate ax tiles t = [a] /\ id a = id t
               /\ In a (lineOut ax tiles (lineOf ax t)).
Proof.
  unfold fate.
  destruct (find _ _) as [a|] eqn:E; [right|now left].
  apply find_some in E as [H1 H2]. apply Z.eqb_eq in H2. now exists a.
Qed.

Lemma fate_of_out k a :
  In a (lineOut ax tiles k) ->
  exists u, In u tiles /\ lineOf ax u = k /\ id u = id a
            /\ fate ax tiles u = [a].
Proof.
  intros H.
  destruct (lineOut_id_in ax sign L tiles k a H) as (u & H1 & H2 & H3).
  exists u. repeat split; auto. unfold fate. rewrite H2, H3.
  rewrite (find_id_unique (lineOut ax tiles k) a); auto.
  apply (lineOut_NoDup ax sign L tiles distinctIds).
Qed.

Lemma movedTiles_In a :
  In a (movedTiles ax tiles) <-> In a (lineOut ax tiles (lineOf ax a)).
Proof.
  unfold movedTiles. rewrite in_flat_map. split.
  - intros (t & Ht & Ha).
    destruct (fate_cases t) as [E|(a' & E & H1 & H2)]; rewrite E in Ha.
    + destruct Ha.
    + destruct Ha as [<-|[]].
      destruct (lineOut_source _ _ H2) as (s & _ & _ & _ & -> & _).
      assumption.
  - intros H. destruct (fate_of_out _ _ H) as (u & H1 & H2 & H3 & H4).
    exists u. split; [assumption|]. rewrite H4. now left.
Qed.

Lemma movedTiles_line k a :
  In a (lineOut ax tiles k) -> lineOf ax a = k.
Proof.
  intros H. now destruct (lineOut_source _ _ H) as (s & _ & _ & _ & -> & _).
Qed.

Lemma movedTiles_source a :
  In a (movedTiles ax tiles) ->
  exists s, In s tiles /\ id s = id a /\ lineOf ax s = lineOf ax a
            /\ (value a = value s \/ value a = 2 * value s).
Proof.
  intros H. apply movedTiles_In in H.
  destruct (lineOut_source _ _ H) as (s & H1 & H2 & H3 & H4 & H5).
  exists s. repeat split; auto.
Qed.

Lemma movedTiles_ids : NoDup (map id (movedTiles ax tiles)).
Proof.
  unfold movedTiles.
  assert (H : forall l,
    NoDup (map id l) ->
    NoDup (map id (flat_map (fate ax tiles) l))
    /\ forall i, In i (map id (flat_map (fate ax tiles) l)) -> In i (map id l)).
  { induction l as [|t l IH]; simpl; intros Hnd.
    - split; [constructor|tauto].
    - apply NoDup_cons_iff in Hnd as [Hn Hnd].
      destruct (IH Hnd) as [I1 I2].
      destruct (fate_cases t) as [E|(a & E & H1 & _)]; rewrite E; simpl.
      + split; [assumption|]. intros i Hi. right. now apply I2.
      + rewrite H1. split.
        * constructor; [|assumption]. intros Hin. apply Hn. now apply I2.
        * intros i [<-|Hi]; [now left|right; now apply I2]. }
  now apply H.
Qed.


Lemma movedTiles_positive a : In a (movedTiles ax tiles) -> 0 < value a.
Proof.
  intros H. destruct (movedTiles_source _ H) as (s & H1 & _ & _ & H2).
  specialize (positive _ H1). lia.
Qed.

Lemma movedTiles_filter k :
  Permutation (filter (fun tile => lineOf ax tile =? k) (movedTiles ax tiles))
              (lineOut ax tiles k).
Proof.
  apply NoDup_Permutation.
  - apply NoDup_filter. apply (NoDup_of_map id). apply movedTiles_ids.
  - apply (NoDup_of_map id).
    apply (lineOut_NoDup ax sign L tiles distinctIds).
  - intros a. rewrite filter_In, Z.eqb_eq, movedTiles_In. split.
    + intros [H <-]. assumption.
    + intros H. rewrite (movedTiles_line _ _ H). now split.
Qed.

Lemma movedTiles_lineTiles k :
  lineTiles ax (movedTiles ax tiles) k = lineOut ax tiles k.
Proof.
  unfold lineTiles. apply (sortBy_sorted ax sign L).
  - apply movedTiles_filter.
  - apply (placeAll_sorted ax sign L).
Qed.

Lemma gone_not_moved k i :
  In i (lineGone ax tiles k) -> ~ In i (map id (movedTiles ax tiles)).
Proof.
  intros Hi Hin. apply in_map_iff in Hin as (a & E & Ha).
  destruct (lineGone_id_in ax tiles k i Hi) as (u & Hu & Hl & Eu).
  destruct (movedTiles_source a Ha) as (s & Hs & Es & Ls & _).
  assert (s = u) by (eapply NoDup_map_inj; eauto; congruence). subst s.
  apply movedTiles_In in Ha.
  rewrite <- Ls, Hl in Ha. apply (in_map id) in Ha. rewrite E in Ha.
  revert Hi.
  apply (NoDup_app_disjoint _ _
           (lineOut_gone_NoDup ax sign L tiles distinctIds k) _ Ha).
Qed.

End Moved.

(** ** Moves that change nothing *)

Lemma existsb_false {A} (f : A -> bool) l :
  existsb f l = false <-> forall x, In x l -> f x = false.
Proof.
  induction l as [|a l IH]; simpl.
  - split; [tauto|reflexivity].
  - rewrite orb_false_iff, IH. split.
    + intros [H1 H2] x [<-|Hx]; auto.
    + intros H. split; [apply H; now left|intros; apply H; now right].
Qed.

Lemma sumZ_zero {A} (f : A -> Z) l :
  (forall x, In x l -> f x = 0) -> sumZ (map f l) = 0.
Proof.
  induction l as [|a l IH]; simpl; intros H; [reflexivity|].
  rewrite H by now left. rewrite IH; [reflexivity|].
  intros; apply H; now right.
Qed.

Lemma flat_map_single {A} (g : A -> list A) l :
  (forall x, In x l -> g x = [x]) -> flat_map g l = l.
Proof.
  induction l as [|a l IH]; simpl; intros H; [reflexivity|].
  rewrite H by now left. simpl. rewrite IH; [reflexivity|].
  intros; apply H; now right.
Qed.

Section Idle.

Variables (ax : Axis) (sign : Z).
Hypothesis L : AxisLaws ax sign.
Variable tiles : list TileData.
Hypothesis distinctIds : NoDup (map id tiles).
Hypothesis positive : forall t, In t tiles -> 0 < value t.
Hypothesis inLines : forall t, In t tiles -> 0 <= lineOf ax t < GRID_SIZE.

Lemma lineMoved_false k :
  lineMoved ax tiles k = false ->
  lineWalk ax tiles k = (rev (lineTiles ax tiles k), [], 0)
  /\ lineOut ax tiles k = lineTiles ax tiles k.
Proof.
  unfold lineMoved. rewrite orb_false_iff, negb_false_iff, Z.eqb_eq.
  intros [H1 H2].
  assert (Hg : lineGone ax tiles k = []).
  { destruct (lineGone ax tiles k); [reflexivity|simpl in H1; lia]. }
  assert (Hw : lineWalk ax tiles k = (rev (lineTiles ax tiles k), [], 0)).
  { unfold lineWalk. rewrite (mergeWalk_gone_nil _ _ _ Hg).
    now rewrite app_nil_r. }
  split; [assumption|].
  unfold lineOut. unfold lineKept in *. rewrite Hw in *. simpl in *.
  rewrite rev_involutive in *. now apply (placeAll_idle ax sign L).
Qed.

Lemma idle_move :
  movedFlag ax tiles = false ->
  movedTiles ax tiles = tiles /\ movedScore ax tiles = 0.
Proof.
  unfold movedFlag. rewrite existsb_false. intros H. split.
  - apply flat_map_single. intros t Ht. unfold fate.
    assert (Hk : In (lineOf ax t) (range 0 GRID_SIZE))
      by (apply range_In; now apply inLines).
    destruct (lineMoved_false _ (H _ Hk)) as [_ ->].
    rewrite find_id_unique; [reflexivity| |].
    + now apply lineTiles_NoDup.
    + apply lineTiles_In. now split.
  - apply sumZ_zero. intros k Hk.
    destruct (lineMoved_false _ (H _ Hk)) as [Hw _].
    unfold lineScore. now rewrite Hw.
Qed.

(** A move that reports [moved] has deleted a tile or displaced one. *)
Lemma moved_changes :
  movedFlag ax tiles = true -> ~ keepsAll tiles (movedTiles ax tiles).
Proof.
  unfold movedFlag. intros H Hkeep.
  apply existsb_exists in H as (k & Hk & H).
  unfold lineMoved in H.
  destruct (lineGone ax tiles k) as [|i gone] eqn:Hg.
  - (* a tile sits at a coordinate other than its target *)
    simpl in H.
    assert (Hw : lineWalk ax tiles k = (rev (lineTiles ax tiles k), [], 0)).
    { unfold lineWalk. rewrite (mergeWalk_gone_nil _ _ _ Hg).
      now rewrite app_nil_r. }
    assert (Hkept : lineKept ax tiles k = lineTiles ax tiles k).
    { unfold lineKept. rewrite Hw. simpl. apply rev_involutive. }
    rewrite Hkept in H.
    apply misplaced_true in H as (n & x & Hn & Hp).
    set (a0 := withPos ax x (targetOf ax (0 + Z.of_nat n))) in *.
    assert (Hout : In a0 (lineOut ax tiles k)).
    { apply nth_error_In with (n := n). unfold lineOut.
      rewrite placeAll_nth, Hkept, Hn. reflexivity. }
    assert (Hx : In x tiles).
    { apply nth_error_In in Hn. now apply lineTiles_In in Hn. }
    assert (Hm : In a0 (movedTiles ax tiles)).
    { apply (movedTiles_In ax sign L tiles distinctIds).
      now rewrite (movedTiles_line ax sign L tiles k _ Hout). }
    destruct (Hkeep x Hx) as (a & Ha & Eid & _ & Epos).
    assert (a = a0).
    { apply (NoDup_map_inj id (movedTiles ax tiles));
        [apply (movedTiles_ids ax tiles distinctIds)|assumption|assumption|].
      rewrite Eid. unfold a0. symmetry. apply (law_id_with _ _ L). }
    subst a. apply (law_position _ _ L) in Epos as [_ Epos].
    apply Hp. rewrite <- Epos. apply (law_pos_with _ _ L).
  - (* a tile was merged away *)
    assert (Hi : In i (lineGone ax tiles k)) by (rewrite Hg; now left).
    destruct (lineGone_id_in ax tiles k i Hi) as (u & Hu & Hl & <-).
    destruct (Hkeep u Hu) as (a & Ha & Eid & _).
    apply (gone_not_moved ax sign L tiles distinctIds k (id u) Hi).
    rewrite <- Eid. now apply in_map.
Qed.

Lemma keepsAll_refl (l : list TileData) : keepsAll l l.
Proof. intros t Ht. exists t. repeat split; assumption. Qed.

(** After a move the lines are compact: the move again finds every tile in
    place, and merges what lies next to a tile of equal value. *)
Lemma again_idle :
  quiet ax (movedTiles ax tiles) ->
  movedFlag ax (movedTiles ax tiles) = false.
Proof.
  intros Hq. unfold movedFlag. apply existsb_false. intros k _.
  unfold lineMoved, lineGone, lineKept, lineWalk.
  rewrite (movedTiles_lineTiles ax sign L tiles distinctIds).
  rewrite mergeWalk_idle.
  - simpl. rewrite rev_app_distr, rev_involutive. simpl.
    apply (misplaced_placed ax sign L).
  - simpl. intros x y Hxy.
    destruct (nextTo_In _ _ _ Hxy) as [Hx Hy].
    assert (Lx := movedTiles_line ax sign L tiles k _ Hx).
    assert (Ly := movedTiles_line ax sign L tiles k _ Hy).
    assert (Mx : In x (movedTiles ax tiles)).
    { apply (movedTiles_In ax sign L tiles distinctIds). now rewrite Lx. }
    assert (My : In y (movedTiles ax tiles)).
    { apply (movedTiles_In ax sign L tiles distinctIds). now rewrite Ly. }
    apply nextTo_nth_inv in Hxy as (n & Hn1 & Hn2).
    unfold lineOut in Hn1, Hn2. rewrite placeAll_nth in Hn1, Hn2.
    destruct (nth_error _ n) as [x0|]; [|discriminate].
    destruct (nth_error _ (S n)) as [y0|]; [|discriminate].
    cbn [option_map] in Hn1, Hn2. injection Hn1 as Ex. injection Hn2 as Ey.
    assert (Px : posOf ax x = targetOf ax (0 + Z.of_nat n))
      by (rewrite <- Ex; apply (law_pos_with _ _ L)).
    assert (Py : posOf ax y = targetOf ax (0 + Z.of_nat (S n)))
      by (rewrite <- Ey; apply (law_pos_with _ _ L)).
    assert (Hd : sign * (posOf ax x - posOf ax y) = -1)
      by (rewrite Px, Py, (law_target _ _ L); lia).
    destruct (law_sign _ _ L) as [S|S]; rewrite S in Hd.
    + apply (Hq _ _ Mx My); [congruence|lia].
    + intros Ev. apply (Hq _ _ My Mx); [congruence|lia|congruence].
Qed.

End Idle.

(** ** Sums by lines *)

Lemma totalValue_perm l1 l2 :
  Permutation l1 l2 -> totalValue l1 = totalValue l2.
Proof.
  induction 1; rewrite ?totalValue_cons in *; lia.
Qed.

Lemma sumZ_add {A} (f g : A -> Z) l :
  sumZ (map (fun k => f k + g k) l) = sumZ (map f l) + sumZ (map g l).
Proof. induction l as [|a l IH]; simpl; lia. Qed.

Lemma sumZ_pick (a v : Z) ks :
  NoDup ks -> In a ks ->
  sumZ (map (fun k => if a =? k then v else 0) ks) = v.
Proof.
  induction ks as [|k ks IH]; simpl; [tauto|].
  intros Hnd Hin. apply NoDup_cons_iff in Hnd as [Hn Hnd].
  destruct (a =? k) eqn:E.
  - apply Z.eqb_eq in E. subst. rewrite sumZ_zero; [lia|].
    intros x Hx. destruct (k =? x) eqn:E'; [|reflexivity].
    apply Z.eqb_eq in E'. subst. tauto.
  - apply Z.eqb_neq in E. destruct Hin as [->|Hin]; [tauto|].
    rewrite IH; auto.
Qed.

Lemma sum_by_lines ax ks l :
  NoDup ks -> (forall t, In t l -> In (lineOf ax t) ks) ->
  totalValue l
  = sumZ (map (fun k => totalValue (filter (fun tile => lineOf ax tile =? k) l)) ks).
Proof.
  intros Hnd. induction l as [|t l IH]; intros Hin.
  - simpl. now rewrite sumZ_zero.
  - rewrite totalValue_cons, IH by (intros; apply Hin; now right).
    rewrite <- (sumZ_pick (lineOf ax t) (value t) ks Hnd) at 1
      by (apply Hin; now left).
    rewrite <- sumZ_add. f_equal. apply map_ext. intros k. simpl.
    destruct (lineOf ax t =? k); [now rewrite totalValue_cons|lia].
Qed.

Section Conservation.

Variables (ax : Axis) (sign : Z).
Hypothesis L : AxisLaws ax sign.
Variable tiles : list TileData.
Hypothesis distinctIds : NoDup (map id tiles).
Hypothesis positive : forall t, In t tiles -> 0 < value t.
Hypothesis inLines : forall t, In t tiles -> 0 <= lineOf ax t < GRID_SIZE.

Lemma movedTiles_inLines a :
  In a (movedTiles ax tiles) -> 0 <= lineOf ax a < GRID_SIZE.
Proof.
  intros H.
  destruct (movedTiles_source ax sign L tiles distinctIds a H)
    as (s & H1 & _ & <- & _).
  now apply inLines.
Qed.

Lemma lineOut_total k :
  totalValue (lineOut ax tiles k)
  = totalValue (filter (fun tile => lineOf ax tile =? k) tiles).
Proof.
  unfold totalValue at 1. unfold lineOut.
  rewrite (placeAll_values ax sign L). fold (totalValue (lineKept ax tiles k)).
  unfold lineKept, lineWalk. rewrite totalValue_rev, mergeWalk_total.
  change (totalValue []) with 0. rewrite Z.add_0_r.
  apply totalValue_perm, lineTiles_perm.
Qed.

Lemma movedTiles_total :
  totalValue (movedTiles ax tiles) = totalValue tiles.
Proof.
  rewrite (sum_by_lines ax (range 0 GRID_SIZE) (movedTiles ax tiles)).
  - rewrite (sum_by_lines ax (range 0 GRID_SIZE) tiles).
    + f_equal. apply map_ext. intros k. rewrite <- lineOut_total.
      apply totalValue_perm.
      apply (movedTiles_filter ax sign L tiles distinctIds).
    + apply range_NoDup.
    + intros t Ht. apply range_In. now apply inLines.
  - apply range_NoDup.
  - intros t Ht. apply range_In. now apply movedTiles_inLines.
Qed.

(** ** Neighbours after a move *)

Lemma lineKept_neighbours k :
  neighboursOK (lineTiles ax tiles k) (lineKept ax tiles k).
Proof.
  unfold lineKept, lineWalk. apply mergeWalk_neighbours.
  - rewrite app_nil_r. now apply lineTiles_NoDup.
  - auto.
  - intros x y (l1 & l2 & E). destruct l1; discriminate.
  - intros i [=].
  - intros l [=].
Qed.

Lemma doubled_placed k x p :
  doubled (lineTiles ax tiles k) x -> doubled tiles (withPos ax x p).
Proof.
  intros (s & H1 & H2 & H3). exists s.
  rewrite (law_id_with _ _ L), (law_value_with _ _ L).
  apply lineTiles_In in H1. tauto.
Qed.

Lemma lineOut_at k a :
  In a (lineOut ax tiles k) ->
  exists n x, nth_error (lineKept ax tiles k) n = Some x
              /\ a = withPos ax x (targetOf ax (Z.of_nat n))
              /\ posOf ax a = targetOf ax (Z.of_nat n).
Proof.
  intros H. apply placeAll_In in H as (n & x & H1 & ->).
  exists n, x. repeat split; auto. apply (law_pos_with _ _ L).
Qed.

Lemma movedTiles_neighbours a b :
  In a (movedTiles ax tiles) -> In b (movedTiles ax tiles) ->
  lineOf ax a = lineOf ax b -> posOf ax b = posOf ax a + 1 ->
  value a = value b ->
  doubled tiles a \/ doubled tiles b.
Proof.
  intros Ha Hb Hl Hp Hv.
  apply (movedTiles_In ax sign L tiles distinctIds) in Ha, Hb.
  rewrite <- Hl in Hb. set (k := lineOf ax a) in *.
  destruct (lineOut_at k a Ha) as (n & x & Hn & Ea & Pa).
  destruct (lineOut_at k b Hb) as (m & y & Hm & Eb & Pb).
  assert (Hd : Z.of_nat m - Z.of_nat n = sign).
  { rewrite <- (law_target _ _ L), <- Pa, <- Pb, Hp.
    destruct (law_sign _ _ L) as [-> | ->]; lia. }
  assert (Hvx : value x = value y).
  { rewrite Ea, Eb, !(law_value_with _ _ L) in Hv. exact Hv. }
  destruct (law_sign _ _ L) as [S|S]; rewrite S in Hd.
  - replace m with (Datatypes.S n) in Hm by lia.
    destruct (lineKept_neighbours k x y (nextTo_nth _ _ _ _ Hn Hm) Hvx) as [D|D];
      [left; rewrite Ea|right; rewrite Eb]; now apply (doubled_placed k).
  - replace n with (Datatypes.S m) in Hn by lia.
    destruct (lineKept_neighbours k y x (nextTo_nth _ _ _ _ Hm Hn) (eq_sym Hvx))
      as [D|D];
      [right; rewrite Eb|left; rewrite Ea]; now apply (doubled_placed k).
Qed.

(** ** Positions after a move *)

Lemma movedTiles_positions : NoDup (map positionOf (movedTiles ax tiles)).
Proof.
  apply NoDup_map_intro.
  - apply (NoDup_of_map id). apply (movedTiles_ids ax tiles distinctIds).
  - intros a b Ha Hb E. apply (law_position _ _ L) in E as [El Ep].
    apply (movedTiles_In ax sign L tiles distinctIds) in Ha, Hb.
    rewrite <- El in Hb. set (k := lineOf ax a) in *.
    apply In_nth_error in Ha as (n & Hn), Hb as (m & Hm).
    assert (Pa : posOf ax a = targetOf ax (0 + Z.of_nat n)).
    { unfold lineOut in Hn. rewrite placeAll_nth in Hn.
      destruct (nth_error _ n); [|discriminate]. injection Hn as <-.
      apply (law_pos_with _ _ L). }
    assert (Pb : posOf ax b = targetOf ax (0 + Z.of_nat m)).
    { unfold lineOut in Hm. rewrite placeAll_nth in Hm.
      destruct (nth_error _ m); [|discriminate]. injection Hm as <-.
      apply (law_pos_with _ _ L). }
    assert (n = m).
    { assert (H := law_target _ _ L (0 + Z.of_nat n) (0 + Z.of_nat m)).
      rewrite <- Pa, <- Pb, Ep, Z.sub_diag, Z.mul_0_r in H. lia. }
    subst. congruence.
Qed.

(** ** Identities after a move *)


Lemma kept_moved k x :
  In x (lineKept ax tiles k) ->
  exists a, In a (movedTiles ax tiles) /\ id a = id x /\ value a = value x.
Proof.
  intros H. apply In_nth_error in H as (n & Hn).
  exists (withPos ax x (targetOf ax (0 + Z.of_nat n))).
  rewrite (law_id_with _ _ L), (law_value_with _ _ L).
  repeat split; auto.
  assert (Ho : In (withPos ax x (targetOf ax (0 + Z.of_nat n)))
                  (lineOut ax tiles k)).
  { apply nth_error_In with (n := n). unfold lineOut.
    now rewrite placeAll_nth, Hn. }
  apply (movedTiles_In ax sign L tiles distinctIds).
  now rewrite (movedTiles_line ax sign L tiles k _ Ho).
Qed.



End Conservation.

(** ** Dense grids *)

Lemma arraySet_length {A} (a : list A) i v :
  (i < length a)%nat -> length (arraySet a i v) = length a.
Proof.
  revert i. induction a as [|x a IH]; intros i H; simpl in *; [lia|].
  destruct i as [|i]; simpl; [reflexivity|]. rewrite IH; [reflexivity|lia].
Qed.

Lemma arraySet_nth_same {A} (a : list A) i v d :
  (i < length a)%nat -> nth i (arraySet a i v) d = v.
Proof.
  revert i. induction a as [|x a IH]; intros i H; simpl in *; [lia|].
  destruct i as [|i]; simpl; [reflexivity|]. apply IH. lia.
Qed.

Lemma arraySet_nth_other {A} (a : list A) i j v d :
  i <> j -> nth j (arraySet a i v) d = nth j a d.
Proof.
  revert i j. induction a as [|x a IH]; intros i j H.
  - destruct i as [|i]; simpl; [|reflexivity].
    destruct j as [|j]; [congruence|]. now destruct j.
  - destruct i as [|i], j as [|j]; simpl; try congruence; try reflexivity.
    apply IH. congruence.
Qed.

Lemma arraySet_In {A} (a : list A) i v r :
  In r (arraySet a i v) -> r = v \/ In r a.
Proof.
  revert i. induction a as [|x a IH]; intros i.
  - destruct i; simpl; intuition.
  - destruct i as [|i]; simpl.
    + intuition.
    + intros [->|H]; auto. destruct (IH _ H); auto.
Qed.

Lemma createEmptyGrid_shaped size : wellShaped (Z.to_nat size) (createEmptyGrid size).
Proof.
  unfold createEmptyGrid. split.
  - apply repeat_length.
  - intros r Hr. apply repeat_spec in Hr. subst. apply repeat_length.
Qed.

Lemma cell_createEmptyGrid size r c : cell (createEmptyGrid size) r c = 0.
Proof.
  unfold cell, createEmptyGrid.
  destruct (Nat.lt_ge_cases (Z.to_nat r) (Z.to_nat size)) as [H|H].
  - rewrite nth_repeat_lt by assumption.
    destruct (Nat.lt_ge_cases (Z.to_nat c) (Z.to_nat size)) as [H'|H'].
    + now rewrite nth_repeat_lt.
    + rewrite nth_overflow; [reflexivity|]. now rewrite repeat_length.
  - rewrite (nth_overflow (repeat _ _)) by now rewrite repeat_length.
    now destruct (Z.to_nat c).
Qed.

Lemma nth_shaped n (grid : Grid) i :
  wellShaped n grid -> (i < n)%nat -> length (nth i grid []) = n.
Proof.
  intros [H1 H2] Hi. apply H2. apply nth_In. lia.
Qed.

Lemma writeTile_shaped size grid tile :
  wellShaped (Z.to_nat size) grid ->
  wellShaped (Z.to_nat size) (writeTile size grid tile).
Proof.
  intros Hs. unfold writeTile, inGrid.
  destruct (_ && _) eqn:E; [|assumption].
  rewrite !andb_true_iff, !Z.leb_le, !Z.ltb_lt in E.
  assert (Hr : (Z.to_nat (row tile) < Z.to_nat size)%nat) by lia.
  assert (Hc : (Z.to_nat (col tile) < Z.to_nat size)%nat) by lia.
  destruct Hs as [H1 H2]. unfold setCell. split.
  - rewrite arraySet_length; lia.
  - intros r Hin. apply arraySet_In in Hin as [->|Hin]; [|now apply H2].
    rewrite arraySet_length.
    + apply (nth_shaped _ grid); [now split|assumption].
    + rewrite (nth_shaped (Z.to_nat size) grid); [assumption|now split|assumption].
Qed.

Lemma fold_writeTile_shaped size tiles : forall grid,
  wellShaped (Z.to_nat size) grid ->
  wellShaped (Z.to_nat size) (fold_left (writeTile size) tiles grid).
Proof.
  induction tiles as [|t tiles IH]; intros grid H; simpl; [assumption|].
  apply IH. now apply writeTile_shaped.
Qed.

Lemma tilesToGrid_shaped tiles size :
  wellShaped (Z.to_nat size) (tilesToGrid tiles size).
Proof. apply fold_writeTile_shaped, createEmptyGrid_shaped. Qed.

Lemma tilesToGrid_snoc tiles t size :
  tilesToGrid (tiles ++ [t]) size = writeTile size (tilesToGrid tiles size) t.
Proof. unfold tilesToGrid. now rewrite fold_left_app. Qed.

Lemma fold_writeTile_filter size tiles : forall grid,
  fold_left (writeTile size) tiles grid
  = fold_left (writeTile size) (filter (inGrid size) tiles) grid.
Proof.
  induction tiles as [|t tiles IH]; intros grid; simpl; [reflexivity|].
  destruct (inGrid size t) eqn:E; simpl.
  - apply IH.
  - unfold writeTile at 2. rewrite E. apply IH.
Qed.

Lemma cell_writeTile size grid tile r c :
  wellShaped (Z.to_nat size) grid ->
  0 <= r -> 0 <= c ->
  cell (writeTile size grid tile) r c
  = if inGrid size tile && (row tile =? r) && (col tile =? c)
    then value tile else cell grid r c.
Proof.
  intros Hs Hr Hc. unfold writeTile.
  destruct (inGrid size tile) eqn:E; [|reflexivity]. simpl.
  unfold inGrid in E.
  rewrite !andb_true_iff, !Z.leb_le, !Z.ltb_lt in E.
  assert (Hr' : (Z.to_nat (row tile) < length grid)%nat)
    by (destruct Hs as [-> _]; lia).
  assert (Hc' : (Z.to_nat (col tile) < length (nth (Z.to_nat (row tile)) grid []))%nat).
  { rewrite (nth_shaped (Z.to_nat size) grid); [lia|assumption|lia]. }
  unfold cell, setCell.
  destruct (row tile =? r) eqn:Er; simpl.
  - apply Z.eqb_eq in Er. subst r.
    rewrite arraySet_nth_same by assumption.
    destruct (col tile =? c) eqn:Ec.
    + apply Z.eqb_eq in Ec. subst c. now rewrite arraySet_nth_same.
    + apply Z.eqb_neq in Ec. rewrite arraySet_nth_other; [reflexivity|lia].
  - apply Z.eqb_neq in Er. rewrite arraySet_nth_other; [reflexivity|lia].
Qed.

(** A cell that a tile with a non-zero value occupies does not read 0. *)
Lemma cell_occupied size tiles t :
  (forall u, In u tiles -> value u <> 0) ->
  In t tiles -> inGrid size t = true ->
  cell (tilesToGrid tiles size) (row t) (col t) <> 0.
Proof.
  intros Hnz Hin Hg.
  assert (Hrc : 0 <= row t /\ 0 <= col t).
  { unfold inGrid in Hg. rewrite !andb_true_iff, !Z.leb_le in Hg. tauto. }
  revert Hnz Hin. induction tiles as [|u tiles IH] using rev_ind; [intros _ []|].
  intros Hnz Hin. rewrite tilesToGrid_snoc.
  rewrite cell_writeTile by (try apply tilesToGrid_shaped; tauto).
  destruct (inGrid size u && (row u =? row t) && (col u =? col t)) eqn:E.
  - apply Hnz. apply in_or_app. right. now left.
  - apply in_app_or in Hin as [Hin|[->|[]]].
    + apply IH; [|assumption]. intros; apply Hnz, in_or_app; now left.
    + rewrite Hg, !Z.eqb_refl in E. discriminate.
Qed.

(** A cell that no tile occupies reads 0. *)
Lemma cell_free size tiles r c :
  0 <= r -> 0 <= c ->
  (forall u, In u tiles -> ~ (row u = r /\ col u = c)) ->
  cell (tilesToGrid tiles size) r c = 0.
Proof.
  intros Hr Hc. induction tiles as [|u tiles IH] using rev_ind; intros Hfree.
  - apply cell_createEmptyGrid.
  - rewrite tilesToGrid_snoc.
    rewrite cell_writeTile by (try apply tilesToGrid_shaped; assumption).
    destruct (inGrid size u && (row u =? r) && (col u =? c)) eqn:E.
    + rewrite !andb_true_iff, !Z.eqb_eq in E. exfalso.
      apply (Hfree u); [apply in_or_app; right; now left|tauto].
    + apply IH. intros v Hv. apply Hfree, in_or_app. now left.
Qed.

(** ** The spawner *)

Lemma flat_map_if {A B} (p : A -> bool) (f : A -> B) l :
  flat_map (fun a => if p a then [f a] else []) l = map f (filter p l).
Proof.
  induction l as [|a l IH]; simpl; [reflexivity|].
  destruct (p a); simpl; now rewrite IH.
Qed.

Lemma emptyInRow_eq grid r :
  emptyInRow grid r
  = map (mkCell r) (filter (fun c => cell grid r c =? 0) (range 0 GRID_SIZE)).
Proof. apply flat_map_if. Qed.

Lemma emptyInRow_In grid r p :
  In p (emptyInRow grid r) <->
  cellRow p = r /\ 0 <= cellCol p < GRID_SIZE /\ cell grid r (cellCol p) = 0.
Proof.
  rewrite emptyInRow_eq, in_map_iff. split.
  - intros (c & <- & Hc). apply filter_In in Hc as [H1 H2].
    apply range_In in H1. apply Z.eqb_eq in H2. simpl. tauto.
  - intros (H1 & H2 & H3). exists (cellCol p). split.
    + destruct p. simpl in *. now subst.
    + apply filter_In. split; [now apply range_In|now apply Z.eqb_eq].
Qed.

Lemma emptyInRow_NoDup grid r : NoDup (emptyInRow grid r).
Proof.
  rewrite emptyInRow_eq. apply Finite.Injective_map_NoDup.
  - intros a b [=]. assumption.
  - apply NoDup_filter, range_NoDup.
Qed.

Lemma NoDup_app_intro {A} (l1 l2 : list A) :
  NoDup l1 -> NoDup l2 -> (forall x, In x l1 -> ~ In x l2) -> NoDup (l1 ++ l2).
Proof.
  induction l1 as [|a l1 IH]; simpl; intros H1 H2 Hd; [assumption|].
  apply NoDup_cons_iff in H1 as [Hn H1]. constructor.
  - intros Hin. apply in_app_or in Hin as [Hin|Hin]; [tauto|].
    apply (Hd a); auto.
  - apply IH; auto.
Qed.

Lemma emptyRows_NoDup grid rows :
  NoDup rows -> NoDup (flat_map (emptyInRow grid) rows).
Proof.
  induction rows as [|r rows IH]; simpl; intros H; [constructor|].
  apply NoDup_cons_iff in H as [Hn H].
  apply NoDup_app_intro; [apply emptyInRow_NoDup|now apply IH|].
  intros p Hp Hin. apply emptyInRow_In in Hp as [Hp _].
  apply in_flat_map in Hin as (r' & Hr' & Hin).
  apply emptyInRow_In in Hin as [Hin _]. congruence.
Qed.

Lemma length_zero_iff {A} (l : list A) :
  (Z.of_nat (length l) =? 0) = true <-> l = [].
Proof.
  rewrite Z.eqb_eq. destruct l; simpl; split; intros H; try reflexivity;
    try discriminate; lia.
Qed.

Lemma emptyCellsOf_In grid p :
  In p (emptyCellsOf grid) <->
  (onBoard (cellRow p) (cellCol p)
   /\ cell grid (cellRow p) (cellCol p) = 0
   /\ (cellRow p = 0 \/ emptyInRow grid 0 = [])).
Proof.
  unfold emptyCellsOf, onBoard.
  destruct (Z.of_nat (length (emptyInRow grid 0)) =? 0) eqn:E.
  - apply length_zero_iff in E. rewrite in_flat_map. split.
    + intros (r & Hr & Hp). apply range_In in Hr.
      apply emptyInRow_In in Hp as (H1 & H2 & H3). subst r.
      unfold GRID_SIZE in *. repeat split; auto; lia.
    + intros ((H1 & H2) & H3 & _). exists (cellRow p).
      assert (cellRow p <> 0).
      { intros E0. assert (Hin : In p (emptyInRow grid 0)).
        { apply emptyInRow_In. rewrite E0 in H3. tauto. }
        rewrite E in Hin. destruct Hin. }
      split; [apply range_In; lia|]. apply emptyInRow_In. tauto.
  - assert (Hne : emptyInRow grid 0 <> []).
    { intros H. apply length_zero_iff in H. congruence. }
    rewrite emptyInRow_In. unfold GRID_SIZE. split.
    + intros (H1 & H2 & H3). rewrite H1. repeat split; auto; lia.
    + intros ((H1 & H2) & H3 & [H4|H4]); [|tauto].
      rewrite H4 in *. tauto.
Qed.

Lemma emptyCellsOf_NoDup grid : NoDup (emptyCellsOf grid).
Proof.
  unfold emptyCellsOf. destruct (_ =? 0).
  - apply emptyRows_NoDup, range_NoDup.
  - apply emptyInRow_NoDup.
Qed.

Lemma emptyCellsOf_nil grid :
  emptyCellsOf grid = [] <->
  forall r c, onBoard r c -> cell grid r c <> 0.
Proof.
  split.
  - intros E r c Hb Hz.
    destruct (emptyInRow grid 0) as [|q top] eqn:Etop.
    + assert (Hin : In (mkCell r c) (emptyCellsOf grid)).
      { apply emptyCellsOf_In. simpl. auto. }
      rewrite E in Hin. destruct Hin.
    + assert (Hq : In q (emptyInRow grid 0)) by (rewrite Etop; now left).
      assert (Hin : In q (emptyCellsOf grid)).
      { apply emptyInRow_In in Hq as (H1 & H2 & H3).
        apply emptyCellsOf_In. unfold onBoard, GRID_SIZE in *.
        rewrite H1. repeat split; auto; lia. }
      rewrite E in Hin. destruct Hin.
  - intros H. destruct (emptyCellsOf grid) as [|p l] eqn:E; [reflexivity|].
    assert (Hin : In p (emptyCellsOf grid)) by (rewrite E; now left).
    apply emptyCellsOf_In in Hin as (H1 & H2 & _).
    exfalso. now apply (H _ _ H1).
Qed.

Lemma floor_index (u : Q) (n : Z) :
  (0 <= u)%Q -> (u < 1)%Q -> 0 < n ->
  0 <= Qfloor (u * inject_Z n) < n.
Proof.
  intros H0 H1 Hn. split.
  - change 0 with (Qfloor 0). apply Qfloor_resp_le.
    apply Qmult_le_0_compat; [assumption|].
    change (inject_Z 0 <= inject_Z n)%Q. rewrite <- Zle_Qle. lia.
  - rewrite Zlt_Qlt. eapply Qle_lt_trans; [apply Qfloor_le|].
    setoid_replace (inject_Z n) with (1 * inject_Z n)%Q at 2 by ring.
    apply Qmult_lt_compat_r; [|assumption].
    change (inject_Z 0 < inject_Z n)%Q. rewrite <- Zlt_Qlt. lia.
Qed.

Lemma addRandomTile_null tiles w w' :
  addRandomTile tiles w = Ok (None, w') <->
  emptyCellsOf (tilesToGrid tiles GRID_SIZE) = [] /\ w' = w.
Proof.
  unfold addRandomTile.
  destruct (Z.of_nat (length (emptyCellsOf (tilesToGrid tiles GRID_SIZE))) =? 0)
    eqn:E.
  - apply length_zero_iff in E. split.
    + intros [= <-]. now split.
    + intros [_ ->]. reflexivity.
  - split.
    + unfold Math_random, freshTileId.
      destruct (if _ <? 0 then None else nth_error _ _); discriminate.
    + intros [H _]. apply length_zero_iff in H. congruence.
Qed.

Lemma addRandomTile_some tiles w :
  randomOK w ->
  emptyCellsOf (tilesToGrid tiles GRID_SIZE) <> [] ->
  exists pos v,
    In pos (emptyCellsOf (tilesToGrid tiles GRID_SIZE))
    /\ (v = 2 \/ v = 4)
    /\ addRandomTile tiles w
       = Ok (Some {| tilesWithNew := tiles ++ [spawned w v pos];
                     newTile := spawned w v pos |},
             afterSpawn w).
Proof.
  intros Hr Hne. unfold addRandomTile.
  set (cells := emptyCellsOf (tilesToGrid tiles GRID_SIZE)) in *.
  destruct (Z.of_nat (length cells) =? 0) eqn:E.
  - apply length_zero_iff in E. contradiction.
  - apply Z.eqb_neq in E. unfold Math_random, freshTileId. cbn [nextTileId tape cursor].
    destruct (Hr (cursor w)) as [H0 H1].
    assert (Hi := floor_index _ (Z.of_nat (length cells)) H0 H1 ltac:(lia)).
    set (i := Qfloor _) in *.
    replace (i <? 0) with false by (symmetry; apply Z.ltb_ge; lia).
    destruct (nth_error cells (Z.to_nat i)) as [pos|] eqn:En.
    + exists pos, (if Qle_bool (9 # 10) (tape w (S (cursor w))) then 4 else 2).
      split; [now apply nth_error_In in En|]. split.
      * destruct (Qle_bool _ _); auto.
      * reflexivity.
    + apply nth_error_None in En. lia.
Qed.

(** ** The same move twice *)

Lemma positive_nonZero (tiles : list TileData) :
  (forall t, In t tiles -> 0 < value t) -> forall t, In t tiles -> value t <> 0.
Proof. intros H t Ht. specialize (H t Ht). lia. Qed.

Lemma sumZ_nonneg_zero {A} (f : A -> Z) l :
  (forall x, In x l -> 0 <= f x) -> sumZ (map f l) = 0 ->
  forall x, In x l -> f x = 0.
Proof.
  induction l as [|a l IH]; simpl; intros Hpos Hsum x; [tauto|].
  assert (Ha : 0 <= f a) by (apply Hpos; now left).
  assert (Hl : 0 <= sumZ (map f l)).
  { clear -Hpos. induction l as [|b l IH]; simpl; [lia|].
    assert (0 <= f b) by (apply Hpos; right; now left).
    assert (0 <= sumZ (map f l)); [|lia].
    apply IH. intros y [->|Hy]; apply Hpos; [now left|right; now right]. }
  intros [<-|Hx]; [lia|]. apply IH; auto. lia.
Qed.

Section Twice.

Variables (ax : Axis) (sign : Z).
Hypothesis L : AxisLaws ax sign.
Variable tiles : list TileData.
Hypothesis distinctIds : NoDup (map id tiles).
Hypothesis positive : forall t, In t tiles -> 0 < value t.
Hypothesis inLines : forall t, In t tiles -> 0 <= lineOf ax t < GRID_SIZE.

Lemma lineScore_zero k :
  In k (range 0 GRID_SIZE) -> movedScore ax tiles = 0 ->
  lineKept ax tiles k = lineTiles ax tiles k.
Proof.
  intros Hk Hs.
  assert (Hz : lineScore ax tiles k = 0).
  { apply (sumZ_nonneg_zero (lineScore ax tiles) (range 0 GRID_SIZE));
      [|exact Hs|exact Hk].
    intros k' _. unfold lineScore, lineWalk. apply mergeWalk_gained.
    intros t Ht. apply lineTiles_In in Ht as [Ht _]. now apply positive. }
  unfold lineScore, lineKept, lineWalk in *.
  assert (Hg : snd (fst (mergeWalk (lineTiles ax tiles k) [] None)) = []).
  { apply mergeWalk_gained; [|assumption].
    intros t Ht. apply lineTiles_In in Ht as [Ht _]. now apply positive. }
  rewrite (mergeWalk_gone_nil _ _ _ Hg). simpl.
  now rewrite app_nil_r, rev_involutive.
Qed.

(** A move that scores nothing leaves no equal neighbours. *)
Lemma score_zero_quiet :
  movedScore ax tiles = 0 -> quiet ax (movedTiles ax tiles).
Proof.
  intros Hs a b Ha Hb Hl Hp Hv.
  assert (Hraw : forall c, In c (movedTiles ax tiles) -> ~ doubled tiles c).
  { intros c Hc (s & H1 & H2 & H3).
    assert (Hk := movedTiles_inLines ax sign L tiles distinctIds inLines c Hc).
    apply (movedTiles_In ax sign L tiles distinctIds) in Hc.
    apply placeAll_In in Hc as (n & x & Hn & Ec).
    apply nth_error_In in Hn.
    rewrite lineScore_zero in Hn; [|now apply range_In|assumption].
    apply lineTiles_In in Hn as [Hx _].
    assert (s = x).
    { eapply NoDup_map_inj; eauto. rewrite H2, Ec.
      apply (law_id_with _ _ L). }
    subst s. rewrite Ec, (law_value_with _ _ L) in H3.
    specialize (positive _ Hx). lia. }
  destruct (movedTiles_neighbours ax sign L tiles distinctIds a b Ha Hb Hl Hp Hv)
    as [D|D]; [now apply (Hraw a)|now apply (Hraw b)].
Qed.

End Twice.


(** ** From well-formedness to the hypotheses of the engine *)

Lemma axisOf_laws dir : exists sign, AxisLaws (axisOf dir) sign.
Proof.
  destruct dir; simpl;
    [exists 1; apply leftAxis_laws | exists (-1); apply rightAxis_laws
    |exists 1; apply upAxis_laws | exists (-1); apply downAxis_laws].
Qed.

Lemma applyMove_axis dir tiles : applyMove dir tiles = moveAlong (axisOf dir) tiles.
Proof. now destruct dir. Qed.

Lemma wellFormed_regular ax sign tiles :
  AxisLaws ax sign -> wellFormed tiles = true ->
  NoDup (map id tiles)
  /\ (forall t, In t tiles -> 0 < value t)
  /\ (forall t, In t tiles -> 0 <= lineOf ax t < GRID_SIZE).
Proof.
  intros L H. apply wellFormed_spec in H as (H1 & H2 & H3 & H4).
  split; [assumption|]. split.
  - intros t Ht. now apply isPowerOfTwo_pos, H2.
  - intros t Ht. now apply (law_inGrid _ _ L), H1.
Qed.

Lemma applyMove_spec dir tiles :
  wellFormed tiles = true ->
  applyMove dir tiles
  = Ok {| updatedTiles := movedTiles (axisOf dir) tiles;
          scoreIncrease := movedScore (axisOf dir) tiles;
          moved := movedFlag (axisOf dir) tiles |}.
Proof.
  intros H. destruct (axisOf_laws dir) as [sign L].
  destruct (wellFormed_regular _ _ _ L H) as (H1 & H2 & H3).
  rewrite applyMove_axis.
  apply (moveAlong_spec _ _ L tiles H1 (positive_nonZero _ H2) H3).
Qed.

Lemma allCells_NoDup : NoDup allCells.
Proof.
  apply (distinctBy_NoDup samePosition); [apply samePosition_eq|reflexivity].
Qed.

Lemma allCells_In r c : In (r, c) allCells <-> onBoard r c.
Proof.
  unfold allCells, onBoard. rewrite in_flat_map. split.
  - intros (r' & Hr & H). apply in_map_iff in H as (c' & [= -> ->] & Hc).
    apply range_In in Hr, Hc. tauto.
  - intros [Hr Hc]. exists r. split; [now apply range_In|].
    apply in_map. now apply range_In.
Qed.

Lemma inGrid_onBoard t : inGrid GRID_SIZE t = true <-> onBoard (row t) (col t).
Proof.
  unfold inGrid, onBoard.
  rewrite !andb_true_iff, !Z.leb_le, !Z.ltb_lt. tauto.
Qed.

Lemma wellFormed_length tiles :
  wellFormed tiles = true -> Z.of_nat (length tiles) <= 16.
Proof.
  intros H. apply wellFormed_spec in H as (H1 & _ & H3 & _).
  rewrite <- (length_map positionOf).
  change 16 with (Z.of_nat (length allCells)). apply Nat2Z.inj_le.
  apply NoDup_incl_length; [assumption|].
  intros p Hp. apply in_map_iff in Hp as (t & <- & Ht).
  apply allCells_In. now apply inGrid_onBoard, H1.
Qed.

(** A well-formed list of fewer than sixteen tiles leaves a cell empty. *)
Lemma wellFormed_room tiles :
  wellFormed tiles = true -> Z.of_nat (length tiles) < 16 ->
  exists r c, onBoard r c /\ emptyCell tiles r c.
Proof.
  intros H Hlen.
  destruct (emptyCellsOf (tilesToGrid tiles GRID_SIZE)) as [|p l] eqn:E.
  - exfalso.
    assert (Hfull : forall r c, onBoard r c ->
                     cell (tilesToGrid tiles GRID_SIZE) r c <> 0)
      by now apply emptyCellsOf_nil.
    assert (Hincl : incl allCells (map positionOf tiles)).
    { intros [r c] Hin. apply allCells_In in Hin.
      destruct (existsb (fun u => samePosition (positionOf u) (r, c)) tiles)
        eqn:Ex.
      - apply existsb_exists in Ex as (u & Hu & Eu).
        apply samePosition_eq in Eu. rewrite <- Eu. now apply in_map.
      - exfalso. apply (Hfull r c Hin). apply cell_free.
        + destruct Hin; lia.
        + destruct Hin; lia.
        + intros u Hu [Er Ec].
          assert (Hs := proj1 (existsb_false _ _) Ex u Hu).
          assert (samePosition (positionOf u) (r, c) = true); [|congruence].
          apply samePosition_eq. unfold positionOf. congruence. }
    apply NoDup_incl_length in Hincl; [|apply allCells_NoDup].
    rewrite length_map in Hincl. change (length allCells) with 16%nat in Hincl.
    lia.
  - assert (Hin : In p (emptyCellsOf (tilesToGrid tiles GRID_SIZE)))
      by (rewrite E; now left).
    apply emptyCellsOf_In in Hin as (H1 & H2 & _).
    now exists (cellRow p), (cellCol p).
Qed.

(** * The claims *)

(** ** C2: the terminal-state detector *)

(** C2.  For every well-formed tile list: the list has at most sixteen
    tiles; with fewer than sixteen an empty cell exists and
    [checkAvailableMoves] returns true; on a full board the four moves all
    return, and [checkAvailableMoves] returns false exactly when all four
    report [moved = false]; a move reports [moved = false] exactly when every
    input tile is returned with its id, value and position (the move then
    returns the input list itself); hence [isGameOver] is true exactly when
    the board is full and no move in any of the four directions changes any
    tile's value or position. *)
Theorem checkAvailableMoves_terminal tiles :
  wellFormed tiles = true ->
  Z.of_nat (length tiles) <= 16
  /\ (Z.of_nat (length tiles) < 16 ->
      checkAvailableMoves tiles = Ok true
      /\ exists r c, onBoard r c /\ emptyCell tiles r c)
  /\ (Z.of_nat (length tiles) = 16 ->
      exists l r u d,
        moveLeft tiles = Ok l /\ moveRight tiles = Ok r
        /\ moveUp tiles = Ok u /\ moveDown tiles = Ok d
        /\ (checkAvailableMoves tiles = Ok true
            \/ checkAvailableMoves tiles = Ok false)
        /\ (checkAvailableMoves tiles = Ok false <->
            moved l = false /\ moved r = false
            /\ moved u = false /\ moved d = false))
  /\ (forall dir, exists res,
        applyMove dir tiles = Ok res
        /\ (moved res = false <-> keepsAll tiles (updatedTiles res))
        /\ (moved res = false -> updatedTiles res = tiles))
  /\ (isGameOver tiles = Ok true <->
      Z.of_nat (length tiles) = 16
      /\ forall dir, exists res,
           applyMove dir tiles = Ok res
           /\ keepsAll tiles (updatedTiles res)).
Proof.
  intros H.
  assert (Hlen := wellFormed_length tiles H).
  assert (Hl := applyMove_spec Left tiles H).
  assert (Hr := applyMove_spec Right tiles H).
  assert (Hu := applyMove_spec Up tiles H).
  assert (Hd := applyMove_spec Down tiles H).
  cbn [applyMove axisOf] in Hl, Hr, Hu, Hd.
  assert (Hcheck : Z.of_nat (length tiles) = 16 ->
    checkAvailableMoves tiles
    = Ok (movedFlag leftAxis tiles || movedFlag rightAxis tiles
          || movedFlag upAxis tiles || movedFlag downAxis tiles)).
  { intros E. unfold checkAvailableMoves.
    replace (Z.of_nat (length tiles) <? GRID_SIZE * GRID_SIZE) with false
      by (symmetry; apply Z.ltb_ge; unfold GRID_SIZE; lia).
    rewrite Hl, Hr, Hu, Hd. cbn [bind moved].
    destruct (movedFlag leftAxis tiles), (movedFlag rightAxis tiles),
      (movedFlag upAxis tiles), (movedFlag downAxis tiles); reflexivity. }
  assert (Hidle : forall dir,
    (movedFlag (axisOf dir) tiles = false <->
     keepsAll tiles (movedTiles (axisOf dir) tiles))
    /\ (movedFlag (axisOf dir) tiles = false ->
        movedTiles (axisOf dir) tiles = tiles)).
  { intros dir. destruct (axisOf_laws dir) as [sign L].
    destruct (wellFormed_regular _ _ _ L H) as (H1 & H2 & H3).
    assert (Hsame : movedFlag (axisOf dir) tiles = false ->
                    movedTiles (axisOf dir) tiles = tiles)
      by (intros E; now apply (idle_move _ _ L tiles H1 H3)).
    split; [|exact Hsame]. split.
    - intros E. rewrite (Hsame E). apply keepsAll_refl.
    - intros E. destruct (movedFlag (axisOf dir) tiles) eqn:F; [|reflexivity].
      exfalso. now apply (moved_changes _ _ L tiles H1 F). }
  split; [assumption|]. split; [|split; [|split]].
  - intros Hlt. split; [|now apply wellFormed_room].
    unfold checkAvailableMoves.
    replace (Z.of_nat (length tiles) <? GRID_SIZE * GRID_SIZE) with true
      by (symmetry; apply Z.ltb_lt; unfold GRID_SIZE; lia).
    reflexivity.
  - intros E. do 4 eexists.
    split; [exact Hl|]. split; [exact Hr|]. split; [exact Hu|].
    split; [exact Hd|]. rewrite (Hcheck E). cbn [moved]. split.
    + destruct (_ || _); auto.
    + split.
      * intros [= E']. rewrite !orb_false_iff in E'. tauto.
      * intros (-> & -> & -> & ->). reflexivity.
  - intros dir. eexists. split; [apply (applyMove_spec dir tiles H)|].
    cbn [moved updatedTiles]. apply Hidle.
  - unfold isGameOver. split.
    + intros Hg.
      assert (E : Z.of_nat (length tiles) = 16).
      { destruct (Z.eq_dec (Z.of_nat (length tiles)) 16) as [E|E]; [assumption|].
        unfold checkAvailableMoves in Hg.
        replace (Z.of_nat (length tiles) <? GRID_SIZE * GRID_SIZE) with true in Hg
          by (symmetry; apply Z.ltb_lt; unfold GRID_SIZE; lia).
        discriminate. }
      split; [assumption|]. rewrite (Hcheck E) in Hg. cbn [bind] in Hg.
      injection Hg as Hg. apply negb_true_iff in Hg.
      rewrite !orb_false_iff in Hg. destruct Hg as [[[F1 F2] F3] F4].
      intros dir. eexists. split; [apply (applyMove_spec dir tiles H)|].
      cbn [updatedTiles]. apply Hidle. now destruct dir.
    + intros [E Hall]. rewrite (Hcheck E). cbn [bind]. do 2 f_equal.
      assert (F : forall dir, movedFlag (axisOf dir) tiles = false).
      { intros dir. apply Hidle. destruct (Hall dir) as (res & H1 & H2).
        rewrite (applyMove_spec dir tiles H) in H1. injection H1 as <-.
        exact H2. }
      generalize (F Left) (F Right) (F Up) (F Down). cbn [axisOf].
      intros -> -> -> ->. reflexivity.
Qed.

Lemma checkAvailableMoves_terminal_witness :
  wellFormed deadBoard = true
  /\ isGameOver deadBoard = Ok true
  /\ forall dir, exists res,
       applyMove dir deadBoard = Ok res
       /\ keepsAll deadBoard (updatedTiles res).
Proof.
  split; [reflexivity|]. split; [reflexivity|].
  apply (checkAvailableMoves_terminal deadBoard); reflexivity.
Defined.

(** ** The numbers a move computes stay below the total value *)

Lemma mergeWalk_gain_bound cur : forall stack lm,
  (forall t, In t cur -> 0 < value t) ->
  (forall t, In t stack -> 0 < value t) ->
  snd (mergeWalk cur stack lm)
  <= totalValue cur
     + match stack with
       | l :: _ => if sameId (id l) lm then 0 else value l
       | [] => 0
       end.
Proof.
  induction cur as [|t rest IH]; intros stack lm Hc Hs.
  - cbn [mergeWalk snd]. change (totalValue []) with 0.
    destruct stack as [|l below]; [lia|].
    specialize (Hs l (in_eq _ _)). destruct (sameId (id l) lm); lia.
  - assert (Ht : 0 < value t) by (apply Hc; now left).
    assert (Hrest : forall u, In u rest -> 0 < value u)
      by (intros u Hu; apply Hc; now right).
    rewrite totalValue_cons.
    destruct stack as [|l below].
    + rewrite mergeWalk_push.
      assert (B := IH [t] lm Hrest).
      cbn match in B. specialize (B ltac:(intros u [<-|[]]; exact Ht)).
      destruct (sameId (id t) lm); lia.
    + assert (Hl : 0 < value l) by (apply Hs; now left).
      destruct ((value l =? value t) && negb (sameId (id l) lm)) eqn:G.
      * rewrite (mergeWalk_merge t rest l below lm G). cbn [snd].
        apply guard_true in G as [Ev Hg]. rewrite Hg.
        assert (B := IH (mergeInto (value t * 2) l :: below) (Some (id l))
                       Hrest).
        cbn match in B. cbn [mergeInto id] in B. rewrite sameId_self in B.
        specialize (B ltac:(intros u [<-|Hu];
                             [cbn [mergeInto value]; lia
                             |apply Hs; now right])).
        lia.
      * rewrite (mergeWalk_keep t rest l below lm G).
        assert (B := IH (t :: l :: below) lm Hrest).
        cbn match in B.
        specialize (B ltac:(intros u [<-|Hu]; [exact Ht|now apply Hs])).
        destruct (sameId (id t) lm), (sameId (id l) lm); lia.
Qed.

Lemma sumZ_le {A} (f g : A -> Z) l :
  (forall x, In x l -> f x <= g x) -> sumZ (map f l) <= sumZ (map g l).
Proof.
  induction l as [|a l IH]; intros H; [cbn; lia|].
  cbn [map sumZ fold_right].
  assert (f a <= g a) by (apply H; now left).
  assert (sumZ (map f l) <= sumZ (map g l))
    by (apply IH; intros x Hx; apply H; now right).
  unfold sumZ in *. lia.
Qed.

Lemma movedScore_bound ax tiles :
  (forall t, In t tiles -> 0 < value t) ->
  (forall t, In t tiles -> 0 <= lineOf ax t < GRID_SIZE) ->
  movedScore ax tiles <= totalValue tiles.
Proof.
  intros Hpos Hin.
  rewrite (sum_by_lines ax (range 0 GRID_SIZE) tiles (range_NoDup _ _))
    by (intros t Ht; apply range_In; now apply Hin).
  unfold movedScore. apply sumZ_le. intros k _.
  rewrite <- (totalValue_perm _ _ (lineTiles_perm ax tiles k)).
  unfold lineScore, lineWalk.
  assert (B := mergeWalk_gain_bound (lineTiles ax tiles k) [] None).
  cbn match in B. rewrite Z.add_0_r in B. apply B; [|intros t []].
  intros t Ht. apply lineTiles_In in Ht as [Ht _]. now apply Hpos.
Qed.

Lemma movedScore_nonnegative ax tiles :
  (forall t, In t tiles -> 0 < value t) -> 0 <= movedScore ax tiles.
Proof.
  intros Hpos. unfold movedScore.
  assert (H : sumZ (map (fun _ : Z => 0) (range 0 GRID_SIZE))
              <= sumZ (map (lineScore ax tiles) (range 0 GRID_SIZE))).
  { apply sumZ_le. intros k _. unfold lineScore, lineWalk.
    apply mergeWalk_gained. intros t Ht.
    apply lineTiles_In in Ht as [Ht _]. now apply Hpos. }
  rewrite sumZ_zero in H by reflexivity. exact H.
Qed.

Lemma totalValue_nonnegative l :
  (forall u, In u l -> 0 < value u) -> 0 <= totalValue l.
Proof.
  induction l as [|x l IH]; intros Hpos; [unfold totalValue; cbn; lia|].
  rewrite totalValue_cons.
  assert (0 < value x) by (apply Hpos; now left).
  assert (0 <= totalValue l); [|lia].
  apply IH. intros y Hy. apply Hpos. now right.
Qed.

Lemma value_le_total l t :
  (forall u, In u l -> 0 < value u) -> In t l -> value t <= totalValue l.
Proof.
  induction l as [|u l IH]; intros Hpos Hin; [destruct Hin|].
  rewrite totalValue_cons.
  assert (Hl : forall y, In y l -> 0 < value y)
    by (intros y Hy; apply Hpos; now right).
  assert (0 < value u) by (apply Hpos; now left).
  assert (0 <= totalValue l) by now apply totalValue_nonnegative.
  destruct Hin as [<-|Ht]; [lia|].
  assert (value t <= totalValue l) by now apply IH. lia.
Qed.

(** What a move of a well-formed list within the bound computes: the total
    value is kept, every returned value and the score increase lie between
    0 and the total. *)
Lemma move_within_bound dir tiles :
  wellFormed tiles = true -> totalValue tiles <= MAX_SAFE_INTEGER ->
  totalValue (movedTiles (axisOf dir) tiles) = totalValue tiles
  /\ (forall a, In a (movedTiles (axisOf dir) tiles) ->
        0 < value a <= MAX_SAFE_INTEGER)
  /\ 0 <= movedScore (axisOf dir) tiles <= totalValue tiles.
Proof.
  intros H Hb. destruct (axisOf_laws dir) as [sign L].
  destruct (wellFormed_regular _ _ _ L H) as (H1 & H2 & H3).
  assert (E := movedTiles_total _ _ L tiles H1 H3).
  assert (Hpos := movedTiles_positive _ _ L tiles H1 H2).
  split; [exact E|]. split.
  - intros a Ha. split; [now apply Hpos|].
    assert (B := value_le_total _ a Hpos Ha). lia.
  - split; [now apply movedScore_nonnegative|now apply movedScore_bound].
Qed.

(** ** C3: the balance of tile values *)




(** ** C4: neighbours after a move *)

(** C4, as stated, fails: moving the row [2, 2, 4, 0] left yields
    [4, 4, 0, 0], two adjacent tiles of equal value. *)
Lemma move_equal_neighbours_counterexample :
  wellFormed row224 = true
  /\ exists res a b,
       moveLeft row224 = Ok res
       /\ In a (updatedTiles res) /\ In b (updatedTiles res)
       /\ row a = row b /\ col b = col a + 1 /\ value a = value b.
Proof.
  split; [reflexivity|].
  eexists. exists (mkTile 1 4 0 0 (Some true)), (tile 3 4 0 1).
  split; [reflexivity|]. simpl. repeat split; auto.
Qed.

(** C4, amended.  After a directional move on a well-formed tile list, two
    tiles that lie next to each other in a line along the move's axis have
    equal values only if at least one of them was produced by a merge of this
    move: it carries the id of an input tile and twice that tile's value.  A
    move that merges nothing ([scoreIncrease = 0]) leaves no two tiles of
    equal value next to each other along its axis. *)
Theorem move_neighbours dir tiles :
  wellFormed tiles = true ->
  exists res,
    applyMove dir tiles = Ok res
    /\ (forall a b,
          In a (updatedTiles res) -> In b (updatedTiles res) ->
          lineOf (axisOf dir) a = lineOf (axisOf dir) b ->
          posOf (axisOf dir) b = posOf (axisOf dir) a + 1 ->
          value a = value b ->
          doubled tiles a \/ doubled tiles b)
    /\ (scoreIncrease res = 0 -> quiet (axisOf dir) (updatedTiles res)).
Proof.
  intros H. eexists. split; [apply (applyMove_spec dir tiles H)|].
  cbn [updatedTiles scoreIncrease]. destruct (axisOf_laws dir) as [sign L].
  destruct (wellFormed_regular _ _ _ L H) as (H1 & H2 & H3). split.
  - apply (movedTiles_neighbours _ _ L tiles H1).
  - apply (score_zero_quiet _ _ L tiles H1 H2 H3).
Qed.

Lemma move_neighbours_witness :
  wellFormed row224 = true
  /\ exists res,
       applyMove Left row224 = Ok res
       /\ (forall a b,
             In a (updatedTiles res) -> In b (updatedTiles res) ->
             lineOf (axisOf Left) a = lineOf (axisOf Left) b ->
             posOf (axisOf Left) b = posOf (axisOf Left) a + 1 ->
             value a = value b ->
             doubled row224 a \/ doubled row224 b)
       /\ (scoreIncrease res = 0 -> quiet (axisOf Left) (updatedTiles res)).
Proof.
  split; [reflexivity|].
  apply (move_neighbours Left row224). reflexivity.
Defined.

(** ** C5: the same move twice *)

(** C5, as stated, fails: moving the row [2, 2, 4, 0] left yields
    [4, 4, 0, 0]; moving left again merges the two 4s, so the second
    application reports [moved = true] and returns another tile list. *)
Lemma move_twice_counterexample :
  wellFormed row224 = true
  /\ exists first second,
       moveLeft row224 = Ok first
       /\ moveLeft (updatedTiles first) = Ok second
       /\ moved second = true
       /\ updatedTiles second <> updatedTiles first.
Proof.
  split; [reflexivity|]. do 2 eexists.
  split; [reflexivity|]. split; [reflexivity|]. split; [reflexivity|].
  simpl. discriminate.
Qed.

(** C5, amended.  For every well-formed tile list, both applications of
    the same directional move return, and the second application reports
    [moved = false] if and only if the first application left no two tiles
    of equal value next to each other along the move's axis, which is the
    case in particular when the first application merged nothing
    ([scoreIncrease = 0]); the second application then scores 0 and returns
    the tile list unchanged. *)
Theorem move_twice dir tiles :
  wellFormed tiles = true ->
  exists first second,
    applyMove dir tiles = Ok first
    /\ applyMove dir (updatedTiles first) = Ok second
    /\ (moved second = false <-> quiet (axisOf dir) (updatedTiles first))
    /\ (scoreIncrease first = 0 -> quiet (axisOf dir) (updatedTiles first))
    /\ (moved second = false ->
        second = {| updatedTiles := updatedTiles first;
                    scoreIncrease := 0;
                    moved := false |}).
Proof.
  intros H. destruct (axisOf_laws dir) as [sign L].
  destruct (wellFormed_regular _ _ _ L H) as (H1 & H2 & H3).
  assert (D' := movedTiles_ids (axisOf dir) tiles H1).
  assert (P' := movedTiles_positive _ _ L tiles H1 H2).
  assert (I' := movedTiles_inLines _ _ L tiles H1 H3).
  do 2 eexists. split; [apply (applyMove_spec dir tiles H)|].
  cbn [updatedTiles scoreIncrease]. rewrite applyMove_axis.
  split; [apply (moveAlong_spec _ _ L _ D' (positive_nonZero _ P') I')|].
  cbn [moved].
  assert (Hidle : movedFlag (axisOf dir) (movedTiles (axisOf dir) tiles) = false ->
                  quiet (axisOf dir) (movedTiles (axisOf dir) tiles)).
  { intros F. destruct (idle_move _ _ L _ D' I' F) as [E1 E2].
    rewrite <- E1. now apply (score_zero_quiet _ _ L _ D' P' I'). }
  split; [|split].
  - split; [exact Hidle|]. apply (again_idle _ _ L tiles H1).
  - apply (score_zero_quiet _ _ L tiles H1 H2 H3).
  - intros F. destruct (idle_move _ _ L _ D' I' F) as [E1 E2].
    now rewrite E1, E2, F.
Qed.

Lemma move_twice_witness :
  wellFormed sampleBoard = true
  /\ exists first second,
       applyMove Right sampleBoard = Ok first
       /\ applyMove Right (updatedTiles first) = Ok second
       /\ (moved second = false <-> quiet (axisOf Right) (updatedTiles first))
       /\ (scoreIncrease first = 0 -> quiet (axisOf Right) (updatedTiles first))
       /\ (moved second = false ->
           second = {| updatedTiles := updatedTiles first;
                       scoreIncrease := 0;
                       moved := false |}).
Proof.
  split; [reflexivity|].
  apply (move_twice Right sampleBoard). reflexivity.
Defined.

(** ** C8: tile identities across a move *)



(** ** C9: positions across the core operations *)

Lemma addRandomTile_inv tiles w s w' :
  addRandomTile tiles w = Ok (Some s, w') ->
  exists pos v,
    In pos (emptyCellsOf (tilesToGrid tiles GRID_SIZE))
    /\ (v = 2 \/ v = 4)
    /\ s = {| tilesWithNew := tiles ++ [spawned w v pos];
              newTile := spawned w v pos |}
    /\ w' = afterSpawn w.
Proof.
  unfold addRandomTile.
  set (cells := emptyCellsOf (tilesToGrid tiles GRID_SIZE)).
  destruct (Z.of_nat (length cells) =? 0); [discriminate|].
  unfold Math_random, freshTileId. cbn [nextTileId tape cursor].
  set (i := Qfloor _).
  destruct (if i <? 0 then None else nth_error cells (Z.to_nat i))
    as [pos|] eqn:En; [|discriminate].
  intros [= <- <-].
  exists pos, (if Qle_bool (9 # 10) (tape w (S (cursor w))) then 4 else 2).
  split.
  - destruct (i <? 0); [discriminate|]. now apply nth_error_In in En.
  - split; [destruct (Qle_bool _ _); auto|]. now split.
Qed.

(** C9.  Starting from a well-formed tile list: every directional move
    returns a tile list with at most one tile per (row, col) pair, in which
    every tile has the row (for a horizontal move) or the column (for a
    vertical move) that the input tile of the same id had; and whenever the
    spawner adds a tile, the list it returns is the input list followed by
    the new tile and has at most one tile per (row, col) pair. *)
Theorem positions_stay_unique tiles :
  wellFormed tiles = true ->
  (forall dir, exists res,
     applyMove dir tiles = Ok res
     /\ NoDup (map positionOf (updatedTiles res))
     /\ forall a, In a (updatedTiles res) ->
        exists s, In s tiles /\ id s = id a
                  /\ match dir with
                     | Left | Right => row a = row s
                     | Up | Down => col a = col s
                     end)
  /\ (forall w s w',
        addRandomTile tiles w = Ok (Some s, w') ->
        tilesWithNew s = tiles ++ [newTile s]
        /\ NoDup (map positionOf (tilesWithNew s))).
Proof.
  intros H. split.
  - intros dir. eexists. split; [apply (applyMove_spec dir tiles H)|].
    cbn [updatedTiles]. destruct (axisOf_laws dir) as [sign L].
    destruct (wellFormed_regular _ _ _ L H) as (H1 & H2 & H3). split.
    + apply (movedTiles_positions _ _ L tiles H1).
    + intros a Ha.
      destruct (movedTiles_source _ _ L tiles H1 a Ha) as (s & Hs & E & El & _).
      exists s. split; [assumption|]. split; [assumption|].
      destruct dir; simpl in El; congruence.
  - intros w s w' Hadd.
    apply addRandomTile_inv in Hadd as (pos & v & Hpos & Hv & -> & _).
    cbn [tilesWithNew newTile]. split; [reflexivity|].
    apply wellFormed_spec in H as (H1 & H2 & H3 & H4).
    apply emptyCellsOf_In in Hpos as (Hb & Hz & _).
    rewrite map_app. simpl. apply NoDup_middle. rewrite app_nil_r.
    constructor; [|assumption].
    intros Hin. apply in_map_iff in Hin as (u & E & Hu).
    injection E as Er Ec.
    apply (cell_occupied GRID_SIZE tiles u); auto.
    + intros t Ht. specialize (isPowerOfTwo_pos _ (H2 t Ht)). lia.
    + now rewrite Er, Ec.
Qed.

Lemma positions_stay_unique_witness :
  wellFormed sampleBoard = true
  /\ (forall dir, exists res,
        applyMove dir sampleBoard = Ok res
        /\ NoDup (map positionOf (updatedTiles res))
        /\ forall a, In a (updatedTiles res) ->
           exists s, In s sampleBoard /\ id s = id a
                     /\ match dir with
                        | Left | Right => row a = row s
                        | Up | Down => col a = col s
                        end)
  /\ (exists s w',
        addRandomTile sampleBoard sampleWorld = Ok (Some s, w')
        /\ tilesWithNew s = sampleBoard ++ [newTile s]
        /\ NoDup (map positionOf (tilesWithNew s))).
Proof.
  split; [reflexivity|].
  destruct (positions_stay_unique sampleBoard) as [Hmoves Hspawn];
    [reflexivity|].
  split; [exact Hmoves|].
  do 2 eexists. split; [reflexivity|].
  eapply (Hspawn sampleWorld). reflexivity.
Defined.

(** ** C7: the spawner *)

(** C7.  [addRandomTile] returns the "no space" signal exactly when no cell
    of the sixteen-cell board is empty; and on a tile list with exactly one
    empty cell, for every random input, it returns the input list with one
    new tile appended, placed on that cell (with a fresh id and value 2 or
    4).  A cell is empty when the dense projection reads 0 there, which for
    tiles of non-zero value means that no tile occupies it. *)
Theorem addRandomTile_placement tiles w :
  ((exists w', addRandomTile tiles w = Ok (None, w')) <->
   (forall r c, onBoard r c -> ~ emptyCell tiles r c))
  /\ (forall r c,
        randomOK w ->
        onBoard r c -> emptyCell tiles r c ->
        (forall r' c', onBoard r' c' -> emptyCell tiles r' c' ->
                       r' = r /\ c' = c) ->
        exists v,
          (v = 2 \/ v = 4)
          /\ addRandomTile tiles w
             = Ok (Some {| tilesWithNew :=
                             tiles ++ [mkTile (nextTileId w) v r c None];
                           newTile := mkTile (nextTileId w) v r c None |},
                   afterSpawn w))
  /\ ((forall u, In u tiles -> value u <> 0) ->
      forall r c, onBoard r c ->
        (emptyCell tiles r c <->
         forall u, In u tiles -> ~ (row u = r /\ col u = c))).
Proof.
  split; [|split].
  - unfold emptyCell. rewrite <- emptyCellsOf_nil. split.
    + intros (w' & Hn). now apply addRandomTile_null in Hn.
    + intros E. exists w. now apply addRandomTile_null.
  - intros r c Hr Hb He Huniq.
    destruct (addRandomTile_some tiles w Hr) as (pos & v & Hpos & Hv & Hadd).
    + intros E. apply (proj1 (emptyCellsOf_nil _) E r c Hb He).
    + apply emptyCellsOf_In in Hpos as (Hb' & Hz & _).
      destruct (Huniq _ _ Hb' Hz) as [Er Ec].
      exists v. split; [assumption|]. rewrite Hadd. unfold spawned.
      now rewrite Er, Ec.
  - intros Hnz r c Hb. unfold emptyCell. split.
    + intros Hz u Hu [Er Ec]. subst r c.
      apply (cell_occupied GRID_SIZE tiles u); auto.
      now apply inGrid_onBoard.
    + intros Hfree. destruct Hb as [Hr Hc]. apply cell_free; auto; lia.
Qed.

Lemma addRandomTile_placement_witness :
  exists v,
    (v = 2 \/ v = 4)
    /\ addRandomTile almostFull sampleWorld
       = Ok (Some {| tilesWithNew := almostFull ++ [mkTile 100 v 2 1 None];
                     newTile := mkTile 100 v 2 1 None |},
             afterSpawn sampleWorld).
Proof.
  apply (proj1 (proj2 (addRandomTile_placement almostFull sampleWorld)) 2 1).
  - intros n. split; [unfold Qle; simpl; lia|reflexivity].
  - unfold onBoard, GRID_SIZE. lia.
  - reflexivity.
  - intros r' c' [Hr Hc] He. unfold GRID_SIZE in Hr, Hc.
    assert (Er : r' = 0 \/ r' = 1 \/ r' = 2 \/ r' = 3) by lia.
    assert (Ec : c' = 0 \/ c' = 1 \/ c' = 2 \/ c' = 3) by lia.
    destruct Er as [-> | [-> | [-> | ->]]];
      destruct Ec as [-> | [-> | [-> | ->]]];
      (split; reflexivity) || (vm_compute in He; discriminate).
Defined.

(** ** C10: the dense projection is total *)

Lemma withinGrid_integer size r :
  withinGrid size (Finite (inject_Z r)) = (0 <=? r) && (r <? size).
Proof.
  unfold withinGrid. f_equal.
  - destruct (Z.leb_spec 0 r) as [H|H].
    + apply Qle_bool_iff. change 0%Q with (inject_Z 0). now rewrite <- Zle_Qle.
    + apply not_true_is_false. intros E. apply Qle_bool_iff in E.
      change 0%Q with (inject_Z 0) in E. rewrite <- Zle_Qle in E. lia.
  - destruct (Z.ltb_spec r size) as [H|H].
    + apply negb_true_iff, not_true_is_false. intros E.
      apply Qle_bool_iff in E. rewrite <- Zle_Qle in E. lia.
    + apply negb_false_iff, Qle_bool_iff. now rewrite <- Zle_Qle.
Qed.

Lemma isIndex_integer r : 0 <= r -> isIndex (Finite (inject_Z r)) = true.
Proof.
  intros H. unfold isIndex. rewrite Qfloor_Z. apply andb_true_iff. split.
  - apply Qle_bool_iff. change 0%Q with (inject_Z 0). now rewrite <- Zle_Qle.
  - apply Qeq_bool_iff. reflexivity.
Qed.

Lemma writeNumTile_integer size grid t :
  writeNumTile size grid (num t) = Ok (writeTile size grid t).
Proof.
  unfold writeNumTile, writeTile, inGrid. cbn [num numRow numCol numValue].
  rewrite !withinGrid_integer, andb_assoc.
  destruct ((0 <=? row t) && (row t <? size) && (0 <=? col t)
            && (col t <? size)) eqn:E; [|reflexivity].
  rewrite !andb_true_iff, !Z.leb_le in E. destruct E as [[[Hr _] Hc] _].
  rewrite !isIndex_integer by assumption. cbn [indexOf].
  now rewrite !Qfloor_Z.
Qed.

Lemma tilesToGridNum_integer tiles size :
  tilesToGridNum (map num tiles) size = Ok (tilesToGrid tiles size).
Proof.
  unfold tilesToGridNum, tilesToGrid. generalize (createEmptyGrid size).
  induction tiles as [|t tiles IH]; intros grid; [reflexivity|].
  cbn [map foldM fold_left]. rewrite writeNumTile_integer. cbn [bind].
  apply IH.
Qed.

Lemma writeNumTile_raises size grid t :
  writeNumTile size grid t = TypeError <->
  withinGrid size (numRow t) = true /\ withinGrid size (numCol t) = true
  /\ isIndex (numRow t) = false.
Proof.
  unfold writeNumTile.
  destruct (withinGrid size (numRow t)), (withinGrid size (numCol t)),
    (isIndex (numRow t)), (isIndex (numCol t)); cbn [andb];
    (split; [try discriminate; auto|intros (H1 & H2 & H3)]);
    try discriminate; reflexivity.
Qed.

Lemma tilesToGridNum_raises ts size :
  tilesToGridNum ts size = TypeError <->
  exists t, In t ts
            /\ withinGrid size (numRow t) = true
            /\ withinGrid size (numCol t) = true
            /\ isIndex (numRow t) = false.
Proof.
  unfold tilesToGridNum. generalize (createEmptyGrid size).
  induction ts as [|t ts IH]; intros grid.
  - cbn [foldM]. split; [discriminate|intros (t & [] & _)].
  - cbn [foldM]. destruct (writeNumTile size grid t) as [g|] eqn:E;
      cbn [bind].
    + rewrite IH. split.
      * intros (u & Hu & H). exists u. split; [now right|exact H].
      * intros (u & [Eu|Hu] & H); [|now exists u]. subst u.
        apply (writeNumTile_raises size grid t) in H. congruence.
    + split; [|reflexivity]. intros _. exists t. split; [now left|].
      now apply (writeNumTile_raises size grid).
Qed.

(** C10, as stated, fails: a tile whose row is 1.5 passes the guard of
    [tilesToGrid] (0 <= 1.5 < 4), [grid[1.5]] is [undefined], and the write
    raises a [TypeError] instead of returning a grid. *)
Lemma tilesToGrid_fractional_row_counterexample :
  withinGrid GRID_SIZE (numRow betweenRows) = true
  /\ withinGrid GRID_SIZE (numCol betweenRows) = true
  /\ tilesToGridNum [betweenRows] GRID_SIZE = TypeError.
Proof. repeat split. Qed.

(** C10, amended.  For every size that is a positive array length:
    [tilesToGrid] is total on the tile lists whose coordinates are
    integers, in range or not.  It returns a grid of [size] rows of [size]
    cells, and a tile whose row or column lies outside the grid is ignored:
    the result is that of the list without such tiles, and dropping one such
    tile anywhere in the list leaves the result unchanged.  On tiles whose
    coordinates are any numbers it raises exactly when some tile passes the
    guard with a row that is no integer. *)
Theorem tilesToGrid_total tiles size :
  0 < size < 2 ^ 32 ->
  tilesToGridNum (map num tiles) size = Ok (tilesToGrid tiles size)
  /\ length (tilesToGrid tiles size) = Z.to_nat size
  /\ (forall r, In r (tilesToGrid tiles size) -> length r = Z.to_nat size)
  /\ tilesToGrid tiles size = tilesToGrid (filter (inGrid size) tiles) size
  /\ (forall before t after,
        tiles = before ++ t :: after ->
        ~ (0 <= row t < size /\ 0 <= col t < size) ->
        tilesToGrid tiles size = tilesToGrid (before ++ after) size)
  /\ (forall ts,
        tilesToGridNum ts size = TypeError <->
        exists t, In t ts
                  /\ withinGrid size (numRow t) = true
                  /\ withinGrid size (numCol t) = true
                  /\ isIndex (numRow t) = false).
Proof.
  intros Hsize. split; [apply tilesToGridNum_integer|].
  destruct (tilesToGrid_shaped tiles size) as [H1 H2].
  split; [assumption|]. split; [assumption|]. split; [|split].
  - apply fold_writeTile_filter.
  - intros l1 t l2 -> Hout. unfold tilesToGrid.
    rewrite (fold_writeTile_filter size (l1 ++ t :: l2)).
    rewrite (fold_writeTile_filter size (l1 ++ l2)).
    rewrite !filter_app. simpl.
    replace (inGrid size t) with false; [reflexivity|].
    symmetry. apply not_true_is_false. intros E. apply Hout.
    unfold inGrid in E.
    rewrite !andb_true_iff, !Z.leb_le, !Z.ltb_lt in E. tauto.
  - intros ts. apply tilesToGridNum_raises.
Qed.

Lemma tilesToGrid_total_witness :
  0 < 4 < 2 ^ 32
  /\ tilesToGridNum (map num [tile 1 2 0 0; tile 2 4 7 1; tile 3 8 1 (-1)]) 4
     = Ok (tilesToGrid [tile 1 2 0 0; tile 2 4 7 1; tile 3 8 1 (-1)] 4)
  /\ tilesToGrid [tile 1 2 0 0; tile 2 4 7 1; tile 3 8 1 (-1)] 4
     = tilesToGrid [tile 1 2 0 0; tile 3 8 1 (-1)] 4.
Proof.
  assert (H : 0 < 4 < 2 ^ 32) by lia.
  split; [exact H|]. split.
  - apply (tilesToGrid_total [tile 1 2 0 0; tile 2 4 7 1; tile 3 8 1 (-1)] 4 H).
  - apply (proj1 (proj2 (proj2 (proj2 (proj2
             (tilesToGrid_total [tile 1 2 0 0; tile 2 4 7 1; tile 3 8 1 (-1)]
                4 H)))))
             [tile 1 2 0 0] (tile 2 4 7 1) [tile 3 8 1 (-1)]).
    + reflexivity.
    + simpl. lia.
Defined.

(** ** C1: the grid returned by [initializeGame] *)

(** C1 fails on the code: [initializeGame] returns the grid it created
    empty and never writes the spawned tiles to it.  Whatever the draws, the
    call returns the all-zero grid together with two tiles, and the dense
    projection of these two tiles differs from the returned grid. *)
Theorem initializeGame_returns_empty_grid w :
  randomOK w ->
  exists t1 t2 w',
    initializeGame w = Ok ((createEmptyGrid GRID_SIZE, [t1; t2]), w')
    /\ tilesToGrid [t1; t2] GRID_SIZE <> createEmptyGrid GRID_SIZE.
Proof.
  intros Hr. unfold initializeGame.
  destruct (addRandomTile_some [] w Hr) as (p1 & v1 & Hp1 & Hv1 & E1).
  { vm_compute. discriminate. }
  rewrite E1. cbn [bind tilesWithNew app].
  assert (Hr' : randomOK (afterSpawn w)) by (intros n; apply Hr).
  destruct (addRandomTile_some [spawned w v1 p1] (afterSpawn w) Hr')
    as (p2 & v2 & Hp2 & Hv2 & E2).
  { apply emptyCellsOf_In in Hp1 as (_ & _ & [Hrow|Htop]).
    - intros E.
      assert (Hfull := proj1 (emptyCellsOf_nil _) E).
      destruct p1 as [r1 c1]. simpl in Hrow. subst r1.
      apply (Hfull 3 0); [unfold onBoard, GRID_SIZE; lia|].
      apply cell_free; try lia.
      intros u [<-|[]]. simpl. lia.
    - vm_compute in Htop. discriminate. }
  rewrite E2. cbn [bind tilesWithNew app].
  exists (spawned w v1 p1), (spawned (afterSpawn w) v2 p2), (afterSpawn (afterSpawn w)).
  split; [reflexivity|].
  intros E.
  apply emptyCellsOf_In in Hp2 as ((Hb1 & Hb2) & _ & _).
  assert (Hc : cell (tilesToGrid [spawned w v1 p1; spawned (afterSpawn w) v2 p2]
                       GRID_SIZE) (cellRow p2) (cellCol p2) <> 0).
  { apply (cell_occupied GRID_SIZE _ (spawned (afterSpawn w) v2 p2)).
    - intros u [<-|[<-|[]]]; simpl; lia.
    - right. now left.
    - apply inGrid_onBoard. now split. }
  apply Hc. rewrite E. apply cell_createEmptyGrid.
Qed.

Lemma initializeGame_returns_empty_grid_witness :
  exists t1 t2 w',
    initializeGame sampleWorld
    = Ok ((createEmptyGrid GRID_SIZE, [t1; t2]), w')
    /\ tilesToGrid [t1; t2] GRID_SIZE <> createEmptyGrid GRID_SIZE.
Proof.
  apply (initializeGame_returns_empty_grid sampleWorld).
  intros n. split; [unfold Qle; simpl; lia|reflexivity].
Defined.

(** ** C6: a run of three equal tiles *)

(** C6.  The dense row [2, 2, 2, 0] moved left by [moveRowLeft] is
    [4, 2, 0, 0] with a score increase of 4; and for three tiles of value 2
    on the first three columns of a row, with any distinct ids, [moveLeft]
    merges the second into the first (now 4, on column 0), leaves the third
    a 2 and slides it to column 1, and scores 4: the row reads [2, 2, 2, 0]
    before and [4, 2, 0, 0] after. *)
Theorem three_equal_tiles_move_left :
  moveRowLeft [2; 2; 2; 0] = ([4; 2; 0; 0], 4)
  /\ forall r a b c ma mb mc,
       0 <= r < GRID_SIZE -> a <> b -> a <> c -> b <> c ->
       let before := [mkTile a 2 r 0 ma; mkTile b 2 r 1 mb; mkTile c 2 r 2 mc] in
       let after := [mkTile a 4 r 0 (Some true); mkTile c 2 r 1 mc] in
       moveLeft before
       = Ok {| updatedTiles := after; scoreIncrease := 4; moved := true |}
       /\ nth (Z.to_nat r) (tilesToGrid before GRID_SIZE) [] = [2; 2; 2; 0]
       /\ nth (Z.to_nat r) (tilesToGrid after GRID_SIZE) [] = [4; 2; 0; 0].
Proof.
  split; [reflexivity|].
  intros r a b c ma mb mc Hr Hab Hac Hbc before after.
  assert (Eab : (a =? b) = false) by now apply Z.eqb_neq.
  assert (Eac : (a =? c) = false) by now apply Z.eqb_neq.
  assert (Ebc : (b =? c) = false) by now apply Z.eqb_neq.
  assert (Eba : (b =? a) = false) by (apply Z.eqb_neq; congruence).
  assert (Eca : (c =? a) = false) by (apply Z.eqb_neq; congruence).
  assert (Ecb : (c =? b) = false) by (apply Z.eqb_neq; congruence).
  assert (Hnd : NoDup (map id before)).
  { simpl. repeat constructor; simpl; intuition congruence. }
  unfold moveLeft.
  rewrite (moveAlong_spec leftAxis 1 leftAxis_laws before Hnd).
  - subst before after. unfold GRID_SIZE in Hr.
    assert (Er : r = 0 \/ r = 1 \/ r = 2 \/ r = 3) by lia.
    destruct Er as [-> | [-> | [-> | ->]]].
    all: unfold movedTiles, movedScore, movedFlag, fate, lineOut, lineMoved,
           lineKept, lineGone, lineScore, lineWalk, lineTiles.
    all: cbn.
    all: rewrite ?Z.eqb_refl, ?Eab, ?Eac, ?Ebc, ?Eba, ?Eca, ?Ecb.
    all: cbn.
    all: rewrite ?Z.eqb_refl, ?Eab, ?Eac, ?Ebc, ?Eba, ?Eca, ?Ecb.
    all: repeat split; reflexivity.
  - intros t [<-|[<-|[<-|[]]]]; simpl; discriminate.
  - clear -Hr. intros t [<-|[<-|[<-|[]]]]; simpl; exact Hr.
Qed.

Lemma three_equal_tiles_move_left_witness :
  moveLeft [mkTile 7 2 1 0 None; mkTile 8 2 1 1 None; mkTile 9 2 1 2 None]
  = Ok {| updatedTiles := [mkTile 7 4 1 0 (Some true); mkTile 9 2 1 1 None];
          scoreIncrease := 4; moved := true |}.
Proof.
  apply (proj2 three_equal_tiles_move_left 1 7 8 9 None None None);
    unfold GRID_SIZE; lia.
Defined.

(** ** Outside the well-formed lists

    The engine keys its working map by tile id.  Two tiles that share an id
    share one copy, and once that copy is merged away a later line looks it
    up in vain: the move raises. *)
Example shared_id_raises :
  moveLeft [tile 1 2 0 0; tile 2 2 0 1; tile 2 2 1 1] = TypeError.
Proof. reflexivity. Qed.

(** * Further properties of the engine *)

(** ** Moves keep tile lists well formed *)

Lemma wellFormed_intro tiles :
  (forall t, In t tiles -> inGrid GRID_SIZE t = true) ->
  (forall t, In t tiles -> isPowerOfTwo (value t) = true) ->
  NoDup (map positionOf tiles) ->
  NoDup (map id tiles) ->
  wellFormed tiles = true.
Proof.
  intros H1 H2 H3 H4. unfold wellFormed.
  rewrite !andb_true_iff, !forallb_forall. repeat split; auto.
  - apply (distinctBy_NoDup samePosition); [apply samePosition_eq|assumption].
  - apply (distinctBy_NoDup Z.eqb); [apply Z.eqb_eq|assumption].
Qed.

Lemma isPowerOfTwo_double v :
  isPowerOfTwo v = true -> isPowerOfTwo (2 * v) = true.
Proof.
  unfold isPowerOfTwo. rewrite !andb_true_iff, !Z.ltb_lt, !Z.eqb_eq.
  intros [H1 H2]. split; [lia|].
  rewrite Z.log2_double by assumption.
  rewrite Z.pow_succ_r by apply Z.log2_nonneg. now rewrite H2.
Qed.

Lemma axisOf_target_range dir i :
  0 <= i < GRID_SIZE -> 0 <= targetOf (axisOf dir) i < GRID_SIZE.
Proof.
  destruct dir; cbn [axisOf targetOf leftAxis rightAxis upAxis downAxis];
    unfold GRID_SIZE; lia.
Qed.

Section Room.

Variables (ax : Axis) (sign : Z).
Hypothesis L : AxisLaws ax sign.
Variable tiles : list TileData.
Hypothesis distinctIds : NoDup (map id tiles).
Hypothesis distinctPositions : NoDup (map positionOf tiles).
Hypothesis inside : forall t, In t tiles -> inGrid GRID_SIZE t = true.

Lemma lineTiles_positions k : NoDup (map (posOf ax) (lineTiles ax tiles k)).
Proof.
  apply NoDup_map_intro.
  - apply (NoDup_of_map id). now apply lineTiles_NoDup.
  - intros x y Hx Hy E.
    apply lineTiles_In in Hx as [Hx Lx], Hy as [Hy Ly].
    apply (NoDup_map_inj positionOf tiles); auto.
    apply (law_position _ _ L). split; congruence.
Qed.

Lemma lineTiles_length k : (length (lineTiles ax tiles k) <= 4)%nat.
Proof.
  rewrite <- (length_map (posOf ax)).
  change 4%nat with (length (range 0 GRID_SIZE)).
  apply NoDup_incl_length; [apply lineTiles_positions|].
  intros p Hp. apply in_map_iff in Hp as (t & <- & Ht).
  apply lineTiles_In in Ht as [Ht _]. apply range_In.
  now apply (law_inGrid _ _ L), inside.
Qed.

Lemma lineKept_length k :
  (length (lineKept ax tiles k) + length (lineGone ax tiles k)
   = length (lineTiles ax tiles k))%nat.
Proof.
  rewrite <- (length_map id (lineKept ax tiles k)), <- length_app.
  rewrite <- (length_map id (lineTiles ax tiles k)).
  apply Permutation_length, lineKept_gone_ids.
Qed.

Lemma lineOut_index k a :
  In a (lineOut ax tiles k) ->
  exists n, (n < 4)%nat /\ (n < length (lineKept ax tiles k))%nat
            /\ posOf ax a = targetOf ax (Z.of_nat n).
Proof.
  intros H. apply placeAll_In in H as (n & x & Hn & ->).
  exists n. assert (Hlt : (n < length (lineKept ax tiles k))%nat)
    by (apply nth_error_Some; congruence).
  assert (H1 := lineKept_length k). assert (H2 := lineTiles_length k).
  split; [lia|]. split; [assumption|apply (law_pos_with _ _ L)].
Qed.

End Room.

Lemma movedTiles_wellFormed dir tiles :
  wellFormed tiles = true -> wellFormed (movedTiles (axisOf dir) tiles) = true.
Proof.
  intros H. destruct (axisOf_laws dir) as [sign L].
  destruct (wellFormed_regular _ _ _ L H) as (H1 & H2 & H3).
  destruct (wellFormed_spec _ H) as (G1 & G2 & G3 & _).
  apply wellFormed_intro.
  - intros a Ha. apply (law_inGrid _ _ L). split.
    + apply (movedTiles_inLines _ _ L tiles H1 H3 a Ha).
    + apply (movedTiles_In _ _ L tiles H1) in Ha.
      destruct (lineOut_index _ _ L tiles H1 G3 G1 _ a Ha) as (n & Hn & _ & ->).
      apply axisOf_target_range. unfold GRID_SIZE. lia.
  - intros a Ha.
    destruct (movedTiles_source _ _ L tiles H1 a Ha) as (s & Hs & _ & _ & [E|E]);
      rewrite E; [now apply G2|]. now apply isPowerOfTwo_double, G2.
  - apply (movedTiles_positions _ _ L tiles H1).
  - apply (movedTiles_ids _ tiles H1).
Qed.

(** X1.  A directional move of a well-formed tile list whose values sum to
    at most 2^53 - 1, the range in which the arithmetic of the code is
    exact, returns a well-formed tile list: tiles inside the board, values
    positive powers of two, positions and ids pairwise distinct.  The
    returned values stay in that range: they sum to at most 2^53 - 1. *)
Theorem move_keeps_wellFormed dir tiles :
  wellFormed tiles = true ->
  totalValue tiles <= MAX_SAFE_INTEGER ->
  exists res,
    applyMove dir tiles = Ok res
    /\ wellFormed (updatedTiles res) = true
    /\ totalValue (updatedTiles res) <= MAX_SAFE_INTEGER
    /\ (forall a, In a (updatedTiles res) ->
                  0 < value a <= MAX_SAFE_INTEGER).
Proof.
  intros H Hb. eexists. split; [apply (applyMove_spec dir tiles H)|].
  cbn [updatedTiles].
  destruct (move_within_bound dir tiles H Hb) as (Ht & Hv & _).
  split; [now apply movedTiles_wellFormed|]. split; [lia|exact Hv].
Qed.

Lemma move_keeps_wellFormed_witness :
  wellFormed sampleBoard = true
  /\ totalValue sampleBoard <= MAX_SAFE_INTEGER
  /\ exists res,
       applyMove Up sampleBoard = Ok res
       /\ wellFormed (updatedTiles res) = true
       /\ totalValue (updatedTiles res) <= MAX_SAFE_INTEGER
       /\ (forall a, In a (updatedTiles res) ->
                     0 < value a <= MAX_SAFE_INTEGER).
Proof.
  assert (Hb : totalValue sampleBoard <= MAX_SAFE_INTEGER)
    by (vm_compute; discriminate).
  split; [reflexivity|]. split; [exact Hb|].
  apply (move_keeps_wellFormed Up sampleBoard); [reflexivity|exact Hb].
Defined.

(** ** Which tiles a move returns, in which order, and what it scores *)

Lemma survives_In out t : survives out t = true <-> In (id t) (map id out).
Proof.
  unfold survives. rewrite existsb_exists. split.
  - intros (i & Hi & E). apply Z.eqb_eq in E. now subst.
  - intros H. exists (id t). split; [assumption|apply Z.eqb_refl].
Qed.

Lemma mergeWalk_gone_from cur : forall stack lm i,
  In i (snd (fst (mergeWalk cur stack lm))) -> In i (map id cur).
Proof.
  intros stack lm i H.
  destruct (mergeWalk_gone _ _ _ _ H) as (s & t & Ht & <- & _).
  now apply in_map.
Qed.

(** The score of a walk is twice the value of the tiles it deletes. *)
Lemma mergeWalk_score cur : forall stack lm,
  NoDup (map id cur) ->
  snd (mergeWalk cur stack lm)
  = 2 * totalValue
          (filter (fun t => existsb (Z.eqb (id t))
                              (snd (fst (mergeWalk cur stack lm)))) cur).
Proof.
  induction cur as [|t rest IH]; intros stack lm Hnd; [reflexivity|].
  apply NoDup_cons_iff in Hnd as [Hn Hnd].
  assert (Hfresh : forall st l,
            existsb (Z.eqb (id t)) (snd (fst (mergeWalk rest st l))) = false).
  { intros st l. apply existsb_false. intros i Hi.
    apply mergeWalk_gone_from in Hi. apply Z.eqb_neq. intros E. now subst. }
  walk_step t rest stack lm G; cbn [filter].
  - rewrite Hfresh. now apply IH.
  - set (gone := snd (fst (mergeWalk rest
                    (mergeInto (value t * 2) l :: below) (Some (id l))))) in *.
    assert (Hp : existsb (Z.eqb (id t)) (id t :: gone) = true)
      by (cbn [existsb]; now rewrite Z.eqb_refl).
    assert (E : filter (fun u => existsb (Z.eqb (id u)) (id t :: gone)) rest
                = filter (fun u => existsb (Z.eqb (id u)) gone) rest).
    { apply filter_ext_in. intros u Hu. cbn [existsb].
      replace (id u =? id t) with false; [reflexivity|].
      symmetry. apply Z.eqb_neq. intros E. apply Hn. rewrite <- E.
      now apply in_map. }
    rewrite Hp, totalValue_cons, E. unfold gone. rewrite (IH _ _ Hnd). lia.
  - rewrite Hfresh. now apply IH.
Qed.

Lemma filter_split_length {A} (p : A -> bool) l :
  (length (filter p l) + length (filter (fun a => negb (p a)) l)
   = length l)%nat.
Proof.
  induction l as [|a l IH]; [reflexivity|].
  simpl. destruct (p a); simpl; lia.
Qed.

Lemma sumZ_scale {A} (c : Z) (f : A -> Z) l :
  sumZ (map (fun k => c * f k) l) = c * sumZ (map f l).
Proof.
  induction l as [|a l IH]; cbn [map sumZ fold_right]; [lia|].
  fold (sumZ (map (fun k => c * f k) l)). fold (sumZ (map f l)). lia.
Qed.

Section Accounting.

Variables (ax : Axis) (sign : Z).
Hypothesis L : AxisLaws ax sign.
Variable tiles : list TileData.
Hypothesis distinctIds : NoDup (map id tiles).
Hypothesis positive : forall t, In t tiles -> 0 < value t.
Hypothesis inLines : forall t, In t tiles -> 0 <= lineOf ax t < GRID_SIZE.

Lemma fate_survives t :
  In t tiles ->
  (fate ax tiles t = [] /\ survives (movedTiles ax tiles) t = false)
  \/ (exists a, fate ax tiles t = [a] /\ id a = id t
                /\ survives (movedTiles ax tiles) t = true).
Proof.
  intros Ht. destruct (fate_cases ax tiles t) as [E|(a & E & Ea & Ha)].
  - left. split; [assumption|].
    destruct (survives (movedTiles ax tiles) t) eqn:S; [|reflexivity].
    exfalso. apply survives_In in S. apply in_map_iff in S as (a & Ea & Ha).
    unfold movedTiles in Ha. apply in_flat_map in Ha as (u & Hu & Ha).
    destruct (fate_cases ax tiles u) as [E'|(a' & E' & Ea' & _)];
      rewrite E' in Ha; [destruct Ha|].
    destruct Ha as [<-|[]].
    assert (u = t) by (eapply NoDup_map_inj; eauto; congruence). subst u.
    rewrite E in E'. discriminate.
  - right. exists a. repeat split; auto.
    apply survives_In. rewrite <- Ea. apply in_map.
    unfold movedTiles. apply in_flat_map. exists t. split; [assumption|].
    rewrite E. now left.
Qed.

Lemma movedTiles_order :
  map id (movedTiles ax tiles)
  = map id (filter (survives (movedTiles ax tiles)) tiles).
Proof.
  unfold movedTiles at 1.
  assert (H : forall l, incl l tiles ->
    map id (flat_map (fate ax tiles) l)
    = map id (filter (survives (movedTiles ax tiles)) l)).
  { induction l as [|t l IH]; intros Hin; [reflexivity|].
    assert (Ht : In t tiles) by (apply Hin; now left).
    assert (Hl : incl l tiles) by (intros u Hu; apply Hin; now right).
    cbn [flat_map filter]. rewrite map_app, (IH Hl).
    destruct (fate_survives t Ht) as [[E S]|(a & E & Ea & S)];
      rewrite E, S; [reflexivity|]. simpl. now rewrite Ea. }
  apply H, incl_refl.
Qed.

Lemma movedTiles_count :
  (length (movedTiles ax tiles)
   + length (mergedAway tiles (movedTiles ax tiles))
   = length tiles)%nat.
Proof.
  rewrite <- (length_map id (movedTiles ax tiles)), movedTiles_order, length_map.
  apply filter_split_length.
Qed.

Lemma survives_gone t :
  In t tiles ->
  survives (movedTiles ax tiles) t = false <->
  In (id t) (lineGone ax tiles (lineOf ax t)).
Proof.
  intros Ht. set (k := lineOf ax t).
  assert (Hin : In (id t) (map id (lineKept ax tiles k) ++ lineGone ax tiles k)).
  { eapply Permutation_in; [symmetry; apply lineKept_gone_ids|].
    apply in_map. apply lineTiles_In. now split. }
  split.
  - intros S. apply in_app_or in Hin as [Hin|Hin]; [|assumption].
    exfalso. apply in_map_iff in Hin as (x & E & Hx).
    destruct (kept_moved ax sign L tiles distinctIds k x Hx) as (a & H1 & H2 & _).
    assert (survives (movedTiles ax tiles) t = true); [|congruence].
    apply survives_In. rewrite <- E, <- H2. now apply in_map.
  - intros Hg. destruct (survives (movedTiles ax tiles) t) eqn:S; [|reflexivity].
    exfalso. apply survives_In in S.
    now apply (gone_not_moved ax sign L tiles distinctIds k (id t) Hg).
Qed.

Lemma lineScore_mergedAway k :
  lineScore ax tiles k
  = 2 * totalValue
          (filter (fun tile => lineOf ax tile =? k)
                  (mergedAway tiles (movedTiles ax tiles))).
Proof.
  unfold lineScore, lineWalk.
  rewrite mergeWalk_score by now apply lineTiles_NoDup.
  fold (lineWalk ax tiles k). fold (lineGone ax tiles k).
  f_equal. apply totalValue_perm. apply NoDup_Permutation.
  - apply NoDup_filter. apply (NoDup_of_map id). now apply lineTiles_NoDup.
  - apply NoDup_filter. unfold mergedAway. apply NoDup_filter.
    now apply (NoDup_of_map id).
  - intros t. unfold mergedAway.
    rewrite !filter_In, lineTiles_In, Z.eqb_eq, negb_true_iff. split.
    + intros [[Ht Hl] Hg]. split; [|assumption]. split; [assumption|].
      apply survives_gone; [assumption|]. rewrite Hl.
      apply existsb_exists in Hg as (i & Hi & E). apply Z.eqb_eq in E.
      now subst.
    + intros [[Ht S] Hl]. split; [now split|].
      apply survives_gone in S; [|assumption]. rewrite Hl in S.
      apply existsb_exists. exists (id t). split; [assumption|apply Z.eqb_refl].
Qed.

Lemma movedScore_mergedAway :
  movedScore ax tiles
  = 2 * totalValue (mergedAway tiles (movedTiles ax tiles)).
Proof.
  unfold movedScore.
  rewrite (sum_by_lines ax (range 0 GRID_SIZE)
             (mergedAway tiles (movedTiles ax tiles))).
  - rewrite <- sumZ_scale. f_equal. apply map_ext. intros k.
    apply lineScore_mergedAway.
  - apply range_NoDup.
  - intros t Ht. unfold mergedAway in Ht. apply filter_In in Ht as [Ht _].
    apply range_In. now apply inLines.
Qed.

End Accounting.

(** X2.  For every well-formed tile list whose values sum to at most
    2^53 - 1, the range in which the arithmetic of the code is exact, and
    every direction: the ids of the returned tiles are the ids of the input
    tiles that survive, in the order of the input list; the returned tiles
    and the tiles merged away together number as many as the input tiles;
    [scoreIncrease] is twice the total value of the tiles merged away, so
    it is never negative, it is at most the total value of the input, and
    it is 0 exactly when the move returns as many tiles as it was given. *)
Theorem move_accounting dir tiles :
  wellFormed tiles = true ->
  totalValue tiles <= MAX_SAFE_INTEGER ->
  exists res,
    applyMove dir tiles = Ok res
    /\ map id (updatedTiles res)
       = map id (filter (survives (updatedTiles res)) tiles)
    /\ (length (updatedTiles res)
        + length (mergedAway tiles (updatedTiles res)) = length tiles)%nat
    /\ scoreIncrease res = 2 * totalValue (mergedAway tiles (updatedTiles res))
    /\ 0 <= scoreIncrease res <= totalValue tiles
    /\ scoreIncrease res <= MAX_SAFE_INTEGER
    /\ (scoreIncrease res = 0 <->
        length (updatedTiles res) = length tiles).
Proof.
  intros H Hb. eexists. split; [apply (applyMove_spec dir tiles H)|].
  cbn [updatedTiles scoreIncrease].
  destruct (move_within_bound dir tiles H Hb) as (_ & _ & Hsc).
  destruct (axisOf_laws dir) as [sign L].
  destruct (wellFormed_regular _ _ _ L H) as (H1 & H2 & H3).
  assert (Ho := movedTiles_order (axisOf dir) tiles H1).
  assert (Hc := movedTiles_count (axisOf dir) tiles H1).
  assert (Hs := movedScore_mergedAway _ _ L tiles H1 H3).
  set (away := mergedAway tiles (movedTiles (axisOf dir) tiles)) in *.
  assert (Hpos : forall t, In t away -> 0 < value t).
  { intros t Ht. apply H2. unfold away, mergedAway in Ht.
    now apply filter_In in Ht. }
  assert (Hv : 0 <= totalValue away /\ (totalValue away = 0 -> away = [])).
  { clear -Hpos. induction away as [|t l IH].
    - split; [reflexivity|reflexivity].
    - rewrite totalValue_cons.
      assert (0 < value t) by (apply Hpos; now left).
      assert (0 <= totalValue l) by (apply IH; intros; apply Hpos; now right).
      split; lia. }
  split; [exact Ho|]. split; [exact Hc|]. split; [exact Hs|].
  split; [exact Hsc|]. split; [lia|]. rewrite Hs. split.
  - intros E. assert (away = []) by (apply Hv; lia).
    rewrite H0 in Hc. simpl in Hc. lia.
  - intros E. assert (away = []) by (destruct away; [reflexivity|simpl in Hc; lia]).
    now rewrite H0.
Qed.

Lemma move_accounting_witness :
  wellFormed row224 = true
  /\ totalValue row224 <= MAX_SAFE_INTEGER
  /\ exists res,
       applyMove Left row224 = Ok res
       /\ map id (updatedTiles res)
          = map id (filter (survives (updatedTiles res)) row224)
       /\ (length (updatedTiles res)
           + length (mergedAway row224 (updatedTiles res)) = length row224)%nat
       /\ scoreIncrease res
          = 2 * totalValue (mergedAway row224 (updatedTiles res))
       /\ 0 <= scoreIncrease res <= totalValue row224
       /\ scoreIncrease res <= MAX_SAFE_INTEGER
       /\ (scoreIncrease res = 0 <->
           length (updatedTiles res) = length row224).
Proof.
  assert (Hb : totalValue row224 <= MAX_SAFE_INTEGER)
    by (vm_compute; discriminate).
  split; [reflexivity|]. split; [exact Hb|].
  apply (move_accounting Left row224); [reflexivity|exact Hb].
Defined.

(** ** Lines are sorted, and stay sorted through the walk *)

Lemma StronglySorted_remove {A} (R : A -> A -> Prop) l1 a l2 :
  StronglySorted R (l1 ++ a :: l2) -> StronglySorted R (l1 ++ l2).
Proof.
  induction l1 as [|b l1 IH]; simpl; intros H.
  - now apply StronglySorted_inv in H.
  - apply StronglySorted_inv in H as [H1 H2]. constructor; [now apply IH|].
    apply Forall_app in H2 as [H2 H3]. apply Forall_cons_iff in H3 as [_ H3].
    apply Forall_app. now split.
Qed.

Section Order.

Variables (ax : Axis) (sign : Z).
Hypothesis L : AxisLaws ax sign.

Lemma before_nearer a b : before ax a b <-> (nearer sign) (posOf ax a) (posOf ax b).
Proof. unfold before, nearer. now rewrite (law_cmp _ _ L). Qed.

Lemma insertBy_le_sorted x l :
  StronglySorted (fun a b => comparator ax a b <= 0) l ->
  StronglySorted (fun a b => comparator ax a b <= 0)
                 (insertBy (comparator ax) x l).
Proof.
  induction l as [|y l IH]; intros H; simpl.
  - repeat constructor.
  - apply StronglySorted_inv in H as [H1 H2].
    destruct (comparator ax x y <=? 0) eqn:E.
    + apply Z.leb_le in E. constructor; [now constructor|].
      constructor; [assumption|].
      rewrite Forall_forall in *. intros z Hz. specialize (H2 z Hz).
      rewrite !(law_cmp _ _ L) in *.
      destruct (law_sign _ _ L) as [-> | ->]; lia.
    + apply Z.leb_gt in E. constructor; [now apply IH|].
      rewrite Forall_forall in *. intros z Hz.
      apply (Permutation_in _ (insertBy_perm _ x l)) in Hz.
      destruct Hz as [<-|Hz]; [|now apply H2].
      rewrite !(law_cmp _ _ L) in *.
      destruct (law_sign _ _ L) as [-> | ->]; lia.
Qed.

Lemma sortBy_le_sorted l :
  StronglySorted (fun a b => comparator ax a b <= 0) (sortBy (comparator ax) l).
Proof.
  induction l as [|x l IH]; simpl; [constructor|].
  now apply insertBy_le_sorted.
Qed.

Lemma sorted_strict l :
  StronglySorted (fun a b => comparator ax a b <= 0) l ->
  NoDup (map (posOf ax) l) ->
  StronglySorted (nearer sign) (map (posOf ax) l).
Proof.
  induction l as [|x l IH]; simpl; intros H Hnd; [constructor|].
  apply StronglySorted_inv in H as [H1 H2].
  apply NoDup_cons_iff in Hnd as [Hn Hnd].
  constructor; [now apply IH|].
  rewrite Forall_forall in *. intros p Hp.
  apply in_map_iff in Hp as (y & <- & Hy). specialize (H2 y Hy).
  assert (posOf ax x <> posOf ax y).
  { intros E. apply Hn. rewrite E. now apply in_map. }
  unfold nearer. rewrite (law_cmp _ _ L) in H2.
  destruct (law_sign _ _ L) as [-> | ->]; lia.
Qed.

(** The walk deletes tiles and changes values, not coordinates. *)
Lemma mergeWalk_sorted cur : forall stack lm,
  StronglySorted (nearer sign) (map (posOf ax) (rev stack ++ cur)) ->
  StronglySorted (nearer sign)
    (map (posOf ax) (rev (fst (fst (mergeWalk cur stack lm))))).
Proof.
  induction cur as [|t rest IH]; intros stack lm H.
  - simpl. now rewrite app_nil_r in H.
  - walk_step t rest stack lm G.
    + apply IH. exact H.
    + apply IH. simpl rev in *. rewrite <- app_assoc in *. simpl app in *.
      rewrite map_app in *. simpl map in *.
      rewrite (law_pos_merge _ _ L).
      change (posOf ax l :: posOf ax t :: map (posOf ax) rest)
        with ([posOf ax l] ++ posOf ax t :: map (posOf ax) rest) in H.
      rewrite app_assoc in H. apply StronglySorted_remove in H.
      now rewrite <- app_assoc in H.
    + apply IH. simpl rev in *. now rewrite <- !app_assoc in *.
Qed.

(** In a sorted line the coordinates of two tiles are at least as far apart
    as the tiles are in the list. *)
Lemma sorted_gap l : forall p j q,
  StronglySorted (nearer sign) (p :: l) -> nth_error l j = Some q ->
  sign * (q - p) >= Z.of_nat j + 1.
Proof.
  induction l as [|z l IH]; intros p j q H Hj.
  - destruct j; discriminate.
  - apply StronglySorted_inv in H as [H1 H2].
    apply Forall_cons_iff in H2 as [Hz _]. unfold nearer in Hz.
    destruct j as [|j]; simpl in Hj.
    + injection Hj as <-. simpl.
      destruct (law_sign _ _ L) as [-> | ->]; lia.
    + specialize (IH z j q H1 Hj).
      destruct (law_sign _ _ L) as [-> | ->]; lia.
Qed.

Lemma sorted_gap_nth l i j p q :
  StronglySorted (nearer sign) l -> (i <= j)%nat ->
  nth_error l i = Some p -> nth_error l j = Some q ->
  sign * (q - p) >= Z.of_nat j - Z.of_nat i.
Proof.
  revert i j. induction l as [|z l IH]; intros i j H Hij Hi Hj.
  - destruct i; discriminate.
  - destruct i as [|i].
    + simpl in Hi. injection Hi as ->. destruct j as [|j].
      * simpl in Hj. injection Hj as ->. simpl.
        destruct (law_sign _ _ L) as [-> | ->]; lia.
      * simpl in Hj. assert (G := sorted_gap l p j q H Hj). lia.
    + destruct j as [|j]; [lia|]. simpl in Hi, Hj.
      apply StronglySorted_inv in H as [H _].
      specialize (IH i j H ltac:(lia) Hi Hj). lia.
Qed.

End Order.

(** ** Where the tiles of a line go *)

Lemma axisOf_laws_sign dir : AxisLaws (axisOf dir) (signOf dir).
Proof.
  destruct dir; simpl;
    [apply leftAxis_laws|apply rightAxis_laws|apply upAxis_laws
    |apply downAxis_laws].
Qed.

Lemma axisOf_edge dir p :
  0 <= p < GRID_SIZE ->
  signOf dir * (p - targetOf (axisOf dir) 0) >= 0
  /\ signOf dir * (p - targetOf (axisOf dir) 3) <= 0.
Proof.
  destruct dir;
    cbn [axisOf targetOf signOf leftAxis rightAxis upAxis downAxis];
    unfold GRID_SIZE; lia.
Qed.

Section Slide.

Variable dir : Direction.
Variable tiles : list TileData.
Hypothesis wf : wellFormed tiles = true.

Lemma slide_laws : AxisLaws (axisOf dir) (signOf dir).
Proof. apply axisOf_laws_sign. Qed.

Lemma slide_ids : NoDup (map id tiles).
Proof. apply wellFormed_spec in wf. tauto. Qed.

Lemma slide_positions : NoDup (map positionOf tiles).
Proof. apply wellFormed_spec in wf. tauto. Qed.

Lemma slide_inside t : In t tiles -> inGrid GRID_SIZE t = true.
Proof. intros Ht. apply wellFormed_spec in wf as (H & _). now apply H. Qed.

Lemma lineTiles_sorted k :
  StronglySorted (nearer (signOf dir)) (map (posOf (axisOf dir)) (lineTiles (axisOf dir) tiles k)).
Proof.
  apply (sorted_strict (axisOf dir) (signOf dir) slide_laws).
  - apply (sortBy_le_sorted (axisOf dir) (signOf dir) slide_laws).
  - apply (lineTiles_positions (axisOf dir) (signOf dir) slide_laws tiles slide_ids slide_positions).
Qed.

Lemma lineKept_sorted k :
  StronglySorted (nearer (signOf dir)) (map (posOf (axisOf dir)) (lineKept (axisOf dir) tiles k)).
Proof.
  unfold lineKept, lineWalk. apply (mergeWalk_sorted (axisOf dir) (signOf dir) slide_laws).
  apply lineTiles_sorted.
Qed.

Lemma lineKept_inside k x :
  In x (lineKept (axisOf dir) tiles k) -> 0 <= posOf (axisOf dir) x < GRID_SIZE.
Proof.
  intros H.
  destruct (lineKept_source (axisOf dir) (signOf dir) slide_laws tiles k x H)
    as (s & Hs & _ & _ & _ & -> & _).
  now apply (law_inGrid _ _ slide_laws), slide_inside.
Qed.

(** The tile at index [n] of a line lies at or beyond the [n]-th cell from
    the target edge. *)
Lemma lineKept_beyond k n x :
  nth_error (lineKept (axisOf dir) tiles k) n = Some x ->
  (signOf dir) * (posOf (axisOf dir) x - targetOf (axisOf dir) (Z.of_nat n)) >= 0.
Proof.
  intros Hn.
  destruct (nth_error (lineKept (axisOf dir) tiles k) 0) as [x0|] eqn:H0.
  - assert (G := sorted_gap_nth (axisOf dir) (signOf dir) slide_laws _ 0 n (posOf (axisOf dir) x0) (posOf (axisOf dir) x)
                   (lineKept_sorted k) ltac:(lia)).
    rewrite !nth_error_map, H0, Hn in G. specialize (G eq_refl eq_refl).
    destruct (axisOf_edge dir (posOf (axisOf dir) x0)) as [E _].
    { apply (lineKept_inside k). now apply nth_error_In in H0. }
    assert (T := law_target _ _ slide_laws (Z.of_nat n) 0).
    simpl Z.of_nat in G.
    destruct (law_sign _ _ slide_laws) as [S|S]; rewrite S in *; lia.
  - apply nth_error_None in H0. apply nth_error_In in Hn.
    destruct (lineKept (axisOf dir) tiles k); [destruct Hn|simpl in H0; lia].
Qed.

(** A returned tile, the tile of the line it comes from, and its index. *)
Lemma returned_at a s :
  In a (movedTiles (axisOf dir) tiles) -> In s tiles -> id s = id a ->
  exists n x,
    nth_error (lineKept (axisOf dir) tiles (lineOf (axisOf dir) a)) n = Some x
    /\ posOf (axisOf dir) x = posOf (axisOf dir) s
    /\ posOf (axisOf dir) a = targetOf (axisOf dir) (Z.of_nat n)
    /\ lineOf (axisOf dir) s = lineOf (axisOf dir) a.
Proof.
  intros Ha Hs E.
  apply (movedTiles_In (axisOf dir) (signOf dir) slide_laws tiles slide_ids) in Ha.
  destruct (lineOut_at (axisOf dir) (signOf dir) slide_laws tiles _ a Ha) as (n & x & Hn & Ea & Pa).
  exists n, x. split; [assumption|].
  assert (Hx := nth_error_In _ _ Hn).
  destruct (lineKept_source (axisOf dir) (signOf dir) slide_laws tiles _ x Hx)
    as (s' & Hs' & Ls' & Es' & _ & Ps' & _).
  assert (s' = s).
  { apply (NoDup_map_inj id tiles); auto using slide_ids.
    rewrite Es', E, Ea. symmetry. apply (law_id_with _ _ slide_laws). }
  subst s'. repeat split; assumption.
Qed.

Lemma toward_edge a s :
  In a (movedTiles (axisOf dir) tiles) -> In s tiles -> id s = id a ->
  (signOf dir) * (posOf (axisOf dir) a - posOf (axisOf dir) s) <= 0.
Proof.
  intros Ha Hs E.
  destruct (returned_at a s Ha Hs E) as (n & x & Hn & Px & Pa & _).
  assert (G := lineKept_beyond _ n x Hn). rewrite Pa, <- Px.
  destruct (law_sign _ _ slide_laws) as [S|S]; rewrite S in *; lia.
Qed.

Lemma order_kept a b sa sb :
  In a (movedTiles (axisOf dir) tiles) -> In b (movedTiles (axisOf dir) tiles) ->
  In sa tiles -> In sb tiles -> id sa = id a -> id sb = id b ->
  lineOf (axisOf dir) sa = lineOf (axisOf dir) sb ->
  posOf (axisOf dir) sa < posOf (axisOf dir) sb -> posOf (axisOf dir) a < posOf (axisOf dir) b.
Proof.
  intros Ha Hb Hsa Hsb Ea Eb El Hlt.
  destruct (returned_at a sa Ha Hsa Ea) as (n & x & Hn & Px & Pa & La).
  destruct (returned_at b sb Hb Hsb Eb) as (m & y & Hm & Py & Pb & Lb).
  assert (Ek : lineOf (axisOf dir) b = lineOf (axisOf dir) a) by congruence.
  rewrite Ek in Hm. set (k := lineOf (axisOf dir) a) in *.
  assert (T := law_target _ _ slide_laws (Z.of_nat n) (Z.of_nat m)).
  rewrite Pa, Pb.
  destruct (Nat.le_gt_cases n m) as [Hnm|Hnm].
  - assert (G := sorted_gap_nth (axisOf dir) (signOf dir) slide_laws _ n m (posOf (axisOf dir) x) (posOf (axisOf dir) y)
                   (lineKept_sorted k) Hnm).
    rewrite !nth_error_map, Hn, Hm in G. specialize (G eq_refl eq_refl).
    destruct (Nat.eq_dec n m) as [->|Hne].
    + rewrite Hn in Hm. injection Hm as ->. lia.
    + destruct (law_sign _ _ slide_laws) as [S|S]; rewrite S in *; lia.
  - assert (G := sorted_gap_nth (axisOf dir) (signOf dir) slide_laws _ m n (posOf (axisOf dir) y) (posOf (axisOf dir) x)
                   (lineKept_sorted k) ltac:(lia)).
    rewrite !nth_error_map, Hn, Hm in G. specialize (G eq_refl eq_refl).
    destruct (law_sign _ _ slide_laws) as [S|S]; rewrite S in *; lia.
Qed.

Lemma no_gap a n m :
  In a (movedTiles (axisOf dir) tiles) ->
  posOf (axisOf dir) a = targetOf (axisOf dir) (Z.of_nat n) -> (m <= n)%nat ->
  exists b, In b (movedTiles (axisOf dir) tiles)
            /\ lineOf (axisOf dir) b = lineOf (axisOf dir) a
            /\ posOf (axisOf dir) b = targetOf (axisOf dir) (Z.of_nat m).
Proof.
  intros Ha Pa Hm.
  apply (movedTiles_In (axisOf dir) (signOf dir) slide_laws tiles slide_ids) in Ha.
  set (k := lineOf (axisOf dir) a) in *.
  destruct (lineOut_at (axisOf dir) (signOf dir) slide_laws tiles k a Ha) as (n' & x & Hn & _ & Pa').
  assert (n' = n).
  { assert (T := law_target _ _ slide_laws (Z.of_nat n') (Z.of_nat n)).
    rewrite <- Pa, <- Pa', Z.sub_diag, Z.mul_0_r in T. lia. }
  subst n'.
  destruct (nth_error (lineKept (axisOf dir) tiles k) m) as [y|] eqn:Hy.
  - exists (withPos (axisOf dir) y (targetOf (axisOf dir) (0 + Z.of_nat m))).
    assert (Ho : In (withPos (axisOf dir) y (targetOf (axisOf dir) (0 + Z.of_nat m)))
                    (lineOut (axisOf dir) tiles k)).
    { apply nth_error_In with (n := m). unfold lineOut.
      now rewrite placeAll_nth, Hy. }
    assert (Lb := movedTiles_line (axisOf dir) (signOf dir) slide_laws tiles k _ Ho).
    split; [|split; [assumption|apply (law_pos_with _ _ slide_laws)]].
    apply (movedTiles_In (axisOf dir) (signOf dir) slide_laws tiles slide_ids). now rewrite Lb.
  - apply nth_error_None in Hy.
    assert ((n < length (lineKept (axisOf dir) tiles k))%nat)
      by (apply nth_error_Some; congruence).
    lia.
Qed.

End Slide.

(** X3.  For every well-formed tile list and direction, with the cells of a
    line counted from the edge the move pushes to ([targetOf]): a returned
    tile never lies farther from that edge than the input tile of its id
    did; two tiles of a line that are both returned keep their order along
    the line; and a returned tile on the [n]-th cell from the edge has a
    returned tile of its line on every cell nearer the edge, so no gap is
    left. *)
Theorem move_slides_to_the_edge dir tiles :
  wellFormed tiles = true ->
  exists res,
    applyMove dir tiles = Ok res
    /\ (forall a s,
          In a (updatedTiles res) -> In s tiles -> id s = id a ->
          match dir with
          | Left => row a = row s /\ col a <= col s
          | Right => row a = row s /\ col s <= col a
          | Up => col a = col s /\ row a <= row s
          | Down => col a = col s /\ row s <= row a
          end)
    /\ (forall a b sa sb,
          In a (updatedTiles res) -> In b (updatedTiles res) ->
          In sa tiles -> In sb tiles -> id sa = id a -> id sb = id b ->
          lineOf (axisOf dir) sa = lineOf (axisOf dir) sb ->
          posOf (axisOf dir) sa < posOf (axisOf dir) sb ->
          posOf (axisOf dir) a < posOf (axisOf dir) b)
    /\ (forall a n m,
          In a (updatedTiles res) ->
          posOf (axisOf dir) a = targetOf (axisOf dir) (Z.of_nat n) ->
          (m <= n)%nat ->
          exists b,
            In b (updatedTiles res)
            /\ lineOf (axisOf dir) b = lineOf (axisOf dir) a
            /\ posOf (axisOf dir) b = targetOf (axisOf dir) (Z.of_nat m)).
Proof.
  intros H. eexists. split; [apply (applyMove_spec dir tiles H)|].
  cbn [updatedTiles]. split; [|split].
  - intros a s Ha Hs E.
    assert (T := toward_edge dir tiles H a s Ha Hs E).
    destruct (returned_at dir tiles H a s Ha Hs E) as (_ & _ & _ & _ & _ & El).
    destruct dir; cbn [axisOf signOf lineOf posOf leftAxis rightAxis upAxis
                       downAxis] in T, El; split; try congruence; lia.
  - apply (order_kept dir tiles H).
  - apply (no_gap dir tiles H).
Qed.

Lemma move_slides_to_the_edge_witness :
  wellFormed sampleBoard = true
  /\ exists res,
       applyMove Right sampleBoard = Ok res
       /\ (forall a s,
             In a (updatedTiles res) -> In s sampleBoard -> id s = id a ->
             row a = row s /\ col s <= col a).
Proof.
  split; [reflexivity|].
  destruct (move_slides_to_the_edge Right sampleBoard) as (res & H1 & H2 & _);
    [reflexivity|].
  exists res. split; assumption.
Defined.

(** ** Full lines and full boards *)

Lemma count_by_lines ax ks (l : list TileData) :
  NoDup ks -> (forall t, In t l -> In (lineOf ax t) ks) ->
  Z.of_nat (length l)
  = sumZ (map (fun k => Z.of_nat
                 (length (filter (fun tile => lineOf ax tile =? k) l))) ks).
Proof.
  intros Hnd. induction l as [|t l IH]; intros Hin.
  - simpl. now rewrite sumZ_zero.
  - replace (Z.of_nat (length (t :: l))) with (1 + Z.of_nat (length l))
      by (simpl length; lia).
    rewrite IH by (intros; apply Hin; now right).
    rewrite <- (sumZ_pick (lineOf ax t) 1 ks Hnd) at 1
      by (apply Hin; now left).
    rewrite <- sumZ_add. f_equal. apply map_ext. intros k. cbn [filter].
    destruct (lineOf ax t =? k); [simpl length|]; lia.
Qed.

Section Full.

Variable dir : Direction.
Variable tiles : list TileData.
Hypothesis wf : wellFormed tiles = true.

Lemma lineTiles_inside k x :
  In x (lineTiles (axisOf dir) tiles k) -> 0 <= posOf (axisOf dir) x < GRID_SIZE.
Proof.
  intros H. apply lineTiles_In in H as [H _].
  now apply (law_inGrid _ _ (axisOf_laws_sign dir)), (slide_inside tiles wf).
Qed.

(** In a line of four tiles the tile at index [n] is on the [n]-th cell
    from the edge. *)
Lemma full_line_placed k n x :
  length (lineTiles (axisOf dir) tiles k) = 4%nat ->
  nth_error (lineTiles (axisOf dir) tiles k) n = Some x ->
  posOf (axisOf dir) x = targetOf (axisOf dir) (Z.of_nat n).
Proof.
  intros Hlen Hn.
  assert (Hlt : (n < 4)%nat) by (rewrite <- Hlen; apply nth_error_Some; congruence).
  assert (Hs := lineTiles_sorted dir tiles wf k).
  destruct (nth_error (lineTiles (axisOf dir) tiles k) 0) as [x0|] eqn:H0;
    [|apply nth_error_None in H0; lia].
  destruct (nth_error (lineTiles (axisOf dir) tiles k) 3) as [x3|] eqn:H3;
    [|apply nth_error_None in H3; lia].
  assert (G0 := sorted_gap_nth _ _ (axisOf_laws_sign dir) _ 0 n
                  (posOf (axisOf dir) x0) (posOf (axisOf dir) x) Hs ltac:(lia)).
  assert (G3 := sorted_gap_nth _ _ (axisOf_laws_sign dir) _ n 3
                  (posOf (axisOf dir) x) (posOf (axisOf dir) x3) Hs ltac:(lia)).
  rewrite !nth_error_map, H0, Hn in G0. rewrite !nth_error_map, H3, Hn in G3.
  specialize (G0 eq_refl eq_refl). specialize (G3 eq_refl eq_refl).
  destruct (axisOf_edge dir (posOf (axisOf dir) x0)) as [E0 _].
  { apply (lineTiles_inside k). now apply nth_error_In in H0. }
  destruct (axisOf_edge dir (posOf (axisOf dir) x3)) as [_ E3].
  { apply (lineTiles_inside k). now apply nth_error_In in H3. }
  assert (T0 := law_target _ _ (axisOf_laws_sign dir) (Z.of_nat n) 0).
  assert (T3 := law_target _ _ (axisOf_laws_sign dir) 3 (Z.of_nat n)).
  change (Z.of_nat 0) with 0 in *. change (Z.of_nat 3) with 3 in *.
  destruct (law_sign _ _ (axisOf_laws_sign dir)) as [S|S]; rewrite S in *; lia.
Qed.

Lemma full_line_in_place k :
  length (lineTiles (axisOf dir) tiles k) = 4%nat ->
  misplaced (axisOf dir) (lineTiles (axisOf dir) tiles k) 0 = false.
Proof.
  intros Hlen.
  destruct (misplaced (axisOf dir) (lineTiles (axisOf dir) tiles k) 0) eqn:M;
    [|reflexivity].
  apply misplaced_true in M as (n & x & Hn & Hp).
  exfalso. apply Hp. rewrite Z.add_0_l. now apply full_line_placed with (k := k).
Qed.

Hypothesis full : length tiles = 16%nat.

Lemma full_board_lines k :
  In k (range 0 GRID_SIZE) ->
  length (lineTiles (axisOf dir) tiles k) = 4%nat.
Proof.
  intros Hk.
  assert (Hlen : forall j : Z,
            (length (filter (fun tile => (lineOf (axisOf dir) tile =? j)%Z) tiles)
             <= 4)%nat).
  { intros j. rewrite <- (Permutation_length (lineTiles_perm (axisOf dir) tiles j)).
    apply (lineTiles_length _ _ (axisOf_laws_sign dir) tiles);
      [apply (slide_ids tiles wf)|apply (slide_positions tiles wf)
      |apply (slide_inside tiles wf)]. }
  assert (Hsum := count_by_lines (axisOf dir) (range 0 GRID_SIZE) tiles
                    (range_NoDup _ _)).
  rewrite full in Hsum.
  assert (Hin : forall t, In t tiles ->
                  In (lineOf (axisOf dir) t) (range 0 GRID_SIZE)).
  { intros t Ht. apply range_In.
    now apply (law_inGrid _ _ (axisOf_laws_sign dir)), (slide_inside tiles wf). }
  specialize (Hsum Hin).
  rewrite (Permutation_length (lineTiles_perm (axisOf dir) tiles k)).
  change (range 0 GRID_SIZE) with [0; 1; 2; 3] in *.
  cbn [map sumZ fold_right] in Hsum.
  assert (H0 := Hlen 0). assert (H1 := Hlen 1).
  assert (H2 := Hlen 2). assert (H3 := Hlen 3).
  destruct Hk as [<-|[<-|[<-|[<-|[]]]]]; lia.
Qed.

(** On a full board a line moves exactly when its walk merges. *)
Lemma full_board_lineMoved k :
  In k (range 0 GRID_SIZE) ->
  lineMoved (axisOf dir) tiles k = false <->
  lineGone (axisOf dir) tiles k = [].
Proof.
  intros Hk. unfold lineMoved. rewrite orb_false_iff, negb_false_iff. split.
  - intros [H _]. now apply length_zero_iff in H.
  - intros Hg. split; [now apply length_zero_iff|].
    assert (Hkept : lineKept (axisOf dir) tiles k = lineTiles (axisOf dir) tiles k).
    { unfold lineKept, lineWalk. unfold lineGone, lineWalk in Hg.
      rewrite (mergeWalk_gone_nil _ _ _ Hg). simpl.
      now rewrite app_nil_r, rev_involutive. }
    rewrite Hkept. apply full_line_in_place. now apply full_board_lines.
Qed.

End Full.

Section Merging.

Variable dir : Direction.
Variable tiles : list TileData.
Hypothesis wf : wellFormed tiles = true.

(** The walk of a line merges nothing exactly when no two neighbours of the
    sorted line have equal values. *)
Lemma line_merges_nothing k :
  lineGone (axisOf dir) tiles k = [] <->
  (forall x y, nextTo x y (lineTiles (axisOf dir) tiles k) -> value x <> value y).
Proof.
  split.
  - intros Hg x y Hxy Hv.
    assert (Hkept : lineKept (axisOf dir) tiles k = lineTiles (axisOf dir) tiles k).
    { unfold lineKept, lineWalk. unfold lineGone, lineWalk in Hg.
      rewrite (mergeWalk_gone_nil _ _ _ Hg). simpl.
      now rewrite app_nil_r, rev_involutive. }
    assert (Hn := lineKept_neighbours (axisOf dir) tiles (slide_ids tiles wf) k).
    rewrite Hkept in Hn.
    assert (Hraw : forall z, In z (lineTiles (axisOf dir) tiles k) ->
                     ~ doubled (lineTiles (axisOf dir) tiles k) z).
    { intros z Hz (s & Hs & Es & Ev).
      assert (s = z).
      { apply (NoDup_map_inj id (lineTiles (axisOf dir) tiles k)); auto.
        apply lineTiles_NoDup, (slide_ids tiles wf). }
      subst s. apply lineTiles_In in Hz as [Hz _].
      destruct (wellFormed_regular _ _ _ (axisOf_laws_sign dir) wf) as (_ & P & _).
      specialize (P z Hz). lia. }
    destruct (nextTo_In _ _ _ Hxy) as [Hx Hy].
    destruct (Hn x y Hxy Hv) as [D|D]; [now apply (Hraw x)|now apply (Hraw y)].
  - intros H. unfold lineGone, lineWalk. now rewrite mergeWalk_idle.
Qed.

(** Neighbours in a sorted line of four are neighbours on the board. *)
Lemma full_line_neighbours k x y :
  length (lineTiles (axisOf dir) tiles k) = 4%nat ->
  nextTo x y (lineTiles (axisOf dir) tiles k) ->
  signOf dir * (posOf (axisOf dir) y - posOf (axisOf dir) x) = 1.
Proof.
  intros Hlen Hxy. apply nextTo_nth_inv in Hxy as (n & Hx & Hy).
  rewrite (full_line_placed dir tiles wf k n x Hlen Hx).
  rewrite (full_line_placed dir tiles wf k (S n) y Hlen Hy).
  rewrite (law_target _ _ (axisOf_laws_sign dir)). lia.
Qed.

Lemma board_neighbours_in_line k a b :
  length (lineTiles (axisOf dir) tiles k) = 4%nat ->
  In a tiles -> In b tiles ->
  lineOf (axisOf dir) a = k -> lineOf (axisOf dir) b = k ->
  posOf (axisOf dir) b = posOf (axisOf dir) a + 1 ->
  nextTo a b (lineTiles (axisOf dir) tiles k)
  \/ nextTo b a (lineTiles (axisOf dir) tiles k).
Proof.
  intros Hlen Ha Hb La Lb Hp.
  assert (Ia : In a (lineTiles (axisOf dir) tiles k)) by now apply lineTiles_In.
  assert (Ib : In b (lineTiles (axisOf dir) tiles k)) by now apply lineTiles_In.
  apply In_nth_error in Ia as (n & Hn), Ib as (m & Hm).
  assert (Pa := full_line_placed dir tiles wf k n a Hlen Hn).
  assert (Pb := full_line_placed dir tiles wf k m b Hlen Hm).
  assert (T := law_target _ _ (axisOf_laws_sign dir) (Z.of_nat m) (Z.of_nat n)).
  rewrite <- Pa, <- Pb, Hp in T.
  destruct (law_sign _ _ (axisOf_laws_sign dir)) as [Hs|Hs]; rewrite Hs in T.
  - left. apply nextTo_nth with (n := n); [assumption|].
    now replace (S n) with m by lia.
  - right. apply nextTo_nth with (n := m); [assumption|].
    now replace (S m) with n by lia.
Qed.

Hypothesis full : length tiles = 16%nat.

Lemma full_board_idle :
  movedFlag (axisOf dir) tiles = false <-> quiet (axisOf dir) tiles.
Proof.
  unfold movedFlag. rewrite existsb_false. split.
  - intros H a b Ha Hb Hl Hp Hv.
    set (k := lineOf (axisOf dir) a).
    assert (Hk : In k (range 0 GRID_SIZE)).
    { apply range_In.
      now apply (law_inGrid _ _ (axisOf_laws_sign dir)), (slide_inside tiles wf). }
    assert (Hlen := full_board_lines dir tiles wf full k Hk).
    assert (Hg := proj1 (full_board_lineMoved dir tiles wf full k Hk) (H k Hk)).
    assert (Hq := proj1 (line_merges_nothing k) Hg).
    destruct (board_neighbours_in_line k a b Hlen Ha Hb eq_refl (eq_sym Hl) Hp)
      as [N|N]; [now apply (Hq a b N)|apply (Hq b a N); congruence].
  - intros Hq k Hk.
    assert (Hlen := full_board_lines dir tiles wf full k Hk).
    apply (full_board_lineMoved dir tiles wf full k Hk).
    apply line_merges_nothing. intros x y Hxy Hv.
    assert (G := full_line_neighbours k x y Hlen Hxy).
    destruct (nextTo_In _ _ _ Hxy) as [Hx Hy].
    apply lineTiles_In in Hx as [Hx Lx], Hy as [Hy Ly].
    destruct dir; cbn [signOf] in G.
    + apply (Hq x y); auto; [congruence|lia].
    + apply (Hq y x); auto; [congruence|lia].
    + apply (Hq x y); auto; [congruence|lia].
    + apply (Hq y x); auto; [congruence|lia].
Qed.

End Merging.

(** ** The detector, read off the board *)

Lemma checkAvailableMoves_flags tiles :
  wellFormed tiles = true ->
  checkAvailableMoves tiles
  = Ok ((Z.of_nat (length tiles) <? GRID_SIZE * GRID_SIZE)
        || movedFlag leftAxis tiles || movedFlag rightAxis tiles
        || movedFlag upAxis tiles || movedFlag downAxis tiles).
Proof.
  intros H. unfold checkAvailableMoves.
  destruct (Z.of_nat (length tiles) <? GRID_SIZE * GRID_SIZE); [reflexivity|].
  assert (Hl := applyMove_spec Left tiles H).
  assert (Hr := applyMove_spec Right tiles H).
  assert (Hu := applyMove_spec Up tiles H).
  assert (Hd := applyMove_spec Down tiles H).
  cbn [applyMove axisOf] in Hl, Hr, Hu, Hd.
  rewrite Hl, Hr, Hu, Hd. cbn [bind moved].
  destruct (movedFlag leftAxis tiles), (movedFlag rightAxis tiles),
    (movedFlag upAxis tiles), (movedFlag downAxis tiles); reflexivity.
Qed.

Lemma checkAvailableMoves_false_iff tiles :
  wellFormed tiles = true ->
  checkAvailableMoves tiles = Ok false <->
  length tiles = 16%nat /\ quiet leftAxis tiles /\ quiet upAxis tiles.
Proof.
  intros H. rewrite (checkAvailableMoves_flags tiles H).
  assert (Hlen := wellFormed_length tiles H).
  destruct (Z.of_nat (length tiles) <? GRID_SIZE * GRID_SIZE) eqn:E.
  - apply Z.ltb_lt in E. unfold GRID_SIZE in E. cbn [orb]. split.
    + discriminate.
    + intros [F _]. lia.
  - apply Z.ltb_ge in E. unfold GRID_SIZE in E.
    assert (F : length tiles = 16%nat) by lia.
    assert (Hl := full_board_idle Left tiles H F).
    assert (Hr := full_board_idle Right tiles H F).
    assert (Hu := full_board_idle Up tiles H F).
    assert (Hd := full_board_idle Down tiles H F).
    cbn [axisOf] in Hl, Hr, Hu, Hd. cbn [orb]. split.
    + intros [= G]. rewrite !orb_false_iff in G.
      destruct G as [[[G1 G2] G3] G4].
      split; [assumption|]. split; [now apply Hl|now apply Hu].
    + intros (_ & Q1 & Q2).
      assert (Q3 : quiet rightAxis tiles) by exact Q1.
      assert (Q4 : quiet downAxis tiles) by exact Q2.
      apply Hl in Q1. apply Hu in Q2. apply Hr in Q3. apply Hd in Q4.
      now rewrite Q1, Q2, Q3, Q4.
Qed.

(** X4.  On a well-formed tile list [checkAvailableMoves] returns a boolean,
    and it returns false (game over) exactly when the list has sixteen tiles
    and no two tiles next to each other in a row or in a column have equal
    values: the detector "checks for empty cells or adjacent cells with the
    same value". *)
Theorem checkAvailableMoves_by_neighbours tiles :
  wellFormed tiles = true ->
  (checkAvailableMoves tiles = Ok true \/ checkAvailableMoves tiles = Ok false)
  /\ (checkAvailableMoves tiles = Ok false <->
      length tiles = 16%nat
      /\ (forall a b, In a tiles -> In b tiles ->
            row a = row b -> col b = col a + 1 -> value a <> value b)
      /\ (forall a b, In a tiles -> In b tiles ->
            col a = col b -> row b = row a + 1 -> value a <> value b)).
Proof.
  intros H. split.
  - rewrite (checkAvailableMoves_flags tiles H). destruct (_ || _); auto.
  - apply (checkAvailableMoves_false_iff tiles H).
Qed.

Lemma checkAvailableMoves_by_neighbours_witness :
  wellFormed deadBoard = true
  /\ (checkAvailableMoves deadBoard = Ok false <->
      length deadBoard = 16%nat
      /\ (forall a b, In a deadBoard -> In b deadBoard ->
            row a = row b -> col b = col a + 1 -> value a <> value b)
      /\ (forall a b, In a deadBoard -> In b deadBoard ->
            col a = col b -> row b = row a + 1 -> value a <> value b)).
Proof.
  split; [reflexivity|].
  apply (checkAvailableMoves_by_neighbours deadBoard). reflexivity.
Defined.

(** ** The spawner on a well-formed list *)

Lemma spawn_keeps_wellFormed tiles w :
  wellFormed tiles = true -> randomOK w ->
  Z.of_nat (length tiles) < 16 ->
  exists s,
    addRandomTile tiles w = Ok (Some s, afterSpawn w)
    /\ tilesWithNew s = tiles ++ [newTile s]
    /\ (~ In (nextTileId w) (map id tiles) ->
        wellFormed (tilesWithNew s) = true).
Proof.
  intros H Hr Hlen.
  destruct (wellFormed_room tiles H Hlen) as (r & c & Hb & He).
  assert (Hne : emptyCellsOf (tilesToGrid tiles GRID_SIZE) <> []).
  { intros E. apply (proj1 (emptyCellsOf_nil _) E r c Hb). exact He. }
  destruct (addRandomTile_some tiles w Hr Hne) as (pos & v & Hpos & Hv & E).
  eexists. split; [exact E|]. cbn [tilesWithNew newTile].
  split; [reflexivity|]. intros Hid.
  apply emptyCellsOf_In in Hpos as (Hon & Hz & _).
  destruct (wellFormed_spec _ H) as (G1 & G2 & G3 & G4).
  apply wellFormed_intro.
  - intros t Ht. apply in_app_or in Ht as [Ht|[<-|[]]]; [now apply G1|].
    now apply inGrid_onBoard.
  - intros t Ht. apply in_app_or in Ht as [Ht|[<-|[]]]; [now apply G2|].
    cbn [value spawned]. destruct Hv as [->| ->]; reflexivity.
  - rewrite map_app. apply NoDup_app_intro; [assumption|repeat constructor; auto|].
    intros p Hp [<-|[]]. apply in_map_iff in Hp as (t & Et & Ht).
    unfold positionOf in Et. cbn [row col spawned] in Et.
    injection Et as Er Ec.
    apply (cell_occupied GRID_SIZE tiles t); [|assumption|now apply G1|].
    + intros u Hu. specialize (G2 u Hu). apply isPowerOfTwo_pos in G2. lia.
    + now rewrite Er, Ec.
  - rewrite map_app. apply NoDup_app_intro; [assumption|repeat constructor; auto|].
    intros i Hi [<-|[]]. now apply Hid.
Qed.

Lemma spawn_adds_two_or_four tiles w s w' :
  wellFormed tiles = true -> randomOK w ->
  Z.of_nat (length tiles) < 16 ->
  addRandomTile tiles w = Ok (Some s, w') ->
  (value (newTile s) = 2 \/ value (newTile s) = 4)
  /\ totalValue (tilesWithNew s) = totalValue tiles + value (newTile s).
Proof.
  intros H Hr Hlen E.
  destruct (wellFormed_room tiles H Hlen) as (r & c & Hb & He).
  assert (Hne : emptyCellsOf (tilesToGrid tiles GRID_SIZE) <> []).
  { intros N. apply (proj1 (emptyCellsOf_nil _) N r c Hb). exact He. }
  destruct (addRandomTile_some tiles w Hr Hne) as (pos & v & _ & Hv & E').
  rewrite E' in E. injection E as <- _. cbn [newTile tilesWithNew].
  rewrite totalValue_app. unfold totalValue at 2. cbn [map sumZ spawned value].
  split; [exact Hv|]. simpl. lia.
Qed.

(** ** After an effective move the spawner finds room *)

Lemma move_fills_no_board dir tiles :
  wellFormed tiles = true ->
  movedFlag (axisOf dir) tiles = true ->
  (length (movedTiles (axisOf dir) tiles) < 16)%nat.
Proof.
  intros H M.
  assert (L := axisOf_laws_sign dir).
  destruct (wellFormed_regular _ _ _ L H) as (H1 & H2 & H3).
  assert (Hlen := wellFormed_length tiles H).
  assert (Hc := movedTiles_count (axisOf dir) tiles H1).
  destruct (Nat.lt_ge_cases (length (movedTiles (axisOf dir) tiles)) 16)
    as [Hlt|Hge]; [assumption|exfalso].
  assert (F : length tiles = 16%nat) by lia.
  assert (Haway : mergedAway tiles (movedTiles (axisOf dir) tiles) = []).
  { destruct (mergedAway tiles (movedTiles (axisOf dir) tiles));
      [reflexivity|simpl in Hc; lia]. }
  assert (Hs : movedScore (axisOf dir) tiles = 0).
  { rewrite (movedScore_mergedAway _ _ L tiles H1 H3), Haway. reflexivity. }
  assert (movedFlag (axisOf dir) tiles = false); [|congruence].
  unfold movedFlag. apply existsb_false. intros k Hk.
  apply (full_board_lineMoved dir tiles H F k Hk).
  assert (Hk' := lineScore_zero (axisOf dir) tiles H2 k Hk Hs).
  assert (Hl := lineKept_length (axisOf dir) tiles k).
  rewrite Hk' in Hl.
  destruct (lineGone (axisOf dir) tiles k); [reflexivity|simpl in Hl; lia].
Qed.

(** X5.  For every well-formed tile list whose values sum to at most
    2^53 - 1, the range in which the arithmetic of the code is exact, every
    direction and every ambient state whose draws obey the contract of
    [Math.random()]: the move never returns more tiles than it was given,
    and when it reports [moved = true] it returns fewer than sixteen tiles,
    so that the spawner called on its result adds a tile (it returns neither
    "no space" nor an error), of value 2 or 4, and the list stays well
    formed when the id counter is not the id of a returned tile. *)
Theorem effective_move_leaves_room dir tiles w :
  wellFormed tiles = true -> totalValue tiles <= MAX_SAFE_INTEGER ->
  randomOK w ->
  exists res,
    applyMove dir tiles = Ok res
    /\ (length (updatedTiles res) <= length tiles)%nat
    /\ totalValue (updatedTiles res) <= MAX_SAFE_INTEGER
    /\ (moved res = true ->
        (length (updatedTiles res) < 16)%nat
        /\ exists s,
             addRandomTile (updatedTiles res) w = Ok (Some s, afterSpawn w)
             /\ tilesWithNew s = updatedTiles res ++ [newTile s]
             /\ (value (newTile s) = 2 \/ value (newTile s) = 4)
             /\ totalValue (tilesWithNew s)
                = totalValue tiles + value (newTile s)
             /\ (~ In (nextTileId w) (map id (updatedTiles res)) ->
                 wellFormed (tilesWithNew s) = true)).
Proof.
  intros H Hb Hr.
  assert (Hspec := applyMove_spec dir tiles H).
  assert (Hwf := movedTiles_wellFormed dir tiles H).
  destruct (move_within_bound dir tiles H Hb) as (Ht & _ & _).
  eexists. split; [exact Hspec|]. cbn [updatedTiles moved].
  assert (L := axisOf_laws_sign dir).
  destruct (wellFormed_regular _ _ _ L H) as (H1 & H2 & H3).
  assert (Hc := movedTiles_count (axisOf dir) tiles H1).
  split; [lia|]. split; [lia|]. intros M.
  assert (Hlt := move_fills_no_board dir tiles H M).
  split; [assumption|].
  assert (Hlen : Z.of_nat (length (movedTiles (axisOf dir) tiles)) < 16)
    by lia.
  destruct (spawn_keeps_wellFormed _ w Hwf Hr Hlen) as (s & E & Es & Hs).
  destruct (spawn_adds_two_or_four _ w s _ Hwf Hr Hlen E) as (Hv & Hsum).
  exists s. split; [exact E|]. split; [exact Es|]. split; [exact Hv|].
  split; [now rewrite Hsum, Ht|exact Hs].
Qed.

Lemma effective_move_leaves_room_witness :
  wellFormed sampleBoard = true
  /\ totalValue sampleBoard <= MAX_SAFE_INTEGER
  /\ randomOK sampleWorld
  /\ exists res,
       applyMove Left sampleBoard = Ok res
       /\ (length (updatedTiles res) <= length sampleBoard)%nat
       /\ totalValue (updatedTiles res) <= MAX_SAFE_INTEGER
       /\ (moved res = true ->
           (length (updatedTiles res) < 16)%nat
           /\ exists s,
                addRandomTile (updatedTiles res) sampleWorld
                = Ok (Some s, afterSpawn sampleWorld)
                /\ tilesWithNew s = updatedTiles res ++ [newTile s]
                /\ (value (newTile s) = 2 \/ value (newTile s) = 4)
                /\ totalValue (tilesWithNew s)
                   = totalValue sampleBoard + value (newTile s)
                /\ (~ In (nextTileId sampleWorld) (map id (updatedTiles res)) ->
                    wellFormed (tilesWithNew s) = true)).
Proof.
  assert (Hr : randomOK sampleWorld).
  { intros n. split; [unfold Qle; simpl; lia|reflexivity]. }
  assert (Hb : totalValue sampleBoard <= MAX_SAFE_INTEGER)
    by (vm_compute; discriminate).
  split; [reflexivity|]. split; [exact Hb|]. split; [exact Hr|].
  apply (effective_move_leaves_room Left sampleBoard sampleWorld);
    [reflexivity|exact Hb|exact Hr].
Defined.

(** ** The draws of the spawner *)

Lemma addRandomTile_drawn tiles w s w' :
  addRandomTile tiles w = Ok (Some s, w') ->
  exists pos,
    In pos (emptyCellsOf (tilesToGrid tiles GRID_SIZE))
    /\ s = (let t := spawned w (if Qle_bool (9 # 10) (tape w (S (cursor w)))
                                then 4 else 2) pos in
            {| tilesWithNew := tiles ++ [t]; newTile := t |})
    /\ w' = afterSpawn w.
Proof.
  unfold addRandomTile.
  set (cells := emptyCellsOf (tilesToGrid tiles GRID_SIZE)).
  destruct (Z.of_nat (length cells) =? 0); [discriminate|].
  unfold Math_random, freshTileId. cbn [nextTileId tape cursor].
  set (i := Qfloor _).
  destruct (if i <? 0 then None else nth_error cells (Z.to_nat i))
    as [pos|] eqn:En; [|discriminate].
  intros [= <- <-]. exists pos. split; [|now split].
  destruct (i <? 0); [discriminate|]. now apply nth_error_In in En.
Qed.

Lemma addRandomTile_returns tiles w :
  randomOK w -> addRandomTile tiles w <> TypeError.
Proof.
  intros Hr.
  destruct (emptyCellsOf (tilesToGrid tiles GRID_SIZE)) as [|p l] eqn:E.
  - rewrite (proj2 (addRandomTile_null tiles w w) (conj E eq_refl)). discriminate.
  - destruct (addRandomTile_some tiles w Hr) as (pos & v & _ & _ & ->);
      [rewrite E|]; discriminate.
Qed.

Lemma top_row_first tiles pos :
  In pos (emptyCellsOf (tilesToGrid tiles GRID_SIZE)) ->
  cellRow pos = 0 <-> exists c, 0 <= c < GRID_SIZE /\ emptyCell tiles 0 c.
Proof.
  intros Hpos. apply emptyCellsOf_In in Hpos as (Hb & Hz & Htop). split.
  - intros H0. exists (cellCol pos). split; [apply Hb|].
    unfold emptyCell. rewrite H0 in Hz. exact Hz.
  - intros (c & Hc & He). destruct Htop as [H0|Hnil]; [assumption|].
    exfalso.
    assert (Hin : In (mkCell 0 c) (emptyInRow (tilesToGrid tiles GRID_SIZE) 0)).
    { apply emptyInRow_In. cbn [cellRow cellCol]. auto. }
    rewrite Hnil in Hin. destruct Hin.
Qed.

(** X6.  The spawner under the contract of [Math.random()]: it never raises;
    when it reports "no space" it has consumed no draw and no id; when it
    adds a tile it has consumed two draws and one id, the new tile carries
    the id the counter held, its value is 4 exactly when the second draw is
    at least 9/10 and 2 exactly when it is below, and the tile lies in the
    top row exactly when the top row has an empty cell (the top row is
    served first). *)
Theorem addRandomTile_draws tiles w :
  randomOK w ->
  addRandomTile tiles w <> TypeError
  /\ (forall w', addRandomTile tiles w = Ok (None, w') -> w' = w)
  /\ (forall s w', addRandomTile tiles w = Ok (Some s, w') ->
        w' = afterSpawn w
        /\ tilesWithNew s = tiles ++ [newTile s]
        /\ id (newTile s) = nextTileId w
        /\ (value (newTile s) = 4 <-> (9 # 10 <= tape w (S (cursor w)))%Q)
        /\ (value (newTile s) = 2 <-> (tape w (S (cursor w)) < 9 # 10)%Q)
        /\ (row (newTile s) = 0 <->
            exists c, 0 <= c < GRID_SIZE /\ emptyCell tiles 0 c)).
Proof.
  intros Hr. split; [now apply addRandomTile_returns|]. split.
  - intros w' H. now apply addRandomTile_null in H.
  - intros s w' H.
    apply addRandomTile_drawn in H as (pos & Hpos & -> & ->).
    cbn [tilesWithNew newTile spawned id value row].
    split; [reflexivity|]. split; [reflexivity|]. split; [reflexivity|].
    assert (Htop := top_row_first tiles pos Hpos).
    destruct (Qle_bool (9 # 10) (tape w (S (cursor w)))) eqn:E.
    + apply Qle_bool_iff in E. repeat split; auto; try discriminate.
      * intros Hlt. exfalso. now apply (Qlt_not_le _ _ Hlt).
      * now apply top_row_first.
      * now apply top_row_first.
    + assert (Hlt : (tape w (S (cursor w)) < 9 # 10)%Q).
      { apply Qnot_le_lt. intros Hle. apply Qle_bool_iff in Hle. congruence. }
      repeat split; auto; try discriminate.
      * intros Hle. exfalso. now apply (Qlt_not_le _ _ Hlt).
      * now apply top_row_first.
      * now apply top_row_first.
Qed.

Lemma addRandomTile_draws_witness :
  randomOK sampleWorld
  /\ addRandomTile sampleBoard sampleWorld <> TypeError.
Proof.
  assert (Hr : randomOK sampleWorld).
  { intros n. split; [unfold Qle; simpl; lia|reflexivity]. }
  split; [exact Hr|].
  apply (addRandomTile_draws sampleBoard sampleWorld Hr).
Defined.

(** ** The application: one request *)

Lemma arraySet_map {A B} (f : A -> B) (a : list A) i v :
  map f (arraySet a i v) = arraySet (map f a) i (f v).
Proof.
  revert i. induction a as [|x a IH]; intros [|i]; simpl; try reflexivity.
  now rewrite IH.
Qed.

Lemma sparseSet_dense line j v :
  (j <= length line)%nat ->
  sparseSet (map Some line) j v = map Some (arraySet line j v).
Proof.
  revert j. induction line as [|x line IH]; intros [|j] H; simpl in *;
    try reflexivity; try lia.
  rewrite IH by lia. reflexivity.
Qed.

Lemma deriveTile_dense g t :
  wellShaped (Z.to_nat GRID_SIZE) g -> inGrid GRID_SIZE t = true ->
  App.deriveTile (dense g) t = Ok (dense (writeTile GRID_SIZE g t)).
Proof.
  intros [Hlen Hrows] Hin. unfold App.deriveTile, writeTile. rewrite Hin.
  unfold inGrid in Hin. rewrite !andb_true_iff, !Z.leb_le, !Z.ltb_lt in Hin.
  destruct Hin as [[[Hr0 Hr1] Hc0] Hc1].
  replace (row t <? 0) with false by (symmetry; apply Z.ltb_ge; lia).
  replace (col t <? 0) with false by (symmetry; apply Z.ltb_ge; lia).
  assert (Hi : (Z.to_nat (row t) < length g)%nat)
    by (rewrite Hlen; unfold GRID_SIZE in *; lia).
  unfold dense at 1. rewrite nth_error_map.
  rewrite (nth_error_nth' g [] Hi). cbn [option_map].
  unfold setCell, dense. rewrite arraySet_map, sparseSet_dense; [reflexivity|].
  rewrite (Hrows _ (nth_In g [] Hi)). unfold GRID_SIZE in *. lia.
Qed.

Lemma derive_all ts : forall g,
  wellShaped (Z.to_nat GRID_SIZE) g ->
  (forall t, In t ts -> inGrid GRID_SIZE t = true) ->
  foldM App.deriveTile ts (dense g)
  = Ok (dense (fold_left (writeTile GRID_SIZE) ts g)).
Proof.
  induction ts as [|t ts IH]; intros g Hg Hin; [reflexivity|].
  cbn [foldM fold_left]. rewrite deriveTile_dense; auto using in_eq.
  cbn [bind]. apply IH; [now apply writeTile_shaped|].
  intros u Hu. apply Hin. now right.
Qed.

Lemma derivedGrid_projection ts :
  (forall t, In t ts -> inGrid GRID_SIZE t = true) ->
  foldM App.deriveTile ts App.zeroGrid
  = Ok (dense (tilesToGrid ts GRID_SIZE)).
Proof.
  intros H. change App.zeroGrid with (dense (createEmptyGrid GRID_SIZE)).
  apply derive_all; [apply createEmptyGrid_shaped|assumption].
Qed.

Lemma randomOK_afterSpawn w : randomOK w -> randomOK (afterSpawn w).
Proof. intros H n. apply (H n). Qed.

Lemma freshIds_not_In w ts :
  freshIds w ts -> ~ In (nextTileId w) (map id ts).
Proof.
  intros H Hin. apply in_map_iff in Hin as (t & E & Ht).
  specialize (H t Ht). lia.
Qed.

Lemma freshIds_spawn w ts s w' :
  freshIds w ts -> addRandomTile ts w = Ok (Some s, w') ->
  freshIds w' (tilesWithNew s).
Proof.
  intros H E. apply addRandomTile_drawn in E as (pos & _ & -> & ->).
  cbn [tilesWithNew]. intros t Ht. cbn [afterSpawn nextTileId].
  apply in_app_or in Ht as [Ht|[<-|[]]].
  - specialize (H t Ht). lia.
  - cbn [spawned id]. lia.
Qed.

Lemma freshIds_moved dir w ts :
  wellFormed ts = true -> freshIds w ts ->
  freshIds w (movedTiles (axisOf dir) ts).
Proof.
  intros Hwf H a Ha. destruct (axisOf_laws dir) as [sign L].
  destruct (wellFormed_regular _ _ _ L Hwf) as (H1 & _ & _).
  destruct (movedTiles_source _ _ L ts H1 a Ha) as (s & Hs & E & _).
  rewrite <- E. now apply H.
Qed.

Lemma totalValue_nonneg ts :
  (forall t, In t ts -> 0 < value t) -> 0 <= totalValue ts.
Proof.
  induction ts as [|u ts IH]; intros H; [unfold totalValue; simpl; lia|].
  rewrite totalValue_cons.
  assert (0 < value u) by (apply H; now left).
  assert (0 <= totalValue ts) by (apply IH; intros x Hx; apply H; now right).
  lia.
Qed.

Lemma movedTiles_nonempty dir ts :
  wellFormed ts = true -> ts <> [] -> movedTiles (axisOf dir) ts <> [].
Proof.
  intros Hwf Hne E. destruct (axisOf_laws dir) as [sign L].
  destruct (wellFormed_regular _ _ _ L Hwf) as (H1 & H2 & H3).
  assert (Ht := movedTiles_total _ _ L ts H1 H3). rewrite E in Ht.
  destruct ts as [|t ts]; [congruence|].
  rewrite totalValue_cons in Ht.
  assert (0 < value t) by (apply H2; now left).
  assert (0 <= totalValue ts)
    by (apply totalValue_nonneg; intros x Hx; apply H2; now right).
  change (totalValue []) with 0 in Ht. lia.
Qed.

Lemma movedTiles_id_In dir ts a :
  wellFormed ts = true -> In a (movedTiles (axisOf dir) ts) ->
  In (id a) (map id ts).
Proof.
  intros Hwf Ha. destruct (axisOf_laws dir) as [sign L].
  destruct (wellFormed_regular _ _ _ L Hwf) as (H1 & _ & _).
  destruct (movedTiles_source _ _ L ts H1 a Ha) as (s & Hs & E & _).
  rewrite <- E. now apply in_map.
Qed.

Lemma handleMove_cases dir gs w :
  wellFormed (App.tiles gs) = true ->
  ~ In (nextTileId w) (map id (App.tiles gs)) ->
  randomOK w ->
  (App.handleMove dir gs w = Ok (gs, w)
   /\ (App.isGameOver gs = true
       \/ movedFlag (axisOf dir) (App.tiles gs) = false))
  \/ (App.isGameOver gs = false
      /\ movedFlag (axisOf dir) (App.tiles gs) = true
      /\ exists s canMove,
           addRandomTile (movedTiles (axisOf dir) (App.tiles gs)) w
           = Ok (Some s, afterSpawn w)
           /\ tilesWithNew s
              = movedTiles (axisOf dir) (App.tiles gs) ++ [newTile s]
           /\ wellFormed (tilesWithNew s) = true
           /\ checkAvailableMoves (tilesWithNew s) = Ok canMove
           /\ App.handleMove dir gs w
              = Ok ({| App.grid := dense (tilesToGrid (tilesWithNew s) GRID_SIZE);
                       App.tiles := tilesWithNew s;
                       App.score :=
                         App.score gs + movedScore (axisOf dir) (App.tiles gs);
                       App.bestScore :=
                         Z.max (App.score gs
                                + movedScore (axisOf dir) (App.tiles gs))
                               (App.bestScore gs);
                       App.isGameOver := negb canMove |}, afterSpawn w)).
Proof.
  intros Hwf Hfresh Hr. unfold App.handleMove.
  destruct (App.isGameOver gs) eqn:Eover; [left; auto|].
  rewrite (applyMove_spec dir _ Hwf). cbn [bind moved updatedTiles scoreIncrease].
  destruct (movedFlag (axisOf dir) (App.tiles gs)) eqn:Em; [right|left; auto].
  split; [reflexivity|]. split; [reflexivity|].
  assert (Hwf' := movedTiles_wellFormed dir _ Hwf).
  assert (Hlt := move_fills_no_board dir _ Hwf Em).
  destruct (spawn_keeps_wellFormed _ w Hwf' Hr ltac:(lia))
    as (s & Hadd & Hs & Hwfs).
  assert (Hclear : ~ In (nextTileId w)
                     (map id (movedTiles (axisOf dir) (App.tiles gs)))).
  { intros Hin. apply in_map_iff in Hin as (a & Ea & Ha). apply Hfresh.
    rewrite <- Ea. now apply (movedTiles_id_In dir). }
  specialize (Hwfs Hclear).
  exists s.
  assert (Hc := checkAvailableMoves_flags _ Hwfs).
  eexists. split; [exact Hadd|]. split; [exact Hs|]. split; [exact Hwfs|].
  split; [exact Hc|].
  rewrite Hadd. cbn [bind].
  rewrite derivedGrid_projection
    by (intros t Ht; now apply (proj1 (wellFormed_spec _ Hwfs))).
  cbn [bind]. rewrite Hc. reflexivity.
Qed.

(** What an effective move adds up to: the spawned tile is a 2 or a 4, the
    values of the new list sum to those of the old one plus the spawned
    value, and the move's score lies between 0 and the old sum. *)
Lemma effective_move_budget dir ts w s w' :
  wellFormed ts = true -> totalValue ts <= MAX_SAFE_INTEGER -> randomOK w ->
  movedFlag (axisOf dir) ts = true ->
  addRandomTile (movedTiles (axisOf dir) ts) w = Ok (Some s, w') ->
  (value (newTile s) = 2 \/ value (newTile s) = 4)
  /\ totalValue (tilesWithNew s) = totalValue ts + value (newTile s)
  /\ 0 <= movedScore (axisOf dir) ts <= totalValue ts.
Proof.
  intros Hwf Hb Hr Em Hadd.
  destruct (move_within_bound dir ts Hwf Hb) as (Ht & _ & Hsc).
  assert (Hwf' := movedTiles_wellFormed dir _ Hwf).
  assert (Hlt := move_fills_no_board dir _ Hwf Em).
  destruct (spawn_adds_two_or_four _ w s w' Hwf' Hr ltac:(lia) Hadd)
    as (Hv & Hsum).
  split; [exact Hv|]. split; [now rewrite Hsum, Ht|exact Hsc].
Qed.

(** X7.  One move request on a state whose tile list is well formed and
    whose tile ids lie below the id counter, under the contract of
    [Math.random()] and within the range in which the arithmetic of the
    code is exact (the score is at least 0, the score plus the sum of the
    tile values is at most 2^53 - 1, and the id counter lies between 0 and
    2^53 - 1): the handler never raises, the tile list it leaves is again
    well formed with ids below the counter, the score stays between 0 and
    2^53 - 1, and either the state and the ambient state are untouched
    (game over, or the move changes nothing), or the move changed the board
    and then: a tile was spawned (the spawner never reports "no space"
    here), the hand-written grid derivation yields exactly [tilesToGrid] of
    the new tile list, the score grows by the move's score, which is at most
    the sum of the old tile values, the best score is the larger of the new
    score and the old best, the tile values sum to at most 4 more than
    before, and the game-over flag is the negation of what
    [checkAvailableMoves] says of the new tile list. *)
Theorem handleMove_step dir gs w :
  wellFormed (App.tiles gs) = true -> freshIds w (App.tiles gs) ->
  randomOK w ->
  0 <= App.score gs ->
  App.score gs + totalValue (App.tiles gs) <= MAX_SAFE_INTEGER ->
  0 <= nextTileId w < MAX_SAFE_INTEGER ->
  exists gs' w',
    App.handleMove dir gs w = Ok (gs', w')
    /\ wellFormed (App.tiles gs') = true
    /\ freshIds w' (App.tiles gs')
    /\ 0 <= App.score gs' <= MAX_SAFE_INTEGER
    /\ 0 <= nextTileId w' <= MAX_SAFE_INTEGER
    /\ (App.tiles gs' = App.tiles gs -> gs' = gs /\ w' = w)
    /\ (App.tiles gs' <> App.tiles gs ->
        exists res s,
          applyMove dir (App.tiles gs) = Ok res
          /\ moved res = true
          /\ addRandomTile (updatedTiles res) w = Ok (Some s, w')
          /\ App.tiles gs' = updatedTiles res ++ [newTile s]
          /\ App.grid gs' = dense (tilesToGrid (App.tiles gs') GRID_SIZE)
          /\ App.score gs' = App.score gs + scoreIncrease res
          /\ 0 <= scoreIncrease res <= totalValue (App.tiles gs)
          /\ App.bestScore gs' = Z.max (App.score gs') (App.bestScore gs)
          /\ totalValue (App.tiles gs')
             = totalValue (App.tiles gs) + value (newTile s)
          /\ (value (newTile s) = 2 \/ value (newTile s) = 4)
          /\ checkAvailableMoves (App.tiles gs')
             = Ok (negb (App.isGameOver gs'))).
Proof.
  intros Hwf Hfresh Hr Hs0 Hsum Hid.
  assert (Hpos : 0 <= totalValue (App.tiles gs)).
  { apply totalValue_nonneg. intros t Ht.
    apply isPowerOfTwo_pos. now apply (proj1 (proj2 (wellFormed_spec _ Hwf))). }
  assert (Hb : totalValue (App.tiles gs) <= MAX_SAFE_INTEGER) by lia.
  destruct (handleMove_cases dir gs w Hwf (freshIds_not_In _ _ Hfresh) Hr)
    as [[E _]|(Eover & Em & s & canMove & Hadd & Hs & Hwfs & Hc & E)].
  - exists gs, w. split; [exact E|]. split; [exact Hwf|].
    split; [exact Hfresh|]. split; [lia|]. split; [lia|].
    split; [auto|]. intros H. now destruct H.
  - destruct (effective_move_budget dir _ w s _ Hwf Hb Hr Em Hadd)
      as (Hv & Htot & Hsc).
    eexists. eexists. split; [exact E|]. cbn [App.tiles App.grid App.score
      App.bestScore App.isGameOver].
    split; [exact Hwfs|]. split.
    { apply (freshIds_spawn w _ s _ (freshIds_moved dir w _ Hwf Hfresh) Hadd). }
    split; [lia|]. split; [cbn [afterSpawn nextTileId]; lia|].
    split.
    + intros Heq. exfalso.
      assert (Hin : In (newTile s) (App.tiles gs)).
      { rewrite <- Heq, Hs. apply in_or_app. right. now left. }
      apply addRandomTile_drawn in Hadd as (pos & _ & Es & _).
      specialize (Hfresh _ Hin). rewrite Es in Hfresh.
      cbn [newTile spawned id] in Hfresh. lia.
    + intros _. eexists. exists s.
      split; [apply (applyMove_spec dir _ Hwf)|].
      cbn [moved updatedTiles scoreIncrease].
      rewrite negb_involutive. auto 15.
Qed.

Lemma handleMove_step_witness :
  wellFormed (App.tiles sampleState) = true
  /\ freshIds sampleWorld (App.tiles sampleState)
  /\ randomOK sampleWorld
  /\ 0 <= App.score sampleState
  /\ App.score sampleState + totalValue (App.tiles sampleState)
     <= MAX_SAFE_INTEGER
  /\ 0 <= nextTileId sampleWorld < MAX_SAFE_INTEGER
  /\ exists gs' w',
       App.handleMove Left sampleState sampleWorld = Ok (gs', w')
       /\ wellFormed (App.tiles gs') = true
       /\ freshIds w' (App.tiles gs')
       /\ 0 <= App.score gs' <= MAX_SAFE_INTEGER
       /\ 0 <= nextTileId w' <= MAX_SAFE_INTEGER
       /\ (App.tiles gs' = App.tiles sampleState ->
           gs' = sampleState /\ w' = sampleWorld)
       /\ (App.tiles gs' <> App.tiles sampleState ->
           exists res s,
             applyMove Left (App.tiles sampleState) = Ok res
             /\ moved res = true
             /\ addRandomTile (updatedTiles res) sampleWorld = Ok (Some s, w')
             /\ App.tiles gs' = updatedTiles res ++ [newTile s]
             /\ App.grid gs' = dense (tilesToGrid (App.tiles gs') GRID_SIZE)
             /\ App.score gs' = App.score sampleState + scoreIncrease res
             /\ 0 <= scoreIncrease res <= totalValue (App.tiles sampleState)
             /\ App.bestScore gs'
                = Z.max (App.score gs') (App.bestScore sampleState)
             /\ totalValue (App.tiles gs')
                = totalValue (App.tiles sampleState) + value (newTile s)
             /\ (value (newTile s) = 2 \/ value (newTile s) = 4)
             /\ checkAvailableMoves (App.tiles gs')
                = Ok (negb (App.isGameOver gs'))).
Proof.
  assert (Hr : randomOK sampleWorld).
  { intros n. split; [unfold Qle; simpl; lia|reflexivity]. }
  assert (Hf : freshIds sampleWorld (App.tiles sampleState)).
  { intros t Ht. cbn [App.tiles sampleState sampleBoard] in Ht.
    cbn [sampleWorld nextTileId].
    repeat (destruct Ht as [<-|Ht]; [cbn; lia|]). destruct Ht. }
  assert (H0 : 0 <= App.score sampleState) by (cbn; lia).
  assert (Hb : App.score sampleState + totalValue (App.tiles sampleState)
               <= MAX_SAFE_INTEGER) by (vm_compute; discriminate).
  assert (Hid : 0 <= nextTileId sampleWorld < MAX_SAFE_INTEGER)
    by (split; [cbn; lia|reflexivity]).
  split; [reflexivity|]. split; [exact Hf|]. split; [exact Hr|].
  split; [exact H0|]. split; [exact Hb|]. split; [exact Hid|].
  apply (handleMove_step Left sampleState sampleWorld);
    [reflexivity|exact Hf|exact Hr|exact H0|exact Hb|exact Hid].
Defined.

(** ** A new game *)

Lemma initializeGame_board w :
  randomOK w ->
  exists t1 t2,
    initializeGame w
    = Ok ((createEmptyGrid GRID_SIZE, [t1; t2]), afterSpawn (afterSpawn w))
    /\ wellFormed [t1; t2] = true
    /\ id t1 = nextTileId w /\ id t2 = nextTileId w + 1
    /\ row t1 = 0 /\ row t2 = 0 /\ col t1 <> col t2
    /\ (value t1 = 2 \/ value t1 = 4) /\ (value t2 = 2 \/ value t2 = 4).
Proof.
  intros Hr.
  destruct (spawn_keeps_wellFormed [] w eq_refl Hr ltac:(simpl; lia))
    as (s1 & Hadd1 & Hs1 & Hwf1).
  specialize (Hwf1 (fun H => H)).
  destruct (addRandomTile_drawn _ _ _ _ Hadd1) as (pos1 & Hpos1 & Es1 & _).
  assert (Hrow1 : cellRow pos1 = 0).
  { apply (top_row_first [] pos1 Hpos1). exists 0. split; [unfold GRID_SIZE; lia|].
    reflexivity. }
  set (v1 := if Qle_bool (9 # 10) (tape w (S (cursor w))) then 4 else 2) in Es1.
  set (t1 := spawned w v1 pos1) in *.
  assert (Et1 : tilesWithNew s1 = [t1]) by now rewrite Es1.
  rewrite Et1 in Hwf1.
  assert (Hr' := randomOK_afterSpawn w Hr).
  destruct (spawn_keeps_wellFormed [t1] (afterSpawn w) Hwf1 Hr' ltac:(simpl; lia))
    as (s2 & Hadd2 & Hs2 & Hwf2).
  assert (Hfresh : ~ In (nextTileId (afterSpawn w)) (map id [t1])).
  { cbn. intros [H|[]]. lia. }
  specialize (Hwf2 Hfresh).
  destruct (addRandomTile_drawn _ _ _ _ Hadd2) as (pos2 & Hpos2 & Es2 & _).
  assert (Hrow2 : cellRow pos2 = 0).
  { apply (top_row_first [t1] pos2 Hpos2).
    exists (if col t1 =? 0 then 1 else 0). split.
    - unfold GRID_SIZE. destruct (col t1 =? 0); lia.
    - apply cell_free; [lia|destruct (col t1 =? 0); lia|].
      intros u [<-|[]] [_ Hc].
      destruct (col t1 =? 0) eqn:E0; [apply Z.eqb_eq in E0|apply Z.eqb_neq in E0];
        lia. }
  set (v2 := if Qle_bool (9 # 10) (tape (afterSpawn w) (S (cursor (afterSpawn w))))
             then 4 else 2) in Es2.
  set (t2 := spawned (afterSpawn w) v2 pos2) in *.
  assert (Et2 : tilesWithNew s2 = [t1; t2]) by now rewrite Es2.
  rewrite Et2 in Hwf2.
  exists t1, t2. split.
  - unfold initializeGame. rewrite Hadd1. cbn [bind]. rewrite Et1, Hadd2.
    cbn [bind]. now rewrite Et2.
  - split; [exact Hwf2|]. split; [reflexivity|]. split; [reflexivity|].
    split; [exact Hrow1|]. split; [exact Hrow2|]. split.
    + intros Hc. apply wellFormed_spec in Hwf2 as (_ & _ & Hp & _).
      cbn [map] in Hp. apply NoDup_cons_iff in Hp as [Hn _]. apply Hn. left.
      unfold positionOf. rewrite Hc.
      unfold t1, t2. cbn [spawned row col]. now rewrite Hrow1, Hrow2.
    + assert (Hv : forall b : bool,
                 (if b then 4 else 2) = 2 \/ (if b then 4 else 2) = 4)
        by (intros []; auto).
      split; apply Hv.
Qed.

(** X8.  Under the contract of [Math.random()], [initializeGame] returns
    two tiles that form a well-formed list: both lie in the top row, in
    different columns (the spawner serves the top row first), each has value
    2 or 4, their ids are the counter's value and its successor, and the
    call consumes four draws and two ids. *)
Theorem initializeGame_top_row w :
  randomOK w ->
  exists g t1 t2,
    initializeGame w = Ok ((g, [t1; t2]), afterSpawn (afterSpawn w))
    /\ wellFormed [t1; t2] = true
    /\ id t1 = nextTileId w /\ id t2 = nextTileId w + 1
    /\ row t1 = 0 /\ row t2 = 0 /\ col t1 <> col t2
    /\ (value t1 = 2 \/ value t1 = 4) /\ (value t2 = 2 \/ value t2 = 4).
Proof.
  intros Hr. destruct (initializeGame_board w Hr) as (t1 & t2 & H).
  exists (createEmptyGrid GRID_SIZE), t1, t2. exact H.
Qed.

Lemma initializeGame_top_row_witness :
  randomOK sampleWorld
  /\ exists g t1 t2,
       initializeGame sampleWorld
       = Ok ((g, [t1; t2]), afterSpawn (afterSpawn sampleWorld))
       /\ wellFormed [t1; t2] = true
       /\ id t1 = nextTileId sampleWorld /\ id t2 = nextTileId sampleWorld + 1
       /\ row t1 = 0 /\ row t2 = 0 /\ col t1 <> col t2
       /\ (value t1 = 2 \/ value t1 = 4) /\ (value t2 = 2 \/ value t2 = 4).
Proof.
  assert (Hr : randomOK sampleWorld).
  { intros n. split; [unfold Qle; simpl; lia|reflexivity]. }
  split; [exact Hr|]. apply (initializeGame_top_row sampleWorld Hr).
Defined.

(** ** The application: a whole session *)

Lemma movedScore_nonneg dir ts :
  wellFormed ts = true -> 0 <= movedScore (axisOf dir) ts.
Proof.
  intros Hwf. assert (L := axisOf_laws_sign dir).
  destruct (wellFormed_regular _ _ _ L Hwf) as (H1 & H2 & H3).
  rewrite (movedScore_mergedAway _ _ L ts H1 H3).
  assert (0 <= totalValue (mergedAway ts (movedTiles (axisOf dir) ts))); [|lia].
  apply totalValue_nonneg. intros t Ht. apply filter_In in Ht as [Ht _].
  now apply H2.
Qed.

Lemma wellFormed_total_nonneg ts :
  wellFormed ts = true -> 0 <= totalValue ts.
Proof.
  intros Hwf. apply totalValue_nonneg. intros t Ht.
  apply isPowerOfTwo_pos. now apply (proj1 (proj2 (wellFormed_spec _ Hwf))).
Qed.

Ltac literals :=
  unfold MAX_SAFE_INTEGER in *;
  change (2 ^ 53) with 9007199254740992 in *;
  change (2 ^ 52) with 4503599627370496 in *;
  change (2 ^ 24) with 16777216 in *;
  change (2 ^ 23) with 8388608 in *;
  change (2 ^ 20) with 1048576 in *.

Lemma sound_later n m gs w :
  0 <= m <= n -> App.sound n gs w -> App.sound m gs w.
Proof.
  intros Hm (Hwf & Hclear & Htot & Hs0 & Hs1 & Hbest & Hid0 & Hid1).
  unfold App.sound. literals.
  split; [exact Hwf|]. split.
  { intros t Ht. destruct (Hclear t Ht); [left|right]; lia. }
  repeat split; try assumption; lia.
Qed.

Lemma handleMove_sound dir n gs w :
  0 <= n -> App.sound (n + 1) gs w -> randomOK w ->
  exists gs' w',
    App.handleMove dir gs w = Ok (gs', w')
    /\ App.sound n gs' w' /\ randomOK w'
    /\ nextTileId w <= nextTileId w' <= nextTileId w + 2
    /\ ((gs' = gs /\ w' = w)
        \/ (App.settled gs' /\ App.score gs' <= App.bestScore gs')).
Proof.
  intros Hn Hs Hr.
  assert (Hlater := sound_later (n + 1) n gs w ltac:(lia) Hs).
  destruct Hs as (Hwf & Hclear & Htot & Hs0 & Hs1 & Hbest & Hid0 & Hid1).
  assert (Hpos := wellFormed_total_nonneg _ Hwf).
  assert (Hfresh : ~ In (nextTileId w) (map id (App.tiles gs))).
  { intros Hin. apply in_map_iff in Hin as (t & Et & Ht).
    destruct (Hclear t Ht); lia. }
  destruct (handleMove_cases dir gs w Hwf Hfresh Hr)
    as [[E _]|(Eover & Em & s & canMove & Hadd & Hst & Hwfs & Hc & E)].
  - exists gs, w. split; [exact E|]. split; [exact Hlater|].
    split; [exact Hr|]. split; [lia|]. left. auto.
  - assert (Hb : totalValue (App.tiles gs) <= MAX_SAFE_INTEGER)
      by (literals; lia).
    destruct (effective_move_budget dir _ w s _ Hwf Hb Hr Em Hadd)
      as (Hv & Hsum & Hsc).
    eexists. eexists. split; [exact E|]. split; [|split; [|split]].
    + unfold App.sound, App.clearIds.
      cbn [App.tiles App.score App.bestScore afterSpawn nextTileId].
      split; [exact Hwfs|]. split.
      { intros t Ht. rewrite Hst in Ht.
        apply in_app_or in Ht as [Ht|[<-|[]]].
        - assert (Hin : In (id t) (map id (App.tiles gs)))
            by now apply (movedTiles_id_In dir).
          apply in_map_iff in Hin as (u & Eu & Hu).
          destruct (Hclear u Hu); [left|right]; lia.
        - apply addRandomTile_drawn in Hadd as (pos & _ & Es & _).
          rewrite Es. cbn [newTile spawned id]. left. lia. }
      literals. repeat split; lia.
    + now apply randomOK_afterSpawn.
    + cbn [afterSpawn nextTileId]. lia.
    + right. unfold App.settled.
      cbn [App.tiles App.grid App.score App.bestScore App.isGameOver].
      split; [|lia]. split; [now rewrite negb_involutive|now left].
Qed.

Lemma initializeGame_sound n w best :
  randomOK w -> 0 <= n -> 0 <= best ->
  0 <= nextTileId w -> nextTileId w + 2 + 2 * n <= MAX_SAFE_INTEGER ->
  8 + 8 * n <= 2 ^ 24 -> n * 2 ^ 24 <= MAX_SAFE_INTEGER ->
  exists t1 t2,
    initializeGame w
    = Ok ((createEmptyGrid GRID_SIZE, [t1; t2]), afterSpawn (afterSpawn w))
    /\ App.sound n {| App.grid := dense (createEmptyGrid GRID_SIZE);
                      App.tiles := [t1; t2]; App.score := 0;
                      App.bestScore := best; App.isGameOver := false |}
         (afterSpawn (afterSpawn w))
    /\ App.settled {| App.grid := dense (createEmptyGrid GRID_SIZE);
                      App.tiles := [t1; t2]; App.score := 0;
                      App.bestScore := best; App.isGameOver := false |}.
Proof.
  intros Hr Hn Hbest Hid0 Hid1 Htot Hsc.
  destruct (initializeGame_board w Hr)
    as (t1 & t2 & E & Hwf & Hid1' & Hid2' & _ & _ & _ & Hv1 & Hv2).
  exists t1, t2. split; [exact E|]. split.
  - unfold App.sound, App.clearIds.
    cbn [App.tiles App.score App.bestScore afterSpawn nextTileId].
    split; [exact Hwf|]. split.
    { intros t [<-|[<-|[]]]; left; lia. }
    unfold totalValue. cbn [map sumZ]. literals.
    repeat split; try lia.
    destruct Hv1 as [-> | ->], Hv2 as [-> | ->]; unfold sumZ; cbn [fold_right]; lia.
  - unfold App.settled.
    cbn [App.tiles App.grid App.score App.isGameOver].
    split; [|right; auto].
    rewrite (checkAvailableMoves_flags _ Hwf). reflexivity.
Qed.

Lemma session_sound requests : forall m gs w,
  0 <= m ->
  App.sound (Z.of_nat (length requests) + m) gs w -> randomOK w ->
  exists gs' w',
    foldM App.handle requests (gs, w) = Ok (gs', w')
    /\ App.sound m gs' w' /\ randomOK w'
    /\ nextTileId w <= nextTileId w'
       <= nextTileId w + 2 * Z.of_nat (length requests)
    /\ ((gs' = gs /\ w' = w)
        \/ (App.settled gs' /\ App.score gs' <= App.bestScore gs')).
Proof.
  induction requests as [|request requests IH]; intros m gs w Hm Hs Hr.
  - exists gs, w. cbn [foldM length] in *.
    split; [reflexivity|]. split; [exact Hs|]. split; [exact Hr|].
    split; [lia|]. left. auto.
  - cbn [foldM]. cbn [length] in *.
    set (n := Z.of_nat (length requests) + m) in *.
    replace (Z.of_nat (S (length requests)) + m) with (n + 1) in Hs
      by (unfold n; lia).
    assert (Hn : 0 <= n) by (unfold n; lia).
    destruct request as [dir|]; cbn [App.handle fst snd].
    + destruct (handleMove_sound dir n gs w Hn Hs Hr)
        as (gs1 & w1 & E & Hs1 & Hr1 & Hid & Hg1).
      rewrite E. cbn [bind].
      destruct (IH m gs1 w1 Hm Hs1 Hr1)
        as (gs2 & w2 & E2 & Hs2 & Hr2 & Hid2 & Hg2).
      exists gs2, w2. split; [exact E2|]. split; [exact Hs2|].
      split; [exact Hr2|]. split; [lia|].
      destruct Hg2 as [[-> ->]|Hg2]; [|now right].
      destruct Hg1 as [[-> ->]|Hg1]; [left; auto|now right].
    + unfold App.handleReset.
      destruct Hs as (Hwf & Hclear & Htot & Hs0 & Hs1 & Hbest & Hid0 & Hid1).
      assert (Hpos := wellFormed_total_nonneg _ Hwf).
      destruct (initializeGame_sound n w (App.bestScore gs) Hr Hn Hbest Hid0)
        as (t1 & t2 & E & Hs' & Hg'); try (literals; lia).
      rewrite E. cbn [bind fst snd].
      assert (Hr' : randomOK (afterSpawn (afterSpawn w)))
        by now apply randomOK_afterSpawn, randomOK_afterSpawn.
      destruct (IH m _ _ Hm Hs' Hr')
        as (gs2 & w2 & E2 & Hs2 & Hr2 & Hid2 & Hg2).
      exists gs2, w2. split; [exact E2|]. split; [exact Hs2|].
      split; [exact Hr2|]. cbn [afterSpawn nextTileId] in Hid2.
      split; [lia|]. right.
      destruct Hg2 as [[-> ->]|Hg2]; [|exact Hg2].
      split; [exact Hg'|]. cbn [App.score App.bestScore]. exact Hbest.
Qed.

(** X9.  A session of the application: the initial state of a new game, any
    requests (moves and resets) handled before the load effect has run, the
    load effect, which replaces the state by the stored one when there is
    one and sets the best score to the stored one or 0, and any requests
    handled after it.  Assume draws under the contract of [Math.random()],
    an id counter that starts between 0 and 2^52, at most 2^20 requests, a
    stored best score that is not negative, and a stored state whose tile
    list is well formed, with values that sum to at most 2^23, a score
    between 0 and 2^52, and ids that the counter does not reach during the
    session.  Then the session never raises, and in the state it reaches:
    the tile list is well formed, the score lies between 0 and 2^53 - 1,
    the best score is not negative, the id counter has not passed
    2^53 - 1, the score is at most the best score unless the best score is
    still the loaded one, and, unless the state is still the stored one,
    the game-over flag is the negation of what [checkAvailableMoves] says
    of the tile list and the grid is the dense projection of the tile list
    or, when no move has changed the board since the last new game, the
    empty grid beside two tiles. *)
Theorem session_invariant before loadedState loadedBestScore after w :
  randomOK w ->
  0 <= nextTileId w <= 2 ^ 52 ->
  Z.of_nat (length before + length after) <= 2 ^ 20 ->
  (forall best, loadedBestScore = Some best -> 0 <= best) ->
  (forall st, loadedState = Some st ->
     wellFormed (App.tiles st) = true
     /\ (forall t, In t (App.tiles st) ->
           id t < nextTileId w
           \/ nextTileId w + 2
              + 2 * Z.of_nat (length before + length after) <= id t)
     /\ totalValue (App.tiles st) <= 2 ^ 23
     /\ 0 <= App.score st <= 2 ^ 52) ->
  exists gs w',
    App.play before loadedState loadedBestScore after w = Ok (gs, w')
    /\ wellFormed (App.tiles gs) = true
    /\ 0 <= App.score gs <= MAX_SAFE_INTEGER
    /\ 0 <= App.bestScore gs
    /\ nextTileId w <= nextTileId w' <= MAX_SAFE_INTEGER
    /\ (App.score gs <= App.bestScore gs
        \/ App.bestScore gs = App.orZero loadedBestScore)
    /\ (App.settled gs
        \/ exists st,
             loadedState = Some st
             /\ gs = App.mount loadedState loadedBestScore st).
Proof.
  intros Hr Hid Hlen Hbest Hloaded.
  rewrite Nat2Z.inj_add in *.
  set (n1 := Z.of_nat (length before)) in *.
  set (n2 := Z.of_nat (length after)) in *.
  assert (Hn1 : 0 <= n1) by (unfold n1; lia).
  assert (Hn2 : 0 <= n2) by (unfold n2; lia).
  assert (Hb0 : 0 <= App.orZero loadedBestScore).
  { destruct loadedBestScore as [best|]; cbn [App.orZero]; [|lia].
    now apply Hbest. }
  unfold App.play, App.newGame.
  destruct (initializeGame_sound (n1 + n2) w 0 Hr)
    as (t1 & t2 & E & Hs0 & Hg0); try (literals; lia).
  rewrite E. cbn [bind fst snd].
  set (g0 := {| App.grid := dense (createEmptyGrid GRID_SIZE);
                App.tiles := [t1; t2]; App.score := 0; App.bestScore := 0;
                App.isGameOver := false |}) in *.
  assert (Hr0 : randomOK (afterSpawn (afterSpawn w)))
    by now apply randomOK_afterSpawn, randomOK_afterSpawn.
  destruct (session_sound before n2 g0 _ Hn2 Hs0 Hr0)
    as (g1 & w1 & E1 & Hs1 & Hr1 & Hid1 & Hg1).
  rewrite E1. cbn [bind fst snd]. cbn [afterSpawn nextTileId] in Hid1.
  fold n1 in Hid1.
  assert (Hset1 : App.settled g1).
  { destruct Hg1 as [[-> _]|[Hg1 _]]; [exact Hg0|exact Hg1]. }
  set (m := App.mount loadedState loadedBestScore g1).
  assert (Hm : App.sound (n2 + 0) m w1).
  { rewrite Z.add_0_r.
    destruct Hs1 as (Hwf & Hclear & Htot & Hsc0 & Hsc1 & Hb1 & Hi0 & Hi1).
    unfold m, App.mount, App.sound.
    destruct loadedState as [st|].
    - destruct (Hloaded st eq_refl) as (Lwf & Lid & Ltot & Lsc).
      cbn [App.tiles App.score App.bestScore].
      split; [exact Lwf|]. split.
      { intros t Ht. destruct (Lid t Ht); [left|right]; lia. }
      literals. repeat split; lia.
    - cbn [App.tiles App.score App.bestScore].
      repeat split; assumption. }
  destruct (session_sound after 0 m w1 ltac:(lia) Hm Hr1)
    as (g2 & w2 & E2 & Hs2 & Hr2 & Hid2 & Hg2).
  fold n2 in Hid2.
  exists g2, w2. split; [exact E2|].
  destruct Hs2 as (Hwf & _ & _ & Hsc0 & Hsc1 & Hb2 & _ & Hi1).
  split; [exact Hwf|]. split; [literals; lia|]. split; [exact Hb2|].
  split; [literals; lia|].
  destruct Hg2 as [[-> ->]|[Hg2 Hsb]]; [|split; [now left|now left]].
  split.
  - right. unfold m, App.mount. now destruct loadedState.
  - unfold m. destruct loadedState as [st|].
    + right. exists st. split; reflexivity.
    + left. destruct Hset1 as [Hf Hgrid]. unfold App.settled, App.mount.
      cbn [App.tiles App.grid App.score App.isGameOver].
      split; assumption.
Qed.

Lemma session_invariant_witness :
  randomOK sampleWorld
  /\ exists gs w',
       App.play [App.Move Down] (Some sampleState) (Some 64)
         [App.Move Left; App.Move Up; App.Reset; App.Move Right]
         sampleWorld = Ok (gs, w')
       /\ wellFormed (App.tiles gs) = true
       /\ 0 <= App.score gs <= MAX_SAFE_INTEGER
       /\ 0 <= App.bestScore gs
       /\ nextTileId sampleWorld <= nextTileId w' <= MAX_SAFE_INTEGER
       /\ (App.score gs <= App.bestScore gs
           \/ App.bestScore gs = App.orZero (Some 64))
       /\ (App.settled gs
           \/ exists st,
                Some sampleState = Some st
                /\ gs = App.mount (Some sampleState) (Some 64) st).
Proof.
  assert (Hr : randomOK sampleWorld).
  { intros n. split; [unfold Qle; simpl; lia|reflexivity]. }
  split; [exact Hr|].
  apply (session_invariant [App.Move Down] (Some sampleState) (Some 64)
           [App.Move Left; App.Move Up; App.Reset; App.Move Right]
           sampleWorld Hr).
  - cbn [sampleWorld nextTileId]. lia.
  - cbn [length Nat.add]. lia.
  - intros best [= <-]. lia.
  - intros st [= <-]. split; [reflexivity|]. split.
    + intros t Ht. left. cbn [App.tiles sampleState sampleBoard] in Ht.
      cbn [sampleWorld nextTileId].
      repeat (destruct Ht as [<-|Ht]; [cbn; lia|]). destruct Ht.
    + split; [vm_compute; discriminate|]. cbn [App.score sampleState]. lia.
Defined.

(** ** Reading a grid back into tiles *)

Lemma foldM_app {A B} (f : A -> B -> Result A) l1 l2 a :
  foldM f (l1 ++ l2) a = (a' <- foldM f l1 a ;; foldM f l2 a').
Proof.
  revert a. induction l1 as [|b l1 IH]; intros a; [reflexivity|].
  cbn [foldM app]. destruct (f a b) as [a'|]; [|reflexivity].
  cbn [bind]. apply IH.
Qed.

Lemma foldM_nested {A B C} (g : B -> A -> C -> Result A) (cs : list C) rs :
  forall a,
    foldM (fun st r => foldM (g r) cs st) rs a
    = foldM (fun st p => g (fst p) st (snd p))
        (flat_map (fun r => map (pair r) cs) rs) a.
Proof.
  induction rs as [|r rs IH]; intros a; [reflexivity|].
  cbn [foldM flat_map]. rewrite foldM_app.
  assert (E : forall st,
             foldM (fun st p => g (fst p) st (snd p)) (map (pair r) cs) st
             = foldM (g r) cs st).
  { clear. induction cs as [|c cs IH]; intros st; [reflexivity|].
    cbn [foldM map fst snd]. destruct (g r st c); [|reflexivity]. apply IH. }
  rewrite E. destruct (foldM (g r) cs a); [|reflexivity]. apply IH.
Qed.

Lemma readCell_shaped grid r c :
  wellShaped (Z.to_nat GRID_SIZE) grid -> onBoard r c ->
  readCell grid r c = Ok (Some (cell grid r c)).
Proof.
  intros Hs [Hr Hc]. unfold readCell, cell.
  assert (Hi : (Z.to_nat r < length grid)%nat) by (rewrite (proj1 Hs); lia).
  rewrite (nth_error_nth' grid [] Hi). f_equal.
  apply nth_error_nth'. rewrite (nth_shaped _ _ _ Hs); lia.
Qed.

Lemma tilesAt_length grid n m cells :
  length (tilesAt grid n cells) = length (tilesAt grid m cells).
Proof.
  revert n m. induction cells as [|[r c] cells IH]; intros n m; [reflexivity|].
  cbn [tilesAt]. destruct (cell grid r c =? 0); [apply IH|].
  cbn [length]. f_equal. apply IH.
Qed.

Lemma gridToTiles_loop grid cells :
  wellShaped (Z.to_nat GRID_SIZE) grid ->
  (forall p, In p cells -> onBoard (fst p) (snd p)) ->
  forall acc n,
    foldM (fun st p => readInto grid (fst p) st (snd p)) cells (acc, n)
    = Ok (acc ++ map raw (tilesAt grid n cells),
          n + Z.of_nat (length (tilesAt grid n cells))).
Proof.
  intros Hs. induction cells as [|[r c] cells IH]; intros Hb acc n.
  - cbn [foldM tilesAt map length]. now rewrite app_nil_r, Z.add_0_r.
  - cbn [foldM tilesAt fst snd]. unfold readInto at 1.
    rewrite (readCell_shaped grid r c Hs (Hb (r, c) (in_eq _ _))).
    cbn [bind notZero].
    destruct (cell grid r c =? 0); cbn [negb bind].
    + apply IH. intros p Hp. apply Hb. now right.
    + rewrite IH by (intros p Hp; apply Hb; now right).
      cbn [map length]. rewrite <- app_assoc. cbn [app].
      rewrite (tilesAt_length grid (n + 1) n). f_equal. f_equal. lia.
Qed.

Lemma gridToTiles_cells now grid :
  gridToTiles now grid
  = (st <- foldM (fun st p => readInto grid (fst p) st (snd p)) allCells
            ([], now) ;;
     Ok (fst st)).
Proof.
  unfold gridToTiles. now rewrite (foldM_nested (readInto grid)).
Qed.

Lemma gridToTiles_shaped now grid :
  wellShaped (Z.to_nat GRID_SIZE) grid ->
  gridToTiles now grid = Ok (map raw (tilesAt grid now allCells)).
Proof.
  intros Hs. rewrite gridToTiles_cells, (gridToTiles_loop grid allCells Hs).
  - reflexivity.
  - intros [r c] Hp. now apply allCells_In.
Qed.

Lemma tilesAt_positions grid n cells :
  map positionOf (tilesAt grid n cells)
  = filter (fun p => negb (cell grid (fst p) (snd p) =? 0)) cells.
Proof.
  revert n. induction cells as [|[r c] cells IH]; intros n; [reflexivity|].
  cbn [tilesAt filter fst snd]. destruct (cell grid r c =? 0); cbn [negb].
  - apply IH.
  - cbn [map]. now rewrite IH.
Qed.

Lemma tilesAt_ids grid cells : forall n,
  map id (tilesAt grid n cells)
  = map (fun k => n + Z.of_nat k) (seq 0 (length (tilesAt grid n cells))).
Proof.
  induction cells as [|[r c] cells IH]; intros n; [reflexivity|].
  cbn [tilesAt]. destruct (cell grid r c =? 0); [apply IH|].
  cbn [map length seq id]. rewrite Z.add_0_r. f_equal.
  rewrite IH, <- seq_shift, map_map. apply map_ext. intros k. lia.
Qed.

Lemma tilesAt_value grid cells : forall n t,
  In t (tilesAt grid n cells) ->
  value t = cell grid (row t) (col t) /\ value t <> 0.
Proof.
  induction cells as [|[r c] cells IH]; intros n t; [intros []|].
  cbn [tilesAt]. destruct (cell grid r c =? 0) eqn:E; [apply IH|].
  intros [<-|H]; [|now apply (IH _ _ H)].
  cbn [value row col]. apply Z.eqb_neq in E. auto.
Qed.

Lemma cell_at size ts : forall t,
  NoDup (map positionOf ts) -> In t ts -> inGrid size t = true ->
  cell (tilesToGrid ts size) (row t) (col t) = value t.
Proof.
  induction ts as [|u ts IH] using rev_ind; intros t Hnd Hin Hg; [destruct Hin|].
  assert (Hrc : 0 <= row t /\ 0 <= col t).
  { unfold inGrid in Hg. rewrite !andb_true_iff, !Z.leb_le in Hg. tauto. }
  rewrite tilesToGrid_snoc.
  rewrite cell_writeTile by (try apply tilesToGrid_shaped; tauto).
  destruct (inGrid size u && (row u =? row t) && (col u =? col t)) eqn:E.
  - rewrite !andb_true_iff, !Z.eqb_eq in E. destruct E as [[_ Er] Ec].
    f_equal. apply (NoDup_map_inj positionOf (ts ++ [u])); auto.
    + apply in_or_app. right. now left.
    + unfold positionOf. congruence.
  - apply in_app_or in Hin as [Hin|[<-|[]]].
    + apply IH; auto. rewrite map_app in Hnd.
      now apply NoDup_app_remove_r in Hnd.
    + rewrite Hg, !Z.eqb_refl in E. discriminate.
Qed.

Lemma grid_ext (g1 g2 : Grid) :
  wellShaped (Z.to_nat GRID_SIZE) g1 -> wellShaped (Z.to_nat GRID_SIZE) g2 ->
  (forall r c, onBoard r c -> cell g1 r c = cell g2 r c) -> g1 = g2.
Proof.
  intros H1 H2 H. apply (nth_ext g1 g2 [] []).
  - now rewrite (proj1 H1), (proj1 H2).
  - intros i Hi. rewrite (proj1 H1) in Hi.
    apply (nth_ext _ _ 0 0).
    + now rewrite (nth_shaped _ _ _ H1 Hi), (nth_shaped _ _ _ H2 Hi).
    + intros j Hj. rewrite (nth_shaped _ _ _ H1 Hi) in Hj.
      specialize (H (Z.of_nat i) (Z.of_nat j)). unfold cell in H.
      rewrite !Nat2Z.id in H. apply H. unfold onBoard, GRID_SIZE in *. lia.
Qed.

Lemma tilesAt_inGrid grid n t :
  In t (tilesAt grid n allCells) -> inGrid GRID_SIZE t = true.
Proof.
  intros H. apply inGrid_onBoard. apply allCells_In.
  change (In (positionOf t) allCells).
  apply (in_map positionOf) in H. rewrite tilesAt_positions in H.
  now apply filter_In in H.
Qed.

Lemma tilesAt_NoDup grid n : NoDup (map positionOf (tilesAt grid n allCells)).
Proof. rewrite tilesAt_positions. apply NoDup_filter, allCells_NoDup. Qed.

Lemma tilesAt_projection grid n :
  wellShaped (Z.to_nat GRID_SIZE) grid ->
  tilesToGrid (tilesAt grid n allCells) GRID_SIZE = grid.
Proof.
  intros Hs. apply grid_ext; [apply tilesToGrid_shaped|assumption|].
  intros r c Hb. destruct (cell grid r c =? 0) eqn:E.
  - apply Z.eqb_eq in E. rewrite E. apply cell_free.
    + destruct Hb; lia.
    + destruct Hb; lia.
    + intros u Hu [Er Ec]. apply tilesAt_value in Hu as [Hv Hnz].
      rewrite Er, Ec in Hv. congruence.
  - assert (Hin : In (r, c) (map positionOf (tilesAt grid n allCells))).
    { rewrite tilesAt_positions. apply filter_In. split.
      - now apply allCells_In.
      - cbn [fst snd]. now rewrite E. }
    apply in_map_iff in Hin as (t & Et & Ht). injection Et as Er Ec.
    subst r c. rewrite (cell_at GRID_SIZE _ t).
    + now apply tilesAt_value in Ht.
    + apply tilesAt_NoDup.
    + exact Ht.
    + now apply tilesAt_inGrid in Ht.
Qed.

Lemma shifted_NoDup n len :
  NoDup (map (fun k => n + Z.of_nat k) (seq 0 len)).
Proof.
  apply Finite.Injective_map_NoDup; [|apply seq_NoDup].
  intros a b. lia.
Qed.

(** X10.  On a grid of four rows of four cells [gridToTiles] returns
    without raising, every tile it makes has a number for value, and the
    tiles stand for the grid: their dense projection is the grid itself.
    The tiles are the non-zero cells in the order of the two loops (rows from
    the top, columns from the left), they carry the cell values, and their
    ids count up from the clock reading; when every non-zero cell holds a
    positive power of two the tile list is well formed. *)
Theorem gridToTiles_round_trip now grid :
  wellShaped 4 grid ->
  exists ts,
    gridToTiles now grid = Ok (map raw ts)
    /\ tilesToGrid ts GRID_SIZE = grid
    /\ map positionOf ts
       = filter (fun p => negb (cell grid (fst p) (snd p) =? 0)) allCells
    /\ (forall t, In t ts -> value t = cell grid (row t) (col t))
    /\ map id ts = map (fun k => now + Z.of_nat k) (seq 0 (length ts))
    /\ ((forall r c, onBoard r c ->
           cell grid r c = 0 \/ isPowerOfTwo (cell grid r c) = true) ->
        wellFormed ts = true).
Proof.
  intros Hs. exists (tilesAt grid now allCells).
  split; [now apply gridToTiles_shaped|].
  split; [now apply tilesAt_projection|].
  split; [apply tilesAt_positions|].
  split; [intros t Ht; now apply tilesAt_value in Ht|].
  split; [apply tilesAt_ids|].
  intros Hp. apply wellFormed_intro.
  - intros t Ht. now apply tilesAt_inGrid in Ht.
  - intros t Ht. assert (Hg := tilesAt_inGrid _ _ _ Ht).
    apply tilesAt_value in Ht as [Hv Hnz]. rewrite Hv in *.
    destruct (Hp (row t) (col t)) as [H0|H2]; [|contradiction|assumption].
    now apply inGrid_onBoard.
  - apply tilesAt_NoDup.
  - rewrite tilesAt_ids. apply shifted_NoDup.
Qed.

Lemma gridToTiles_round_trip_witness :
  wellShaped 4 (tilesToGrid sampleBoard GRID_SIZE)
  /\ exists ts,
       gridToTiles 1000 (tilesToGrid sampleBoard GRID_SIZE) = Ok (map raw ts)
       /\ tilesToGrid ts GRID_SIZE = tilesToGrid sampleBoard GRID_SIZE.
Proof.
  assert (Hs : wellShaped 4 (tilesToGrid sampleBoard GRID_SIZE)).
  { split; [reflexivity|]. intros r Hr. vm_compute in Hr.
    repeat (destruct Hr as [<-|Hr]; [reflexivity|]). destruct Hr. }
  split; [exact Hs|].
  destruct (gridToTiles_round_trip 1000 _ Hs) as (ts & H1 & H2 & _).
  exists ts. split; assumption.
Defined.

(** ** From tiles to a grid and back *)

Lemma faces_NoDup ts : NoDup (map positionOf ts) -> NoDup (map face ts).
Proof.
  intros H. apply NoDup_map_intro; [now apply NoDup_of_map in H|].
  intros x y Hx Hy E. apply (NoDup_map_inj positionOf ts); auto.
  unfold face in E. unfold positionOf. congruence.
Qed.

Lemma tile_at tiles r c :
  0 <= r -> 0 <= c -> cell (tilesToGrid tiles GRID_SIZE) r c <> 0 ->
  exists u, In u tiles /\ row u = r /\ col u = c.
Proof.
  intros Hr Hc Hnz.
  destruct (existsb (fun u => samePosition (positionOf u) (r, c)) tiles) eqn:Ex.
  - apply existsb_exists in Ex as (u & Hu & Eu).
    apply samePosition_eq in Eu. injection Eu as Er Ec. now exists u.
  - exfalso. apply Hnz. apply cell_free; auto.
    intros u Hu [Er Ec].
    assert (Hs := proj1 (existsb_false _ _) Ex u Hu).
    assert (samePosition (positionOf u) (r, c) = true); [|congruence].
    apply samePosition_eq. unfold positionOf. congruence.
Qed.

Lemma tilesAt_faces tiles n :
  wellFormed tiles = true ->
  forall x,
    In x (map face (tilesAt (tilesToGrid tiles GRID_SIZE) n allCells))
    <-> In x (map face tiles).
Proof.
  intros Hwf x. destruct (wellFormed_spec _ Hwf) as (G1 & G2 & G3 & G4).
  rewrite !in_map_iff. split.
  - intros (t & <- & Ht). assert (Hg := tilesAt_inGrid _ _ _ Ht).
    apply tilesAt_value in Ht as [Hv Hnz].
    apply inGrid_onBoard in Hg as [Hr Hc].
    destruct (tile_at tiles (row t) (col t)) as (u & Hu & Er & Ec);
      [lia|lia|congruence|].
    exists u. split; [|assumption]. unfold face. rewrite Er, Ec. f_equal.
    rewrite Hv, <- Er, <- Ec. symmetry. apply cell_at; auto.
  - intros (u & <- & Hu).
    assert (Hin : In (positionOf u)
                    (map positionOf
                       (tilesAt (tilesToGrid tiles GRID_SIZE) n allCells))).
    { rewrite tilesAt_positions. apply filter_In. split.
      - apply allCells_In. now apply inGrid_onBoard, G1.
      - cbn [fst snd positionOf]. apply negb_true_iff, Z.eqb_neq.
        rewrite cell_at; auto. specialize (G2 u Hu).
        apply isPowerOfTwo_pos in G2. lia. }
    apply in_map_iff in Hin as (t & Et & Ht). exists t. split; [|assumption].
    injection Et as Er Ec. unfold face. rewrite Er, Ec. f_equal.
    apply tilesAt_value in Ht as [Hv _]. rewrite Hv, Er, Ec.
    apply cell_at; auto.
Qed.

Lemma quiet_faces dir ts tiles :
  (forall x, In x (map face ts) -> In x (map face tiles)) ->
  quiet (axisOf dir) tiles -> quiet (axisOf dir) ts.
Proof.
  intros Hf Hq a b Ha Hb.
  destruct (proj1 (in_map_iff face tiles (face a)) (Hf _ (in_map face _ _ Ha)))
    as (a' & Ea & Ha').
  destruct (proj1 (in_map_iff face tiles (face b)) (Hf _ (in_map face _ _ Hb)))
    as (b' & Eb & Hb').
  specialize (Hq a' b' Ha' Hb'). unfold face in Ea, Eb.
  injection Ea as Ea1 Ea2 Ea3. injection Eb as Eb1 Eb2 Eb3.
  destruct dir;
    cbn [axisOf leftAxis rightAxis upAxis downAxis lineOf posOf] in *;
    intros H1 H2; rewrite <- Ea3, <- Eb3; apply Hq; congruence.
Qed.

Lemma checkAvailableMoves_faces ts tiles :
  wellFormed ts = true -> wellFormed tiles = true ->
  (forall x, In x (map face ts) <-> In x (map face tiles)) ->
  checkAvailableMoves ts = checkAvailableMoves tiles.
Proof.
  intros H1 H2 Hf.
  assert (Hlen : length ts = length tiles).
  { rewrite <- (length_map face ts), <- (length_map face tiles).
    apply Permutation_length, NoDup_Permutation; auto;
      apply faces_NoDup; [apply (wellFormed_spec _ H1)|apply (wellFormed_spec _ H2)]. }
  assert (F1 := checkAvailableMoves_false_iff ts H1).
  assert (F2 := checkAvailableMoves_false_iff tiles H2).
  assert (Q : (length ts = 16%nat /\ quiet leftAxis ts /\ quiet upAxis ts)
              <-> (length tiles = 16%nat /\ quiet leftAxis tiles
                   /\ quiet upAxis tiles)).
  { rewrite Hlen. split; intros (E & Ql & Qu); (split; [exact E|split]).
    - apply (quiet_faces Left tiles ts); [intros x; apply Hf|exact Ql].
    - apply (quiet_faces Up tiles ts); [intros x; apply Hf|exact Qu].
    - apply (quiet_faces Left ts tiles); [intros x; apply Hf|exact Ql].
    - apply (quiet_faces Up ts tiles); [intros x; apply Hf|exact Qu]. }
  rewrite (checkAvailableMoves_flags ts H1) in *.
  rewrite (checkAvailableMoves_flags tiles H2) in *.
  destruct (_ || _), (_ || _); try reflexivity; exfalso.
  - assert (E : Ok true = Ok false) by (apply F1, Q, F2; reflexivity).
    discriminate.
  - assert (E : Ok true = Ok false) by (apply F2, Q, F1; reflexivity).
    discriminate.
Qed.

(** X11.  Projecting a well-formed tile list to the dense grid and reading
    the grid back with [gridToTiles] returns (without raising) a well-formed
    tile list that shows the same board: the same places with the same
    values, one tile for each input tile.  Only the ids (renumbered from the
    clock reading) and the order (that of the two loops) may differ, and
    [checkAvailableMoves] gives the same answer on both lists. *)
Theorem tilesToGrid_then_gridToTiles now tiles :
  wellFormed tiles = true ->
  exists ts,
    gridToTiles now (tilesToGrid tiles GRID_SIZE) = Ok (map raw ts)
    /\ Permutation (map face ts) (map face tiles)
    /\ wellFormed ts = true
    /\ map id ts = map (fun k => now + Z.of_nat k) (seq 0 (length tiles))
    /\ checkAvailableMoves ts = checkAvailableMoves tiles.
Proof.
  intros Hwf. set (grid := tilesToGrid tiles GRID_SIZE).
  assert (Hs : wellShaped (Z.to_nat GRID_SIZE) grid)
    by apply tilesToGrid_shaped.
  exists (tilesAt grid now allCells).
  assert (Hf := tilesAt_faces tiles now Hwf). fold grid in Hf.
  assert (Hp : Permutation (map face (tilesAt grid now allCells))
                 (map face tiles)).
  { apply NoDup_Permutation; [| |exact Hf]; apply faces_NoDup.
    - apply tilesAt_NoDup.
    - apply (wellFormed_spec _ Hwf). }
  assert (Hwf' : wellFormed (tilesAt grid now allCells) = true).
  { apply wellFormed_intro.
    - intros t Ht. now apply tilesAt_inGrid in Ht.
    - intros t Ht. apply (in_map face) in Ht. apply Hf in Ht.
      apply in_map_iff in Ht as (u & Eu & Hu). injection Eu as _ _ Ev.
      rewrite <- Ev. now apply (proj1 (proj2 (wellFormed_spec _ Hwf))).
    - apply tilesAt_NoDup.
    - rewrite tilesAt_ids. apply shifted_NoDup. }
  split; [now apply gridToTiles_shaped|]. split; [exact Hp|].
  split; [exact Hwf'|]. split.
  - rewrite tilesAt_ids. apply Permutation_length in Hp.
    rewrite !length_map in Hp. now rewrite Hp.
  - now apply checkAvailableMoves_faces.
Qed.

Lemma tilesToGrid_then_gridToTiles_witness :
  wellFormed sampleBoard = true
  /\ exists ts,
       gridToTiles 1000 (tilesToGrid sampleBoard GRID_SIZE) = Ok (map raw ts)
       /\ Permutation (map face ts) (map face sampleBoard)
       /\ wellFormed ts = true
       /\ map id ts
          = map (fun k => 1000 + Z.of_nat k) (seq 0 (length sampleBoard))
       /\ checkAvailableMoves ts = checkAvailableMoves sampleBoard.
Proof.
  split; [reflexivity|].
  apply (tilesToGrid_then_gridToTiles 1000 sampleBoard). reflexivity.
Defined.

(** ** [gridToTiles] on grids of other shapes *)

Lemma loop_returns grid cells :
  (forall p, In p cells -> (Z.to_nat (fst p) < length grid)%nat) ->
  forall st, exists st',
    foldM (fun st p => readInto grid (fst p) st (snd p)) cells st = Ok st'.
Proof.
  induction cells as [|[r c] cells IH]; intros Hb st; [now exists st|].
  cbn [foldM fst snd]. destruct st as [acc n]. unfold readInto at 1, readCell.
  assert (Hr := Hb (r, c) (in_eq _ _)). cbn [fst] in Hr.
  rewrite (nth_error_nth' grid [] Hr). cbn [bind].
  destruct (notZero _); cbn [bind]; apply IH; intros p Hp; apply Hb; now right.
Qed.

Lemma loop_raises grid l1 p l2 :
  (forall q, In q l1 -> (Z.to_nat (fst q) < length grid)%nat) ->
  (length grid <= Z.to_nat (fst p))%nat ->
  forall st,
    foldM (fun st p => readInto grid (fst p) st (snd p)) (l1 ++ p :: l2) st
    = TypeError.
Proof.
  intros H1 Hp st. rewrite foldM_app.
  destruct (loop_returns grid l1 H1 st) as ([acc n] & ->).
  cbn [bind foldM]. unfold readInto at 1, readCell.
  now rewrite (proj2 (nth_error_None grid _) Hp).
Qed.

Lemma loop_values grid cells :
  forall acc n acc' n',
    foldM (fun st p => readInto grid (fst p) st (snd p)) cells (acc, n)
    = Ok (acc', n') ->
    (forall t, In t acc' -> rawValue t <> None) <->
    ((forall t, In t acc -> rawValue t <> None)
     /\ forall p, In p cells ->
          (Z.to_nat (snd p) < length (nth (Z.to_nat (fst p)) grid []))%nat).
Proof.
  induction cells as [|[r c] cells IH]; intros acc n acc' n'.
  - cbn [foldM]. intros [= <- <-]. split; [intros H; split; [exact H|intros _ []]|tauto].
  - cbn [foldM fst snd]. unfold readInto at 1, readCell.
    destruct (nth_error grid (Z.to_nat r)) as [line|] eqn:El; [|discriminate].
    assert (Eline : nth (Z.to_nat r) grid [] = line)
      by now apply nth_error_nth.
    cbn [bind].
    destruct (nth_error line (Z.to_nat c)) as [v|] eqn:Ev; cbn [notZero].
    + assert (Hc : (Z.to_nat c < length line)%nat)
        by (apply nth_error_Some; congruence).
      destruct (v =? 0); cbn [negb bind]; intros E; rewrite (IH _ _ _ _ E).
      * split.
        -- intros [Ha Hcs]. split; [exact Ha|].
           intros p [<-|Hp]; [cbn [fst snd]; now rewrite Eline|now apply Hcs].
        -- intros [Ha Hcs]. split; [exact Ha|]. intros p Hp. apply Hcs. now right.
      * split.
        -- intros [Ha Hcs]. split.
           ++ intros t Ht. apply Ha, in_or_app. now left.
           ++ intros p [<-|Hp]; [cbn [fst snd]; now rewrite Eline|now apply Hcs].
        -- intros [Ha Hcs]. split.
           ++ intros t Ht. apply in_app_or in Ht as [Ht|[<-|[]]];
                [now apply Ha|discriminate].
           ++ intros p Hp. apply Hcs. now right.
    + assert (Hc : (length line <= Z.to_nat c)%nat) by now apply nth_error_None.
      cbn [bind]. intros E. rewrite (IH _ _ _ _ E). split.
      * intros [Ha _]. exfalso.
        apply (Ha (mkRaw n None r c)); [|reflexivity].
        apply in_or_app. right. now left.
      * intros [_ Hcs]. exfalso.
        specialize (Hcs (r, c) (in_eq _ _)). cbn [fst snd] in Hcs.
        rewrite Eline in Hcs. lia.
Qed.

(** X12.  [gridToTiles] on a grid of any shape: it raises exactly when the
    grid has fewer than four rows; and when it returns, every tile it made
    has a number for value exactly when each of the first four rows has at
    least four cells (a shorter row yields a tile whose value is
    [undefined]). *)
Theorem gridToTiles_shapes now grid :
  (gridToTiles now grid = TypeError <-> (length grid < 4)%nat)
  /\ (forall ts,
        gridToTiles now grid = Ok ts ->
        (forall t, In t ts -> rawValue t <> None) <->
        (forall i, (i < 4)%nat -> (4 <= length (nth i grid []))%nat)).
Proof.
  rewrite gridToTiles_cells. split.
  - split.
    + intros E. destruct (Nat.lt_ge_cases (length grid) 4) as [H|H]; [exact H|].
      exfalso.
      destruct (loop_returns grid allCells) with (st := ([] : list RawTile, now))
        as (st' & E').
      * intros [r c] Hp. apply allCells_In in Hp as [Hr _].
        cbn [fst]. unfold GRID_SIZE in Hr. lia.
      * rewrite E' in E. discriminate.
    + intros H.
      assert (Hcut : exists l1 p l2,
                 allCells = l1 ++ p :: l2
                 /\ (forall q, In q l1 -> (Z.to_nat (fst q) < length grid)%nat)
                 /\ (length grid <= Z.to_nat (fst p))%nat).
      { destruct grid as [|r0 [|r1 [|r2 [|r3 g]]]]; cbn [length] in *;
          [exists (firstn 0 allCells), (0, 0), (skipn 1 allCells)
          |exists (firstn 4 allCells), (1, 0), (skipn 5 allCells)
          |exists (firstn 8 allCells), (2, 0), (skipn 9 allCells)
          |exists (firstn 12 allCells), (3, 0), (skipn 13 allCells)
          |lia];
          (split; [reflexivity|]); (split; [|cbn; lia]);
          intros q Hq; vm_compute in Hq;
          repeat (destruct Hq as [<-|Hq]; [cbn; lia|]); destruct Hq. }
      destruct Hcut as (l1 & p & l2 & -> & H1 & Hp).
      now rewrite (loop_raises grid l1 p l2 H1 Hp).
  - intros ts E.
    destruct (foldM _ allCells _) as [[acc n]|] eqn:El; [|discriminate].
    cbn [bind fst] in E. injection E as <-.
    rewrite (loop_values grid allCells _ _ _ _ El). split.
    + intros [_ H] i Hi.
      specialize (H (Z.of_nat i, 3)). cbn [fst snd] in H.
      rewrite Nat2Z.id in H.
      assert (In (Z.of_nat i, 3) allCells)
        by (apply allCells_In; unfold onBoard, GRID_SIZE; lia).
      specialize (H H0). lia.
    + intros H. split; [intros t []|].
      intros [r c] Hp. apply allCells_In in Hp as [Hr Hc]. cbn [fst snd].
      unfold GRID_SIZE in *.
      specialize (H (Z.to_nat r) ltac:(lia)). lia.
Qed.

(** ** The row engine on dense rows *)

Lemma arraySet_split {A} (a : list A) i v :
  (i < length a)%nat -> arraySet a i v = firstn i a ++ v :: skipn (S i) a.
Proof.
  revert i. induction a as [|x a IH]; intros [|i] H; simpl in *;
    try lia; try reflexivity.
  now rewrite IH by lia.
Qed.

Lemma slide_fold vs : forall (base : list Z) i,
  (i + length vs <= length base)%nat ->
  fst (fold_left
         (fun (acc : list Z * nat) val =>
            let (newRow, index) := acc in
            (arraySet newRow index val, S index))
         vs (base, i))
  = firstn i base ++ vs ++ skipn (i + length vs) base.
Proof.
  induction vs as [|v vs IH]; intros base i H.
  - cbn [fold_left fst length app]. rewrite Nat.add_0_r.
    now rewrite firstn_skipn.
  - cbn [fold_left length] in *. rewrite IH.
    + rewrite arraySet_split by lia.
      rewrite firstn_app, firstn_firstn, length_firstn.
      replace (Nat.min (S i) i) with i by lia.
      replace (S i - Nat.min i (length base))%nat with 1%nat by lia.
      cbn [firstn]. rewrite <- app_assoc. cbn [app]. f_equal. f_equal. f_equal.
      rewrite skipn_app, length_firstn.
      replace (S i + length vs - Nat.min i (length base))%nat
        with (S (length vs)) by lia.
      rewrite (skipn_all2 (firstn i base)) by (rewrite length_firstn; lia).
      cbn [app]. change (v :: skipn (S i) base) with ([v] ++ skipn (S i) base).
      rewrite skipn_app. cbn [length].
      replace (S (length vs) - 1)%nat with (length vs) by lia.
      rewrite (skipn_all2 [v]) by (cbn [length]; lia).
      cbn [app]. rewrite skipn_skipn. f_equal. lia.
    + rewrite arraySet_length; lia.
Qed.

Lemma skipn_zeros n m : skipn n (repeat 0 m) = repeat 0 (m - n).
Proof.
  revert m. induction n as [|n IH]; intros [|m]; cbn [skipn repeat Nat.sub];
    try reflexivity. apply IH.
Qed.

Lemma slideRowLeft_closed r :
  let vs := filter (fun val => negb (val =? 0)) r in
  (length vs <= 4)%nat ->
  slideRowLeft r = vs ++ repeat 0 (4 - length vs).
Proof.
  intros vs H. unfold slideRowLeft. fold vs.
  change (Z.to_nat GRID_SIZE) with 4%nat.
  rewrite slide_fold by (rewrite repeat_length; lia).
  cbn [firstn app Nat.add]. f_equal.
  now rewrite skipn_zeros.
Qed.

Lemma filter_padded vs n :
  (forall v, In v vs -> v <> 0) ->
  filter (fun val => negb (val =? 0)) (vs ++ repeat 0 n) = vs.
Proof.
  intros H. rewrite filter_app.
  replace (filter _ (repeat 0 n)) with (@nil Z).
  - rewrite app_nil_r. induction vs as [|v vs IH]; [reflexivity|].
    cbn [filter]. destruct (Z.eqb_spec v 0) as [E|E].
    + exfalso. apply (H v); [now left|exact E].
    + cbn [negb]. f_equal. apply IH. intros x Hx. apply H. now right.
  - induction n as [|n IH]; [reflexivity|]. cbn [repeat filter].
    now rewrite Z.eqb_refl.
Qed.

Lemma slideRowLeft_again r :
  (length (filter (fun val => negb (val =? 0)%Z) r) <= 4)%nat ->
  slideRowLeft (slideRowLeft r) = slideRowLeft r.
Proof.
  intros H. rewrite (slideRowLeft_closed r H).
  set (vs := filter _ r) in *.
  assert (Hnz : forall v, In v vs -> v <> 0).
  { intros v Hv. apply filter_In in Hv as [_ Hv].
    apply negb_true_iff, Z.eqb_neq in Hv. exact Hv. }
  rewrite slideRowLeft_closed; rewrite (filter_padded vs _ Hnz);
    [reflexivity|exact H].
Qed.

Ltac settle_test :=
  match goal with
  | |- context [Z.eqb ?a ?b] =>
      destruct (Z.eqb_spec a b); try (exfalso; lia);
      cbn [negb andb orb sameId nth arraySet fst snd fold_left mergeWalk
           filter value id mergeInto app length rev map repeat Nat.sub]
  end.

Lemma row_walk L :
  (length L <= 4)%nat -> NoDup (map id L) ->
  (forall t, In t L -> value t <> 0) ->
  let w := mergeWalk L [] None in
  let m := mergeRowLeft (map value L ++ repeat 0 (4 - length L)) in
  filter (fun val => negb (val =? 0)) (fst m)
  = map value (rev (fst (fst w)))
  /\ snd m = snd w.
Proof.
  intros Hlen Hnd Hnz.
  destruct L as [|[i1 v1 r1 c1 m1] [|[i2 v2 r2 c2 m2] [|[i3 v3 r3 c3 m3]
                [|[i4 v4 r4 c4 m4] [|t5 L]]]]];
    cbn [length] in Hlen; try lia; clear Hlen;
    cbn [map id] in Hnd;
    repeat match goal with
           | H : NoDup (_ :: _) |- _ =>
               apply NoDup_cons_iff in H; destruct H as [? H]
           end;
    cbn [In] in *;
    repeat match goal with
           | H : forall t, _ \/ _ -> _ |- _ =>
               pose proof (H _ (or_introl eq_refl)); 
               specialize (fun t Ht => H t (or_intror Ht))
           end;
    cbn [value] in *;
    unfold mergeRowLeft; change (Z.to_nat (GRID_SIZE - 1)) with 3%nat;
    cbn [negb andb orb sameId nth arraySet fst snd fold_left mergeWalk seq
         filter value id mergeInto app length rev map repeat Nat.sub];
    repeat settle_test;
    (split; [try reflexivity; repeat f_equal; lia|try reflexivity; lia]).
Qed.

(** ** Rows of the dense projection and lines of tiles *)

Lemma range_cons lo hi : lo < hi -> range lo hi = lo :: range (lo + 1) hi.
Proof.
  intros H. unfold range.
  replace (Z.to_nat (hi - lo)) with (S (Z.to_nat (hi - (lo + 1)))) by lia.
  cbn [seq map]. f_equal; [lia|].
  rewrite <- seq_shift, map_map. apply map_ext. intros i. lia.
Qed.

Lemma range_nil lo hi : hi <= lo -> range lo hi = [].
Proof.
  intros H. unfold range. now replace (Z.to_nat (hi - lo)) with 0%nat by lia.
Qed.

Lemma scan_line (f : Z -> Z) n : forall lo L,
  n = Z.to_nat (GRID_SIZE - lo) ->
  StronglySorted (nearer 1) (map col L) ->
  (forall t, In t L -> lo <= col t < GRID_SIZE) ->
  (forall t, In t L -> f (col t) = value t /\ value t <> 0) ->
  (forall c, lo <= c < GRID_SIZE -> (forall t, In t L -> col t <> c) -> f c = 0) ->
  filter (fun val => negb (val =? 0)) (map f (range lo GRID_SIZE))
  = map value L.
Proof.
  induction n as [|n IH]; intros lo L Hn Hs Hin H1 H0.
  - rewrite range_nil by lia. destruct L as [|t L]; [reflexivity|].
    specialize (Hin t (in_eq _ _)). lia.
  - rewrite range_cons by lia. cbn [map filter].
    assert (Hn' : n = Z.to_nat (GRID_SIZE - (lo + 1))) by lia.
    destruct L as [|t L].
    + rewrite (H0 lo) by (try lia; intros t []). rewrite Z.eqb_refl. cbn [negb].
      apply (IH (lo + 1) [] Hn' Hs).
      * intros t [].
      * intros t [].
      * intros c Hc _. apply H0; [lia|intros t []].
    + cbn [map] in Hs. apply StronglySorted_inv in Hs as [Hs Hall].
      rewrite Forall_forall in Hall.
      assert (Hin' : forall u, In u L -> col t < col u).
      { intros u Hu. specialize (Hall (col u) (in_map col _ _ Hu)).
        unfold nearer in Hall. lia. }
      assert (Ht := Hin t (in_eq _ _)).
      destruct (Z.eq_dec (col t) lo) as [E|E].
      * destruct (H1 t (in_eq _ _)) as [Ev Hnz]. rewrite E in Ev.
        rewrite Ev. destruct (Z.eqb_spec (value t) 0); [contradiction|].
        cbn [negb map]. f_equal.
        apply (IH (lo + 1) L Hn' Hs).
        -- intros u Hu. specialize (Hin u (in_cons _ _ _ Hu)).
           specialize (Hin' u Hu). lia.
        -- intros u Hu. apply H1. now right.
        -- intros c Hc Hno. apply H0; [lia|].
           intros u [<-|Hu]; [lia|now apply Hno].
      * rewrite (H0 lo).
        -- rewrite Z.eqb_refl. cbn [negb].
           apply (IH (lo + 1) (t :: L) Hn').
           ++ cbn [map]. constructor; [assumption|now apply Forall_forall].
           ++ intros u [<-|Hu]; [lia|].
              specialize (Hin u (in_cons _ _ _ Hu)).
              specialize (Hin' u Hu). lia.
           ++ exact H1.
           ++ intros c Hc Hno. apply H0; [lia|assumption].
        -- lia.
        -- intros u [<-|Hu]; [lia|]. specialize (Hin' u Hu). lia.
Qed.

Lemma row_cells (G : Grid) k :
  wellShaped (Z.to_nat GRID_SIZE) G -> 0 <= k < GRID_SIZE ->
  nth (Z.to_nat k) G [] = map (cell G k) (range 0 GRID_SIZE).
Proof.
  intros Hs Hk. unfold cell.
  assert (Hl := nth_shaped _ G (Z.to_nat k) Hs ltac:(unfold GRID_SIZE in *; lia)).
  destruct (nth (Z.to_nat k) G []) as [|a [|b [|c [|d [|e l]]]]];
    try discriminate. reflexivity.
Qed.

Lemma row_filter tiles k :
  wellFormed tiles = true -> 0 <= k < GRID_SIZE ->
  filter (fun val => negb (val =? 0))
    (nth (Z.to_nat k) (tilesToGrid tiles GRID_SIZE) [])
  = map value (lineTiles leftAxis tiles k).
Proof.
  intros Hwf Hk. destruct (wellFormed_spec _ Hwf) as (G1 & G2 & G3 & G4).
  rewrite row_cells by (try apply tilesToGrid_shaped; assumption).
  apply (scan_line _ 4 0); [reflexivity| | | |].
  - apply (lineTiles_sorted Left tiles Hwf k).
  - intros t Ht. apply lineTiles_In in Ht as [Ht _].
    destruct (proj1 (inGrid_onBoard t) (G1 t Ht)) as [_ Hc]. lia.
  - intros t Ht. apply lineTiles_In in Ht as [Ht Hr].
    cbn [lineOf leftAxis] in Hr. split.
    + rewrite <- Hr. apply cell_at; auto.
    + specialize (G2 t Ht). apply isPowerOfTwo_pos in G2. lia.
  - intros c Hc Hno. apply cell_free; [lia|lia|].
    intros u Hu [Er Ec]. apply (Hno u); [|exact Ec].
    apply lineTiles_In. split; [exact Hu|exact Er].
Qed.

Lemma packed_row a b c d :
  (b <> 0 -> a <> 0) -> (c <> 0 -> b <> 0) -> (d <> 0 -> c <> 0) ->
  let vs := filter (fun val => negb (val =? 0)) [a; b; c; d] in
  [a; b; c; d] = vs ++ repeat 0 (4 - length vs).
Proof.
  intros H1 H2 H3. cbn [filter].
  destruct (Z.eqb_spec a 0), (Z.eqb_spec b 0), (Z.eqb_spec c 0),
    (Z.eqb_spec d 0); subst; cbn; try reflexivity; exfalso; tauto.
Qed.

Lemma moved_row_packed tiles k c :
  wellFormed tiles = true -> 0 <= k < GRID_SIZE -> 0 <= c < GRID_SIZE - 1 ->
  cell (tilesToGrid (movedTiles leftAxis tiles) GRID_SIZE) k (c + 1) <> 0 ->
  cell (tilesToGrid (movedTiles leftAxis tiles) GRID_SIZE) k c <> 0.
Proof.
  intros Hwf Hk Hc Hnz.
  assert (L := axisOf_laws_sign Left). cbn [axisOf signOf] in L.
  destruct (wellFormed_regular _ _ _ L Hwf) as (H1 & H2 & H3).
  destruct (wellFormed_spec _ Hwf) as (G1 & G2 & G3 & G4).
  assert (Hwf' := movedTiles_wellFormed Left tiles Hwf). cbn [axisOf] in Hwf'.
  destruct (wellFormed_spec _ Hwf') as (G1' & G2' & G3' & G4').
  destruct (tile_at (movedTiles leftAxis tiles) k (c + 1))
    as (u & Hu & Er & Ec); [lia|lia|exact Hnz|].
  apply (movedTiles_In _ _ L tiles H1) in Hu. cbn [lineOf leftAxis] in Hu.
  rewrite Er in Hu.
  destruct (lineOut_at _ _ L tiles k u Hu) as (n & x & Hn & _ & Hp).
  cbn [posOf targetOf leftAxis] in Hp.
  assert (Hlt : (Z.to_nat c < length (lineOut leftAxis tiles k))%nat).
  { unfold lineOut. rewrite placeAll_length.
    assert (n < length (lineKept leftAxis tiles k))%nat
      by (apply nth_error_Some; congruence). lia. }
  destruct (nth_error (lineOut leftAxis tiles k) (Z.to_nat c)) as [a|] eqn:Ea;
    [|apply nth_error_None in Ea; lia].
  assert (Ha : In a (lineOut leftAxis tiles k)) by now apply nth_error_In in Ea.
  assert (Hline := movedTiles_line _ _ L tiles k a Ha).
  cbn [lineOf leftAxis] in Hline.
  assert (Hcol : col a = c).
  { unfold lineOut in Ea. rewrite placeAll_nth in Ea.
    destruct (nth_error (lineKept leftAxis tiles k) (Z.to_nat c)) as [y|];
      [|discriminate].
    injection Ea as <-. cbn [withPos leftAxis setCol col targetOf]. lia. }
  assert (Hin : In a (movedTiles leftAxis tiles)).
  { apply (movedTiles_In _ _ L tiles H1). cbn [lineOf leftAxis].
    now rewrite Hline. }
  rewrite <- Hline, <- Hcol.
  apply cell_occupied; auto.
  intros t Ht. specialize (G2' t Ht). apply isPowerOfTwo_pos in G2'. lia.
Qed.

Lemma moveRowLeft_line tiles k :
  wellFormed tiles = true -> 0 <= k < GRID_SIZE ->
  moveRowLeft (nth (Z.to_nat k) (tilesToGrid tiles GRID_SIZE) [])
  = (nth (Z.to_nat k) (tilesToGrid (movedTiles leftAxis tiles) GRID_SIZE) [],
     lineScore leftAxis tiles k).
Proof.
  intros Hwf Hk.
  assert (L := axisOf_laws_sign Left). cbn [axisOf signOf] in L.
  destruct (wellFormed_regular _ _ _ L Hwf) as (H1 & H2 & H3).
  destruct (wellFormed_spec _ Hwf) as (G1 & G2 & G3 & G4).
  assert (Hwf' := movedTiles_wellFormed Left tiles Hwf). cbn [axisOf] in Hwf'.
  set (rowIn := nth (Z.to_nat k) (tilesToGrid tiles GRID_SIZE) []).
  set (line := lineTiles leftAxis tiles k).
  assert (Hf : filter (fun val => negb (val =? 0)) rowIn = map value line)
    by now apply row_filter.
  assert (Hlen : (length line <= 4)%nat)
    by apply (lineTiles_length _ _ L tiles H1 G3 G1).
  assert (Hnd : NoDup (map id line)) by now apply lineTiles_NoDup.
  assert (Hnz : forall t, In t line -> value t <> 0).
  { intros t Ht. apply lineTiles_In in Ht as [Ht _].
    specialize (H2 t Ht). lia. }
  destruct (row_walk line Hlen Hnd Hnz) as [Hm Hs].
  unfold moveRowLeft.
  rewrite (slideRowLeft_closed rowIn) by (rewrite Hf, length_map; exact Hlen).
  rewrite Hf, length_map.
  destruct (mergeRowLeft (map value line ++ repeat 0 (4 - length line)))
    as [mergedRow scoreIncrease] eqn:Em.
  cbn [fst snd] in Hm, Hs. f_equal; [|exact Hs].
  assert (Hk' : (length (lineKept leftAxis tiles k) <= 4)%nat).
  { assert (Hl := lineKept_length leftAxis tiles k).
    unfold line in Hlen. lia. }
  rewrite slideRowLeft_closed; rewrite Hm;
    change (rev (fst (fst (mergeWalk line [] None))))
      with (lineKept leftAxis tiles k);
    [|now rewrite length_map].
  (* the row of the projection of the result *)
  assert (Hout : filter (fun val => negb (val =? 0))
                   (nth (Z.to_nat k)
                      (tilesToGrid (movedTiles leftAxis tiles) GRID_SIZE) [])
                 = map value (lineKept leftAxis tiles k)).
  { rewrite (row_filter _ k Hwf' Hk).
    rewrite (movedTiles_lineTiles _ _ L tiles H1 k).
    unfold lineOut. apply (placeAll_values _ _ L). }
  rewrite <- Hout.
  rewrite row_cells by (try apply tilesToGrid_shaped; assumption).
  change (range 0 GRID_SIZE) with [0; 1; 2; 3]. cbn [map].
  symmetry. apply packed_row.
  - apply (moved_row_packed tiles k 0 Hwf Hk). unfold GRID_SIZE. lia.
  - apply (moved_row_packed tiles k 1 Hwf Hk). unfold GRID_SIZE. lia.
  - apply (moved_row_packed tiles k 2 Hwf Hk). unfold GRID_SIZE. lia.
Qed.

Lemma grid_rows (G : Grid) :
  wellShaped (Z.to_nat GRID_SIZE) G ->
  G = map (fun k => nth (Z.to_nat k) G []) (range 0 GRID_SIZE).
Proof.
  intros [Hl _]. destruct G as [|a [|b [|c [|d [|e l]]]]]; try discriminate.
  reflexivity.
Qed.

Lemma moveLeft_rows tiles :
  wellFormed tiles = true ->
  tilesToGrid (movedTiles leftAxis tiles) GRID_SIZE
  = map (fun r => fst (moveRowLeft r)) (tilesToGrid tiles GRID_SIZE)
  /\ movedScore leftAxis tiles
     = sumZ (map (fun r => snd (moveRowLeft r)) (tilesToGrid tiles GRID_SIZE)).
Proof.
  intros Hwf.
  assert (Hs := tilesToGrid_shaped tiles GRID_SIZE).
  assert (Hs' := tilesToGrid_shaped (movedTiles leftAxis tiles) GRID_SIZE).
  split.
  - rewrite (grid_rows _ Hs'), (grid_rows _ Hs) at 1. rewrite map_map.
    apply map_ext_in. intros k Hk. apply range_In in Hk.
    now rewrite (moveRowLeft_line tiles k Hwf Hk).
  - unfold movedScore. rewrite (grid_rows _ Hs) at 1. rewrite map_map.
    f_equal. apply map_ext_in. intros k Hk. apply range_In in Hk.
    now rewrite (moveRowLeft_line tiles k Hwf Hk).
Qed.

Lemma sumZ_part l x :
  (forall y, In y l -> 0 <= y) -> In x l -> 0 <= x <= sumZ l.
Proof.
  induction l as [|a l IH]; intros Hpos Hin; [destruct Hin|].
  unfold sumZ in *. cbn [fold_right].
  assert (Ha : 0 <= a) by (apply Hpos; now left).
  assert (Hl : 0 <= fold_right Z.add 0 l).
  { clear -Hpos. induction l as [|b l IH]; [cbn; lia|]. cbn [fold_right].
    assert (0 <= b) by (apply Hpos; right; now left).
    assert (0 <= fold_right Z.add 0 l); [|lia].
    apply IH. intros y [<-|Hy]; apply Hpos; [now left|right; now right]. }
  destruct Hin as [<-|Hin]; [lia|].
  assert (0 <= x <= fold_right Z.add 0 l); [|lia].
  apply IH; [|exact Hin]. intros y Hy. apply Hpos. now right.
Qed.

Lemma row_scores_lines tiles :
  wellFormed tiles = true ->
  map (fun r => snd (moveRowLeft r)) (tilesToGrid tiles GRID_SIZE)
  = map (lineScore leftAxis tiles) (range 0 GRID_SIZE).
Proof.
  intros Hwf. assert (Hs := tilesToGrid_shaped tiles GRID_SIZE).
  rewrite (grid_rows _ Hs) at 1. rewrite map_map.
  apply map_ext_in. intros k Hk. apply range_In in Hk.
  now rewrite (moveRowLeft_line tiles k Hwf Hk).
Qed.

Lemma row_scores_bounded tiles s :
  wellFormed tiles = true ->
  In s (map (fun r => snd (moveRowLeft r)) (tilesToGrid tiles GRID_SIZE)) ->
  0 <= s <= movedScore leftAxis tiles.
Proof.
  intros Hwf Hin. rewrite (row_scores_lines tiles Hwf) in Hin.
  unfold movedScore. apply sumZ_part; [|exact Hin].
  intros y Hy. apply in_map_iff in Hy as (k & <- & _).
  unfold lineScore, lineWalk. apply mergeWalk_gained. intros t Ht.
  apply lineTiles_In in Ht as [Ht _].
  apply isPowerOfTwo_pos. now apply (proj1 (proj2 (wellFormed_spec _ Hwf))).
Qed.

(** X13.  The tile engine and the row engine agree.  For every well-formed
    tile list whose values sum to at most 2^53 - 1, the range in which the
    arithmetic of the code is exact, [moveLeft] returns tiles whose dense
    projection is the dense projection of the input with [moveRowLeft]
    applied to each row, and its [scoreIncrease] is the sum of the score
    increases [moveRowLeft] reports for the rows; each of these lies
    between 0 and [scoreIncrease], which is at most the sum of the input
    values. *)
Theorem moveLeft_by_rows tiles :
  wellFormed tiles = true ->
  totalValue tiles <= MAX_SAFE_INTEGER ->
  exists res,
    moveLeft tiles = Ok res
    /\ tilesToGrid (updatedTiles res) GRID_SIZE
       = map (fun r => fst (moveRowLeft r)) (tilesToGrid tiles GRID_SIZE)
    /\ scoreIncrease res
       = sumZ (map (fun r => snd (moveRowLeft r))
                 (tilesToGrid tiles GRID_SIZE))
    /\ (forall s,
          In s (map (fun r => snd (moveRowLeft r))
                  (tilesToGrid tiles GRID_SIZE)) ->
          0 <= s <= scoreIncrease res)
    /\ scoreIncrease res <= totalValue tiles
    /\ scoreIncrease res <= MAX_SAFE_INTEGER.
Proof.
  intros Hwf Hb. eexists. split; [apply (applyMove_spec Left tiles Hwf)|].
  cbn [updatedTiles scoreIncrease axisOf].
  destruct (moveLeft_rows tiles Hwf) as [R1 R2].
  destruct (move_within_bound Left tiles Hwf Hb) as (_ & _ & Hsc).
  cbn [axisOf] in Hsc.
  split; [exact R1|]. split; [exact R2|]. split; [|lia].
  intros s Hs. now apply row_scores_bounded.
Qed.

Lemma moveLeft_by_rows_witness :
  wellFormed sampleBoard = true
  /\ totalValue sampleBoard <= MAX_SAFE_INTEGER
  /\ exists res,
       moveLeft sampleBoard = Ok res
       /\ tilesToGrid (updatedTiles res) GRID_SIZE
          = map (fun r => fst (moveRowLeft r))
              (tilesToGrid sampleBoard GRID_SIZE)
       /\ scoreIncrease res
          = sumZ (map (fun r => snd (moveRowLeft r))
                    (tilesToGrid sampleBoard GRID_SIZE))
       /\ (forall s,
             In s (map (fun r => snd (moveRowLeft r))
                     (tilesToGrid sampleBoard GRID_SIZE)) ->
             0 <= s <= scoreIncrease res)
       /\ scoreIncrease res <= totalValue sampleBoard
       /\ scoreIncrease res <= MAX_SAFE_INTEGER.
Proof.
  assert (Hb : totalValue sampleBoard <= MAX_SAFE_INTEGER)
    by (vm_compute; discriminate).
  split; [reflexivity|]. split; [exact Hb|].
  apply (moveLeft_by_rows sampleBoard); [reflexivity|exact Hb].
Defined.

(** ** Laws of the row engine *)

Lemma sumZ_nonzero r : sumZ (filter (fun val => negb (val =? 0)) r) = sumZ r.
Proof.
  induction r as [|v r IH]; [reflexivity|]. cbn [filter].
  destruct (Z.eqb_spec v 0); cbn [negb sumZ fold_right] in *;
    unfold sumZ in *; lia.
Qed.

Lemma sumZ_padded vs n : sumZ (vs ++ repeat 0 n) = sumZ vs.
Proof.
  induction vs as [|v vs IH]; cbn [app sumZ fold_right] in *.
  - induction n as [|n IH]; [reflexivity|]. cbn [repeat fold_right].
    unfold sumZ in *. lia.
  - unfold sumZ in *. lia.
Qed.

Lemma sumZ_abs_nonzero r :
  sumZ (map Z.abs (filter (fun val => negb (val =? 0)) r))
  = sumZ (map Z.abs r).
Proof.
  induction r as [|v r IH]; [reflexivity|]. cbn [filter].
  destruct (Z.eqb_spec v 0); cbn [negb map sumZ fold_right] in *;
    unfold sumZ in *; lia.
Qed.

Lemma sumZ_abs_padded vs n :
  sumZ (map Z.abs (vs ++ repeat 0 n)) = sumZ (map Z.abs vs).
Proof.
  induction vs as [|v vs IH]; cbn [app map sumZ fold_right] in *.
  - induction n as [|n IH]; [reflexivity|]. cbn [repeat map fold_right].
    unfold sumZ in *. lia.
  - unfold sumZ in *. lia.
Qed.

Lemma abs_le_sum l v : In v l -> Z.abs v <= sumZ (map Z.abs l).
Proof.
  intros Hin. apply (sumZ_part (map Z.abs l) (Z.abs v)).
  - intros y Hy. apply in_map_iff in Hy as (x & <- & _). lia.
  - now apply in_map.
Qed.

Lemma merge_laws vs :
  (length vs <= 4)%nat -> (forall v, In v vs -> v <> 0) ->
  let m := mergeRowLeft (vs ++ repeat 0 (4 - length vs)) in
  let out := filter (fun val => negb (val =? 0)) (fst m) in
  sumZ out = sumZ vs
  /\ sumZ (map Z.abs out) = sumZ (map Z.abs vs)
  /\ Z.abs (snd m) <= sumZ (map Z.abs vs)
  /\ (length out <= length vs <= 2 * length out)%nat
  /\ ((forall v, In v vs -> 0 <= v) ->
      0 <= snd m /\ (snd m = 0 <-> out = vs)).
Proof.
  intros Hlen Hnz.
  destruct vs as [|v1 [|v2 [|v3 [|v4 [|v5 vs]]]]];
    cbn [length] in Hlen; try lia; clear Hlen;
    cbn [In] in *;
    repeat match goal with
           | H : forall t, _ \/ _ -> _ |- _ =>
               pose proof (H _ (or_introl eq_refl));
               specialize (fun t Ht => H t (or_intror Ht))
           end;
    unfold mergeRowLeft; change (Z.to_nat (GRID_SIZE - 1)) with 3%nat;
    cbn [negb andb orb nth arraySet fst snd fold_left seq
         filter app length repeat Nat.sub];
    repeat settle_test;
    (split; [cbn [sumZ fold_right]; lia|]);
    (split; [cbn [sumZ fold_right map]; lia|]);
    (split; [cbn [sumZ fold_right map]; lia|]);
    (split; [cbn [length]; lia|]);
    intros Hpos;
    repeat match goal with
           | H : forall t, _ \/ _ -> _ |- _ =>
               pose proof (H _ (or_introl eq_refl));
               specialize (fun t Ht => H t (or_intror Ht))
           end;
    (split; [lia|]);
    (split; intros Hx;
     [try reflexivity; try (exfalso; lia)
     |try discriminate; try lia; try (injection Hx; intros; lia)]).
Qed.

(** X14.  Laws of the row engine, for every row of integers with at most
    four non-zero entries (of any length, zeros anywhere) whose absolute
    values sum to at most 2^53 - 1, the range in which the arithmetic of
    the code is exact: [moveRowLeft] returns a row of four cells whose
    non-zero entries come first, with the same sum as the input and the
    same sum of absolute values, so that every entry of the result and the
    score increase stay in that range; the zeros of the input do not
    matter; the result has at most as many non-zero entries as the input
    and at least half as many; and when no entry is negative the score
    increase is not negative and is 0 exactly when nothing merged (the
    result is the input slid to the left). *)
Theorem moveRowLeft_laws r :
  (length (filter (fun val => negb (val =? 0)%Z) r) <= 4)%nat ->
  sumZ (map Z.abs r) <= MAX_SAFE_INTEGER ->
  let out := fst (moveRowLeft r) in
  let kept := filter (fun val => negb (val =? 0)) out in
  length out = 4%nat
  /\ out = kept ++ repeat 0 (4 - length kept)
  /\ sumZ out = sumZ r
  /\ sumZ (map Z.abs out) = sumZ (map Z.abs r)
  /\ (forall v, In v out -> Z.abs v <= MAX_SAFE_INTEGER)
  /\ Z.abs (snd (moveRowLeft r)) <= sumZ (map Z.abs r)
  /\ (length kept <= length (filter (fun val => negb (val =? 0)%Z) r)
      <= 2 * length kept)%nat
  /\ moveRowLeft (slideRowLeft r) = moveRowLeft r
  /\ ((forall v, In v r -> 0 <= v) ->
      0 <= snd (moveRowLeft r)
      /\ (snd (moveRowLeft r) = 0 <-> out = slideRowLeft r)).
Proof.
  intros Hlen Hb. set (vs := filter (fun val => negb (val =? 0)) r) in *.
  assert (Hnz : forall v, In v vs -> v <> 0).
  { intros v Hv. apply filter_In in Hv as [_ Hv].
    apply negb_true_iff, Z.eqb_neq in Hv. exact Hv. }
  destruct (merge_laws vs Hlen Hnz) as (Hsum & Habs & Hgain & Hcount & Hscore).
  assert (Hvs : sumZ (map Z.abs vs) = sumZ (map Z.abs r))
    by apply sumZ_abs_nonzero.
  assert (Hslide : slideRowLeft r = vs ++ repeat 0 (4 - length vs))
    by now apply slideRowLeft_closed.
  unfold moveRowLeft. rewrite (slideRowLeft_again r Hlen), Hslide.
  destruct (mergeRowLeft (vs ++ repeat 0 (4 - length vs))) as [m s] eqn:Em.
  cbn [fst snd] in *.
  set (ks := filter (fun val => negb (val =? 0)) m) in *.
  assert (Hk : (length ks <= 4)%nat) by lia.
  assert (Hknz : forall v, In v ks -> v <> 0).
  { intros v Hv. apply filter_In in Hv as [_ Hv].
    apply negb_true_iff, Z.eqb_neq in Hv. exact Hv. }
  assert (Hout : slideRowLeft m = ks ++ repeat 0 (4 - length ks))
    by now apply slideRowLeft_closed.
  rewrite Hout, (filter_padded ks _ Hknz).
  assert (Hoabs : sumZ (map Z.abs (ks ++ repeat 0 (4 - length ks)))
                  = sumZ (map Z.abs r))
    by (rewrite sumZ_abs_padded; lia).
  split; [rewrite length_app, repeat_length; lia|].
  split; [reflexivity|].
  split; [rewrite sumZ_padded, Hsum; apply sumZ_nonzero|].
  split; [exact Hoabs|].
  split; [intros v Hv; apply abs_le_sum in Hv; lia|].
  split; [lia|].
  split; [exact Hcount|]. split; [reflexivity|].
  intros Hpos.
  destruct Hscore as [H0 Hiff].
  { intros v Hv. apply filter_In in Hv as [Hv _]. now apply Hpos. }
  split; [exact H0|]. rewrite Hiff. split.
  - now intros ->.
  - intros E. apply (f_equal (filter (fun val => negb (val =? 0)))) in E.
    now rewrite !filter_padded in E.
Qed.

Lemma moveRowLeft_laws_witness :
  (length (filter (fun val => negb (val =? 0)%Z) sampleRow) <= 4)%nat
  /\ sumZ (map Z.abs sampleRow) <= MAX_SAFE_INTEGER
  /\ fst (moveRowLeft sampleRow) = [4; 4; 0; 0]
  /\ sumZ (fst (moveRowLeft sampleRow)) = sumZ sampleRow.
Proof.
  assert (H : (length (filter (fun val => negb (val =? 0)%Z) sampleRow)
               <= 4)%nat) by (cbn; lia).
  assert (Hb : sumZ (map Z.abs sampleRow) <= MAX_SAFE_INTEGER)
    by (vm_compute; discriminate).
  split; [exact H|]. split; [exact Hb|]. split; [reflexivity|].
  apply (moveRowLeft_laws sampleRow H Hb).
Defined.

(** ** The four moves are one move up to the symmetries of the board *)

Section Symmetry.

Variables ax1 ax2 : Axis.
Variable phi : TileData -> TileData.

Hypothesis phi_id : forall t, id (phi t) = id t.
Hypothesis phi_value : forall t, value (phi t) = value t.
Hypothesis phi_line : forall t, lineOf ax2 (phi t) = lineOf ax1 t.
Hypothesis phi_cmp : forall a b,
  comparator ax2 (phi a) (phi b) = comparator ax1 a b.
Hypothesis phi_place : forall t i,
  withPos ax2 (phi t) (targetOf ax2 i) = phi (withPos ax1 t (targetOf ax1 i)).
Hypothesis phi_placed : forall t i,
  (posOf ax2 (phi t) =? targetOf ax2 i) = (posOf ax1 t =? targetOf ax1 i).
Hypothesis phi_merge : forall v t, phi (mergeInto v t) = mergeInto v (phi t).

Lemma insertBy_phi x l :
  insertBy (comparator ax2) (phi x) (map phi l)
  = map phi (insertBy (comparator ax1) x l).
Proof.
  induction l as [|y l IH]; [reflexivity|]. cbn [map insertBy].
  rewrite phi_cmp. destruct (comparator ax1 x y <=? 0); [reflexivity|].
  cbn [map]. now rewrite IH.
Qed.

Lemma sortBy_phi l :
  sortBy (comparator ax2) (map phi l) = map phi (sortBy (comparator ax1) l).
Proof.
  induction l as [|x l IH]; [reflexivity|]. cbn [map sortBy].
  now rewrite IH, insertBy_phi.
Qed.

Lemma lineTiles_phi tiles k :
  lineTiles ax2 (map phi tiles) k = map phi (lineTiles ax1 tiles k).
Proof.
  unfold lineTiles. rewrite <- sortBy_phi. f_equal.
  induction tiles as [|t tiles IH]; [reflexivity|]. cbn [map filter].
  rewrite phi_line. destruct (lineOf ax1 t =? k); cbn [map]; now rewrite IH.
Qed.

Lemma mergeWalk_phi cur : forall stack lm,
  mergeWalk (map phi cur) (map phi stack) lm
  = (map phi (fst (fst (mergeWalk cur stack lm))),
     snd (fst (mergeWalk cur stack lm)),
     snd (mergeWalk cur stack lm)).
Proof.
  induction cur as [|t rest IH]; intros stack lm; [reflexivity|].
  cbn [map mergeWalk]. destruct stack as [|l below]; cbn [map].
  - apply (IH [t]).
  - rewrite !phi_value, phi_id.
    destruct ((value l =? value t) && negb (sameId (id l) lm)).
    + rewrite <- phi_merge.
      change (phi (mergeInto (value t * 2) l) :: map phi below)
        with (map phi (mergeInto (value t * 2) l :: below)).
      rewrite (IH (mergeInto (value t * 2) l :: below) (Some (id l))).
      destruct (mergeWalk rest (mergeInto (value t * 2) l :: below)
                  (Some (id l))) as [[out gone] gained].
      cbn [fst snd]. now rewrite phi_id.
    + apply (IH (t :: l :: below)).
Qed.

Lemma placeAll_phi line : forall i,
  placeAll ax2 (map phi line) i = map phi (placeAll ax1 line i).
Proof.
  induction line as [|t line IH]; intros i; [reflexivity|].
  cbn [map placeAll]. now rewrite phi_place, IH.
Qed.

Lemma misplaced_phi line : forall i,
  misplaced ax2 (map phi line) i = misplaced ax1 line i.
Proof.
  induction line as [|t line IH]; intros i; [reflexivity|].
  cbn [map misplaced]. now rewrite phi_placed, IH.
Qed.

Lemma lineWalk_phi tiles k :
  lineWalk ax2 (map phi tiles) k
  = (map phi (fst (fst (lineWalk ax1 tiles k))),
     snd (fst (lineWalk ax1 tiles k)),
     snd (lineWalk ax1 tiles k)).
Proof.
  unfold lineWalk. rewrite lineTiles_phi. apply (mergeWalk_phi _ [] None).
Qed.

Lemma lineKept_phi tiles k :
  lineKept ax2 (map phi tiles) k = map phi (lineKept ax1 tiles k).
Proof.
  unfold lineKept. rewrite lineWalk_phi. cbn [fst]. symmetry. apply map_rev.
Qed.

Lemma lineOut_phi tiles k :
  lineOut ax2 (map phi tiles) k = map phi (lineOut ax1 tiles k).
Proof. unfold lineOut. rewrite lineKept_phi. apply placeAll_phi. Qed.

Lemma lineMoved_phi tiles k :
  lineMoved ax2 (map phi tiles) k = lineMoved ax1 tiles k.
Proof.
  unfold lineMoved, lineGone. rewrite lineKept_phi, misplaced_phi.
  now rewrite lineWalk_phi.
Qed.

Lemma fate_phi tiles t :
  fate ax2 (map phi tiles) (phi t) = map phi (fate ax1 tiles t).
Proof.
  unfold fate. rewrite phi_line, lineOut_phi, phi_id.
  induction (lineOut ax1 tiles (lineOf ax1 t)) as [|a l IH]; [reflexivity|].
  cbn [map find]. rewrite phi_id. destruct (id a =? id t); [reflexivity|].
  exact IH.
Qed.

Lemma movedTiles_phi tiles :
  movedTiles ax2 (map phi tiles) = map phi (movedTiles ax1 tiles).
Proof.
  unfold movedTiles.
  generalize (fate_phi tiles). generalize (fate ax2 (map phi tiles)).
  generalize (fate ax1 tiles). intros f g H.
  induction tiles as [|t tiles IH]; [reflexivity|].
  cbn [map flat_map]. now rewrite map_app, H, IH.
Qed.

Lemma movedScore_phi tiles :
  movedScore ax2 (map phi tiles) = movedScore ax1 tiles.
Proof.
  unfold movedScore. f_equal. apply map_ext. intros k.
  unfold lineScore. now rewrite lineWalk_phi.
Qed.

Lemma movedFlag_phi tiles :
  movedFlag ax2 (map phi tiles) = movedFlag ax1 tiles.
Proof.
  unfold movedFlag.
  induction (range 0 GRID_SIZE) as [|k ks IH]; [reflexivity|].
  cbn [existsb]. now rewrite lineMoved_phi, IH.
Qed.

End Symmetry.

Lemma symmetric_wellFormed (phi : TileData -> TileData) tiles :
  (forall t, id (phi t) = id t) ->
  (forall t, value (phi t) = value t) ->
  (forall t, inGrid GRID_SIZE (phi t) = inGrid GRID_SIZE t) ->
  (forall a b, positionOf (phi a) = positionOf (phi b) ->
               positionOf a = positionOf b) ->
  wellFormed tiles = true -> wellFormed (map phi tiles) = true.
Proof.
  intros Hid Hv Hg Hp Hwf.
  destruct (wellFormed_spec _ Hwf) as (G1 & G2 & G3 & G4).
  apply wellFormed_intro.
  - intros t Ht. apply in_map_iff in Ht as (u & <- & Hu). rewrite Hg. auto.
  - intros t Ht. apply in_map_iff in Ht as (u & <- & Hu). rewrite Hv. auto.
  - rewrite map_map. apply NoDup_map_intro; [now apply NoDup_of_map in G4|].
    intros x y Hx Hy E. apply (NoDup_map_inj positionOf tiles); auto.
  - rewrite map_map. rewrite (map_ext _ id Hid). exact G4.
Qed.

Lemma mirror_mirror tiles : map mirror (map mirror tiles) = tiles.
Proof.
  rewrite map_map. rewrite <- (map_id tiles) at 2. apply map_ext.
  intros [i v r c m]. unfold mirror, setCol. cbn [id value row col merged].
  f_equal. lia.
Qed.

Lemma flip_flip tiles : map flip (map flip tiles) = tiles.
Proof.
  rewrite map_map. rewrite <- (map_id tiles) at 2. apply map_ext.
  intros [i v r c m]. unfold flip, setRow. cbn [id value row col merged].
  f_equal. lia.
Qed.

Lemma transpose_transpose tiles : map transpose (map transpose tiles) = tiles.
Proof.
  rewrite map_map. rewrite <- (map_id tiles) at 2. apply map_ext.
  now intros [i v r c m].
Qed.

Lemma mirror_wellFormed tiles :
  wellFormed tiles = true -> wellFormed (map mirror tiles) = true.
Proof.
  apply symmetric_wellFormed; try reflexivity.
  - intros t. unfold inGrid, mirror, GRID_SIZE. cbn [setCol row col].
    destruct (0 <=? row t), (row t <? 4); cbn [andb]; try reflexivity.
    destruct (Z.leb_spec 0 (col t)), (Z.ltb_spec (col t) 4),
      (Z.leb_spec 0 (4 - 1 - col t)), (Z.ltb_spec (4 - 1 - col t) 4);
      cbn [andb]; try reflexivity; lia.
  - intros a b. unfold positionOf, mirror. cbn [setCol row col]. intros E.
    assert (E1 := f_equal fst E). assert (E2 := f_equal snd E).
    cbn [fst snd] in E1, E2. f_equal; [exact E1|lia].
Qed.

Lemma flip_wellFormed tiles :
  wellFormed tiles = true -> wellFormed (map flip tiles) = true.
Proof.
  apply symmetric_wellFormed; try reflexivity.
  - intros t. unfold inGrid, flip, GRID_SIZE. cbn [setRow row col].
    destruct (Z.leb_spec 0 (row t)), (Z.ltb_spec (row t) 4),
      (Z.leb_spec 0 (4 - 1 - row t)), (Z.ltb_spec (4 - 1 - row t) 4);
      cbn [andb]; try reflexivity; lia.
  - intros a b. unfold positionOf, flip. cbn [setRow row col]. intros E.
    assert (E1 := f_equal fst E). assert (E2 := f_equal snd E).
    cbn [fst snd] in E1, E2. f_equal; [lia|exact E2].
Qed.

Lemma transpose_wellFormed tiles :
  wellFormed tiles = true -> wellFormed (map transpose tiles) = true.
Proof.
  apply symmetric_wellFormed; try reflexivity.
  - intros t. unfold inGrid, transpose. cbn [row col].
    destruct (0 <=? row t), (row t <? GRID_SIZE), (0 <=? col t),
      (col t <? GRID_SIZE); reflexivity.
  - intros a b. unfold positionOf, transpose. cbn [row col].
    intros [= E1 E2]. now f_equal.
Qed.

Lemma eqb_reflected a b n : (n - a =? n - b) = (a =? b).
Proof. destruct (Z.eqb_spec (n - a) (n - b)), (Z.eqb_spec a b); auto; lia. Qed.

Lemma mirror_account tiles :
  movedTiles rightAxis (map mirror tiles)
  = map mirror (movedTiles leftAxis tiles)
  /\ movedScore rightAxis (map mirror tiles) = movedScore leftAxis tiles
  /\ movedFlag rightAxis (map mirror tiles) = movedFlag leftAxis tiles.
Proof.
  split; [|split];
    [apply movedTiles_phi|apply movedScore_phi|apply movedFlag_phi];
    try reflexivity; intros;
    cbn [comparator posOf targetOf rightAxis leftAxis mirror setCol col];
    try lia; apply eqb_reflected.
Qed.

Lemma flip_account tiles :
  movedTiles downAxis (map flip tiles) = map flip (movedTiles upAxis tiles)
  /\ movedScore downAxis (map flip tiles) = movedScore upAxis tiles
  /\ movedFlag downAxis (map flip tiles) = movedFlag upAxis tiles.
Proof.
  split; [|split];
    [apply movedTiles_phi|apply movedScore_phi|apply movedFlag_phi];
    try reflexivity; intros;
    cbn [comparator posOf targetOf downAxis upAxis flip setRow row];
    try lia; apply eqb_reflected.
Qed.

Lemma transpose_account tiles :
  movedTiles upAxis (map transpose tiles)
  = map transpose (movedTiles leftAxis tiles)
  /\ movedScore upAxis (map transpose tiles) = movedScore leftAxis tiles
  /\ movedFlag upAxis (map transpose tiles) = movedFlag leftAxis tiles.
Proof.
  split; [|split];
    [apply movedTiles_phi|apply movedScore_phi|apply movedFlag_phi];
    reflexivity.
Qed.

Lemma symmetric_move (phi : TileData -> TileData) d1 d2 tiles :
  map phi (map phi tiles) = tiles ->
  wellFormed tiles = true -> wellFormed (map phi tiles) = true ->
  (forall ts,
     movedTiles (axisOf d2) (map phi ts) = map phi (movedTiles (axisOf d1) ts)
     /\ movedScore (axisOf d2) (map phi ts) = movedScore (axisOf d1) ts
     /\ movedFlag (axisOf d2) (map phi ts) = movedFlag (axisOf d1) ts) ->
  exists res,
    applyMove d1 (map phi tiles) = Ok res
    /\ applyMove d2 tiles = Ok (mapResult phi res).
Proof.
  intros Hinv Hwf Hwf' Hacc. eexists.
  split; [apply (applyMove_spec d1 _ Hwf')|].
  rewrite (applyMove_spec d2 _ Hwf). unfold mapResult.
  cbn [updatedTiles scoreIncrease moved].
  destruct (Hacc (map phi tiles)) as (E1 & E2 & E3).
  rewrite Hinv in E1, E2, E3. now rewrite E1, E2, E3.
Qed.

(** X15.  The four moves are one move up to the symmetries of the board.
    On every well-formed tile list, [moveRight] is [moveLeft] on the board
    reflected left to right, [moveUp] is [moveLeft] on the board reflected in
    the diagonal, and [moveDown] is [moveUp] on the board reflected top to
    bottom: the returned tiles are those of the other move reflected back
    (same ids, values and order), with the same [scoreIncrease] and the same
    [moved] flag. *)
Theorem moves_are_symmetric tiles :
  wellFormed tiles = true ->
  (exists res,
     moveLeft (map mirror tiles) = Ok res
     /\ moveRight tiles = Ok (mapResult mirror res))
  /\ (exists res,
        moveLeft (map transpose tiles) = Ok res
        /\ moveUp tiles = Ok (mapResult transpose res))
  /\ (exists res,
        moveUp (map flip tiles) = Ok res
        /\ moveDown tiles = Ok (mapResult flip res)).
Proof.
  intros Hwf. split; [|split].
  - apply (symmetric_move mirror Left Right tiles);
      [apply mirror_mirror|exact Hwf|now apply mirror_wellFormed|].
    apply mirror_account.
  - apply (symmetric_move transpose Left Up tiles);
      [apply transpose_transpose|exact Hwf|now apply transpose_wellFormed|].
    apply transpose_account.
  - apply (symmetric_move flip Up Down tiles);
      [apply flip_flip|exact Hwf|now apply flip_wellFormed|].
    apply flip_account.
Qed.

Lemma moves_are_symmetric_witness :
  wellFormed sampleBoard = true
  /\ (exists res,
        moveLeft (map mirror sampleBoard) = Ok res
        /\ moveRight sampleBoard = Ok (mapResult mirror res))
  /\ (exists res,
        moveLeft (map transpose sampleBoard) = Ok res
        /\ moveUp sampleBoard = Ok (mapResult transpose res))
  /\ (exists res,
        moveUp (map flip sampleBoard) = Ok res
        /\ moveDown sampleBoard = Ok (mapResult flip res)).
Proof.
  split; [reflexivity|]. apply (moves_are_symmetric sampleBoard). reflexivity.
Defined.

(** ** A board with a free cell can be moved *)

Lemma line_in_place dir tiles k :
  lineMoved (axisOf dir) tiles k = false ->
  forall n x,
    nth_error (lineTiles (axisOf dir) tiles k) n = Some x ->
    posOf (axisOf dir) x = targetOf (axisOf dir) (Z.of_nat n).
Proof.
  intros H n x Hn. assert (L := axisOf_laws_sign dir).
  destruct (lineMoved_false _ _ L tiles k H) as [Hw Hout].
  unfold lineOut, lineKept in Hout. rewrite Hw in Hout. cbn [fst] in Hout.
  rewrite rev_involutive in Hout.
  assert (E := placeAll_nth (axisOf dir) (lineTiles (axisOf dir) tiles k) 0 n).
  rewrite Hout, Hn in E. cbn [option_map] in E. injection E as E.
  rewrite ?Z.add_0_l in E.
  assert (P := law_pos_with _ _ L x (targetOf (axisOf dir) (Z.of_nat n))).
  now rewrite <- E in P.
Qed.

Lemma opposite_lines d1 d2 tiles k :
  (forall t, lineOf (axisOf d2) t = lineOf (axisOf d1) t) ->
  (forall t, posOf (axisOf d2) t = posOf (axisOf d1) t) ->
  (forall i, targetOf (axisOf d1) i = i) ->
  (forall i, targetOf (axisOf d2) i = GRID_SIZE - 1 - i) ->
  (1 <= length (lineTiles (axisOf d1) tiles k) <= 3)%nat ->
  lineMoved (axisOf d1) tiles k = true \/ lineMoved (axisOf d2) tiles k = true.
Proof.
  intros Hline Hpos Ht1 Ht2 Hlen.
  destruct (lineMoved (axisOf d1) tiles k) eqn:M1; [now left|].
  destruct (lineMoved (axisOf d2) tiles k) eqn:M2; [now right|]. exfalso.
  assert (Hsame : forall t, In t (lineTiles (axisOf d2) tiles k)
                            <-> In t (lineTiles (axisOf d1) tiles k)).
  { intros t. rewrite !lineTiles_In, Hline. tauto. }
  destruct (lineTiles (axisOf d1) tiles k) as [|x l] eqn:E1;
    [cbn [length] in Hlen; lia|].
  assert (Hx : In x (lineTiles (axisOf d2) tiles k))
    by (apply Hsame; now left).
  destruct (lineTiles (axisOf d2) tiles k) as [|y l2] eqn:E2; [destruct Hx|].
  assert (Py := line_in_place d2 tiles k M2 0 y).
  rewrite E2 in Py. specialize (Py eq_refl). rewrite Ht2, Hpos in Py.
  assert (Hy : In y (x :: l)) by (apply Hsame; now left).
  apply In_nth_error in Hy as (m & Hm).
  assert (Hlt : (m < length (x :: l))%nat) by (apply nth_error_Some; congruence).
  assert (Pm := line_in_place d1 tiles k M1 m y).
  rewrite E1 in Pm. specialize (Pm Hm). rewrite Ht1 in Pm.
  unfold GRID_SIZE in Py. cbn [Z.of_nat] in Py. lia.
Qed.

Lemma line_count dir tiles k :
  length (filter (fun tile => lineOf (axisOf dir) tile =? k) tiles)
  = length (lineTiles (axisOf dir) tiles k).
Proof. symmetry. apply Permutation_length, lineTiles_perm. Qed.

Lemma full_row_fills_columns tiles r :
  wellFormed tiles = true ->
  length (lineTiles leftAxis tiles r) = 4%nat ->
  forall c, In c (range 0 GRID_SIZE) ->
    (1 <= length (lineTiles upAxis tiles c))%nat.
Proof.
  intros Hwf Hlen c Hc.
  destruct (wellFormed_spec _ Hwf) as (G1 & G2 & G3 & G4).
  assert (L := axisOf_laws_sign Left). cbn [axisOf signOf] in L.
  assert (Hnd := lineTiles_positions _ _ L tiles G4 G3 r).
  assert (Hincl : incl (range 0 GRID_SIZE)
                    (map (posOf leftAxis) (lineTiles leftAxis tiles r))).
  { apply NoDup_length_incl; [exact Hnd|now rewrite length_map, Hlen|].
    intros p Hp. apply in_map_iff in Hp as (t & <- & Ht). apply range_In.
    apply (lineTiles_inside Left tiles Hwf r t Ht). }
  apply Hincl in Hc. apply in_map_iff in Hc as (t & Et & Ht).
  apply lineTiles_In in Ht as [Ht _]. cbn [posOf leftAxis] in Et.
  assert (Hin : In t (lineTiles upAxis tiles c))
    by (apply lineTiles_In; split; assumption).
  destruct (lineTiles upAxis tiles c); [destruct Hin|cbn [length]; lia].
Qed.

Lemma some_line_has_room tiles :
  wellFormed tiles = true -> tiles <> [] -> (length tiles < 16)%nat ->
  exists d k,
    (d = Left \/ d = Up)
    /\ (1 <= length (lineTiles (axisOf d) tiles k) <= 3)%nat.
Proof.
  intros Hwf Hne Hlt.
  destruct (wellFormed_spec _ Hwf) as (G1 & G2 & G3 & G4).
  assert (Hle : forall d k, (length (lineTiles (axisOf d) tiles k) <= 4)%nat).
  { intros d k. apply (lineTiles_length _ _ (axisOf_laws_sign d) tiles G4 G3 G1). }
  assert (Hdec : forall d k,
            {(1 <= length (lineTiles (axisOf d) tiles k) <= 3)%nat}
            + {~ (1 <= length (lineTiles (axisOf d) tiles k) <= 3)%nat}).
  { intros d k.
    destruct (le_dec 1 (length (lineTiles (axisOf d) tiles k)));
      destruct (le_dec (length (lineTiles (axisOf d) tiles k)) 3);
      [left|right|right|right]; lia. }
  destruct (Exists_dec _ (range 0 GRID_SIZE) (Hdec Left)) as [Hex|Hrows].
  { apply Exists_exists in Hex as (k & _ & Hk). exists Left, k. auto. }
  destruct (Exists_dec _ (range 0 GRID_SIZE) (Hdec Up)) as [Hex|Hcols].
  { apply Exists_exists in Hex as (k & _ & Hk). exists Up, k. auto. }
  exfalso. rewrite Exists_exists in Hrows, Hcols.
  destruct tiles as [|t tiles]; [now apply Hne|].
  set (ts := t :: tiles) in *.
  assert (Ht : In t ts) by now left.
  destruct (proj1 (inGrid_onBoard t) (G1 t Ht)) as [Hr Hc].
  assert (Hrow : length (lineTiles leftAxis ts (row t)) = 4%nat).
  { assert (Hin : In t (lineTiles leftAxis ts (row t)))
      by (apply lineTiles_In; split; [exact Ht|reflexivity]).
    assert (H4 := Hle Left (row t)). cbn [axisOf] in H4.
    assert (Hn : ~ (1 <= length (lineTiles leftAxis ts (row t)) <= 3)%nat).
    { intros H. apply Hrows. exists (row t). split; [now apply range_In|exact H]. }
    destruct (lineTiles leftAxis ts (row t)); [destruct Hin|].
    cbn [length] in *. lia. }
  assert (Hcol : forall c, In c (range 0 GRID_SIZE) ->
                           length (lineTiles upAxis ts c) = 4%nat).
  { intros c Hc'.
    assert (H1 := full_row_fills_columns ts (row t) Hwf Hrow c Hc').
    assert (H4 := Hle Up c). cbn [axisOf] in H4.
    assert (Hn : ~ (1 <= length (lineTiles upAxis ts c) <= 3)%nat).
    { intros H. apply Hcols. exists c. split; [exact Hc'|exact H]. }
    lia. }
  assert (Hsum := count_by_lines upAxis (range 0 GRID_SIZE) ts
                    (range_NoDup 0 GRID_SIZE)).
  apply Nat2Z.inj_lt in Hlt. rewrite Hsum in Hlt.
  - rewrite (map_ext_in _ (fun _ => 4)) in Hlt.
    + change (range 0 GRID_SIZE) with [0; 1; 2; 3] in Hlt.
      cbn [map sumZ fold_right] in Hlt. lia.
    + intros c Hc'. assert (E := line_count Up ts c). cbn [axisOf] in E.
      now rewrite E, (Hcol c Hc').
  - intros u Hu. apply range_In. cbn [lineOf upAxis].
    apply (proj1 (inGrid_onBoard u) (G1 u Hu)).
Qed.

Lemma some_move_is_effective tiles :
  wellFormed tiles = true -> tiles <> [] -> (length tiles < 16)%nat ->
  exists dir, movedFlag (axisOf dir) tiles = true.
Proof.
  intros Hwf Hne Hlt.
  destruct (some_line_has_room tiles Hwf Hne Hlt) as (d & k & Hd & Hlen).
  assert (Hk : In k (range 0 GRID_SIZE)).
  { destruct (lineTiles (axisOf d) tiles k) as [|x l] eqn:E;
      [cbn [length] in Hlen; lia|].
    assert (Hx : In x (lineTiles (axisOf d) tiles k)) by (rewrite E; now left).
    apply lineTiles_In in Hx as [Hx <-]. apply range_In.
    destruct (axisOf_laws d) as [sign L].
    apply (wellFormed_regular _ _ _ L Hwf). exact Hx. }
  assert (Hflag : forall dir, lineMoved (axisOf dir) tiles k = true ->
                              movedFlag (axisOf dir) tiles = true).
  { intros dir H. apply existsb_exists. now exists k. }
  destruct Hd as [-> | ->].
  - destruct (opposite_lines Left Right tiles k) as [H|H]; auto;
      [exists Left|exists Right]; auto.
  - destruct (opposite_lines Up Down tiles k) as [H|H]; auto;
      [exists Up|exists Down]; auto.
Qed.

(** X16.  The detector is sound.  On a well-formed tile list that is not
    empty, [checkAvailableMoves] returns true exactly when one of the four
    moves reports [moved = true]: the shortcut "fewer than sixteen tiles"
    never claims a move that does not exist, because a board with a tile
    and a free cell has a row or a column holding one to three tiles, and
    such a line changes under one of the two moves along it. *)
Theorem checkAvailableMoves_effective tiles :
  wellFormed tiles = true -> tiles <> [] ->
  checkAvailableMoves tiles = Ok true <->
  exists dir res, applyMove dir tiles = Ok res /\ moved res = true.
Proof.
  intros Hwf Hne. rewrite (checkAvailableMoves_flags tiles Hwf). split.
  - intros [= H].
    assert (Hdir : exists dir, movedFlag (axisOf dir) tiles = true).
    { rewrite !orb_true_iff in H. destruct H as [[[[H|H]|H]|H]|H];
        [|exists Left|exists Right|exists Up|exists Down]; try exact H.
      apply Z.ltb_lt in H. apply some_move_is_effective; auto.
      unfold GRID_SIZE in H. lia. }
    destruct Hdir as (dir & Hdir). exists dir. eexists.
    split; [apply (applyMove_spec dir tiles Hwf)|exact Hdir].
  - intros (dir & res & E & M).
    rewrite (applyMove_spec dir tiles Hwf) in E. injection E as <-.
    cbn [moved] in M. f_equal.
    destruct dir; cbn [axisOf] in M; rewrite M; cbn [orb];
      rewrite ?orb_true_r; reflexivity.
Qed.

Lemma checkAvailableMoves_effective_witness :
  wellFormed sampleBoard = true /\ sampleBoard <> []
  /\ (checkAvailableMoves sampleBoard = Ok true <->
      exists dir res, applyMove dir sampleBoard = Ok res /\ moved res = true).
Proof.
  split; [reflexivity|]. split; [discriminate|].
  apply (checkAvailableMoves_effective sampleBoard);
    [reflexivity|discriminate].
Defined.

(** ** Moves on lists that are no boards *)

(** X17.  A move needs less than a board.  On every tile list with pairwise
    distinct ids, positive values that sum to at most 2^53 - 1 (the range
    in which the arithmetic of the code is exact) and every tile's line
    coordinate (the row for a horizontal move, the column for a vertical
    one) on the board, whatever the other coordinates (tiles may share a
    cell or lie off the board along the line), the move returns without
    raising; the returned ids are pairwise distinct ids of the input in
    input order, the total value is unchanged, every returned value is
    positive and at most 2^53 - 1, the score increase lies between 0 and
    the total value, no more tiles are returned than given, and when
    [moved] is false the returned list is the input list and the score
    increase is 0. *)
Theorem move_on_loose_lists dir tiles :
  NoDup (map id tiles) ->
  (forall t, In t tiles -> 0 < value t) ->
  totalValue tiles <= MAX_SAFE_INTEGER ->
  (forall t, In t tiles -> 0 <= lineOf (axisOf dir) t < GRID_SIZE) ->
  exists res,
    applyMove dir tiles = Ok res
    /\ NoDup (map id (updatedTiles res))
    /\ map id (updatedTiles res)
       = map id (filter (survives (updatedTiles res)) tiles)
    /\ (length (updatedTiles res) <= length tiles)%nat
    /\ totalValue (updatedTiles res) = totalValue tiles
    /\ (forall a, In a (updatedTiles res) ->
          0 < value a <= MAX_SAFE_INTEGER)
    /\ 0 <= scoreIncrease res <= totalValue tiles
    /\ (moved res = false ->
        updatedTiles res = tiles /\ scoreIncrease res = 0).
Proof.
  intros Hid Hpos Hb Hin. assert (L := axisOf_laws_sign dir).
  assert (Hnz : forall t, In t tiles -> value t <> 0).
  { intros t Ht. specialize (Hpos t Ht). lia. }
  assert (E := movedTiles_total _ _ L tiles Hid Hin).
  assert (Hpos' := movedTiles_positive _ _ L tiles Hid Hpos).
  eexists. split.
  { rewrite applyMove_axis. apply (moveAlong_spec _ _ L tiles Hid Hnz Hin). }
  cbn [updatedTiles scoreIncrease moved].
  split; [now apply movedTiles_ids|].
  split; [now apply movedTiles_order|].
  split; [assert (Hc := movedTiles_count (axisOf dir) tiles Hid); lia|].
  split; [exact E|].
  split.
  { intros a Ha. split; [now apply Hpos'|].
    assert (B := value_le_total _ a Hpos' Ha). lia. }
  split.
  { split; [now apply movedScore_nonnegative|now apply movedScore_bound]. }
  apply (idle_move _ _ L tiles Hid Hin).
Qed.

Lemma move_on_loose_lists_witness :
  NoDup (map id looseRow)
  /\ (forall t, In t looseRow -> 0 < value t)
  /\ totalValue looseRow <= MAX_SAFE_INTEGER
  /\ (forall t, In t looseRow -> 0 <= lineOf (axisOf Left) t < GRID_SIZE)
  /\ exists res,
       applyMove Left looseRow = Ok res
       /\ NoDup (map id (updatedTiles res))
       /\ map id (updatedTiles res)
          = map id (filter (survives (updatedTiles res)) looseRow)
       /\ (length (updatedTiles res) <= length looseRow)%nat
       /\ totalValue (updatedTiles res) = totalValue looseRow
       /\ (forall a, In a (updatedTiles res) ->
             0 < value a <= MAX_SAFE_INTEGER)
       /\ 0 <= scoreIncrease res <= totalValue looseRow
       /\ (moved res = false ->
           updatedTiles res = looseRow /\ scoreIncrease res = 0).
Proof.
  assert (H1 : NoDup (map id looseRow)).
  { cbn. repeat constructor; cbn; intuition lia. }
  assert (H2 : forall t, In t looseRow -> 0 < value t).
  { intros t Ht. cbn in Ht. repeat (destruct Ht as [<-|Ht]; [cbn; lia|]).
    destruct Ht. }
  assert (Hb : totalValue looseRow <= MAX_SAFE_INTEGER)
    by (vm_compute; discriminate).
  assert (H3 : forall t, In t looseRow ->
                         0 <= lineOf (axisOf Left) t < GRID_SIZE).
  { intros t Ht. cbn in Ht.
    repeat (destruct Ht as [<-|Ht]; [cbn; unfold GRID_SIZE; lia|]).
    destruct Ht. }
  split; [exact H1|]. split; [exact H2|]. split; [exact Hb|].
  split; [exact H3|].
  apply (move_on_loose_lists Left looseRow H1 H2 Hb H3).
Defined.

(** ** The cells of the dense projection *)

Lemma cell_last tiles size r c :
  0 <= r < size -> 0 <= c < size ->
  cell (tilesToGrid tiles size) r c
  = match find (fun t => (row t =? r) && (col t =? c)) (rev tiles) with
    | Some t => value t
    | None => 0
    end.
Proof.
  intros Hr Hc. induction tiles as [|u tiles IH] using rev_ind.
  - apply cell_createEmptyGrid.
  - rewrite tilesToGrid_snoc, rev_app_distr. cbn [rev app find].
    rewrite cell_writeTile by (try apply tilesToGrid_shaped; lia).
    destruct ((row u =? r) && (col u =? c)) eqn:E.
    + assert (Hg : inGrid size u = true).
      { apply andb_true_iff in E as [E1 E2].
        apply Z.eqb_eq in E1, E2. unfold inGrid.
        rewrite !andb_true_iff, !Z.leb_le, !Z.ltb_lt. lia. }
      rewrite Hg. cbn [andb]. now rewrite E.
    + rewrite <- andb_assoc, E, andb_false_r. exact IH.
Qed.

(** X18.  Every cell of the dense projection, for every tile list and
    size: the cell at an in-range position holds the value of the last tile
    of the list that sits on it, and 0 when no tile does (a later tile
    overwrites an earlier one on the same cell); and appending a tile
    leaves every cell other than its own unchanged. *)
Theorem tilesToGrid_cells tiles size r c :
  0 <= r < size -> 0 <= c < size ->
  cell (tilesToGrid tiles size) r c
  = match find (fun t => (row t =? r) && (col t =? c)) (rev tiles) with
    | Some t => value t
    | None => 0
    end
  /\ (forall u, ~ (row u = r /\ col u = c) ->
       cell (tilesToGrid (tiles ++ [u]) size) r c
       = cell (tilesToGrid tiles size) r c).
Proof.
  intros Hr Hc. split; [now apply cell_last|].
  intros u Hu. rewrite !cell_last by assumption.
  rewrite rev_app_distr. cbn [rev app find].
  destruct ((row u =? r) && (col u =? c)) eqn:E; [|reflexivity].
  exfalso. apply Hu. apply andb_true_iff in E as [E1 E2].
  now apply Z.eqb_eq in E1, E2.
Qed.

Lemma tilesToGrid_cells_witness :
  0 <= 0 < GRID_SIZE /\ 0 <= 0 < GRID_SIZE
  /\ cell (tilesToGrid looseRow GRID_SIZE) 0 0
     = match find (fun t => (row t =? 0) && (col t =? 0)) (rev looseRow) with
       | Some t => value t
       | None => 0
       end
  /\ (forall u, ~ (row u = 0 /\ col u = 0) ->
       cell (tilesToGrid (looseRow ++ [u]) GRID_SIZE) 0 0
       = cell (tilesToGrid looseRow GRID_SIZE) 0 0).
Proof.
  assert (H : 0 <= 0 < GRID_SIZE) by (unfold GRID_SIZE; lia).
  split; [exact H|]. split; [exact H|].
  apply (tilesToGrid_cells looseRow GRID_SIZE 0 0 H H).
Defined.

(** ** The [merged] flag *)

Lemma movedTiles_merged ax sign (L : AxisLaws ax sign) tiles a :
  NoDup (map id tiles) ->
  In a (movedTiles ax tiles) ->
  exists s,
    In s tiles /\ id s = id a
    /\ ((value a = value s /\ merged a = merged s)
        \/ (value a = 2 * value s /\ merged a = Some true)).
Proof.
  intros Hid Ha. apply (movedTiles_In _ _ L tiles Hid) in Ha.
  destruct (lineOut_at _ _ L tiles _ a Ha) as (n & x & Hn & Ea & _).
  apply nth_error_In in Hn.
  assert (Ei : id a = id x) by (rewrite Ea; apply (law_id_with _ _ L)).
  assert (Ev : value a = value x) by (rewrite Ea; apply (law_value_with _ _ L)).
  assert (Em : merged a = merged x)
    by (rewrite Ea; apply (law_merged_with _ _ L)).
  destruct (lineKept_origin ax tiles _ x Hn)
    as [H|(s & t & Hs & Ht & Ex & Es & _)].
  - apply lineTiles_In in H as [H _]. exists x. auto.
  - apply lineTiles_In in Hs as [Hs _]. exists s.
    rewrite Ex in Ei, Ev, Em. cbn [mergeInto id value merged] in Ei, Ev, Em.
    split; [exact Hs|]. split; [now symmetry|]. right. split; [lia|exact Em].
Qed.

(** X19.  The [merged] flag across a move.  For every well-formed tile list
    and direction, every returned tile carries the id of an input tile and
    either has that tile's value and that tile's [merged] flag, or has twice
    that tile's value and [merged = true].  So the move sets the flag on
    exactly the tiles that absorbed another one and never clears a flag: a
    tile that came in with [merged = true] goes out with [merged = true]. *)
Theorem move_merged_flag dir tiles :
  wellFormed tiles = true ->
  exists res,
    applyMove dir tiles = Ok res
    /\ (forall a, In a (updatedTiles res) ->
          exists s,
            In s tiles /\ id s = id a
            /\ ((value a = value s /\ merged a = merged s)
                \/ (value a = 2 * value s /\ merged a = Some true)))
    /\ (forall a s, In a (updatedTiles res) -> In s tiles -> id s = id a ->
          merged s = Some true -> merged a = Some true).
Proof.
  intros Hwf. eexists. split; [apply (applyMove_spec dir tiles Hwf)|].
  cbn [updatedTiles]. assert (L := axisOf_laws_sign dir).
  destruct (wellFormed_spec _ Hwf) as (_ & _ & _ & Hid). split.
  - intros a Ha. now apply (movedTiles_merged _ _ L tiles a Hid).
  - intros a s Ha Hs Ei Hm.
    destruct (movedTiles_merged _ _ L tiles a Hid Ha)
      as (s' & Hs' & Ei' & [[_ E]|[_ E]]); [|exact E].
    assert (s' = s); [|subst; congruence].
    apply (NoDup_map_inj id tiles); auto. congruence.
Qed.

Lemma move_merged_flag_witness :
  wellFormed row224 = true
  /\ exists res,
       applyMove Left row224 = Ok res
       /\ (forall a, In a (updatedTiles res) ->
             exists s,
               In s row224 /\ id s = id a
               /\ ((value a = value s /\ merged a = merged s)
                   \/ (value a = 2 * value s /\ merged a = Some true)))
       /\ (forall a s, In a (updatedTiles res) -> In s row224 ->
             id s = id a -> merged s = Some true -> merged a = Some true).
Proof.
  split; [reflexivity|]. apply (move_merged_flag Left row224). reflexivity.
Defined.

(** ** The four moves and the row engine *)

Lemma find_map {A B} (p : B -> bool) (f : A -> B) l :
  find p (map f l) = option_map f (find (fun a => p (f a)) l).
Proof.
  induction l as [|a l IH]; [reflexivity|]. cbn [map find].
  destruct (p (f a)); [reflexivity|exact IH].
Qed.

Lemma find_ext {A} (p q : A -> bool) l :
  (forall a, p a = q a) -> find p l = find q l.
Proof.
  intros H. induction l as [|a l IH]; [reflexivity|]. cbn [find].
  rewrite H. destruct (q a); [reflexivity|exact IH].
Qed.

Lemma cell_mirror tiles r c :
  onBoard r c ->
  cell (tilesToGrid (map mirror tiles) GRID_SIZE) r c
  = cell (tilesToGrid tiles GRID_SIZE) r (GRID_SIZE - 1 - c).
Proof.
  intros [Hr Hc]. rewrite !cell_last by (unfold GRID_SIZE in *; lia).
  rewrite <- map_rev, find_map.
  rewrite (find_ext _ (fun t => (row t =? r) && (col t =? GRID_SIZE - 1 - c))).
  - destruct (find _ (rev tiles)); reflexivity.
  - intros t. unfold mirror. cbn [setCol row col]. f_equal.
    destruct (Z.eqb_spec (GRID_SIZE - 1 - col t) c),
      (Z.eqb_spec (col t) (GRID_SIZE - 1 - c)); auto; lia.
Qed.

Lemma cell_transpose tiles r c :
  onBoard r c ->
  cell (tilesToGrid (map transpose tiles) GRID_SIZE) r c
  = cell (tilesToGrid tiles GRID_SIZE) c r.
Proof.
  intros [Hr Hc]. rewrite !cell_last by assumption.
  rewrite <- map_rev, find_map.
  rewrite (find_ext _ (fun t => (row t =? c) && (col t =? r))).
  - destruct (find _ (rev tiles)); reflexivity.
  - intros t. unfold transpose. cbn [row col]. apply andb_comm.
Qed.

Lemma mirrorGrid_shaped G :
  wellShaped (Z.to_nat GRID_SIZE) G ->
  wellShaped (Z.to_nat GRID_SIZE) (mirrorGrid G).
Proof.
  intros [H1 H2]. unfold mirrorGrid. split; [now rewrite length_map|].
  intros r Hr. apply in_map_iff in Hr as (x & <- & Hx).
  rewrite length_rev. now apply H2.
Qed.

Lemma transposeGrid_shaped G :
  wellShaped (Z.to_nat GRID_SIZE) (transposeGrid G).
Proof.
  unfold transposeGrid. split; [reflexivity|].
  intros r Hr. apply in_map_iff in Hr as (x & <- & Hx). reflexivity.
Qed.

Lemma cell_mirrorGrid G r c :
  wellShaped (Z.to_nat GRID_SIZE) G -> onBoard r c ->
  cell (mirrorGrid G) r c = cell G r (GRID_SIZE - 1 - c).
Proof.
  intros Hs [Hr Hc]. unfold cell, mirrorGrid.
  assert (Hi : (Z.to_nat r < Z.to_nat GRID_SIZE)%nat) by lia.
  assert (Hl := nth_shaped _ G _ Hs Hi).
  change (@nil Z) with (rev (@nil Z)) at 1. rewrite map_nth.
  rewrite rev_nth by (rewrite Hl; lia). rewrite Hl. f_equal.
  unfold GRID_SIZE in *. lia.
Qed.

Lemma cell_transposeGrid G r c :
  onBoard r c -> cell (transposeGrid G) r c = cell G c r.
Proof.
  intros [Hr Hc]. unfold GRID_SIZE in *.
  assert (Er : r = 0 \/ r = 1 \/ r = 2 \/ r = 3) by lia.
  assert (Ec : c = 0 \/ c = 1 \/ c = 2 \/ c = 3) by lia.
  destruct Er as [->|[->|[->| ->]]], Ec as [->|[->|[->| ->]]]; reflexivity.
Qed.

Lemma mirror_projection tiles :
  tilesToGrid (map mirror tiles) GRID_SIZE
  = mirrorGrid (tilesToGrid tiles GRID_SIZE).
Proof.
  apply grid_ext.
  - apply tilesToGrid_shaped.
  - apply mirrorGrid_shaped, tilesToGrid_shaped.
  - intros r c Hb. rewrite cell_mirror by assumption.
    now rewrite cell_mirrorGrid by (try apply tilesToGrid_shaped; assumption).
Qed.

Lemma transpose_projection tiles :
  tilesToGrid (map transpose tiles) GRID_SIZE
  = transposeGrid (tilesToGrid tiles GRID_SIZE).
Proof.
  apply grid_ext.
  - apply tilesToGrid_shaped.
  - apply transposeGrid_shaped.
  - intros r c Hb. rewrite cell_transpose by assumption.
    now rewrite cell_transposeGrid.
Qed.

Lemma moveRowRight_fst r : fst (moveRowRight r) = rev (fst (moveRowLeft (rev r))).
Proof. unfold moveRowRight. now destruct (moveRowLeft (rev r)). Qed.

Lemma moveRowRight_snd r : snd (moveRowRight r) = snd (moveRowLeft (rev r)).
Proof. unfold moveRowRight. now destruct (moveRowLeft (rev r)). Qed.

Lemma moveRight_rows tiles :
  wellFormed tiles = true ->
  tilesToGrid (movedTiles rightAxis tiles) GRID_SIZE
  = map (fun r => fst (moveRowRight r)) (tilesToGrid tiles GRID_SIZE)
  /\ movedScore rightAxis tiles
     = sumZ (map (fun r => snd (moveRowRight r)) (tilesToGrid tiles GRID_SIZE)).
Proof.
  intros Hwf. assert (Hwf' := mirror_wellFormed tiles Hwf).
  destruct (mirror_account (map mirror tiles)) as (E1 & E2 & _).
  rewrite mirror_mirror in E1, E2.
  destruct (moveLeft_rows (map mirror tiles) Hwf') as [R1 R2].
  rewrite E1, E2, mirror_projection, R1, R2, mirror_projection.
  unfold mirrorGrid. rewrite !map_map. split.
  - apply map_ext. intros r. now rewrite moveRowRight_fst.
  - f_equal. apply map_ext. intros r. now rewrite moveRowRight_snd.
Qed.

Lemma transpose_account_right tiles :
  movedTiles downAxis (map transpose tiles)
  = map transpose (movedTiles rightAxis tiles)
  /\ movedScore downAxis (map transpose tiles) = movedScore rightAxis tiles
  /\ movedFlag downAxis (map transpose tiles) = movedFlag rightAxis tiles.
Proof.
  split; [|split];
    [apply movedTiles_phi|apply movedScore_phi|apply movedFlag_phi];
    reflexivity.
Qed.

Lemma moveUp_rows tiles :
  wellFormed tiles = true ->
  tilesToGrid (movedTiles upAxis tiles) GRID_SIZE
  = transposeGrid
      (map (fun r => fst (moveRowLeft r))
         (transposeGrid (tilesToGrid tiles GRID_SIZE)))
  /\ movedScore upAxis tiles
     = sumZ (map (fun r => snd (moveRowLeft r))
               (transposeGrid (tilesToGrid tiles GRID_SIZE))).
Proof.
  intros Hwf. assert (Hwf' := transpose_wellFormed tiles Hwf).
  destruct (transpose_account (map transpose tiles)) as (E1 & E2 & _).
  rewrite transpose_transpose in E1, E2.
  destruct (moveLeft_rows (map transpose tiles) Hwf') as [R1 R2].
  now rewrite E1, E2, transpose_projection, R1, R2, transpose_projection.
Qed.

Lemma moveDown_rows tiles :
  wellFormed tiles = true ->
  tilesToGrid (movedTiles downAxis tiles) GRID_SIZE
  = transposeGrid
      (map (fun r => fst (moveRowRight r))
         (transposeGrid (tilesToGrid tiles GRID_SIZE)))
  /\ movedScore downAxis tiles
     = sumZ (map (fun r => snd (moveRowRight r))
               (transposeGrid (tilesToGrid tiles GRID_SIZE))).
Proof.
  intros Hwf. assert (Hwf' := transpose_wellFormed tiles Hwf).
  destruct (transpose_account_right (map transpose tiles)) as (E1 & E2 & _).
  rewrite transpose_transpose in E1, E2.
  destruct (moveRight_rows (map transpose tiles) Hwf') as [R1 R2].
  now rewrite E1, E2, transpose_projection, R1, R2, transpose_projection.
Qed.

Lemma right_scores_bounded tiles s :
  wellFormed tiles = true ->
  In s (map (fun r => snd (moveRowRight r)) (tilesToGrid tiles GRID_SIZE)) ->
  0 <= s <= movedScore rightAxis tiles.
Proof.
  intros Hwf Hin. assert (Hwf' := mirror_wellFormed tiles Hwf).
  destruct (mirror_account (map mirror tiles)) as (_ & E2 & _).
  rewrite mirror_mirror in E2. rewrite E2.
  apply row_scores_bounded; [exact Hwf'|].
  rewrite mirror_projection. unfold mirrorGrid. rewrite map_map.
  erewrite map_ext; [exact Hin|].
  intros r. cbn beta. now rewrite moveRowRight_snd.
Qed.

Lemma up_scores_bounded tiles s :
  wellFormed tiles = true ->
  In s (map (fun r => snd (moveRowLeft r))
          (transposeGrid (tilesToGrid tiles GRID_SIZE))) ->
  0 <= s <= movedScore upAxis tiles.
Proof.
  intros Hwf Hin. assert (Hwf' := transpose_wellFormed tiles Hwf).
  destruct (transpose_account (map transpose tiles)) as (_ & E2 & _).
  rewrite transpose_transpose in E2. rewrite E2.
  apply row_scores_bounded; [exact Hwf'|].
  now rewrite transpose_projection.
Qed.

Lemma down_scores_bounded tiles s :
  wellFormed tiles = true ->
  In s (map (fun r => snd (moveRowRight r))
          (transposeGrid (tilesToGrid tiles GRID_SIZE))) ->
  0 <= s <= movedScore downAxis tiles.
Proof.
  intros Hwf Hin. assert (Hwf' := transpose_wellFormed tiles Hwf).
  destruct (transpose_account_right (map transpose tiles)) as (_ & E2 & _).
  rewrite transpose_transpose in E2. rewrite E2.
  apply right_scores_bounded; [exact Hwf'|].
  now rewrite transpose_projection.
Qed.

(** X20.  The other three moves and the row engine.  For every well-formed
    tile list whose values sum to at most 2^53 - 1, the range in which the
    arithmetic of the code is exact: the dense projection of what
    [moveRight] returns is the projection of the input with each row
    reversed, moved by [moveRowLeft] and reversed back; that of [moveUp] is
    the same with the columns in the place of the rows (transpose, move
    each row left, transpose back); that of [moveDown] combines the two.
    In each case [scoreIncrease] is the sum of the score increases the row
    engine reports for the lines, each of them between 0 and
    [scoreIncrease], which is at most the sum of the input values. *)
Theorem moves_by_rows tiles :
  wellFormed tiles = true ->
  totalValue tiles <= MAX_SAFE_INTEGER ->
  (exists res,
     moveRight tiles = Ok res
     /\ tilesToGrid (updatedTiles res) GRID_SIZE
        = map (fun r => fst (moveRowRight r)) (tilesToGrid tiles GRID_SIZE)
     /\ scoreIncrease res
        = sumZ (map (fun r => snd (moveRowRight r))
                  (tilesToGrid tiles GRID_SIZE))
     /\ (forall s,
           In s (map (fun r => snd (moveRowRight r))
                   (tilesToGrid tiles GRID_SIZE)) ->
           0 <= s <= scoreIncrease res)
     /\ scoreIncrease res <= totalValue tiles)
  /\ (exists res,
        moveUp tiles = Ok res
        /\ tilesToGrid (updatedTiles res) GRID_SIZE
           = transposeGrid
               (map (fun r => fst (moveRowLeft r))
                  (transposeGrid (tilesToGrid tiles GRID_SIZE)))
        /\ scoreIncrease res
           = sumZ (map (fun r => snd (moveRowLeft r))
                     (transposeGrid (tilesToGrid tiles GRID_SIZE)))
        /\ (forall s,
              In s (map (fun r => snd (moveRowLeft r))
                      (transposeGrid (tilesToGrid tiles GRID_SIZE))) ->
              0 <= s <= scoreIncrease res)
        /\ scoreIncrease res <= totalValue tiles)
  /\ (exists res,
        moveDown tiles = Ok res
        /\ tilesToGrid (updatedTiles res) GRID_SIZE
           = transposeGrid
               (map (fun r => fst (moveRowRight r))
                  (transposeGrid (tilesToGrid tiles GRID_SIZE)))
        /\ scoreIncrease res
           = sumZ (map (fun r => snd (moveRowRight r))
                     (transposeGrid (tilesToGrid tiles GRID_SIZE)))
        /\ (forall s,
              In s (map (fun r => snd (moveRowRight r))
                      (transposeGrid (tilesToGrid tiles GRID_SIZE))) ->
              0 <= s <= scoreIncrease res)
        /\ scoreIncrease res <= totalValue tiles).
Proof.
  intros Hwf Hb. split; [|split]; eexists.
  - split; [apply (applyMove_spec Right tiles Hwf)|].
    cbn [updatedTiles scoreIncrease axisOf].
    destruct (moveRight_rows tiles Hwf) as [R1 R2].
    destruct (move_within_bound Right tiles Hwf Hb) as (_ & _ & Hsc).
    cbn [axisOf] in Hsc.
    split; [exact R1|]. split; [exact R2|]. split; [|lia].
    intros s Hs. now apply right_scores_bounded.
  - split; [apply (applyMove_spec Up tiles Hwf)|].
    cbn [updatedTiles scoreIncrease axisOf].
    destruct (moveUp_rows tiles Hwf) as [R1 R2].
    destruct (move_within_bound Up tiles Hwf Hb) as (_ & _ & Hsc).
    cbn [axisOf] in Hsc.
    split; [exact R1|]. split; [exact R2|]. split; [|lia].
    intros s Hs. now apply up_scores_bounded.
  - split; [apply (applyMove_spec Down tiles Hwf)|].
    cbn [updatedTiles scoreIncrease axisOf].
    destruct (moveDown_rows tiles Hwf) as [R1 R2].
    destruct (move_within_bound Down tiles Hwf Hb) as (_ & _ & Hsc).
    cbn [axisOf] in Hsc.
    split; [exact R1|]. split; [exact R2|]. split; [|lia].
    intros s Hs. now apply down_scores_bounded.
Qed.

Lemma moves_by_rows_witness :
  wellFormed sampleBoard = true
  /\ totalValue sampleBoard <= MAX_SAFE_INTEGER
  /\ exists res,
       moveRight sampleBoard = Ok res
       /\ tilesToGrid (updatedTiles res) GRID_SIZE
          = map (fun r => fst (moveRowRight r))
              (tilesToGrid sampleBoard GRID_SIZE)
       /\ scoreIncrease res
          = sumZ (map (fun r => snd (moveRowRight r))
                    (tilesToGrid sampleBoard GRID_SIZE))
       /\ (forall s,
             In s (map (fun r => snd (moveRowRight r))
                     (tilesToGrid sampleBoard GRID_SIZE)) ->
             0 <= s <= scoreIncrease res)
       /\ scoreIncrease res <= totalValue sampleBoard.
Proof.
  assert (Hb : totalValue sampleBoard <= MAX_SAFE_INTEGER)
    by (vm_compute; discriminate).
  split; [reflexivity|]. split; [exact Hb|].
  apply (moves_by_rows sampleBoard); [reflexivity|exact Hb].
Defined.

(** ** The grid derivation of the move handler on any tile list *)

Lemma deriveTile_raises g t :
  length g = 4%nat ->
  App.deriveTile g t = TypeError <-> ~ (0 <= row t < 4).
Proof.
  intros Hl. unfold App.deriveTile.
  destruct (Z.ltb_spec (row t) 0) as [H|H]; [split; [lia|reflexivity]|].
  destruct (nth_error g (Z.to_nat (row t))) as [line|] eqn:E.
  - assert (Hlt : (Z.to_nat (row t) < length g)%nat)
      by (apply nth_error_Some; congruence).
    destruct (col t <? 0); split; try discriminate; lia.
  - apply nth_error_None in E. split; [lia|reflexivity].
Qed.

Lemma deriveTile_rows g t g' :
  length g = 4%nat -> App.deriveTile g t = Ok g' -> length g' = 4%nat.
Proof.
  intros Hl. unfold App.deriveTile.
  destruct (row t <? 0); [discriminate|].
  destruct (nth_error g (Z.to_nat (row t))) as [line|] eqn:E; [|discriminate].
  assert (Hlt : (Z.to_nat (row t) < length g)%nat)
    by (apply nth_error_Some; congruence).
  destruct (col t <? 0); intros [= <-]; [exact Hl|].
  now rewrite arraySet_length.
Qed.

Lemma derive_raises ts : forall g,
  length g = 4%nat ->
  foldM App.deriveTile ts g = TypeError <->
  exists t, In t ts /\ ~ (0 <= row t < 4).
Proof.
  induction ts as [|t ts IH]; intros g Hl.
  - cbn [foldM]. split; [discriminate|intros (t & [] & _)].
  - cbn [foldM]. destruct (App.deriveTile g t) as [g'|] eqn:E; cbn [bind].
    + rewrite (IH g' (deriveTile_rows g t g' Hl E)). split.
      * intros (u & Hu & H). exists u. split; [now right|exact H].
      * intros (u & [Eu|Hu] & H); [|now exists u].
        exfalso. subst u. apply (deriveTile_raises g t Hl) in H. congruence.
    + split; [|reflexivity]. intros _. exists t. split; [now left|].
      now apply (deriveTile_raises g t Hl).
Qed.

(** X21.  The grid derivation written out in the move handler has no guard
    where [tilesToGrid] has one.  On any tile list it raises exactly when
    some tile's row is outside 0..3 (a tile that [tilesToGrid] would
    ignore); and when every tile is inside the board it returns exactly the
    dense projection [tilesToGrid] computes. *)
Theorem derivedGrid_guard ts :
  (foldM App.deriveTile ts App.zeroGrid = TypeError <->
   exists t, In t ts /\ ~ (0 <= row t < 4))
  /\ ((forall t, In t ts -> inGrid GRID_SIZE t = true) ->
      foldM App.deriveTile ts App.zeroGrid
      = Ok (dense (tilesToGrid ts GRID_SIZE))).
Proof.
  split.
  - apply derive_raises. reflexivity.
  - apply derivedGrid_projection.
Qed.
